(** * Mergeable heaps of norrilsk/Alg: [Bheap.hpp] and [FibHeap.h]

    A shallow embedding of the two C++ class templates [alg::Bheap<T>] and
    [alg::FibHeap<T>] and of their node classes.

    - A [std::shared_ptr<Node>] is an optional address ([None] is [nullptr]);
      the nodes live in a memory [addr -> node] shared by every heap object,
      with a break pointer for [std::allocate_shared].
    - The key type [T] is instantiated with [Z] and [operator<] with [Z.ltb].
    - [size_t] and [unsigned long long] are 64-bit: [Z] with the wrap-around
      written out ([incr64], [decr64], [add64]).
    - A method is a function in the monad [M St]: it reads and writes the
      state [St] (node memory and the object [*this]) and ends in a value, in a
      thrown [std::out_of_range], in undefined behaviour (a null pointer
      dereferenced, a vector read out of range) or with its step budget spent.
      Every [while], [do ... while] and recursive call of the source draws on
      that budget, so that a loop which never ends in the source never ends
      here, whatever the budget. *)

From Stdlib Require Import ZArith String Lia.
From stdpp Require Import base list sorting sets.

Open Scope Z_scope.

(** ** Pointers and machine integers *)

Definition addr := nat.
Definition ptr := option addr.

Definition ptr_eqb (a b : ptr) : bool :=
  match a, b with
  | None, None => true
  | Some x, Some y => Nat.eqb x y
  | _, _ => false
  end.

Definition is_null (a : ptr) : bool :=
  match a with None => true | Some _ => false end.

Definition two64 : Z := 2 ^ 64.
Definition incr64 (n : Z) : Z := (n + 1) mod two64.
Definition decr64 (n : Z) : Z := (n - 1) mod two64.
Definition add64 (n m : Z) : Z := (n + m) mod two64.

(** ** Outcomes and the state monad *)

Inductive result (St A : Type) : Type :=
| Ok (a : A) (s : St)            (* normal return *)
| Throw (what : string) (s : St) (* std::out_of_range(what) leaves the method *)
| Fault                          (* undefined behaviour *)
| OutOfFuel.                     (* the step budget is spent *)
Arguments Ok {St A} a s.
Arguments Throw {St A} what s.
Arguments Fault {St A}.
Arguments OutOfFuel {St A}.

Definition M (St A : Type) : Type := St -> result St A.

Definition ret {St A} (a : A) : M St A := fun s => Ok a s.

Definition bind {St A B} (m : M St A) (k : A -> M St B) : M St B :=
  fun s =>
    match m s with
    | Ok a s' => k a s'
    | Throw w s' => Throw w s'
    | Fault => Fault
    | OutOfFuel => OutOfFuel
    end.

Definition throw {St A} (what : string) : M St A := fun s => Throw what s.
Definition fault {St A} : M St A := fun _ => Fault.
Definition gets {St A} (f : St -> A) : M St A := fun s => Ok (f s) s.
Definition modify {St} (f : St -> St) : M St unit := fun s => Ok tt (f s).

Notation "x <- c1 ;; c2" := (bind c1 (fun x => c2))
  (at level 100, c1 at next level, right associativity).
Notation "c1 ;; c2" := (bind c1 (fun _ => c2))
  (at level 100, right associativity).

(** A loop of the source: [body] runs on the loop's local variables and says
    whether the loop goes round again ([inl], with the new locals) or is left
    ([inr], with its result). *)
Fixpoint loop {St A B} (fuel : nat) (body : A -> M St (A + B)) (a : A) : M St B :=
  match fuel with
  | O => fun _ => OutOfFuel
  | S n => r <- body a ;;
           match r with
           | inl a' => loop n body a'
           | inr b => ret b
           end
  end.

(** A range-based [for] over a vector's elements. *)
Fixpoint for_each {St A} (l : list A) (body : A -> M St unit) : M St unit :=
  match l with
  | [] => ret tt
  | x :: l' => body x ;; for_each l' body
  end.

(** A [for] over a vector that threads the loop's other locals. *)
Fixpoint for_acc {St A B} (l : list A) (body : A -> B -> M St B) (b : B) : M St B :=
  match l with
  | [] => ret b
  | x :: l' => b' <- body x b ;; for_acc l' body b'
  end.

(** ** Callers *)

(** A call of a caller that holds one heap and the handles [insert] has
    returned to it, in the order of the calls: [GetKey i] reads the key through
    the handle of the call [i] of [insert], counted from 0. *)
Inductive call : Type :=
  | Insert (d : Z)
  | Pop
  | GetMin
  | Size
  | GetKey (i : nat).

(** The calls of a caller of the Fibonacci heap that also lowers keys:
    [DDecreaseKey i k] is [decrease_key] through the handle of the call [i]
    of [insert]. *)
Inductive dcall : Type :=
  | DInsert (d : Z)
  | DPop
  | DGetMin
  | DSize
  | DGetKey (i : nat)
  | DDecreaseKey (i : nat) (k : Z).

(** ** Binomial heap: [Bheap.hpp] *)

Module Bheap.

(** [class BheapNode]: [degree] starts at 0, the pointers at [nullptr], and
    [key] is value-initialised by [std::allocate_shared]. *)
Record BheapNode := mkNode {
  p : ptr;
  child : ptr;
  sibling : ptr;
  degree : Z;
  key : Z
}.

Definition fresh_node : BheapNode :=
  {| p := None; child := None; sibling := None; degree := 0; key := 0 |}.

Definition set_p (v : ptr) (n : BheapNode) : BheapNode :=
  {| p := v; child := child n; sibling := sibling n; degree := degree n; key := key n |}.
Definition set_child (v : ptr) (n : BheapNode) : BheapNode :=
  {| p := p n; child := v; sibling := sibling n; degree := degree n; key := key n |}.
Definition set_sibling (v : ptr) (n : BheapNode) : BheapNode :=
  {| p := p n; child := child n; sibling := v; degree := degree n; key := key n |}.
Definition set_degree (v : Z) (n : BheapNode) : BheapNode :=
  {| p := p n; child := child n; sibling := sibling n; degree := v; key := key n |}.
Definition set_key (v : Z) (n : BheapNode) : BheapNode :=
  {| p := p n; child := child n; sibling := sibling n; degree := degree n; key := v |}.

(** The node memory and the data members [head] and [_size] of [*this]. *)
Record state := mkState {
  mem : addr -> BheapNode;
  brk : addr;
  head : ptr;
  _size : Z
}.

Definition init : state :=
  {| mem := fun _ => fresh_node; brk := O; head := None; _size := 0 |}.

Definition upd (a : addr) (f : BheapNode -> BheapNode) (m : addr -> BheapNode)
  : addr -> BheapNode :=
  fun b => if Nat.eqb b a then f (m a) else m b.

Definition with_mem (f : (addr -> BheapNode) -> addr -> BheapNode) (s : state) : state :=
  {| mem := f (mem s); brk := brk s; head := head s; _size := _size s |}.
Definition set_head (v : ptr) (s : state) : state :=
  {| mem := mem s; brk := brk s; head := v; _size := _size s |}.
Definition set_size (v : Z) (s : state) : state :=
  {| mem := mem s; brk := brk s; head := head s; _size := v |}.

(** [x->f] as an rvalue. *)
Definition load {A} (f : BheapNode -> A) (x : ptr) : M state A :=
  match x with
  | None => fault
  | Some a => gets (fun s => f (mem s a))
  end.

(** [x->f = v]. *)
Definition store (x : ptr) (f : BheapNode -> BheapNode) : M state unit :=
  match x with
  | None => fault
  | Some a => modify (with_mem (upd a f))
  end.

(** [std::allocate_shared<BheapNode<T>>(alloc)]. *)
Definition alloc : M state ptr :=
  fun s =>
    Ok (Some (brk s))
       {| mem := upd (brk s) (fun _ => fresh_node) (mem s); brk := S (brk s);
          head := head s; _size := _size s |}.

(** [x->compare_less(r)]: [key < r->key]. *)
Definition compare_less (x r : ptr) : M state bool :=
  kx <- load key x ;;
  kr <- load key r ;;
  ret (kx <? kr).

(** [link_nodes(y, z)]: [y] becomes the leftmost child of [z]. *)
Definition link_nodes (y z : ptr) : M state unit :=
  store y (set_p z) ;;
  zc <- load child z ;;
  store y (set_sibling zc) ;;
  store z (set_child y) ;;
  zd <- load degree z ;;
  store z (set_degree (incr64 zd)).

(** The inner [while] of [merge_heads]: find the place for insertion. *)
Definition find_place (fuel : nat) (inserted insert_point : ptr) : M state ptr :=
  loop fuel
    (fun insert_point =>
       sib <- load sibling insert_point ;;
       if is_null sib then ret (inr insert_point)
       else
         ds <- load degree sib ;;
         di <- load degree inserted ;;
         if ds <? di then ret (inl sib) else ret (inr insert_point))
    insert_point.

(** [merge_heads(h1, h2)]; the source compares [head->degree], the data
    member, with [h2->degree]. *)
Definition merge_step (fuel : nat) (c : ptr * ptr) : M state (ptr * ptr + unit) :=
  let '(insert_point, inserted) := c in
  if is_null inserted then ret (inr tt)
  else
    insert_point <- find_place fuel inserted insert_point ;;
    tmp <- load sibling insert_point ;;
    store insert_point (set_sibling inserted) ;;
    next_inserted <- load sibling inserted ;;
    store inserted (set_sibling tmp) ;;
    ret (inl (insert_point, next_inserted)).

Definition merge_heads (fuel : nat) (h1 h2 : ptr) : M state ptr :=
  hd <- gets head ;;
  dh <- load degree hd ;;
  d2 <- load degree h2 ;;
  let '(new_head, inserted) := if dh >? d2 then (h2, h1) else (h1, h2) in
  loop fuel (merge_step fuel) (new_head, inserted) ;;
  ret new_head.

(** The locals of the scan in [add_heap_head]. *)
Record scan := mkScan {
  new_head : ptr;
  prev_x : ptr;
  x : ptr;
  next_x : ptr
}.

Definition scan_step (c : scan) : M state (scan + ptr) :=
  if is_null (next_x c) then ret (inr (new_head c))
  else
    dx <- load degree (x c) ;;
    dn <- load degree (next_x c) ;;
    nn <- load sibling (next_x c) ;;
    advance <- (if negb (dx =? dn) then ret true
                else if is_null nn then ret false
                else dnn <- load degree nn ;; ret (dnn =? dx)) ;;
    c' <- (if advance then
             (* case 1 and 2 *)
             ret {| new_head := new_head c; prev_x := x c; x := next_x c;
                    next_x := next_x c |}
           else
             lt <- compare_less (x c) (next_x c) ;;
             if lt then
               (* case 3 *)
               store (x c) (set_sibling nn) ;;
               link_nodes (next_x c) (x c) ;;
               ret c
             else
               (* case 4 *)
               nh <- (if is_null (prev_x c) then ret (next_x c)
                      else store (prev_x c) (set_sibling (next_x c)) ;;
                           ret (new_head c)) ;;
               link_nodes (x c) (next_x c) ;;
               ret {| new_head := nh; prev_x := prev_x c; x := next_x c;
                      next_x := next_x c |}) ;;
    nx <- load sibling (x c') ;;
    ret (inl {| new_head := new_head c'; prev_x := prev_x c'; x := x c';
                next_x := nx |}).

(** [add_heap_head(h2head)]. *)
Definition add_heap_head (fuel : nat) (h2head : ptr) : M state unit :=
  if is_null h2head then ret tt
  else
    hd <- gets head ;;
    if is_null hd then modify (set_head h2head)
    else
      nh <- merge_heads fuel hd h2head ;;
      nx <- load sibling nh ;;
      nh' <- loop fuel scan_step
               {| new_head := nh; prev_x := None; x := nh; next_x := nx |} ;;
      modify (set_head nh').

(** What a function that returns [NodePtr &] hands to its caller: a reference
    to a pointer that is alive, holding [v], or to a local of the function,
    which is destroyed when the function returns. *)
Inductive ref : Type :=
  | Live (v : ptr)
  | Dangling.

(** The pointer read through a reference; through a dangling one this is
    undefined behaviour. *)
Definition read (r : ref) : M state ptr :=
  match r with
  | Live v => ret v
  | Dangling => fault
  end.

(** [get_min_node()]: the scan for the root with the least key, the leftmost
    of them, into the local [min].  [return min] binds the [NodePtr &] that
    the function returns to this local: the caller gets a dangling
    reference. *)
Definition get_min_node (fuel : nat) : M state ref :=
  hd <- gets head ;;
  x0 <- load sibling hd ;;
  loop fuel
    (fun '(x, min) =>
       if is_null x then ret (inr min)
       else
         lt <- compare_less x min ;;
         nx <- load sibling x ;;
         ret (inl (nx, if lt then x else min)))
    (x0, hd) ;;
  ret Dangling.

Definition size : M state Z := gets _size.

(** [add_heap(H2)]: only [H2.head] is read; neither [_size] is written. *)
Definition add_heap (fuel : nat) (H2head : ptr) : M state unit :=
  add_heap_head fuel H2head.

(** [get_min()]: [get_min_node()->get_key()]. *)
Definition get_min (fuel : nat) : M state Z :=
  r <- get_min_node fuel ;;
  m <- read r ;;
  load key m.

Definition insert (fuel : nat) (d : Z) : M state ptr :=
  x <- alloc ;;
  store x (set_key d) ;;
  add_heap_head fuel x ;;
  sz <- gets _size ;;
  modify (set_size (incr64 sz)) ;;
  ret x.

(** The locals of the minimum search in [pop]. *)
Record search := mkSearch {
  sx : ptr;
  sprev_x : ptr;
  smin : ptr;
  sprev_min : ptr
}.

(** The first [while] of [pop]: the leftmost root with the least key, and
    the root before it. *)
Definition search_step (c : search) : M state (search + search) :=
  if is_null (sx c) then ret (inr c)
  else
    lt <- compare_less (sx c) (smin c) ;;
    nx <- load sibling (sx c) ;;
    ret (inl {| sx := nx; sprev_x := sx c;
                smin := if lt then sx c else smin c;
                sprev_min := if lt then sprev_x c else sprev_min c |}).

(** The second [while] of [pop]: the children of the popped root lose their
    parent link. *)
Definition orphan_step (x : ptr) : M state (ptr + unit) :=
  if is_null x then ret (inr tt)
  else
    store x (set_p None) ;;
    nx <- load sibling x ;;
    ret (inl nx).

Definition pop (fuel : nat) : M state Z :=
  sz <- gets _size ;;
  if sz <? 1 then throw "Pop from empty heap"
  else
    hd <- gets head ;;
    x0 <- load sibling hd ;;
    r <- loop fuel search_step
           {| sx := x0; sprev_x := hd; smin := hd; sprev_min := hd |} ;;
    let min := smin r in
    ms <- load sibling min ;;
    (if ptr_eqb hd min then modify (set_head ms)
     else store (sprev_min r) (set_sibling ms)) ;;
    add_head <- load child min ;;
    loop fuel orphan_step add_head ;;
    add_heap_head fuel add_head ;;
    sz <- gets _size ;;
    modify (set_size (decr64 sz)) ;;
    k <- load key min ;;
    ret k.

(** [decrease_key(x, new_key)].  [x] is the caller's handle, passed by
    reference: the method returns the pointer it leaves in it.  In the source
    [y] is a reference to [x], and [z] a reference to the data member [p] of
    the node [x] points to on entry ([x0] below): reading [z] reads that
    member, [y = z] writes the handle, and [z = y->p] writes that member. *)
Definition decrease_key (fuel : nat) (x : ptr) (new_key : Z) : M state ptr :=
  kx <- load key x ;;
  if kx <? new_key then throw "Bheap key can't be increased"
  else
    store x (set_key new_key) ;;
    let x0 := x in
    loop fuel
      (fun y =>
         z <- load p x0 ;;
         if is_null z then ret (inr y)
         else
           lt <- compare_less y z ;;
           if negb lt then ret (inr y)
           else
             ky <- load key y ;;
             kz <- load key z ;;
             store y (set_key kz) ;;
             store z (set_key ky) ;;
             let y' := z in
             yp <- load p y' ;;
             store x0 (set_p yp) ;;
             ret (inl y'))
      x.

(** *** Callers

    What a caller of the class writes: a run of [insert]s that keeps the
    handles, a run of [pop]s, and the loop
    [while (h.size() != 0) out.push_back(h.pop());]. *)

Fixpoint insert_all (fuel : nat) (keys : list Z) : M state (list ptr) :=
  match keys with
  | [] => ret []
  | k :: keys' =>
      h <- insert fuel k ;;
      hs <- insert_all fuel keys' ;;
      ret (h :: hs)
  end.

Fixpoint pop_n (fuel : nat) (n : nat) : M state (list Z) :=
  match n with
  | O => ret []
  | S n' =>
      k <- pop fuel ;;
      ks <- pop_n fuel n' ;;
      ret (k :: ks)
  end.

Definition drain_step (fuel : nat) (out : list Z) : M state (list Z + list Z) :=
  sz <- size ;;
  if sz =? 0 then ret (inr out)
  else k <- pop fuel ;; ret (inl (out ++ [k])).

Definition drain (fuel : nat) : M state (list Z) :=
  loop fuel (drain_step fuel) [].

(** Sorting with the heap: [insert] every key, then [pop] until [size()]
    is 0. *)
Definition heapsort (fuel : nat) (keys : list Z) : M state (list Z) :=
  insert_all fuel keys ;; drain fuel.

(** [BheapNode::get_key()], called through the handle [x]. *)
Definition get_key (x : ptr) : M state Z := load key x.

(** The calls [cs], one after the other.  [hs] are the handles held; the
    values that [pop], [get_min], [size] and [get_key] return are collected. *)
Fixpoint run (fuel : nat) (cs : list call) (hs : list ptr) : M state (list Z) :=
  match cs with
  | [] => ret []
  | Insert d :: cs' => h <- insert fuel d ;; run fuel cs' (hs ++ [h])
  | Pop :: cs' => k <- pop fuel ;; ks <- run fuel cs' hs ;; ret (k :: ks)
  | GetMin :: cs' => k <- get_min fuel ;; ks <- run fuel cs' hs ;; ret (k :: ks)
  | Size :: cs' => k <- size ;; ks <- run fuel cs' hs ;; ret (k :: ks)
  | GetKey i :: cs' =>
      k <- get_key (nth i hs None) ;; ks <- run fuel cs' hs ;; ret (k :: ks)
  end.

(** A second heap object [H2] over the same node memory: [on_H2 m] runs the
    method [m] with [H2] as [*this] and puts the caller's heap back. *)
Record two := mkTwo {
  st : state;          (* the node memory and the first heap *)
  head2 : ptr;         (* H2.head *)
  size2 : Z            (* H2._size *)
}.

Definition start2 : two := {| st := init; head2 := None; size2 := 0 |}.

Definition on_H1 {A} (m : M state A) : M two A :=
  fun w =>
    match m (st w) with
    | Ok a s => Ok a {| st := s; head2 := head2 w; size2 := size2 w |}
    | Throw e s => Throw e {| st := s; head2 := head2 w; size2 := size2 w |}
    | Fault => Fault
    | OutOfFuel => OutOfFuel
    end.

Definition swap_heaps (w : two) : two :=
  {| st := {| mem := mem (st w); brk := brk (st w);
              head := head2 w; _size := size2 w |};
     head2 := head (st w); size2 := _size (st w) |}.

Definition on_H2 {A} (m : M state A) : M two A :=
  fun w =>
    match on_H1 m (swap_heaps w) with
    | Ok a w' => Ok a (swap_heaps w')
    | Throw e w' => Throw e (swap_heaps w')
    | Fault => Fault
    | OutOfFuel => OutOfFuel
    end.

(** [H1.add_heap(H2)]. *)
Definition meld (fuel : nat) : M two unit :=
  h2 <- gets head2 ;;
  on_H1 (add_heap fuel h2).

(** *** Observations *)

(** The nodes allocated so far, by address. *)
Definition dump (s : state) : list BheapNode := map (mem s) (seq 0 (brk s)).

(** The addresses on the [sibling] chain from [x], at most [n] of them. *)
Fixpoint chain (n : nat) (m : addr -> BheapNode) (x : ptr) : list addr :=
  match n, x with
  | S n', Some a => a :: chain n' m (sibling (m a))
  | _, _ => []
  end.

(** The root list of the heap, as the degrees of its roots from [head] on. *)
Definition root_degrees (s : state) : list Z :=
  map (fun a => degree (mem s a)) (chain (brk s) (mem s) (head s)).

(** The children of the node at [a]: the chain from its [child] pointer. *)
Definition children (s : state) (a : addr) : list addr :=
  chain (brk s) (mem s) (child (mem s a)).

(** Heap order along the child links: no allocated node has a child with a
    smaller key. *)
Definition heap_ordered (s : state) : bool :=
  forallb
    (fun a => forallb (fun c => key (mem s a) <=? key (mem s c)) (children s a))
    (seq 0 (brk s)).

End Bheap.

(** ** Fibonacci heap: [FibHeap.h] *)

Module FibHeap.

(** [class FibHeapNode]. *)
Record FibHeapNode := mkNode {
  p : ptr;
  child : ptr;
  left : ptr;
  right : ptr;
  degree : Z;
  key : Z;
  mark : bool
}.

Definition fresh_node : FibHeapNode :=
  {| p := None; child := None; left := None; right := None;
     degree := 0; key := 0; mark := false |}.

Definition set_p (v : ptr) (n : FibHeapNode) : FibHeapNode :=
  {| p := v; child := child n; left := left n; right := right n;
     degree := degree n; key := key n; mark := mark n |}.
Definition set_child (v : ptr) (n : FibHeapNode) : FibHeapNode :=
  {| p := p n; child := v; left := left n; right := right n;
     degree := degree n; key := key n; mark := mark n |}.
Definition set_left (v : ptr) (n : FibHeapNode) : FibHeapNode :=
  {| p := p n; child := child n; left := v; right := right n;
     degree := degree n; key := key n; mark := mark n |}.
Definition set_right (v : ptr) (n : FibHeapNode) : FibHeapNode :=
  {| p := p n; child := child n; left := left n; right := v;
     degree := degree n; key := key n; mark := mark n |}.
Definition set_degree (v : Z) (n : FibHeapNode) : FibHeapNode :=
  {| p := p n; child := child n; left := left n; right := right n;
     degree := v; key := key n; mark := mark n |}.
Definition set_key (v : Z) (n : FibHeapNode) : FibHeapNode :=
  {| p := p n; child := child n; left := left n; right := right n;
     degree := degree n; key := v; mark := mark n |}.
Definition set_mark (v : bool) (n : FibHeapNode) : FibHeapNode :=
  {| p := p n; child := child n; left := left n; right := right n;
     degree := degree n; key := key n; mark := v |}.

(** The node memory and the data members [min] and [_size] of [*this]. *)
Record state := mkState {
  mem : addr -> FibHeapNode;
  brk : addr;
  min : ptr;
  _size : Z
}.

Definition init : state :=
  {| mem := fun _ => fresh_node; brk := O; min := None; _size := 0 |}.

Definition upd (a : addr) (f : FibHeapNode -> FibHeapNode) (m : addr -> FibHeapNode)
  : addr -> FibHeapNode :=
  fun b => if Nat.eqb b a then f (m a) else m b.

Definition with_mem (f : (addr -> FibHeapNode) -> addr -> FibHeapNode) (s : state) : state :=
  {| mem := f (mem s); brk := brk s; min := min s; _size := _size s |}.
Definition set_min (v : ptr) (s : state) : state :=
  {| mem := mem s; brk := brk s; min := v; _size := _size s |}.
Definition set_size (v : Z) (s : state) : state :=
  {| mem := mem s; brk := brk s; min := min s; _size := v |}.

Definition load {A} (f : FibHeapNode -> A) (x : ptr) : M state A :=
  match x with
  | None => fault
  | Some a => gets (fun s => f (mem s a))
  end.

Definition store (x : ptr) (f : FibHeapNode -> FibHeapNode) : M state unit :=
  match x with
  | None => fault
  | Some a => modify (with_mem (upd a f))
  end.

(** [std::allocate_shared<FibHeapNode<T>>(alloc)]. *)
Definition alloc : M state ptr :=
  fun s =>
    Ok (Some (brk s))
       {| mem := upd (brk s) (fun _ => fresh_node) (mem s); brk := S (brk s);
          min := min s; _size := _size s |}.

Definition compare_less (x r : ptr) : M state bool :=
  kx <- load key x ;;
  kr <- load key r ;;
  ret (kx <? kr).

(** [insert_node(x)]: splice [x] into the root ring to the left of [min]. *)
Definition insert_node (x : ptr) : M state unit :=
  m0 <- gets min ;;
  (if is_null m0 then modify (set_min x) else ret tt) ;;
  m <- gets min ;;
  l <- load left m ;;
  store l (set_right x) ;;
  store x (set_left l) ;;
  store m (set_left x) ;;
  store x (set_right m) ;;
  lt <- compare_less x m ;;
  if lt then modify (set_min x) else ret tt.

(** [fib_link(y, x)]: take [y] out of its ring and make it a child of [x]. *)
Definition fib_link (y x : ptr) : M state unit :=
  yr <- load right y ;;
  yl <- load left y ;;
  store yr (set_left yl) ;;
  yl <- load left y ;;
  yr <- load right y ;;
  store yl (set_right yr) ;;
  store y (set_left y) ;;
  store y (set_right y) ;;
  xc <- load child x ;;
  (if is_null xc then
     store x (set_child y) ;;
     store y (set_p x)
   else
     r <- load right xc ;;
     store xc (set_right y) ;;
     xc' <- load child x ;;
     store y (set_left xc') ;;
     store r (set_left y) ;;
     store y (set_right r) ;;
     store y (set_p x)) ;;
  xd <- load degree x ;;
  store x (set_degree (incr64 xd)) ;;
  store y (set_mark false).

(** [A[d]] on a [std::vector<NodePtr>]: out of range is undefined. *)
Definition vec_get {St} (A : list ptr) (d : Z) : M St ptr :=
  match A !! Z.to_nat d with
  | Some v => ret v
  | None => fault
  end.

Definition vec_set {St} (A : list ptr) (d : Z) (v : ptr) : M St (list ptr) :=
  if Nat.ltb (Z.to_nat d) (length A) then ret (<[Z.to_nat d := v]> A) else fault.

(** The locals of the first loop of [consolidate]. *)
Record census := mkCensus {
  cx : ptr;
  max_d : Z;
  num_trees : Z;
  orig_nodes : list ptr
}.

(** The [while (A[d] != nullptr)] of [consolidate], on the locals [x], [d], [A]. *)
Definition collide_step (c : ptr * Z * list ptr)
  : M state (ptr * Z * list ptr + ptr * Z * list ptr) :=
  let '(x, d, A) := c in
  y <- vec_get A d ;;
  if is_null y then ret (inr (x, d, A))
  else
    lt <- compare_less y x ;;
    let '(x, y) := if lt then (y, x) else (x, y) in
    fib_link y x ;;
    A <- vec_set A d None ;;
    ret (inl (x, incr64 d, A)).

Definition collide (fuel : nat) (x : ptr) (d : Z) (A : list ptr)
  : M state (ptr * Z * list ptr) :=
  loop fuel collide_step (x, d, A).

(** The body of the [for] over [orig_nodes]. *)
Definition place (fuel : nat) (x : ptr) (A : list ptr) : M state (list ptr) :=
  d <- load degree x ;;
  r <- collide fuel x d A ;;
  let '(x, d, A) := r in
  vec_set A d x.

(** The [do ... while (x != min)] that counts the roots. *)
Definition census_step (m : ptr) (c : census) : M state (census + census) :=
  dx <- load degree (cx c) ;;
  xr <- load right (cx c) ;;
  let c' := {| cx := xr; max_d := Z.max (max_d c) dx;
               num_trees := incr64 (num_trees c);
               orig_nodes := orig_nodes c ++ [cx c] |} in
  if ptr_eqb xr m then ret (inr c') else ret (inl c').

(** The body of the last [for]: [if (A[i]) insert_node(A[i]);]. *)
Definition reinsert (a : ptr) : M state unit :=
  if is_null a then ret tt else insert_node a.

Definition consolidate (fuel : nat) : M state unit :=
  m <- gets min ;;
  c <- (if is_null m then
          ret {| cx := m; max_d := 0; num_trees := 0; orig_nodes := [] |}
        else
          loop fuel (census_step m)
            {| cx := m; max_d := 0; num_trees := 0; orig_nodes := [] |}) ;;
  let node_vec_size := add64 (max_d c) (num_trees c) in
  A <- for_acc (orig_nodes c) (place fuel)
         (replicate (Z.to_nat node_vec_size) None) ;;
  modify (set_min None) ;;
  for_each A reinsert.

(** [cut(x, y)]: delete [x] from [y] and make it a root. *)
Definition cut (x y : ptr) : M state unit :=
  xr <- load right x ;;
  (if negb (ptr_eqb xr x) then
     store y (set_child xr) ;;
     xl <- load left x ;;
     store xr (set_left xl) ;;
     xl <- load left x ;;
     xr <- load right x ;;
     store xl (set_right xr)
   else
     store y (set_child None)) ;;
  yd <- load degree y ;;
  store y (set_degree (decr64 yd)) ;;
  store x (set_p None) ;;
  store x (set_mark false) ;;
  insert_node x.

Fixpoint cascading_cut (fuel : nat) (y : ptr) : M state unit :=
  match fuel with
  | O => fun _ => OutOfFuel
  | S n =>
      z <- load p y ;;
      if is_null z then ret tt
      else
        m <- load mark y ;;
        if m then cut y z ;; cascading_cut n z
        else store y (set_mark true)
  end.

Definition size : M state Z := gets _size.

Definition insert (k : Z) : M state ptr :=
  x <- alloc ;;
  store x (set_key k) ;;
  store x (set_left x) ;;
  store x (set_right x) ;;
  insert_node x ;;
  sz <- gets _size ;;
  modify (set_size (incr64 sz)) ;;
  ret x.

(** [add_heap(H)]: only [H.min] is read; neither [_size] is written. *)
Definition add_heap_step (Hmin merged : ptr) : M state (ptr + unit) :=
  insert_node merged ;;
  merged' <- load right merged ;;
  if ptr_eqb merged' Hmin then ret (inr tt) else ret (inl merged').

Definition add_heap (fuel : nat) (Hmin : ptr) : M state unit :=
  if is_null Hmin then ret tt
  else loop fuel (add_heap_step Hmin) Hmin.

Definition get_min : M state Z :=
  m <- gets min ;;
  load key m.

(** The [do ... while (next_x != x)] of [pop], on the local [next_x]: the
    child [x = next_x] of the minimum goes to the root ring. *)
Definition promote_step (next_x : ptr) : M state (ptr + unit) :=
  let x := next_x in
  store x (set_p None) ;;
  next_x <- load right x ;;
  xl <- load left x ;;
  store xl (set_right xl) ;;
  xr <- load right x ;;
  store xr (set_left xr) ;;
  insert_node x ;;
  if ptr_eqb next_x x then ret (inr tt) else ret (inl next_x).

Definition pop (fuel : nat) : M state Z :=
  z <- gets min ;;
  if is_null z then throw "Pop from empty FibHeap"
  else
    x <- load child z ;;
    (if is_null x then ret tt else loop fuel promote_step x) ;;
    zr <- load right z ;;
    modify (set_min zr) ;;
    (if ptr_eqb zr z then modify (set_min None) else ret tt) ;;
    zr <- load right z ;;
    (if negb (ptr_eqb zr z) then
       zl <- load left z ;; store zr (set_left zl)
     else ret tt) ;;
    zl <- load left z ;;
    (if negb (ptr_eqb zl z) then
       zr <- load right z ;; store zl (set_right zr)
     else ret tt) ;;
    sz <- gets _size ;;
    modify (set_size (decr64 sz)) ;;
    consolidate fuel ;;
    load key z.

Definition decrease_key (fuel : nat) (N : ptr) (new_key : Z) : M state unit :=
  kN <- load key N ;;
  if kN <? new_key then throw "FibHeap key can't be increased"
  else
    store N (set_key new_key) ;;
    y <- load p N ;;
    violates <- (if is_null y then ret false else compare_less N y) ;;
    (if violates then cut N y ;; cascading_cut fuel y else ret tt) ;;
    m <- gets min ;;
    lt <- compare_less N m ;;
    if lt then modify (set_min N) else ret tt.

(** *** Callers *)

Fixpoint insert_all (keys : list Z) : M state (list ptr) :=
  match keys with
  | [] => ret []
  | k :: keys' =>
      h <- insert k ;;
      hs <- insert_all keys' ;;
      ret (h :: hs)
  end.

Fixpoint pop_n (fuel : nat) (n : nat) : M state (list Z) :=
  match n with
  | O => ret []
  | S n' =>
      k <- pop fuel ;;
      ks <- pop_n fuel n' ;;
      ret (k :: ks)
  end.

Definition drain_step (fuel : nat) (out : list Z) : M state (list Z + list Z) :=
  sz <- size ;;
  if sz =? 0 then ret (inr out)
  else k <- pop fuel ;; ret (inl (out ++ [k])).

Definition drain (fuel : nat) : M state (list Z) :=
  loop fuel (drain_step fuel) [].

(** Sorting with the heap: [insert] every key, then [pop] until [size()]
    is 0. *)
Definition heapsort (fuel : nat) (keys : list Z) : M state (list Z) :=
  insert_all keys ;; drain fuel.

(** [FibHeapNode::get_key()], called through the handle [x]. *)
Definition get_key (x : ptr) : M state Z := load key x.

(** The calls [cs], one after the other.  [hs] are the handles held; the
    values that [pop], [get_min], [size] and [get_key] return are collected. *)
Fixpoint run (fuel : nat) (cs : list call) (hs : list ptr) : M state (list Z) :=
  match cs with
  | [] => ret []
  | Insert d :: cs' => h <- insert d ;; run fuel cs' (hs ++ [h])
  | Pop :: cs' => k <- pop fuel ;; ks <- run fuel cs' hs ;; ret (k :: ks)
  | GetMin :: cs' => k <- get_min ;; ks <- run fuel cs' hs ;; ret (k :: ks)
  | Size :: cs' => k <- size ;; ks <- run fuel cs' hs ;; ret (k :: ks)
  | GetKey i :: cs' =>
      k <- get_key (nth i hs None) ;; ks <- run fuel cs' hs ;; ret (k :: ks)
  end.

(** The same with calls of [decrease_key]. *)
Fixpoint run_dk (fuel : nat) (cs : list dcall) (hs : list ptr) : M state (list Z) :=
  match cs with
  | [] => ret []
  | DInsert d :: cs' => h <- insert d ;; run_dk fuel cs' (hs ++ [h])
  | DPop :: cs' => k <- pop fuel ;; ks <- run_dk fuel cs' hs ;; ret (k :: ks)
  | DGetMin :: cs' => k <- get_min ;; ks <- run_dk fuel cs' hs ;; ret (k :: ks)
  | DSize :: cs' => k <- size ;; ks <- run_dk fuel cs' hs ;; ret (k :: ks)
  | DGetKey i :: cs' =>
      k <- get_key (nth i hs None) ;; ks <- run_dk fuel cs' hs ;; ret (k :: ks)
  | DDecreaseKey i k :: cs' =>
      decrease_key fuel (nth i hs None) k ;; run_dk fuel cs' hs
  end.

(** A second heap object [H] over the same node memory. *)
Record two := mkTwo {
  st : state;          (* the node memory and the first heap *)
  min2 : ptr;          (* H.min *)
  size2 : Z            (* H._size *)
}.

Definition start2 : two := {| st := init; min2 := None; size2 := 0 |}.

Definition on_H1 {A} (m : M state A) : M two A :=
  fun w =>
    match m (st w) with
    | Ok a s => Ok a {| st := s; min2 := min2 w; size2 := size2 w |}
    | Throw e s => Throw e {| st := s; min2 := min2 w; size2 := size2 w |}
    | Fault => Fault
    | OutOfFuel => OutOfFuel
    end.

Definition swap_heaps (w : two) : two :=
  {| st := {| mem := mem (st w); brk := brk (st w);
              min := min2 w; _size := size2 w |};
     min2 := min (st w); size2 := _size (st w) |}.

Definition on_H2 {A} (m : M state A) : M two A :=
  fun w =>
    match on_H1 m (swap_heaps w) with
    | Ok a w' => Ok a (swap_heaps w')
    | Throw e w' => Throw e (swap_heaps w')
    | Fault => Fault
    | OutOfFuel => OutOfFuel
    end.

(** [H1.add_heap(H)]. *)
Definition meld (fuel : nat) : M two unit :=
  h2 <- gets min2 ;;
  on_H1 (add_heap fuel h2).

(** *** Observations *)

Definition dump (s : state) : list FibHeapNode := map (mem s) (seq 0 (brk s)).

(** The addresses met from [x] along [right] until [stop] comes up again, at
    most [n] of them. *)
Fixpoint ring (n : nat) (m : addr -> FibHeapNode) (stop : addr) (x : ptr) : list addr :=
  match n, x with
  | S n', Some a =>
      a :: (if ptr_eqb (right (m a)) (Some stop) then []
            else ring n' m stop (right (m a)))
  | _, _ => []
  end.

(** The root ring, from [min] rightwards. *)
Definition roots (s : state) : list addr :=
  match min s with
  | Some a => ring (brk s) (mem s) a (Some a)
  | None => []
  end.

End FibHeap.

(** ** What a caller observes *)

(** The outcome of a run with its final state seen through [f]. *)
Definition observe {St A B} (f : St -> B) (r : result St A) : result B A :=
  match r with
  | Ok a s => Ok a (f s)
  | Throw w s => Throw w (f s)
  | Fault => Fault
  | OutOfFuel => OutOfFuel
  end.

(** The final state of a run that returns, [s0] otherwise. *)
Definition final {St A} (s0 : St) (r : result St A) : St :=
  match r with
  | Ok _ s => s
  | Throw _ s => s
  | _ => s0
  end.

Definition strictly_increasing (l : list Z) : bool :=
  forallb (fun '(a, b) => a <? b) (zip l (tail l)).

(** ** Scenarios on the binomial heap *)

(** Four inserts build one binomial tree of degree 2 on the nodes 0..3:
    node 0 (key 1) is the root, its children are node 2 (key 3), which has the
    child node 3 (key 4), and node 1 (key 2). *)
Definition bheap_1234 : M Bheap.state (list ptr) := Bheap.insert_all 8 [1; 2; 3; 4].

Lemma bheap_1234_shape :
  observe (fun s => (Bheap.head s, Bheap._size s, Bheap.dump s)) (bheap_1234 Bheap.init)
  = Ok [Some 0; Some 1; Some 2; Some 3]%nat
       (Some 0%nat, 4,
        [ Bheap.mkNode None (Some 2%nat) None 2 1;
          Bheap.mkNode (Some 0%nat) None None 0 2;
          Bheap.mkNode (Some 0%nat) (Some 3%nat) (Some 1%nat) 1 3;
          Bheap.mkNode (Some 2%nat) None None 0 4 ]).
Proof. vm_compute. reflexivity. Qed.

(** The state after [decrease_key(h3, 0)] on the handle of key 3, and the
    pointer left in the handle. *)
Definition bheap_decreased : result Bheap.state ptr :=
  (hs <- bheap_1234 ;; Bheap.decrease_key 8 (nth 2 hs None) 0) Bheap.init.

(** Then [decrease_key(h4, -1)] on the handle of key 4. *)
Definition bheap_decreased_twice : M Bheap.state unit :=
  hs <- bheap_1234 ;;
  Bheap.decrease_key 8 (nth 2 hs None) 0 ;;
  Bheap.decrease_key 8 (nth 3 hs None) (-1) ;;
  ret tt.

(** Scenarios with two heaps. *)
Definition bheap_meld_example : result Bheap.two (Z * Z * list Z) :=
  (Bheap.on_H1 (Bheap.insert_all 8 [1; 4; 9]) ;;
   Bheap.on_H2 (Bheap.insert_all 8 [2; 3; 7]) ;;
   Bheap.meld 8 ;;
   a <- Bheap.on_H1 Bheap.size ;;
   b <- Bheap.on_H2 Bheap.size ;;
   out <- Bheap.on_H1 (Bheap.drain 8) ;;
   ret (a, b, out)) Bheap.start2.

(** ** Scenarios on the Fibonacci heap *)

(** Two heaps of one key each, [H1 = {1}] on node 0 and [H = {2}] on node 1. *)
Definition fib_two_singletons : FibHeap.two :=
  final FibHeap.start2
    ((FibHeap.on_H1 (FibHeap.insert 1) ;; FibHeap.on_H2 (FibHeap.insert 2))
       FibHeap.start2).

(** [H1 = {1, 4, 9}] on the nodes 0..2 and [H = {2, 3, 7}] on the nodes 3..5. *)
Definition fib_meld_example : FibHeap.two :=
  final FibHeap.start2
    ((FibHeap.on_H1 (FibHeap.insert_all [1; 4; 9]) ;;
      FibHeap.on_H2 (FibHeap.insert_all [2; 3; 7])) FibHeap.start2).

(** [H1 = {2}], [H = {1}]: here [add_heap] returns. *)
Definition fib_meld_sizes : result FibHeap.two (Z * Z) :=
  (FibHeap.on_H1 (FibHeap.insert 2) ;;
   FibHeap.on_H2 (FibHeap.insert 1) ;;
   FibHeap.meld 8 ;;
   a <- FibHeap.on_H1 FibHeap.size ;;
   b <- FibHeap.on_H2 FibHeap.size ;;
   ret (a, b)) FibHeap.start2.

(** Five inserts, a [pop], a [decrease_key] that cuts node 4 from node 3 and
    marks node 3, and the [pop] that makes node 3 a root. *)
Definition fib_marked_root : result FibHeap.state Z :=
  (hs <- FibHeap.insert_all [0; 10; 20; 30; 40] ;;
   FibHeap.pop 8 ;;
   FibHeap.decrease_key 8 (nth 4 hs None) 25 ;;
   FibHeap.pop 8) FibHeap.init.

(** Five inserts, a [pop] and the [decrease_key] that cuts node 4 from node 3
    and marks node 3: node 1 is the minimum, with the children 2 and 3. *)
Definition fib_marked_child : FibHeap.state :=
  final FibHeap.init
    ((hs <- FibHeap.insert_all [0; 10; 20; 30; 40] ;;
      FibHeap.pop 8 ;;
      FibHeap.decrease_key 8 (nth 4 hs None) 25) FibHeap.init).

(** ** A priority queue on sorted lists

    What a caller of one heap sees, without the heap: the keys held are a
    sorted list, and the keys given to [insert] are remembered in the order of
    the calls. *)

Fixpoint sorted_insert (d : Z) (l : list Z) : list Z :=
  match l with
  | [] => [d]
  | k :: l' => if d <=? k then d :: l else k :: sorted_insert d l'
  end.

(** One more returned value in front of those of the calls that follow. *)
Definition push {St} (k : Z) (r : result St (list Z)) : result St (list Z) :=
  match r with
  | Ok ks s => Ok (k :: ks) s
  | other => other
  end.

(** [what] is the message of the exception of [pop]; [get_min] of no key and
    [get_key] through a handle never returned are undefined behaviour. *)
Fixpoint pq_run (what : string) (cs : list call) (bag ins : list Z)
  : result unit (list Z) :=
  match cs with
  | [] => Ok [] tt
  | Insert d :: cs' => pq_run what cs' (sorted_insert d bag) (ins ++ [d])
  | Pop :: cs' =>
      match bag with
      | [] => Throw what tt
      | k :: bag' => push k (pq_run what cs' bag' ins)
      end
  | GetMin :: cs' =>
      match bag with
      | [] => Fault
      | k :: _ => push k (pq_run what cs' bag ins)
      end
  | Size :: cs' => push (Z.of_nat (length bag)) (pq_run what cs' bag ins)
  | GetKey i :: cs' =>
      match ins !! i with
      | None => Fault
      | Some d => push d (pq_run what cs' bag ins)
      end
  end.

(** The calls of [insert] among [cs]. *)
Fixpoint inserts (cs : list call) : nat :=
  match cs with
  | [] => O
  | Insert _ :: cs' => S (inserts cs')
  | _ :: cs' => inserts cs'
  end.

(** The same priority queue for a caller of the binomial heap, whose
    [get_min] is undefined behaviour whatever the keys held. *)
Fixpoint pq_run_no_min (what : string) (cs : list call) (bag ins : list Z)
  : result unit (list Z) :=
  match cs with
  | [] => Ok [] tt
  | Insert d :: cs' => pq_run_no_min what cs' (sorted_insert d bag) (ins ++ [d])
  | Pop :: cs' =>
      match bag with
      | [] => Throw what tt
      | k :: bag' => push k (pq_run_no_min what cs' bag' ins)
      end
  | GetMin :: cs' => Fault
  | Size :: cs' => push (Z.of_nat (length bag)) (pq_run_no_min what cs' bag ins)
  | GetKey i :: cs' =>
      match ins !! i with
      | None => Fault
      | Some d => push d (pq_run_no_min what cs' bag ins)
      end
  end.

(** ** A priority queue with handles

    What a caller that lowers keys may see.  For every call of [insert], in
    the order of the calls, the queue remembers whether the key is still held
    and what it is.  [pop] takes one of the least keys held: which one, among
    equal keys, is not said, so the results allowed are a relation. *)

Definition live_keys (h : list (bool * Z)) : list Z :=
  map snd (List.filter fst h).

Fixpoint dinserts (cs : list dcall) : nat :=
  match cs with
  | [] => O
  | DInsert _ :: cs' => S (dinserts cs')
  | _ :: cs' => dinserts cs'
  end.

(** [what_pop] and [what_dk] are the messages of the exceptions of [pop] and
    of [decrease_key].  [decrease_key] through the handle of a key that [pop]
    has taken is not specified: every result is allowed. *)
Inductive pqd (what_pop what_dk : string)
  : list dcall -> list (bool * Z) -> result unit (list Z) -> Prop :=
  | pqd_nil h : pqd what_pop what_dk [] h (Ok [] tt)
  | pqd_insert d cs h r :
      pqd what_pop what_dk cs (h ++ [(true, d)]) r ->
      pqd what_pop what_dk (DInsert d :: cs) h r
  | pqd_pop_none cs h :
      live_keys h = [] -> pqd what_pop what_dk (DPop :: cs) h (Throw what_pop tt)
  | pqd_pop i k cs h r :
      h !! i = Some (true, k) -> Forall (fun k' => k <= k') (live_keys h) ->
      pqd what_pop what_dk cs (<[i := (false, k)]> h) r ->
      pqd what_pop what_dk (DPop :: cs) h (push k r)
  | pqd_get_min_none cs h :
      live_keys h = [] -> pqd what_pop what_dk (DGetMin :: cs) h Fault
  | pqd_get_min k cs h r :
      k ∈ live_keys h -> Forall (fun k' => k <= k') (live_keys h) ->
      pqd what_pop what_dk cs h r -> pqd what_pop what_dk (DGetMin :: cs) h (push k r)
  | pqd_size cs h r :
      pqd what_pop what_dk cs h r ->
      pqd what_pop what_dk (DSize :: cs) h (push (Z.of_nat (length (live_keys h))) r)
  | pqd_get_key i b k cs h r :
      h !! i = Some (b, k) -> pqd what_pop what_dk cs h r ->
      pqd what_pop what_dk (DGetKey i :: cs) h (push k r)
  | pqd_get_key_none i cs h :
      h !! i = None -> pqd what_pop what_dk (DGetKey i :: cs) h Fault
  | pqd_decrease i k0 k cs h r :
      h !! i = Some (true, k0) -> k <= k0 ->
      pqd what_pop what_dk cs (<[i := (true, k)]> h) r ->
      pqd what_pop what_dk (DDecreaseKey i k :: cs) h r
  | pqd_decrease_above i b k0 k cs h :
      h !! i = Some (b, k0) -> k0 < k ->
      pqd what_pop what_dk (DDecreaseKey i k :: cs) h (Throw what_dk tt)
  | pqd_decrease_none i k cs h :
      h !! i = None -> pqd what_pop what_dk (DDecreaseKey i k :: cs) h Fault
  | pqd_decrease_taken i k0 k cs h r :
      h !! i = Some (false, k0) -> k <= k0 ->
      pqd what_pop what_dk (DDecreaseKey i k :: cs) h r.

(** ** Scenarios of [add_heap] on two heaps *)

(** [H1 = {1, 4, 9}] on the nodes 0..2 and [H2 = {2, 3, 7}] on the nodes 3..5. *)
Definition bheap_two_heaps : Bheap.two :=
  final Bheap.start2
    ((Bheap.on_H1 (Bheap.insert_all 8 [1; 4; 9]) ;;
      Bheap.on_H2 (Bheap.insert_all 8 [2; 3; 7])) Bheap.start2).

(** [H1 = {2, 3, 7}] on the nodes 0..2 and [H = {1, 4, 9}] on the nodes 3..5:
    the minimum of [H] is below the minimum of [H1]. *)
Definition fib_meld_lower : FibHeap.two :=
  final FibHeap.start2
    ((FibHeap.on_H1 (FibHeap.insert_all [2; 3; 7]) ;;
      FibHeap.on_H2 (FibHeap.insert_all [1; 4; 9])) FibHeap.start2).

(** [H1] empty and [H = {2, 3, 7}] on the nodes 0..2. *)
Definition fib_meld_into_empty : FibHeap.two :=
  final FibHeap.start2
    (FibHeap.on_H2 (FibHeap.insert_all [2; 3; 7]) FibHeap.start2).

(** The binomial heap of the keys 1, 2, 3, 4 on the nodes 0..3: one tree, with
    node 0 over the nodes 2 and 1, and node 2 over node 3. *)
Definition bheap_1234_state : Bheap.state :=
  final Bheap.init (bheap_1234 Bheap.init).

(** Nine inserts, a [pop] that leaves one tree (node 1 over the nodes 2, 5
    and 3, node 5 over 6 and 7, node 7 over 8, node 3 over 4), and the
    [decrease_key] that cuts node 6 from node 5 and marks node 5. *)
Definition fib_marked_parent : FibHeap.state :=
  final FibHeap.init
    ((hs <- FibHeap.insert_all [0; 10; 20; 30; 40; 50; 60; 70; 80] ;;
      FibHeap.pop 16 ;;
      FibHeap.decrease_key 16 (nth 6 hs None) 5) FibHeap.init).

(** * Properties *)

(** ** The monad *)

Lemma loop_S {St A B} (n : nat) (body : A -> M St (A + B)) (a : A) (s : St) :
  loop (S n) body a s =
  match body a s with
  | Ok (inl a') s' => loop n body a' s'
  | Ok (inr b) s' => Ok b s'
  | Throw w s' => Throw w s'
  | Fault => Fault
  | OutOfFuel => OutOfFuel
  end.
Proof.
  cbn [loop]. unfold bind. destruct (body a s) as [[a'|b] s'| | |]; reflexivity.
Qed.

(** A loop whose body never throws never throws. *)
Lemma loop_no_throw {St A B} (body : A -> M St (A + B)) :
  (forall a s w s', body a s <> Throw w s') ->
  forall n a s w s', loop n body a s <> Throw w s'.
Proof.
  intros Hbody n. induction n as [|n IH]; intros a s w s'.
  - discriminate.
  - rewrite loop_S. destruct (body a s) as [[a'|b] s1|e s1| |] eqn:E;
      try discriminate.
    + apply IH.
    + exfalso. exact (Hbody a s e s1 E).
Qed.

(** ** Binomial heap: the scenarios *)

(** C6 (as the code runs): after four inserts and one [pop] the root list is
    the popped root's child list as it stood, degree 1 before degree 0: the
    roots are not in increasing degree order. *)
Theorem bheap_pop_roots_not_increasing :
  observe Bheap.root_degrees ((bheap_1234 ;; Bheap.pop 8) Bheap.init) = Ok 1 [1; 0]
  /\ strictly_increasing [1; 0] = false.
Proof. split; vm_compute; reflexivity. Qed.

(** C7 (as the code runs): [decrease_key(h3, 0)] on the 4-key heap swaps the
    keys of node 2 and of its parent node 0, and besides it overwrites the
    parent link of node 2 with [nullptr] and leaves the address of node 0 in
    the caller's handle, which held the address of node 2. *)
Theorem bheap_decrease_key_rewrites_parent_link :
  observe Bheap.dump bheap_decreased
  = Ok (Some 0%nat)
       [ Bheap.mkNode None (Some 2%nat) None 2 0;
         Bheap.mkNode (Some 0%nat) None None 0 2;
         Bheap.mkNode None (Some 3%nat) (Some 1%nat) 1 1;
         Bheap.mkNode (Some 2%nat) None None 0 4 ].
Proof. vm_compute. reflexivity. Qed.

(** C2 (as the code runs): after [decrease_key(h3, 0)] and
    [decrease_key(h4, -1)] node 2, the leftmost child of the root node 0,
    holds the key -1 under the root's key 0, and the keys come out of the
    heap as 0, -1, 1, 2. *)
Theorem bheap_decrease_key_breaks_heap_order :
  observe (fun s => (Bheap.heap_ordered s, Bheap.dump s))
    (bheap_decreased_twice Bheap.init)
  = Ok tt (false,
          [ Bheap.mkNode None (Some 2%nat) None 2 0;
            Bheap.mkNode (Some 0%nat) None None 0 2;
            Bheap.mkNode None (Some 3%nat) (Some 1%nat) 1 (-1);
            Bheap.mkNode None None None 0 1 ])
  /\ observe (fun _ => tt) ((bheap_decreased_twice ;; Bheap.drain 8) Bheap.init)
     = Ok [0; -1; 1; 2] tt.
Proof. split; vm_compute; reflexivity. Qed.

(** C4 (as the code runs): after [H1.add_heap(H2)] with three keys in each
    heap both [size()] still answer 3. *)
Theorem bheap_add_heap_keeps_sizes :
  observe (fun _ => tt)
    ((Bheap.on_H1 (Bheap.insert_all 8 [1; 4; 9]) ;;
      Bheap.on_H2 (Bheap.insert_all 8 [2; 3; 7]) ;;
      Bheap.meld 8 ;;
      a <- Bheap.on_H1 Bheap.size ;;
      b <- Bheap.on_H2 Bheap.size ;;
      ret (a, b)) Bheap.start2)
  = Ok (3, 3) tt
  /\ observe (fun _ => tt) fib_meld_sizes = Ok (1, 1) tt.
Proof. split; vm_compute; reflexivity. Qed.

(** ** Weakest preconditions

    [wp m Q s]: run from [s], the computation [m] returns, with a value and a
    state that satisfy [Q]. *)

Definition wp {St A} (m : M St A) (Q : A -> St -> Prop) (s : St) : Prop :=
  match m s with
  | Ok a s' => Q a s'
  | _ => False
  end.

Lemma wp_ret {St A} (a : A) (Q : A -> St -> Prop) s : Q a s -> wp (ret a) Q s.
Proof. exact id. Qed.

Lemma wp_bind {St A B} (m : M St A) (k : A -> M St B) (Q : B -> St -> Prop) s :
  wp m (fun a s' => wp (k a) Q s') s -> wp (bind m k) Q s.
Proof. unfold wp, bind. destruct (m s); auto. Qed.

Lemma wp_gets {St A} (f : St -> A) (Q : A -> St -> Prop) s :
  Q (f s) s -> wp (gets f) Q s.
Proof. exact id. Qed.

Lemma wp_modify {St} (f : St -> St) (Q : unit -> St -> Prop) s :
  Q tt (f s) -> wp (modify f) Q s.
Proof. exact id. Qed.

Lemma wp_mono {St A} (m : M St A) (Q Q' : A -> St -> Prop) s :
  wp m Q s -> (forall a s', Q a s' -> Q' a s') -> wp m Q' s.
Proof. unfold wp. destruct (m s); auto. Qed.

Lemma wp_ok {St A} (m : M St A) (Q : A -> St -> Prop) s :
  wp m Q s -> exists a s', m s = Ok a s' /\ Q a s'.
Proof. unfold wp. destruct (m s) as [a s'| | |]; try tauto. eauto. Qed.

Lemma ok_wp {St A} (m : M St A) (Q : A -> St -> Prop) s a s' :
  m s = Ok a s' -> Q a s' -> wp m Q s.
Proof. unfold wp. intros ->. exact id. Qed.

(** A loop returns when each round lowers a bound [n] on the rounds still to
    come, the budget is above the bound, and the rounds keep [Inv]. *)
Lemma wp_loop {St A B} (Inv : nat -> A -> St -> Prop) (Q : B -> St -> Prop)
    (body : A -> M St (A + B)) :
  (forall n a s, Inv n a s ->
     wp (body a)
        (fun r s' => match r with
                     | inl a' => exists n', (n' < n)%nat /\ Inv n' a' s'
                     | inr b => Q b s'
                     end) s) ->
  forall n fuel a s, Inv n a s -> (n < fuel)%nat -> wp (loop fuel body a) Q s.
Proof.
  intros Hbody n. induction n as [n IH] using lt_wf_ind.
  intros fuel a s Hinv Hfuel. destruct fuel as [|fuel]; [lia|].
  unfold wp. rewrite loop_S. specialize (Hbody n a s Hinv). unfold wp in Hbody.
  destruct (body a s) as [[a'|b] s'| | |]; try contradiction.
  - destruct Hbody as (n' & Hn' & Hinv'). apply (IH n' Hn'); [exact Hinv'|lia].
  - exact Hbody.
Qed.

Lemma wp_for_acc {St A B} (Inv : list A -> B -> St -> Prop)
    (body : A -> B -> M St B) :
  (forall x l b s, Inv (x :: l) b s -> wp (body x b) (fun b' s' => Inv l b' s') s) ->
  forall l b s, Inv l b s -> wp (for_acc l body b) (fun b' s' => Inv [] b' s') s.
Proof.
  intros Hbody l. induction l as [|x l IH]; intros b s Hinv; [exact Hinv|].
  cbn [for_acc]. apply wp_bind. eapply wp_mono; [apply Hbody, Hinv|].
  intros b' s' H'. apply IH, H'.
Qed.

Lemma wp_for_each {St A} (Inv : list A -> St -> Prop) (body : A -> M St unit) :
  (forall x l s, Inv (x :: l) s -> wp (body x) (fun _ s' => Inv l s') s) ->
  forall l s, Inv l s -> wp (for_each l body) (fun _ s' => Inv [] s') s.
Proof.
  intros Hbody l. induction l as [|x l IH]; intros s Hinv; [exact Hinv|].
  cbn [for_each]. apply wp_bind. eapply wp_mono; [apply Hbody, Hinv|].
  intros u s' H'. apply IH, H'.
Qed.

Ltac wp_pure :=
  lazymatch goal with
  | |- wp (bind _ _) _ _ => apply wp_bind
  | |- wp (ret _) _ _ => apply wp_ret
  | |- wp (gets _) _ _ => apply wp_gets
  | |- wp (modify _) _ _ => apply wp_modify
  end.

(** ** Fibonacci heap: memory *)

Section FibMem.
Import FibHeap.

Lemma fh_upd_same a f (m : addr -> FibHeapNode) : upd a f m a = f (m a).
Proof. unfold upd. rewrite Nat.eqb_refl. reflexivity. Qed.

Lemma fh_upd_other a b f (m : addr -> FibHeapNode) : b <> a -> upd a f m b = m b.
Proof. unfold upd. intros H. destruct (Nat.eqb_spec b a); [contradiction|reflexivity]. Qed.

(** A store to one data member leaves the others as they are, in every node. *)
Lemma fh_upd_frame {A} (fld : FibHeapNode -> A) a g (m : addr -> FibHeapNode) b :
  (forall n, fld (g n) = fld n) -> fld (upd a g m b) = fld (m b).
Proof.
  intros H. unfold upd. destruct (Nat.eqb_spec b a) as [->|_]; [apply H|reflexivity].
Qed.

Lemma fh_p_upd a g m b : (forall n, p (g n) = p n) -> p (upd a g m b) = p (m b).
Proof. apply fh_upd_frame. Qed.
Lemma fh_child_upd a g m b :
  (forall n, child (g n) = child n) -> child (upd a g m b) = child (m b).
Proof. apply fh_upd_frame. Qed.
Lemma fh_left_upd a g m b :
  (forall n, left (g n) = left n) -> left (upd a g m b) = left (m b).
Proof. apply fh_upd_frame. Qed.
Lemma fh_right_upd a g m b :
  (forall n, right (g n) = right n) -> right (upd a g m b) = right (m b).
Proof. apply fh_upd_frame. Qed.
Lemma fh_degree_upd a g m b :
  (forall n, degree (g n) = degree n) -> degree (upd a g m b) = degree (m b).
Proof. apply fh_upd_frame. Qed.
Lemma fh_key_upd a g m b :
  (forall n, key (g n) = key n) -> key (upd a g m b) = key (m b).
Proof. apply fh_upd_frame. Qed.
Lemma fh_mark_upd a g m b :
  (forall n, mark (g n) = mark n) -> mark (upd a g m b) = mark (m b).
Proof. apply fh_upd_frame. Qed.

Lemma fh_wp_load {A} (f : FibHeapNode -> A) (x : ptr) (a : addr) Q s :
  x = Some a -> Q (f (mem s a)) s -> wp (load f x) Q s.
Proof. intros ->. exact id. Qed.

Lemma fh_wp_store (g : FibHeapNode -> FibHeapNode) (x : ptr) (a : addr) Q s :
  x = Some a -> Q tt (with_mem (upd a g) s) -> wp (store x g) Q s.
Proof. intros ->. exact id. Qed.

End FibMem.

Ltac fh_frame :=
  first [ rewrite fh_p_upd by (intros; reflexivity)
        | rewrite fh_child_upd by (intros; reflexivity)
        | rewrite fh_left_upd by (intros; reflexivity)
        | rewrite fh_right_upd by (intros; reflexivity)
        | rewrite fh_degree_upd by (intros; reflexivity)
        | rewrite fh_key_upd by (intros; reflexivity)
        | rewrite fh_mark_upd by (intros; reflexivity) ].

Ltac fh_cbn :=
  progress cbn [FibHeap.mem FibHeap.brk FibHeap.min FibHeap._size
                FibHeap.with_mem FibHeap.set_min FibHeap.set_size
                FibHeap.p FibHeap.child FibHeap.left FibHeap.right
                FibHeap.degree FibHeap.key FibHeap.mark
                FibHeap.set_p FibHeap.set_child FibHeap.set_left
                FibHeap.set_right FibHeap.set_degree FibHeap.set_key
                FibHeap.set_mark is_null ptr_eqb negb].

Ltac fh_simpl :=
  repeat first
    [ fh_cbn
    | fh_frame
    | rewrite fh_upd_same
    | rewrite fh_upd_other by (first [ assumption | congruence | lia ]) ].

Ltac fh_step :=
  lazymatch goal with
  | |- wp (FibHeap.load _ _) _ _ =>
      eapply fh_wp_load; [ first [ reflexivity | eassumption ] | ]
  | |- wp (FibHeap.store _ _) _ _ =>
      eapply fh_wp_store; [ first [ reflexivity | eassumption ] | ]
  | |- _ => wp_pure
  end;
  fh_simpl.

(** ** Fibonacci heap: [add_heap] *)

Section AddHeapStuck.
Import FibHeap.

(** Once [merged] is the only node of the ring it stands in, and that node is
    [min] and is not [H.min], a round of the loop of [add_heap] changes
    nothing of this and goes round again. *)
Definition alone (a : addr) (s : state) : Prop :=
  min s = Some a /\ left (mem s a) = Some a /\ right (mem s a) = Some a.

Lemma add_heap_step_alone (a b : addr) (s : state) :
  a <> b -> alone a s ->
  wp (add_heap_step (Some b) (Some a))
     (fun r s' => r = inl (Some a) /\ alone a s') s.
Proof.
  intros Hab (Hmin & Hl & Hr).
  unfold add_heap_step, insert_node, compare_less.
  repeat fh_step. rewrite Hmin. fh_simpl. repeat fh_step.
  rewrite Z.ltb_irrefl. repeat fh_step. rewrite Hmin. fh_simpl.
  destruct (Nat.eqb_spec a b) as [->|_]; [contradiction|].
  apply wp_ret. unfold alone. fh_simpl. rewrite Hmin. fh_simpl. auto.
Qed.

Lemma add_heap_loop_alone (a b : addr) :
  a <> b ->
  forall fuel s, alone a s -> loop fuel (add_heap_step (Some b)) (Some a) s = OutOfFuel.
Proof.
  intros Hab fuel. induction fuel as [|n IH]; intros s Hs; [reflexivity|].
  rewrite loop_S.
  destruct (wp_ok _ _ _ (add_heap_step_alone a b s Hab Hs)) as (r & s' & -> & -> & Hs').
  apply IH, Hs'.
Qed.

(** Two rounds of the loop from [merged = H.min = b] lead to [merged = a],
    alone in its ring. *)
Definition aloneb (a : addr) (s : state) : bool :=
  ptr_eqb (min s) (Some a) && ptr_eqb (left (mem s a)) (Some a)
  && ptr_eqb (right (mem s a)) (Some a).

Definition two_rounds (b a : addr) (s : state) : bool :=
  match add_heap_step (Some b) (Some b) s with
  | Ok (inl (Some a1)) s1 =>
      Nat.eqb a1 a &&
      match add_heap_step (Some b) (Some a) s1 with
      | Ok (inl (Some a2)) s2 => Nat.eqb a2 a && aloneb a s2
      | _ => false
      end
  | _ => false
  end.

Lemma ptr_eqb_Some (x : ptr) (a : addr) : ptr_eqb x (Some a) = true -> x = Some a.
Proof.
  destruct x as [c|]; cbn; [|discriminate].
  intros H. apply Nat.eqb_eq in H. congruence.
Qed.

Lemma aloneb_alone a s : aloneb a s = true -> alone a s.
Proof.
  unfold aloneb, alone. rewrite !andb_true_iff.
  intros [[H1 H2] H3]. auto using ptr_eqb_Some.
Qed.

Lemma add_heap_stuck (w : two) (a b : addr) :
  min2 w = Some b -> a <> b -> two_rounds b a (st w) = true ->
  forall fuel, meld fuel w = OutOfFuel.
Proof.
  intros Hb Hab Hrounds fuel.
  unfold meld, on_H1, add_heap, bind, gets. rewrite Hb. cbn [is_null].
  enough (loop fuel (add_heap_step (Some b)) (Some b) (st w) = OutOfFuel) as ->
    by reflexivity.
  unfold two_rounds in Hrounds.
  destruct fuel as [|fuel]; [reflexivity|]. rewrite loop_S.
  destruct (add_heap_step (Some b) (Some b) (st w)) as [[[a1|]|] s1| | |];
    try discriminate.
  apply andb_true_iff in Hrounds as [Ha1 Hrounds].
  apply Nat.eqb_eq in Ha1. subst a1.
  destruct fuel as [|fuel]; [reflexivity|]. rewrite loop_S.
  destruct (add_heap_step (Some b) (Some a) s1) as [[[a2|]|] s2| | |];
    try discriminate.
  apply andb_true_iff in Hrounds as [Ha2 Hrounds].
  apply Nat.eqb_eq in Ha2. subst a2.
  apply add_heap_loop_alone; [exact Hab|]. apply aloneb_alone, Hrounds.
Qed.

End AddHeapStuck.

(** C5 (as the code runs): with [H1 = {1}] and [H = {2}], [H1.add_heap(H)]
    does not return, whatever the step budget: after two rounds [merged] is
    node 0, alone in its ring, and stays so. *)
Theorem fib_add_heap_diverges :
  forall fuel, FibHeap.meld fuel fib_two_singletons = OutOfFuel.
Proof.
  apply (add_heap_stuck fib_two_singletons 0%nat 1%nat);
    [vm_compute; reflexivity|discriminate|vm_compute; reflexivity].
Qed.

(** C3 (as the code runs): melding {1,4,9} with {2,3,7}.  In the binomial
    heap both [size()] stay 3, so the pops until [size()] is 0 yield 1, 2, 3
    and the next [pop()] throws with 4, 7 and 9 still in the root list.  In
    the Fibonacci heap [add_heap] does not return. *)
Theorem meld_example_as_coded :
  observe (fun _ => tt) bheap_meld_example = Ok (3, 3, [1; 2; 3]) tt
  /\ observe (fun w => Bheap.root_degrees (Bheap.st w))
       ((Bheap.on_H1 (Bheap.insert_all 8 [1; 4; 9]) ;;
         Bheap.on_H2 (Bheap.insert_all 8 [2; 3; 7]) ;;
         Bheap.meld 8 ;;
         Bheap.on_H1 (Bheap.drain 8) ;;
         Bheap.on_H1 (Bheap.pop 8)) Bheap.start2)
     = Throw "Pop from empty heap" [1; 0]
  /\ forall fuel, FibHeap.meld fuel fib_meld_example = OutOfFuel.
Proof.
  split; [vm_compute; reflexivity|]. split; [vm_compute; reflexivity|].
  apply (add_heap_stuck fib_meld_example 0%nat 3%nat);
    [vm_compute; reflexivity|discriminate|vm_compute; reflexivity].
Qed.

(** C9 (as the code runs): on a heap just constructed [pop()] throws
    [std::out_of_range] and leaves the state as it was, in both classes, but
    [get_min()] dereferences the null [head], or the null [min]. *)
Theorem empty_heap_get_min_dereferences_null :
  forall fuel,
    Bheap.get_min fuel Bheap.init = Fault
    /\ FibHeap.get_min FibHeap.init = Fault
    /\ Bheap.pop fuel Bheap.init = Throw "Pop from empty heap" Bheap.init
    /\ FibHeap.pop fuel FibHeap.init = Throw "Pop from empty FibHeap" FibHeap.init.
Proof.
  intros fuel. split; [reflexivity|]. split; [reflexivity|]. split; reflexivity.
Qed.

(** C8, the claim as stated fails: after five inserts, a [pop], the
    [decrease_key] of 40 to 25 and a second [pop], the root ring is node 2,
    node 3, and node 3 is a root (no parent) with its mark set. *)
Lemma fib_root_marked_after_pop :
  observe (fun s => (FibHeap.roots s,
                     map (fun a => (FibHeap.p (FibHeap.mem s a),
                                    FibHeap.mark (FibHeap.mem s a)))
                         (FibHeap.roots s)))
    fib_marked_root
  = Ok 10 ([2; 3]%nat, [(None, false); (None, true)]).
Proof. vm_compute. reflexivity. Qed.

(** ** Computations that cannot throw *)

Definition no_throw {St A} (m : M St A) : Prop :=
  forall s w s', m s <> Throw w s'.

Lemma no_throw_ret {St A} (a : A) : no_throw (St := St) (ret a).
Proof. intros s w s'. discriminate. Qed.

Lemma no_throw_gets {St A} (f : St -> A) : no_throw (gets f).
Proof. intros s w s'. discriminate. Qed.

Lemma no_throw_modify {St} (f : St -> St) : no_throw (modify f).
Proof. intros s w s'. discriminate. Qed.

Lemma no_throw_fault {St A} : no_throw (St := St) (A := A) fault.
Proof. intros s w s'. discriminate. Qed.

Lemma no_throw_bind {St A B} (m : M St A) (k : A -> M St B) :
  no_throw m -> (forall a, no_throw (k a)) -> no_throw (bind m k).
Proof.
  intros Hm Hk s w s'. unfold bind.
  destruct (m s) as [a s1|e s1| |] eqn:E; try discriminate.
  - apply Hk.
  - exfalso. exact (Hm s e s1 E).
Qed.

Lemma no_throw_if {St A} (b : bool) (m1 m2 : M St A) :
  no_throw m1 -> no_throw m2 -> no_throw (if b then m1 else m2).
Proof. destruct b; auto. Qed.

Lemma no_throw_loop {St A B} (fuel : nat) (body : A -> M St (A + B)) (a : A) :
  (forall a, no_throw (body a)) -> no_throw (loop fuel body a).
Proof.
  intros Hbody s w s'. apply loop_no_throw. intros a0 s0 w0 s0'. apply Hbody.
Qed.

Lemma bh_no_throw_load {A} (f : Bheap.BheapNode -> A) (x : ptr) :
  no_throw (Bheap.load f x).
Proof. destruct x; [apply no_throw_gets|apply no_throw_fault]. Qed.

Lemma bh_no_throw_store (x : ptr) g : no_throw (Bheap.store x g).
Proof. destruct x; [apply no_throw_modify|apply no_throw_fault]. Qed.

Lemma fh_no_throw_load {A} (f : FibHeap.FibHeapNode -> A) (x : ptr) :
  no_throw (FibHeap.load f x).
Proof. destruct x; [apply no_throw_gets|apply no_throw_fault]. Qed.

Lemma fh_no_throw_store (x : ptr) g : no_throw (FibHeap.store x g).
Proof. destruct x; [apply no_throw_modify|apply no_throw_fault]. Qed.

Ltac no_throw_tac :=
  repeat first
    [ apply no_throw_bind; [|intros ?]
    | apply no_throw_ret | apply no_throw_gets | apply no_throw_modify
    | apply no_throw_fault
    | apply bh_no_throw_load | apply bh_no_throw_store
    | apply fh_no_throw_load | apply fh_no_throw_store
    | apply no_throw_if
    | apply no_throw_loop; intros ? ].

Lemma fh_no_throw_insert_node (x : ptr) : no_throw (FibHeap.insert_node x).
Proof. unfold FibHeap.insert_node, FibHeap.compare_less. no_throw_tac. Qed.

Lemma fh_no_throw_cut (x y : ptr) : no_throw (FibHeap.cut x y).
Proof.
  unfold FibHeap.cut. no_throw_tac.
Qed.

Lemma fh_no_throw_cascading_cut (fuel : nat) (y : ptr) :
  no_throw (FibHeap.cascading_cut fuel y).
Proof.
  revert y. induction fuel as [|n IH]; intros y.
  - intros s w s'. discriminate.
  - cbn [FibHeap.cascading_cut]. no_throw_tac. apply IH.
Qed.

(** ** [decrease_key] and keys that would grow *)

(** C10: in both classes [decrease_key] with a new key above the node's key
    throws before it writes anything, so that the state the exception leaves
    is the state of the call; with a new key not above the node's key
    it does not throw. *)
Theorem decrease_key_guard
    (fuel : nat) (a : addr) (new_key : Z) (sb : Bheap.state) (sf : FibHeap.state) :
  (Bheap.key (Bheap.mem sb a) < new_key ->
     Bheap.decrease_key fuel (Some a) new_key sb
     = Throw "Bheap key can't be increased" sb)
  /\ (new_key <= Bheap.key (Bheap.mem sb a) ->
      forall w s', Bheap.decrease_key fuel (Some a) new_key sb <> Throw w s')
  /\ (FibHeap.key (FibHeap.mem sf a) < new_key ->
      FibHeap.decrease_key fuel (Some a) new_key sf
      = Throw "FibHeap key can't be increased" sf)
  /\ (new_key <= FibHeap.key (FibHeap.mem sf a) ->
      forall w s', FibHeap.decrease_key fuel (Some a) new_key sf <> Throw w s').
Proof.
  repeat split.
  - intros H. unfold Bheap.decrease_key, bind, Bheap.load, gets, throw.
    apply Z.ltb_lt in H. rewrite H. reflexivity.
  - intros H. unfold Bheap.decrease_key.
    change (bind (Bheap.load Bheap.key (Some a)) ?k sb)
      with (k (Bheap.key (Bheap.mem sb a)) sb).
    cbv beta. apply Z.ltb_ge in H. rewrite H.
    apply (no_throw_bind _ _); [apply bh_no_throw_store|intros _].
    unfold Bheap.compare_less. no_throw_tac.
  - intros H. unfold FibHeap.decrease_key, bind, FibHeap.load, gets, throw.
    apply Z.ltb_lt in H. rewrite H. reflexivity.
  - intros H. unfold FibHeap.decrease_key.
    change (bind (FibHeap.load FibHeap.key (Some a)) ?k sf)
      with (k (FibHeap.key (FibHeap.mem sf a)) sf).
    cbv beta. apply Z.ltb_ge in H. rewrite H.
    apply (no_throw_bind _ _); [apply fh_no_throw_store|intros _].
    unfold FibHeap.compare_less. no_throw_tac.
    apply fh_no_throw_cascading_cut.
Qed.

(** The heaps of the spec's example: one [insert] of the key 10, on node 0. *)
Definition bheap_10 : Bheap.state := final Bheap.init (Bheap.insert 8 10 Bheap.init).
Definition fib_10 : FibHeap.state := final FibHeap.init (FibHeap.insert 10 FibHeap.init).

Lemma decrease_key_guard_witness :
  Bheap.decrease_key 8 (Some 0%nat) 15 bheap_10
  = Throw "Bheap key can't be increased" bheap_10
  /\ (forall w s', Bheap.decrease_key 8 (Some 0%nat) 5 bheap_10 <> Throw w s')
  /\ FibHeap.decrease_key 8 (Some 0%nat) 15 fib_10
     = Throw "FibHeap key can't be increased" fib_10
  /\ (forall w s', FibHeap.decrease_key 8 (Some 0%nat) 5 fib_10 <> Throw w s').
Proof.
  destruct (decrease_key_guard 8 0%nat 15 bheap_10 fib_10) as (H1 & _ & H3 & _).
  destruct (decrease_key_guard 8 0%nat 5 bheap_10 fib_10) as (_ & H2 & _ & H4).
  split; [apply H1; reflexivity|].
  split; [apply H2; discriminate|].
  split; [apply H3; reflexivity|].
  apply H4; discriminate.
Defined.

(** * Sorting with the heaps *)

(** ** Forests of addresses *)

(** The shape of a heap: which node is whose child, in the order of the
    child list.  Keys, degrees and links are read from the memory. *)
#[local] Unset Elimination Schemes.
Inductive tree : Type := T (a : addr) (cs : list tree).
#[local] Set Elimination Schemes.

Definition root (t : tree) : addr := match t with T a _ => a end.
Definition kids (t : tree) : list tree := match t with T _ cs => cs end.

Fixpoint nodes (t : tree) : list addr :=
  match t with
  | T a cs => a :: flat_map nodes cs
  end.

Definition fnodes (f : list tree) : list addr := flat_map nodes f.

Lemma tree_ind' (P : tree -> Prop) :
  (forall a cs, Forall P cs -> P (T a cs)) -> forall t, P t.
Proof.
  intros H. fix IH 1. intros [a cs]. apply H.
  induction cs as [|c cs IHcs]; constructor; [apply IH|apply IHcs].
Qed.

Lemma root_in_nodes t : root t ∈ nodes t.
Proof. destruct t; cbn. left. Qed.

Lemma fnodes_app f1 f2 : fnodes (f1 ++ f2) = fnodes f1 ++ fnodes f2.
Proof. apply flat_map_app. Qed.

Lemma fnodes_cons t f : fnodes (t :: f) = nodes t ++ fnodes f.
Proof. reflexivity. Qed.

Lemma roots_in_fnodes f a : a ∈ map root f -> a ∈ fnodes f.
Proof.
  induction f as [|t f IH]; cbn; intros H; [inversion H|].
  apply elem_of_cons in H as [->|H]; apply elem_of_app;
    [left; apply root_in_nodes|right; auto].
Qed.

Lemma fnodes_perm f1 f2 : f1 ≡ₚ f2 -> fnodes f1 ≡ₚ fnodes f2.
Proof.
  induction 1; cbn; auto.
  - apply Permutation_app; auto.
  - rewrite !app_assoc. apply Permutation_app; auto. apply Permutation_app_comm.
  - etransitivity; eauto.
Qed.

(** Every key of a heap-ordered tree is at least the root's. *)
Fixpoint ho (k : addr -> Z) (t : tree) : Prop :=
  match t with
  | T a cs => fold_right (fun c P => k a <= k (root c) /\ ho k c /\ P) True cs
  end.

Lemma ho_T k a cs :
  ho k (T a cs) <-> Forall (fun c => k a <= k (root c) /\ ho k c) cs.
Proof.
  cbn. induction cs as [|c cs IH]; cbn.
  - split; auto.
  - rewrite Forall_cons, <- IH. tauto.
Qed.

Lemma ho_root_min k t : ho k t -> Forall (fun a => k (root t) <= k a) (nodes t).
Proof.
  induction t as [a cs IH] using tree_ind'. rewrite ho_T. intros H.
  cbn. constructor; [lia|].
  induction cs as [|c cs IHcs]; cbn; [constructor|].
  apply Forall_cons in H as [[Hle Hc] H]. apply Forall_cons in IH as [IHc IH].
  apply Forall_app. split; [|auto].
  eapply Forall_impl; [apply IHc, Hc|]. cbn. intros; lia.
Qed.

Lemma ho_ext k k' t : (forall a, a ∈ nodes t -> k' a = k a) -> ho k t -> ho k' t.
Proof.
  induction t as [a cs IH] using tree_ind'. rewrite !ho_T. intros Hk H.
  assert (Ha : k' a = k a) by (apply Hk; left).
  assert (Hcs : forall b, b ∈ flat_map nodes cs -> k' b = k b)
    by (intros b Hb; apply Hk; right; exact Hb).
  clear Hk. induction cs as [|c cs IHcs]; [constructor|].
  apply Forall_cons in H as [[Hle Hc] H]. apply Forall_cons in IH as [IHc IH].
  cbn in Hcs. constructor.
  - split.
    + rewrite Ha, Hcs; [exact Hle|]. apply elem_of_app. left. apply root_in_nodes.
    + apply IHc; [|exact Hc]. intros b Hb. apply Hcs, elem_of_app. auto.
  - apply IHcs; auto. intros b Hb. apply Hcs, elem_of_app. auto.
Qed.

(** The nodes of a forest that are not roots. *)
Definition inner (f : list tree) : list addr :=
  flat_map (fun t => flat_map nodes (kids t)) f.

Lemma fnodes_roots_inner f : fnodes f ≡ₚ map root f ++ inner f.
Proof.
  induction f as [|[a cs] f IH]; cbn; [reflexivity|].
  constructor. rewrite IH.
  rewrite !app_assoc. apply Permutation_app_tail, Permutation_app_comm.
Qed.

Lemma inner_app f1 f2 : inner (f1 ++ f2) = inner f1 ++ inner f2.
Proof. apply flat_map_app. Qed.

Lemma inner_in_fnodes f b : b ∈ inner f -> b ∈ fnodes f.
Proof. rewrite fnodes_roots_inner. intros H. apply elem_of_app. auto. Qed.

Lemma inner_not_root f b : NoDup (fnodes f) -> b ∈ inner f -> b ∉ map root f.
Proof.
  rewrite fnodes_roots_inner. intros H Hb Hr.
  apply NoDup_app in H as (_ & H & _). exact (H b Hr Hb).
Qed.

Lemma nodes_T a cs : nodes (T a cs) = a :: fnodes cs.
Proof. reflexivity. Qed.

Lemma ho_forest_min k f :
  Forall (ho k) f ->
  forall a, a ∈ fnodes f -> exists t, t ∈ f /\ k (root t) <= k a.
Proof.
  induction f as [|t f IH]; cbn; intros H a Ha; [inversion Ha|].
  apply Forall_cons in H as [Ht H]. apply elem_of_app in Ha as [Ha|Ha].
  - exists t. split; [left|].
    apply ho_root_min in Ht. rewrite Forall_forall in Ht. apply Ht, Ha.
  - destruct (IH H a Ha) as (t' & Ht' & Hle). exists t'. split; [right|]; auto.
Qed.

Lemma roots_NoDup f : NoDup (fnodes f) -> NoDup (map root f).
Proof.
  rewrite fnodes_roots_inner. intros H. apply NoDup_app in H. tauto.
Qed.

Lemma fnodes_link (f1 f2 : list tree) (a b : addr) (ca cb : list tree) :
  fnodes (f1 ++ T a (T b cb :: ca) :: f2) ≡ₚ fnodes (f1 ++ T a ca :: T b cb :: f2).
Proof.
  rewrite !fnodes_app, !fnodes_cons, !nodes_T, fnodes_cons, nodes_T.
  apply Permutation_app_head. cbn. constructor.
  rewrite <- (Permutation_middle (fnodes ca)). constructor.
  rewrite (Permutation_app_comm (fnodes cb)), <- app_assoc. reflexivity.
Qed.

Lemma fnodes_link' (f1 f2 : list tree) (a b : addr) (ca cb : list tree) :
  fnodes (f1 ++ T b (T a ca :: cb) :: f2) ≡ₚ fnodes (f1 ++ T a ca :: T b cb :: f2).
Proof.
  rewrite !fnodes_app, !fnodes_cons, !nodes_T, fnodes_cons, nodes_T.
  apply Permutation_app_head. cbn.
  rewrite <- (Permutation_middle (fnodes ca)).
  rewrite (perm_swap a b). do 2 constructor.
  rewrite <- app_assoc. reflexivity.
Qed.

Lemma ho_forest_frame (k k' : addr -> Z) (f : list tree) :
  (forall a, a ∈ fnodes f -> k' a = k a) -> Forall (ho k) f -> Forall (ho k') f.
Proof.
  induction f as [|t f IH]; intros Hk H; [constructor|].
  apply Forall_cons in H as [Ht H]. rewrite fnodes_cons in Hk. constructor.
  - eapply ho_ext; [|exact Ht]. intros a Ha. apply Hk, elem_of_app. auto.
  - apply IH; [|exact H]. intros a Ha. apply Hk, elem_of_app. auto.
Qed.

(** ** Binomial heap: memory *)

Section BheapMem.
Import Bheap.

Lemma bh_upd_same a f (m : addr -> BheapNode) : upd a f m a = f (m a).
Proof. unfold upd. rewrite Nat.eqb_refl. reflexivity. Qed.

Lemma bh_upd_other a b f (m : addr -> BheapNode) : b <> a -> upd a f m b = m b.
Proof. unfold upd. intros H. destruct (Nat.eqb_spec b a); [contradiction|reflexivity]. Qed.

Lemma bh_upd_frame {A} (fld : BheapNode -> A) a g (m : addr -> BheapNode) b :
  (forall n, fld (g n) = fld n) -> fld (upd a g m b) = fld (m b).
Proof.
  intros H. unfold upd. destruct (Nat.eqb_spec b a) as [->|_]; [apply H|reflexivity].
Qed.

Lemma bh_p_upd a g m b : (forall n, p (g n) = p n) -> p (upd a g m b) = p (m b).
Proof. apply bh_upd_frame. Qed.
Lemma bh_child_upd a g m b :
  (forall n, child (g n) = child n) -> child (upd a g m b) = child (m b).
Proof. apply bh_upd_frame. Qed.
Lemma bh_sibling_upd a g m b :
  (forall n, sibling (g n) = sibling n) -> sibling (upd a g m b) = sibling (m b).
Proof. apply bh_upd_frame. Qed.
Lemma bh_degree_upd a g m b :
  (forall n, degree (g n) = degree n) -> degree (upd a g m b) = degree (m b).
Proof. apply bh_upd_frame. Qed.
Lemma bh_key_upd a g m b :
  (forall n, key (g n) = key n) -> key (upd a g m b) = key (m b).
Proof. apply bh_upd_frame. Qed.

Lemma bh_wp_load {A} (f : BheapNode -> A) (x : ptr) (a : addr) Q s :
  x = Some a -> Q (f (mem s a)) s -> wp (load f x) Q s.
Proof. intros ->. exact id. Qed.

Lemma bh_wp_store (g : BheapNode -> BheapNode) (x : ptr) (a : addr) Q s :
  x = Some a -> Q tt (with_mem (upd a g) s) -> wp (store x g) Q s.
Proof. intros ->. exact id. Qed.

End BheapMem.

Ltac bh_frame :=
  first [ rewrite bh_p_upd by (intros; reflexivity)
        | rewrite bh_child_upd by (intros; reflexivity)
        | rewrite bh_sibling_upd by (intros; reflexivity)
        | rewrite bh_degree_upd by (intros; reflexivity)
        | rewrite bh_key_upd by (intros; reflexivity) ].

Ltac bh_cbn :=
  progress cbn [Bheap.mem Bheap.brk Bheap.head Bheap._size
                Bheap.with_mem Bheap.set_head Bheap.set_size
                Bheap.p Bheap.child Bheap.sibling Bheap.degree Bheap.key
                Bheap.set_p Bheap.set_child Bheap.set_sibling
                Bheap.set_degree Bheap.set_key
                Bheap.new_head Bheap.prev_x Bheap.x Bheap.next_x
                Bheap.sx Bheap.sprev_x Bheap.smin Bheap.sprev_min
                is_null ptr_eqb negb].

Ltac bh_simpl :=
  repeat first
    [ bh_cbn
    | bh_frame
    | rewrite bh_upd_same
    | rewrite bh_upd_other by (first [ assumption | congruence | lia ]) ].

Ltac bh_step :=
  lazymatch goal with
  | |- wp (Bheap.load _ _) _ _ =>
      eapply bh_wp_load; [ first [ reflexivity | eassumption ] | ]
  | |- wp (Bheap.store _ _) _ _ =>
      eapply bh_wp_store; [ first [ reflexivity | eassumption ] | ]
  | |- _ => wp_pure
  end;
  bh_simpl.

Ltac rew_hyp :=
  match goal with
  | H : ?t = Some _ |- context [?t] => rewrite H
  | H : ?t = None |- context [?t] => rewrite H
  end.

Ltac bh_go := repeat first [ bh_step | rew_hyp; bh_simpl ].

(** ** Binomial heap: the shape in memory *)

Section BheapRep.
Import Bheap.
Implicit Types (m : addr -> BheapNode) (s : state) (x y : ptr) (l : list addr).

(** The [sibling] links lead from [x] through the nodes [l] to [y]. *)
Fixpoint lseg m x l y : Prop :=
  match l with
  | [] => x = y
  | a :: l' => x = Some a /\ lseg m (sibling (m a)) l' y
  end.

Lemma lseg_app m x l1 l2 z :
  lseg m x (l1 ++ l2) z <-> exists y, lseg m x l1 y /\ lseg m y l2 z.
Proof.
  revert x. induction l1 as [|a l1 IH]; intros x; cbn.
  - split; [eauto|]. intros (y & -> & H). exact H.
  - rewrite IH. split.
    + intros (-> & y & H1 & H2). eauto.
    + intros (y & (-> & H1) & H2). eauto.
Qed.

Lemma lseg_frame m m' x l y :
  (forall a, a ∈ l -> sibling (m' a) = sibling (m a)) ->
  lseg m x l y -> lseg m' x l y.
Proof.
  revert x. induction l as [|a l IH]; intros x Hm; cbn; [auto|].
  intros (-> & H). split; [reflexivity|].
  rewrite Hm by left. apply IH; [|exact H].
  intros b Hb. apply Hm. right. exact Hb.
Qed.

Lemma lseg_snoc m x l a y :
  lseg m x (l ++ [a]) y <-> lseg m x l (Some a) /\ sibling (m a) = y.
Proof.
  rewrite lseg_app. cbn. split.
  - intros (z & H1 & -> & H2). auto.
  - intros (H1 & H2). eauto.
Qed.

(** The child list of every node of [t] is laid out as its [sibling] chain. *)
Fixpoint wf m (t : tree) : Prop :=
  match t with
  | T a cs =>
      lseg m (child (m a)) (map root cs) None
      /\ fold_right (fun c P => wf m c /\ P) True cs
  end.

Lemma wf_T m a cs :
  wf m (T a cs) <-> lseg m (child (m a)) (map root cs) None /\ Forall (wf m) cs.
Proof.
  cbn. enough (fold_right (fun c P => wf m c /\ P) True cs <-> Forall (wf m) cs)
    by tauto.
  induction cs as [|c cs IH]; cbn.
  - split; auto.
  - rewrite Forall_cons, IH. tauto.
Qed.

Lemma wf_frame m m' t :
  (forall b, b ∈ nodes t -> child (m' b) = child (m b)) ->
  (forall b, b ∈ flat_map nodes (kids t) -> sibling (m' b) = sibling (m b)) ->
  wf m t -> wf m' t.
Proof.
  induction t as [a cs IH] using tree_ind'. rewrite !wf_T. cbn [kids].
  intros Hc Hs [Hl Hcs]. split.
  - rewrite Hc by left. eapply lseg_frame; [|exact Hl].
    intros b Hb. apply Hs. apply (roots_in_fnodes cs), Hb.
  - assert (Hc' : forall b, b ∈ flat_map nodes cs -> child (m' b) = child (m b))
      by (intros b Hb; apply Hc; right; exact Hb).
    clear Hc Hl. induction cs as [|c cs IHcs]; [constructor|].
    apply Forall_cons in Hcs as [Hwc Hcs]. apply Forall_cons in IH as [IHc IH].
    cbn in Hs, Hc'. constructor.
    + apply IHc; [| |exact Hwc].
      * intros b Hb. apply Hc', elem_of_app. auto.
      * intros b Hb. apply Hs, elem_of_app. left.
        destruct c as [c0 ccs]. right. exact Hb.
    + apply IHcs; auto.
      * intros b Hb. apply Hs, elem_of_app. auto.
      * intros b Hb. apply Hc', elem_of_app. auto.
Qed.

End BheapRep.

Section BheapForest.
Import Bheap.
Implicit Types (m : addr -> BheapNode) (s : state).

Definition keyf s : addr -> Z := fun a => key (mem s a).

Lemma wf_forest_frame m m' (F : list tree) :
  (forall b, b ∈ fnodes F -> child (m' b) = child (m b)) ->
  (forall b, b ∈ inner F -> sibling (m' b) = sibling (m b)) ->
  Forall (wf m) F -> Forall (wf m') F.
Proof.
  induction F as [|t F IH]; intros Hc Hs H; [constructor|].
  apply Forall_cons in H as [Ht H]. cbn in Hc, Hs. constructor.
  - eapply wf_frame; [| |exact Ht].
    + intros b Hb. apply Hc, elem_of_app. auto.
    + intros b Hb. apply Hs, elem_of_app. auto.
  - apply IH; auto.
    + intros b Hb. apply Hc, elem_of_app. auto.
    + intros b Hb. apply Hs, elem_of_app. auto.
Qed.

Lemma ho_forest_ext (k k' : addr -> Z) (F : list tree) :
  (forall a, k' a = k a) -> Forall (ho k) F -> Forall (ho k') F.
Proof.
  intros Hk H. eapply Forall_impl; [exact H|]. intros t. apply ho_ext. auto.
Qed.

End BheapForest.

Section BheapLink.
Import Bheap.
Implicit Types (m : addr -> BheapNode) (s : state).

(** Making [ay] the leftmost child of [az]. *)
Lemma link_shape m m' (ay az : addr) (cy cz : list tree) :
  wf m (T ay cy) -> wf m (T az cz) ->
  child (m' az) = Some ay -> sibling (m' ay) = child (m az) ->
  (forall b, b ∈ ay :: fnodes cy ++ fnodes cz -> child (m' b) = child (m b)) ->
  (forall b, b ∈ fnodes cy ++ fnodes cz -> sibling (m' b) = sibling (m b)) ->
  wf m' (T az (T ay cy :: cz)).
Proof.
  rewrite !wf_T. intros [Hy Hcy] [Hz Hcz] Hc Hs Hfc Hfs. cbn [map root].
  split.
  - split; [exact Hc|]. rewrite Hs. eapply lseg_frame; [|exact Hz].
    intros b Hb. apply Hfs, elem_of_app. right. apply roots_in_fnodes, Hb.
  - constructor.
    + apply wf_T. split.
      * rewrite Hfc by left. eapply lseg_frame; [|exact Hy].
        intros b Hb. apply Hfs, elem_of_app. left. apply roots_in_fnodes, Hb.
      * eapply wf_forest_frame; [| |exact Hcy].
        -- intros b Hb. apply Hfc. right. apply elem_of_app. auto.
        -- intros b Hb. apply Hfs, elem_of_app. left. apply inner_in_fnodes, Hb.
    + eapply wf_forest_frame; [| |exact Hcz].
      * intros b Hb. apply Hfc. right. apply elem_of_app. auto.
      * intros b Hb. apply Hfs, elem_of_app. right. apply inner_in_fnodes, Hb.
Qed.

End BheapLink.

Ltac nodup_dec :=
  repeat match goal with
  | H : NoDup (_ ++ _) |- _ => apply NoDup_app in H as (? & ? & ?)
  | H : NoDup (_ :: _) |- _ => apply NoDup_cons in H as (? & ?)
  end.

Section BheapMerge.
Import Bheap.
Implicit Types (m : addr -> BheapNode) (s : state) (x y : ptr) (l : list addr).

(** What [merge_heads] and the scan leave alone: keys everywhere, [child]
    outside [Xc] and [sibling] outside [Xs]. *)
Definition frame (Xc Xs : list addr) (s s' : state) : Prop :=
  brk s' = brk s /\ _size s' = _size s
  /\ (forall b, key (mem s' b) = key (mem s b))
  /\ (forall b, b ∉ Xc -> child (mem s' b) = child (mem s b))
  /\ (forall b, b ∉ Xs -> sibling (mem s' b) = sibling (mem s b)).

Lemma frame_refl Xc Xs s : frame Xc Xs s s.
Proof. unfold frame. auto. Qed.

Lemma frame_trans Xc Xs s1 s2 s3 :
  frame Xc Xs s1 s2 -> frame Xc Xs s2 s3 -> frame Xc Xs s1 s3.
Proof.
  unfold frame. intros (?&?&Hk&Hc&Hs) (?&?&Hk'&Hc'&Hs').
  split; [congruence|]. split; [congruence|]. split; [|split].
  - intros b. rewrite Hk', Hk. reflexivity.
  - intros b Hb. rewrite Hc', Hc by exact Hb. reflexivity.
  - intros b Hb. rewrite Hs', Hs by exact Hb. reflexivity.
Qed.

Lemma find_place_spec fuel s (b a : addr) (post : list addr) :
  lseg (mem s) (sibling (mem s a)) post None ->
  (length post < fuel)%nat ->
  wp (find_place fuel (Some b) (Some a))
     (fun ip s' => s' = s /\ exists mid a' post',
          a :: post = mid ++ a' :: post' /\ ip = Some a') s.
Proof.
  intros Hl Hfuel. unfold find_place.
  apply (wp_loop
           (fun n ip s' => s' = s /\ exists mid a' post',
                a :: post = mid ++ a' :: post' /\ ip = Some a'
                /\ n = length post')) with (n := length post); [|eauto 10|exact Hfuel].
  - intros n ip s' (-> & mid & a' & post' & E & -> & ->).
    assert (Hp : lseg (mem s) (sibling (mem s a')) post' None).
    { assert (H0 : lseg (mem s) (Some a) (a :: post) None) by (split; auto).
      rewrite E in H0. apply lseg_app in H0 as (y & _ & Hy).
      destruct Hy as [_ Hy]. exact Hy. }
    bh_step. bh_step.
    destruct post' as [|c post'']; cbn in Hp.
    + rewrite Hp. bh_simpl. bh_step. split; [reflexivity|]. eauto.
    + destruct Hp as [Hc Hp]. rewrite Hc. bh_simpl. bh_go.
      destruct (_ <? _); bh_step.
      * exists (length post''). split; [cbn; lia|]. split; [reflexivity|].
        exists (mid ++ [a']), c, post''. rewrite <- app_assoc. auto.
      * split; [reflexivity|]. eauto.
  - split; [reflexivity|]. exists [], a, post. auto.
Qed.

Lemma merge_loop_spec fuel s (nh ins : ptr) (a0 : addr) lA lB :
  lseg (mem s) nh (a0 :: lA) None -> lseg (mem s) ins lB None ->
  NoDup ((a0 :: lA) ++ lB) -> (length ((a0 :: lA) ++ lB) < fuel)%nat ->
  wp (loop fuel (merge_step fuel) (nh, ins))
     (fun _ s' => exists l', l' ≡ₚ (a0 :: lA) ++ lB /\ l' <> []
                  /\ lseg (mem s') nh l' None
                  /\ head s' = head s /\ frame [] ((a0 :: lA) ++ lB) s s') s.
Proof.
  intros HlA HlB Hnd Hfuel.
  apply (wp_loop
    (fun n c s' => exists pre a post r,
         c.1 = Some a /\ lseg (mem s') nh pre (Some a)
         /\ lseg (mem s') (sibling (mem s' a)) post None
         /\ lseg (mem s') c.2 r None
         /\ (pre ++ a :: post) ++ r ≡ₚ (a0 :: lA) ++ lB
         /\ head s' = head s /\ frame [] ((a0 :: lA) ++ lB) s s'
         /\ n = length r)) with (n := length lB);
    [| |rewrite length_app in Hfuel; lia].
  - intros n [ip ins'] s1 (pre & a & post & r & Hip & Hpre & Hpost & Hr & Hperm & Hhd & Hfr & ->).
    cbn [fst snd] in *. subst ip. unfold merge_step.
    assert (Hnd1 : NoDup ((pre ++ a :: post) ++ r)) by (rewrite Hperm; exact Hnd).
    assert (Hlen : length ((pre ++ a :: post) ++ r) = length ((a0 :: lA) ++ lB))
      by (rewrite Hperm; reflexivity).
    destruct r as [|b r]; cbn in Hr.
    + subst ins'. bh_simpl. bh_step.
      exists (pre ++ a :: post). rewrite app_nil_r in Hperm.
      split; [exact Hperm|]. split; [destruct pre; discriminate|].
      split; [|auto]. apply lseg_app. exists (Some a). split; [exact Hpre|].
      split; auto.
    + destruct Hr as [-> Hr]. bh_simpl. bh_step.
      eapply wp_mono.
      { apply (find_place_spec fuel s1 b a post Hpost).
        rewrite !length_app in *. cbn [length] in *. lia. }
      cbv beta. intros ip s2 (-> & mid & a' & post' & E & ->).
      assert (Hsplit : lseg (mem s1) nh (pre ++ mid) (Some a')
                       /\ lseg (mem s1) (sibling (mem s1 a')) post' None).
      { assert (H0 : lseg (mem s1) (Some a) (a :: post) None) by (split; auto).
        rewrite E in H0. apply lseg_app in H0 as (y & Hmid & Hy).
        destruct Hy as [-> Hy]. split; [|exact Hy].
        apply lseg_app. eauto. }
      destruct Hsplit as [Hpre' Hpost'].
      assert (E' : pre ++ a :: post = (pre ++ mid) ++ a' :: post')
        by (rewrite <- app_assoc, <- E; reflexivity).
      rewrite E' in Hnd1, Hperm, Hlen. clear E E' Hpre Hpost.
      set (pre' := pre ++ mid) in *. clearbody pre'. clear pre mid.
      assert (Hnd2 := Hnd1). nodup_dec.
      assert (Hab : a' <> b) by set_solver.
      assert (Hb1 : b ∉ pre') by set_solver.
      assert (Ha1 : a' ∉ pre') by set_solver.
      assert (Hb3 : b ∉ post') by set_solver.
      assert (Ha3 : a' ∉ post') by set_solver.
      assert (Ha4 : a' ∉ r) by set_solver.
      assert (Hb4 : b ∉ r) by set_solver.
      bh_go.
      exists (length r). split; [cbn; lia|].
      exists pre', a', (b :: post'), r. cbn [fst snd]. bh_simpl.
      split; [reflexivity|].
      split; [eapply lseg_frame; [|exact Hpre']; intros c Hc; bh_simpl;
              reflexivity|].
      split.
      { split; [reflexivity|]. bh_simpl.
        eapply lseg_frame; [|exact Hpost']. intros c Hc. bh_simpl.
        reflexivity. }
      split.
      { eapply lseg_frame; [|exact Hr]. intros c Hc. bh_simpl.
        reflexivity. }
      split.
      { rewrite <- Hperm. rewrite <- !app_assoc. cbn.
        apply Permutation_app_head. constructor.
        rewrite (Permutation_middle post' r b). reflexivity. }
      split; [exact Hhd|]. split; [|reflexivity].
      eapply frame_trans; [exact Hfr|]. unfold frame. bh_simpl.
      split; [reflexivity|]. split; [reflexivity|]. split; [|split].
      * intros c. bh_simpl. reflexivity.
      * intros c _. bh_simpl. reflexivity.
      * intros c Hc. bh_simpl.
        assert (c <> b) by (intros ->; apply Hc; rewrite <- Hperm; set_solver).
        assert (c <> a') by (intros ->; apply Hc; rewrite <- Hperm; set_solver).
        bh_simpl. reflexivity.
  - exists [], a0, lA, lB. cbn [fst snd]. destruct HlA as [-> HlA].
    split; [reflexivity|]. split; [reflexivity|]. split; [exact HlA|].
    split; [exact HlB|]. split; [reflexivity|]. split; [reflexivity|].
    split; [apply frame_refl|reflexivity].
Qed.

Lemma frame_weaken Xc Xs Xc' Xs' s s' :
  (forall b, b ∈ Xc -> b ∈ Xc') -> (forall b, b ∈ Xs -> b ∈ Xs') ->
  frame Xc Xs s s' -> frame Xc' Xs' s s'.
Proof.
  unfold frame. intros H1 H2 (?&?&?&Hc&Hs). repeat split; auto.
Qed.

Lemma merge_heads_spec fuel s (h2 : ptr) (a1 a2 : addr) l1 l2 :
  lseg (mem s) (head s) (a1 :: l1) None -> lseg (mem s) h2 (a2 :: l2) None ->
  NoDup ((a1 :: l1) ++ a2 :: l2) ->
  (length ((a1 :: l1) ++ a2 :: l2) < fuel)%nat ->
  wp (merge_heads fuel (head s) h2)
     (fun nh s' => exists l', l' ≡ₚ (a1 :: l1) ++ a2 :: l2 /\ l' <> []
                   /\ lseg (mem s') nh l' None
                   /\ head s' = head s
                   /\ frame [] ((a1 :: l1) ++ a2 :: l2) s s') s.
Proof.
  intros H1 H2 Hnd Hfuel. unfold merge_heads.
  assert (Hh1 : head s = Some a1) by apply H1.
  assert (Hh2 : h2 = Some a2) by apply H2.
  bh_go.
  destruct (_ >? _).
  - bh_step. eapply wp_mono.
    + apply (merge_loop_spec fuel s (Some a2) (Some a1) a2 l2 (a1 :: l1)).
      * rewrite <- Hh2. exact H2.
      * rewrite <- Hh1. exact H1.
      * rewrite (Permutation_app_comm (a2 :: l2) (a1 :: l1)). exact Hnd.
      * rewrite length_app in *. lia.
    + cbv beta. intros _ s' (l' & Hp & Hne & Hl & Hhd & Hfr). bh_step.
      exists l'. split; [rewrite Hp; apply Permutation_app_comm|].
      split; [exact Hne|]. split; [exact Hl|]. split; [congruence|].
      eapply frame_weaken; [| |exact Hfr]; [auto|].
      intros b Hb. rewrite elem_of_app in *. tauto.
  - bh_step. eapply wp_mono.
    + apply (merge_loop_spec fuel s (Some a1) (Some a2) a1 l1 (a2 :: l2)).
      * rewrite <- Hh1. exact H1.
      * rewrite <- Hh2. exact H2.
      * exact Hnd.
      * exact Hfuel.
    + cbv beta. intros _ s' (l' & Hp & Hne & Hl & Hhd & Hfr). bh_step.
      exists l'. split; [exact Hp|]. split; [exact Hne|]. split; [exact Hl|].
      split; [congruence|exact Hfr].
Qed.

End BheapMerge.

Section BheapScan.
Import Bheap.
Implicit Types (m : addr -> BheapNode) (s : state) (F : list tree).

(** The scan of [add_heap_head] at the root [x]: the roots before it, its
    tree and the roots after it. *)
Definition scan_inv (s : state) (N : list addr) (n : nat) (c : scan) (s' : state) : Prop :=
  exists Fpre tx Fpost,
    x c = Some (root tx)
    /\ next_x c = sibling (mem s' (root tx))
    /\ lseg (mem s') (new_head c) (map root Fpre) (Some (root tx))
    /\ lseg (mem s') (sibling (mem s' (root tx))) (map root Fpost) None
    /\ match prev_x c with
       | None => Fpre = []
       | Some q => exists Fp tq, Fpre = Fp ++ [tq] /\ root tq = q
       end
    /\ Forall (wf (mem s')) (Fpre ++ tx :: Fpost)
    /\ Forall (ho (keyf s')) (Fpre ++ tx :: Fpost)
    /\ NoDup (fnodes (Fpre ++ tx :: Fpost))
    /\ fnodes (Fpre ++ tx :: Fpost) ≡ₚ N
    /\ brk s' = brk s /\ _size s' = _size s /\ head s' = head s
    /\ (forall b, key (mem s' b) = key (mem s b))
    /\ n = length Fpost.

Definition scan_post (s : state) (N : list addr) (nh : ptr) (s' : state) : Prop :=
  exists F', lseg (mem s') nh (map root F') None
    /\ Forall (wf (mem s')) F' /\ Forall (ho (keyf s')) F'
    /\ NoDup (fnodes F') /\ fnodes F' ≡ₚ N /\ F' <> []
    /\ brk s' = brk s /\ _size s' = _size s /\ head s' = head s
    /\ (forall b, key (mem s' b) = key (mem s b)).

Lemma scan_step_spec s N n c s' :
  scan_inv s N n c s' ->
  wp (scan_step c)
     (fun r s'' => match r with
                   | inl c' => exists n', (n' < n)%nat /\ scan_inv s N n' c' s''
                   | inr nh => scan_post s N nh s''
                   end) s'.
Proof.
  intros (Fpre & tx & Fpost & Hx & Hnx & Hpre & Hpost & Hprev & Hwf & Hho & Hnd
          & Hperm & Hbrk & Hsz & Hhd & Hkey & ->).
  unfold scan_step. rewrite Hnx.
  destruct Fpost as [|tn Fpost]; cbn in Hpost.
  - rewrite Hpost. bh_simpl. bh_step.
    exists (Fpre ++ [tx]). rewrite map_app. cbn.
    split; [apply lseg_snoc; auto|]. repeat split; auto.
    destruct Fpre; discriminate.
  - destruct Hpost as [Hn Hpost]. rewrite Hn. bh_simpl.
    destruct tx as [ax cx], tn as [an cn]. cbn [root] in *.
    destruct c as [nh pv xx nx]. cbn [new_head prev_x x next_x] in *. subst xx.
    clear Hnx.
    (* what the shape says about the addresses *)
    assert (Hnd' := Hnd). rewrite fnodes_app, !fnodes_cons, !nodes_T in Hnd'.
    nodup_dec.
    assert (Hxn : ax <> an) by set_solver.
    bh_step. bh_step. bh_step. bh_step. bh_step. bh_step. bh_step.
    eapply wp_mono with (Q := fun _ s'' => s'' = s').
    { destruct (negb _); [bh_step; reflexivity|].
      destruct (sibling (mem s' an)) as [nn|]; bh_simpl; [|bh_step; reflexivity].
      bh_go. reflexivity. }
    cbv beta. intros advance s'' ->. apply wp_bind.
    destruct advance.
    + (* case 1 and 2: advance *)
      bh_go. exists (length Fpost). split; [cbn; lia|].
      exists (Fpre ++ [T ax cx]), (T an cn), Fpost.
      cbn [new_head prev_x x next_x root]. rewrite <- !app_assoc, map_app. cbn.
      split; [reflexivity|]. split; [reflexivity|].
      split; [apply lseg_snoc; auto|]. split; [exact Hpost|].
      split; [eexists _, _; split; reflexivity|].
      repeat split; auto.
    + assert (Hwf' := Hwf). rewrite Forall_app, !Forall_cons in Hwf'.
      destruct Hwf' as (Hwpre & Hwx & Hwn & Hwpost).
      assert (Hho' := Hho). rewrite Forall_app, !Forall_cons in Hho'.
      destruct Hho' as (Hhpre & Hhx & Hhn & Hhpost).
      assert (Fx1 : ax ∉ fnodes Fpre) by set_solver.
      assert (Fn1 : an ∉ fnodes Fpre) by set_solver.
      assert (Fx2 : ax ∉ fnodes cn) by set_solver.
      assert (Fn2 : an ∉ fnodes cx) by set_solver.
      assert (Fx3 : ax ∉ fnodes Fpost) by set_solver.
      assert (Fn3 : an ∉ fnodes Fpost) by set_solver.
      unfold compare_less, link_nodes. bh_go.
      destruct (key (mem s' ax) <? key (mem s' an)) eqn:Hlt.
      * (* case 3: [next_x] under [x] *)
        apply Z.ltb_lt in Hlt. bh_go.
        exists (length Fpost). split; [cbn; lia|].
        exists Fpre, (T ax (T an cn :: cx)), Fpost.
        cbn [new_head prev_x x next_x root]. bh_simpl.
        split; [reflexivity|]. split; [reflexivity|].
        split.
        { eapply lseg_frame; [|exact Hpre]. intros b Hb.
          apply roots_in_fnodes in Hb. bh_simpl. reflexivity. }
        split.
        { eapply lseg_frame; [|exact Hpost]. intros b Hb.
          apply roots_in_fnodes in Hb. bh_simpl. reflexivity. }
        split; [exact Hprev|].
        split.
        { rewrite Forall_app, Forall_cons. split; [|split].
          - eapply wf_forest_frame; [| |exact Hwpre]; intros b Hb;
              [|apply inner_in_fnodes in Hb]; bh_simpl; reflexivity.
          - apply (link_shape (mem s')); auto; bh_simpl; auto.
            + intros b Hb. bh_simpl.
              assert (b <> ax) by set_solver. bh_simpl. reflexivity.
            + intros b Hb. bh_simpl.
              assert (b <> ax) by set_solver. assert (b <> an) by set_solver.
              bh_simpl. reflexivity.
          - eapply wf_forest_frame; [| |exact Hwpost]; intros b Hb;
              [|apply inner_in_fnodes in Hb]; bh_simpl; reflexivity. }
        split.
        { eapply ho_forest_ext with (k := keyf s').
          { intros b. unfold keyf. bh_simpl. reflexivity. }
          rewrite Forall_app, Forall_cons. split; [exact Hhpre|].
          split; [|exact Hhpost].
          apply ho_T. constructor; [split; [unfold keyf; cbn; lia|exact Hhn]|].
          apply ho_T, Hhx. }
        split; [rewrite fnodes_link; exact Hnd|].
        split; [rewrite fnodes_link; exact Hperm|].
        repeat split; auto. intros b. bh_simpl. apply Hkey.
      * (* case 4: [x] under [next_x] *)
        apply Z.ltb_ge in Hlt.
        assert (Hfin : forall (nh0 : ptr) (s1 : state),
          lseg (mem s1) nh0 (map root Fpre) (Some an) ->
          (forall b, b ∉ map root Fpre -> mem s1 b = mem s' b) ->
          (forall b, child (mem s1 b) = child (mem s' b)) ->
          (forall b, key (mem s1 b) = key (mem s' b)) ->
          brk s1 = brk s' -> _size s1 = _size s' -> head s1 = head s' ->
          wp (link_nodes (Some ax) (Some an) ;;
              ret {| new_head := nh0; prev_x := pv; x := Some an;
                     next_x := Some an |})
             (fun a s'0 =>
                wp (nx0 <- load sibling (x a) ;;
                    ret (inl {| new_head := new_head a; prev_x := prev_x a;
                                x := x a; next_x := nx0 |}))
                   (fun r s'' =>
                      match r with
                      | inl c' => exists n', (n' < length (T an cn :: Fpost))%nat
                                             /\ scan_inv s N n' c' s''
                      | inr nh1 => scan_post s N nh1 s''
                      end) s'0) s1).
        { intros nh0 s1 Hpre1 Hsame Hch1 Hk1 Hbrk1 Hsz1 Hhd1.
          assert (Hrx : ax ∉ map root Fpre)
            by (intros Hin; apply roots_in_fnodes in Hin; contradiction).
          assert (Hrn : an ∉ map root Fpre)
            by (intros Hin; apply roots_in_fnodes in Hin; contradiction).
          unfold link_nodes. bh_go.
          exists (length Fpost). split; [cbn; lia|].
          exists Fpre, (T an (T ax cx :: cn)), Fpost.
          cbn [new_head prev_x x next_x root]. bh_simpl.
          split; [reflexivity|]. split; [reflexivity|].
          split.
          { eapply lseg_frame; [|exact Hpre1]. intros b Hb.
            bh_simpl. reflexivity. }
          split.
          { rewrite (Hsame an Hrn).
            eapply lseg_frame; [|exact Hpost]. intros b Hb.
            apply roots_in_fnodes in Hb. bh_simpl.
            rewrite Hsame; [reflexivity|].
            intros Hin. apply roots_in_fnodes in Hin. set_solver. }
          split; [exact Hprev|].
          split.
          { rewrite Forall_app, Forall_cons. split; [|split].
            - eapply wf_forest_frame; [| |exact Hwpre].
              + intros b Hb. bh_simpl. apply Hch1.
              + intros b Hb. assert (Hb' := inner_in_fnodes _ _ Hb). bh_simpl.
                rewrite Hsame; [reflexivity|]. apply inner_not_root; assumption.
            - apply (link_shape (mem s')); auto; bh_simpl.
              + reflexivity.
              + apply Hch1.
              + intros b Hb. bh_simpl.
                assert (b <> an) by set_solver. bh_simpl. apply Hch1.
              + intros b Hb. bh_simpl.
                assert (b <> ax) by set_solver. bh_simpl.
                rewrite Hsame; [reflexivity|].
                intros Hin. apply roots_in_fnodes in Hin. set_solver.
            - eapply wf_forest_frame; [| |exact Hwpost].
              + intros b Hb. bh_simpl. apply Hch1.
              + intros b Hb. apply inner_in_fnodes in Hb. bh_simpl.
                rewrite Hsame; [reflexivity|].
                intros Hin. apply roots_in_fnodes in Hin. set_solver. }
          split.
          { eapply ho_forest_ext with (k := keyf s').
            { intros b. unfold keyf. bh_simpl. apply Hk1. }
            rewrite Forall_app, Forall_cons. split; [exact Hhpre|].
            split; [|exact Hhpost].
            apply ho_T. constructor; [split; [unfold keyf; cbn; lia|exact Hhx]|].
            apply ho_T, Hhn. }
          split; [rewrite fnodes_link'; exact Hnd|].
          split; [rewrite fnodes_link'; exact Hperm|].
          repeat split; try congruence. intros b. bh_simpl.
          rewrite Hk1. apply Hkey. }
        apply wp_bind.
        destruct pv as [q|]; bh_simpl.
        -- destruct Hprev as (Fp & tq & HFp & Hq).
           bh_step. bh_step. bh_step. apply Hfin; bh_simpl; auto.
           ++ rewrite HFp, map_app in Hpre |- *. cbn [map] in *. rewrite Hq in *.
              apply lseg_snoc in Hpre as [Hpre Hqx]. apply lseg_snoc.
              split; [|bh_simpl; reflexivity].
              eapply lseg_frame; [|exact Hpre]. intros b Hb. bh_simpl.
              assert (Hr := roots_NoDup _ H). rewrite HFp, map_app in Hr.
              cbn in Hr. rewrite Hq in Hr. nodup_dec.
              assert (b <> q) by set_solver. bh_simpl. reflexivity.
           ++ intros b Hb. apply bh_upd_other. intros ->. apply Hb.
              rewrite HFp, map_app. cbn. rewrite Hq. set_solver.
           ++ intros b. bh_simpl. reflexivity.
           ++ intros b. bh_simpl. reflexivity.
        -- subst Fpre. bh_step. apply Hfin; auto. reflexivity.
Qed.

Lemma scan_spec fuel s (t0 : tree) F :
  lseg (mem s) (Some (root t0)) (map root (t0 :: F)) None ->
  Forall (wf (mem s)) (t0 :: F) -> Forall (ho (keyf s)) (t0 :: F) ->
  NoDup (fnodes (t0 :: F)) -> (length F < fuel)%nat ->
  wp (loop fuel scan_step
        {| new_head := Some (root t0); prev_x := None; x := Some (root t0);
           next_x := sibling (mem s (root t0)) |})
     (scan_post s (fnodes (t0 :: F))) s.
Proof.
  intros Hl Hwf Hho Hnd Hfuel. destruct Hl as [_ Hl].
  apply (wp_loop (scan_inv s (fnodes (t0 :: F))) _ _
           (scan_step_spec s (fnodes (t0 :: F)))) with (n := length F);
    [|exact Hfuel].
  exists [], t0, F. cbn [new_head prev_x x next_x app map].
  repeat split; auto.
Qed.

End BheapScan.

Section BheapOps.
Import Bheap.
Implicit Types (m : addr -> BheapNode) (s : state) (F : list tree).

(** A heap-ordered forest laid out in memory from the pointer [h]. *)
Definition forest_at (s : state) (h : ptr) (F : list tree) : Prop :=
  lseg (mem s) h (map root F) None
  /\ Forall (wf (mem s)) F /\ Forall (ho (keyf s)) F.

Definition merged (s : state) (N : list addr) (s' : state) : Prop :=
  exists F', forest_at s' (head s') F'
    /\ NoDup (fnodes F') /\ fnodes F' ≡ₚ N
    /\ brk s' = brk s /\ _size s' = _size s
    /\ (forall b, key (mem s' b) = key (mem s b)).

Lemma add_heap_head_spec fuel s F1 F2 (h2 : ptr) :
  forest_at s (head s) F1 -> forest_at s h2 F2 ->
  NoDup (fnodes (F1 ++ F2)) -> (length (F1 ++ F2) < fuel)%nat ->
  wp (add_heap_head fuel h2) (fun _ s' => merged s (fnodes (F1 ++ F2)) s') s.
Proof.
  intros (Hl1 & Hw1 & Hh1) (Hl2 & Hw2 & Hh2) Hnd Hfuel. unfold add_heap_head.
  destruct F2 as [|t2 F2].
  { cbn in Hl2. subst h2. bh_simpl. bh_step.
    exists F1. rewrite app_nil_r in *. unfold forest_at. auto 10. }
  assert (Hh2' : h2 = Some (root t2)) by apply Hl2. rewrite Hh2'. bh_simpl.
  bh_step. bh_step.
  destruct F1 as [|t1 F1].
  { cbn in Hl1. rewrite Hl1. bh_simpl. bh_step.
    exists (t2 :: F2). unfold forest_at. bh_simpl. rewrite <- Hh2'. auto 10. }
  assert (Hh1' : head s = Some (root t1)) by apply Hl1. rewrite Hh1'. bh_simpl.
  apply wp_bind. rewrite <- Hh1', <- Hh2'.
  assert (Hr : NoDup (map root (t1 :: F1) ++ map root (t2 :: F2))).
  { rewrite <- map_app. apply roots_NoDup, Hnd. }
  eapply wp_mono.
  { apply (merge_heads_spec fuel s h2 (root t1) (root t2) (map root F1) (map root F2));
      auto.
    rewrite !length_app in *. cbn [length] in *. rewrite !length_map. lia. }
  cbv beta. intros nh s1 (l' & Hp & Hne & Hl & Hhd & Hbrk & Hsz & Hk & Hc & Hs).
  change (root t1 :: map root F1) with (map root (t1 :: F1)) in *.
  change (root t2 :: map root F2) with (map root (t2 :: F2)) in *.
  rewrite <- map_app in Hp, Hs.
  apply Permutation_map_inv in Hp as (F' & -> & HF').
  destruct F' as [|t0 F']; [contradiction|].
  assert (Hw : Forall (wf (mem s1)) (t0 :: F')).
  { rewrite <- HF'. eapply wf_forest_frame; [| |apply Forall_app; eauto].
    - intros b _. apply Hc. inversion 1.
    - intros b Hb. apply Hs. apply inner_not_root; assumption. }
  assert (Hh : Forall (ho (keyf s1)) (t0 :: F')).
  { rewrite <- HF'. eapply ho_forest_ext; [|apply Forall_app; eauto].
    intros b. apply Hk. }
  assert (Hnd' : NoDup (fnodes (t0 :: F'))).
  { rewrite <- (fnodes_perm _ _ HF'). exact Hnd. }
  assert (Hnh : nh = Some (root t0)) by apply Hl. subst nh.
  bh_step. bh_step. apply wp_bind. eapply wp_mono.
  { apply (scan_spec fuel s1 t0 F' Hl Hw Hh Hnd').
    apply Permutation_length in HF'. rewrite length_app in *. cbn in *. lia. }
  cbv beta. intros nh' s2 (F'' & Hl'' & Hw'' & Hh'' & Hnd'' & Hp'' & _ & Hbrk2 & Hsz2 & _ & Hk2).
  bh_step. exists F''. unfold forest_at, keyf. bh_simpl.
  split; [auto|]. split; [exact Hnd''|].
  split; [rewrite Hp''; symmetry; apply fnodes_perm, HF'|].
  split; [congruence|]. split; [congruence|].
  intros b. rewrite Hk2. apply Hk.
Qed.

End BheapOps.

Section BheapInv.
Import Bheap.
Implicit Types (m : addr -> BheapNode) (s : state) (F : list tree).

(** The invariant of a heap that only [insert] and [pop] have touched. *)
Definition binv (s : state) (F : list tree) : Prop :=
  forest_at s (head s) F
  /\ NoDup (fnodes F)
  /\ (forall a, a ∈ fnodes F -> (a < brk s)%nat)
  /\ _size s = Z.of_nat (length (fnodes F))
  /\ Z.of_nat (length (fnodes F)) < two64.

(** The keys in the heap. *)
Definition keys_in (s : state) (F : list tree) : list Z :=
  map (keyf s) (fnodes F).

Lemma binv_init : binv init [].
Proof.
  unfold binv, forest_at. cbn. repeat split; auto; try constructor.
  intros a Ha. inversion Ha.
Qed.

Lemma bh_wp_alloc (Q : ptr -> state -> Prop) s :
  Q (Some (brk s))
    {| mem := upd (brk s) (fun _ => fresh_node) (mem s); brk := S (brk s);
       head := head s; _size := _size s |} ->
  wp alloc Q s.
Proof. exact id. Qed.

Lemma length_fnodes_le F : (length F <= length (fnodes F))%nat.
Proof.
  induction F as [|[a cs] F IH]; [reflexivity|].
  rewrite fnodes_cons, nodes_T, length_app. cbn [length]. lia.
Qed.

Lemma bh_insert_spec fuel s F (d : Z) :
  binv s F -> Z.of_nat (length (fnodes F)) + 1 < two64 ->
  (S (length (fnodes F)) < fuel)%nat ->
  wp (insert fuel d)
     (fun _ s' => exists F', binv s' F' /\ keys_in s' F' ≡ₚ d :: keys_in s F) s.
Proof.
  intros ((Hl & Hw & Hh) & Hnd & Hbrk & Hsz & Hlt) Hlt' Hfuel. unfold insert.
  apply wp_bind, bh_wp_alloc. set (x := brk s). bh_step. bh_step.
  assert (Hx : x ∉ fnodes F) by (intros Hin; apply Hbrk in Hin; unfold x in Hin; lia).
  match goal with |- wp _ _ ?s0 => set (s1 := s0) end.
  assert (Hm1 : forall b, b <> x -> mem s1 b = mem s b).
  { intros b Hb. unfold s1. bh_simpl. reflexivity. }
  assert (Hx1 : mem s1 x = set_key d fresh_node).
  { unfold s1. bh_simpl. reflexivity. }
  assert (HF1 : forest_at s1 (head s1) F).
  { unfold forest_at. split; [|split].
    - eapply lseg_frame; [|exact Hl]. intros b Hb.
      rewrite Hm1; [reflexivity|]. apply roots_in_fnodes in Hb. congruence.
    - eapply wf_forest_frame; [| |exact Hw]; intros b Hb;
        [|apply inner_in_fnodes in Hb]; rewrite Hm1; congruence.
    - eapply ho_forest_frame; [|exact Hh]. intros b Hb. unfold keyf.
      rewrite Hm1; congruence. }
  assert (HF2 : forest_at s1 (Some x) [T x []]).
  { unfold forest_at. cbn [map root lseg]. rewrite Hx1. cbn [sibling set_key fresh_node].
    split; [auto|]. split.
    - constructor; [|constructor]. apply wf_T. cbn [map lseg]. rewrite Hx1.
      split; [reflexivity|constructor].
    - constructor; [|constructor]. apply ho_T. constructor. }
  assert (Hnd1 : NoDup (fnodes (F ++ [T x []]))).
  { rewrite fnodes_app. cbn. apply NoDup_app. split; [exact Hnd|].
    split; [|apply NoDup_singleton]. intros b Hb Hin.
    apply list_elem_of_singleton in Hin. congruence. }
  apply wp_bind. eapply wp_mono.
  { apply (add_heap_head_spec fuel s1 F [T x []] (Some x) HF1 HF2 Hnd1).
    rewrite length_app. cbn. pose proof (length_fnodes_le F). lia. }
  cbv beta. intros _ s2 (F' & HF' & Hnd' & Hp' & Hbrk' & Hsz' & Hk').
  bh_step. bh_step. bh_step. bh_step.
  assert (Hlen : length (fnodes F') = S (length (fnodes F))).
  { rewrite Hp', fnodes_app, length_app. cbn. lia. }
  exists F'. split.
  - unfold binv, forest_at, keyf in *. bh_simpl.
    split; [exact HF'|]. split; [exact Hnd'|].
    split; [|split].
    + intros a Ha. rewrite Hp', fnodes_app in Ha. rewrite Hbrk'. unfold s1. cbn.
      apply elem_of_app in Ha as [Ha|Ha]; [apply Hbrk in Ha; lia|].
      cbn in Ha. apply list_elem_of_singleton in Ha. subst a. unfold x. lia.
    + rewrite Hsz'. unfold s1. cbn. rewrite Hsz, Hlen. unfold incr64.
      rewrite Z.mod_small; lia.
    + rewrite Hlen. lia.
  - unfold keys_in, keyf. bh_simpl.
    rewrite Hp', fnodes_app, map_app. cbn [fnodes flat_map nodes app map].
    rewrite <- Permutation_cons_append. rewrite Hk', Hx1. cbn. constructor.
    erewrite map_ext_in; [reflexivity|]. intros b Hb. cbv beta.
    rewrite Hk', Hm1; [reflexivity|]. intros ->.
    apply Hx. apply list_elem_of_In, Hb.
Qed.

End BheapInv.

Section BheapPop.
Import Bheap.
Implicit Types (s : state) (F : list tree).

Lemma last_app_cons {A} (l1 l2 : list A) (x : A) :
  last (l1 ++ x :: l2) = Some (default x (last l2)).
Proof.
  rewrite last_app. cbn [last]. rewrite last_cons.
  destruct (last l2); reflexivity.
Qed.

Definition search_inv (s : state) (a0 : addr) (l : list addr)
    (n : nat) (c : search) (s' : state) : Prop :=
  s' = s /\ exists lpre m lpd rest,
    a0 :: l = lpre ++ m :: lpd ++ rest
    /\ lseg (mem s) (sx c) rest None
    /\ sprev_x c = Some (default m (last lpd))
    /\ smin c = Some m
    /\ sprev_min c = Some (default a0 (last lpre))
    /\ Forall (fun b => key (mem s m) <= key (mem s b)) (lpre ++ m :: lpd)
    /\ n = length rest.

Definition search_post (s : state) (a0 : addr) (l : list addr)
    (c : search) (s' : state) : Prop :=
  s' = s /\ exists lpre m lpost,
    a0 :: l = lpre ++ m :: lpost
    /\ smin c = Some m
    /\ sprev_min c = Some (default a0 (last lpre))
    /\ Forall (fun b => key (mem s m) <= key (mem s b)) (a0 :: l).

Lemma search_step_spec s a0 l n c s' :
  search_inv s a0 l n c s' ->
  wp (search_step c)
     (fun r s'' => match r with
                   | inl c' => exists n', (n' < n)%nat /\ search_inv s a0 l n' c' s''
                   | inr c' => search_post s a0 l c' s''
                   end) s'.
Proof.
  intros (-> & lpre & m & lpd & rest & E & Hrest & Hpx & Hmin & Hpm & Hall & ->).
  unfold search_step, compare_less. destruct c as [x px mn pmn].
  cbn [sx sprev_x smin sprev_min] in *. subst px mn pmn.
  destruct rest as [|b rest]; cbn in Hrest.
  - subst x. bh_simpl. bh_step. split; [reflexivity|].
    rewrite app_nil_r in E. exists lpre, m, lpd.
    cbn [smin sprev_min]. rewrite E. auto.
  - destruct Hrest as [-> Hrest]. bh_simpl. bh_go.
    exists (length rest). split; [cbn; lia|]. split; [reflexivity|].
    cbn [sx sprev_x smin sprev_min].
    destruct (key (mem s b) <? key (mem s m)) eqn:Hlt.
    + apply Z.ltb_lt in Hlt.
      exists (lpre ++ m :: lpd), b, [], rest. cbn [app last default].
      rewrite <- app_assoc. cbn [app].
      split; [exact E|]. split; [exact Hrest|]. split; [reflexivity|].
      split; [reflexivity|]. split; [rewrite last_app_cons; reflexivity|].
      split; [|reflexivity].
      apply Forall_app. split.
      * eapply Forall_impl; [exact Hall|]. cbn. intros; lia.
      * constructor; [lia|constructor].
    + apply Z.ltb_ge in Hlt.
      exists lpre, m, (lpd ++ [b]), rest.
      rewrite <- app_assoc. cbn [app].
      split; [exact E|]. split; [exact Hrest|].
      split; [rewrite last_snoc; reflexivity|].
      split; [reflexivity|]. split; [reflexivity|]. split; [|reflexivity].
      rewrite app_comm_cons, app_assoc. apply Forall_app. split; [exact Hall|].
      constructor; [lia|constructor].
Qed.

Lemma search_spec fuel s (a0 : addr) l :
  lseg (mem s) (Some a0) (a0 :: l) None -> (length l < fuel)%nat ->
  wp (loop fuel search_step
        {| sx := sibling (mem s a0); sprev_x := Some a0; smin := Some a0;
           sprev_min := Some a0 |})
     (search_post s a0 l) s.
Proof.
  intros [_ Hl] Hfuel.
  apply (wp_loop (search_inv s a0 l) _ _ (search_step_spec s a0 l))
    with (n := length l); [|exact Hfuel].
  split; [reflexivity|]. exists [], a0, [], l. cbn.
  repeat split; auto. constructor; [lia|constructor].
Qed.

(** The second loop of [pop] writes [p] members only. *)
Definition p_only (s s' : state) : Prop :=
  brk s' = brk s /\ _size s' = _size s /\ head s' = head s
  /\ (forall b, key (mem s' b) = key (mem s b))
  /\ (forall b, child (mem s' b) = child (mem s b))
  /\ (forall b, sibling (mem s' b) = sibling (mem s b)).

Lemma orphan_spec fuel s (x : ptr) l :
  lseg (mem s) x l None -> (length l < fuel)%nat ->
  wp (loop fuel orphan_step x) (fun _ s' => p_only s s') s.
Proof.
  intros Hl Hfuel.
  apply (wp_loop (fun n x s' => exists l, lseg (mem s) x l None /\ p_only s s'
                                          /\ n = length l))
    with (n := length l); [| |exact Hfuel].
  - intros n y s' (l' & Hl' & Hp & ->). unfold orphan_step.
    destruct l' as [|b l']; cbn in Hl'.
    + subst y. bh_simpl. bh_step. exact Hp.
    + destruct Hl' as [-> Hl']. bh_simpl. bh_go.
      exists (length l'). split; [cbn; lia|]. exists l'.
      destruct Hp as (?&?&?&Hk&Hc&Hs). rewrite Hs.
      split; [exact Hl'|]. split; [|reflexivity].
      unfold p_only. bh_simpl. repeat split; auto; intros c; bh_simpl; auto.
  - exists l. unfold p_only. auto 10.
Qed.

Lemma bh_pop_spec fuel s F :
  binv s F -> F <> [] -> (length (fnodes F) < fuel)%nat ->
  wp (pop fuel)
     (fun k s' => exists F', binv s' F'
        /\ keys_in s F ≡ₚ k :: keys_in s' F'
        /\ Forall (fun k' => k <= k') (keys_in s' F')) s.
Proof.
  intros ((Hl & Hw & Hh) & Hnd & Hbrk & Hsz & Hlt) Hne Hfuel. unfold pop.
  assert (Hlen : (1 <= length (fnodes F))%nat).
  { pose proof (length_fnodes_le F). destruct F; [contradiction|]. cbn in *. lia. }
  pose proof (length_fnodes_le F) as HlenF.
  destruct F as [|t0 F0] eqn:EF0; [contradiction|]. clear Hne.
  rewrite <- EF0 in *.
  assert (Hhd : head s = Some (root t0)) by (rewrite EF0 in Hl; apply Hl).
  bh_step. bh_step. rewrite Hsz.
  destruct (Z.ltb_spec (Z.of_nat (length (fnodes F))) 1) as [Hc|_].
  { exfalso. lia. }
  bh_step. bh_step. rewrite Hhd.
  bh_step. bh_step. apply wp_bind. eapply wp_mono.
  { apply (search_spec fuel s (root t0) (map root F0)).
    - rewrite <- Hhd. rewrite EF0 in Hl. exact Hl.
    - rewrite length_map. rewrite EF0 in HlenF at 1. cbn in HlenF. lia. }
  cbv beta. intros r s1 (-> & lpre & m & lpost & E & Hmin & Hpm & Hall).
  rewrite Hmin.
  (* the shape around the minimum *)
  change (root t0 :: map root F0) with (map root (t0 :: F0)) in E, Hall.
  rewrite <- EF0 in E, Hall.
  apply map_eq_app in E as (Fpre & Fm & EF & Epre & Em).
  destruct Fm as [|tm Fpost]; [discriminate|]. cbn in Em.
  injection Em as Em Epost. subst lpre lpost.
  assert (Hl' := Hl). rewrite EF, map_app in Hl'. cbn [map] in Hl'.
  apply lseg_app in Hl' as (y & Hlpre & Hy). destruct Hy as [-> Hlpost].
  rewrite Em in Hlpost.
  assert (Hw' := Hw). rewrite EF, Forall_app, Forall_cons in Hw'.
  destruct Hw' as (Hwpre & Hwm & Hwpost).
  assert (Hh' := Hh). rewrite EF, Forall_app, Forall_cons in Hh'.
  destruct Hh' as (Hhpre & Hhm & Hhpost).
  destruct tm as [am cs]. cbn [root] in *. subst am.
  apply wf_T in Hwm as [Hlcs Hwcs].
  assert (Hnd' := Hnd). rewrite EF, fnodes_app, fnodes_cons, nodes_T in Hnd'.
  assert (Hroots := roots_NoDup _ Hnd). rewrite EF, map_app in Hroots.
  cbn [map root] in Hroots.
  nodup_dec.
  assert (Fm1 : m ∉ fnodes Fpre) by set_solver.
  assert (Fm3 : m ∉ fnodes Fpost) by set_solver.
  assert (HlenEF : length (fnodes F)
                   = (length (fnodes Fpre) + S (length (fnodes cs))
                      + length (fnodes Fpost))%nat).
  { rewrite EF, fnodes_app, fnodes_cons, nodes_T, !length_app. cbn [length]. lia. }
  pose proof (length_fnodes_le cs) as Hlecs.
  pose proof (length_fnodes_le Fpre) as Hlepre.
  pose proof (length_fnodes_le Fpost) as Hlepost.
  assert (Hcont : forall s2 : state,
    lseg (mem s2) (head s2) (map root (Fpre ++ Fpost)) None ->
    (forall b, key (mem s2 b) = key (mem s b)) ->
    (forall b, child (mem s2 b) = child (mem s b)) ->
    (forall b, b ∉ map root Fpre -> sibling (mem s2 b) = sibling (mem s b)) ->
    brk s2 = brk s -> _size s2 = _size s ->
    wp (add_head <- load child (Some m) ;;
        loop fuel orphan_step add_head ;;
        add_heap_head fuel add_head ;;
        sz <- gets _size ;;
        modify (set_size (decr64 sz)) ;; k <- load key (Some m) ;; ret k)
       (fun k s' => exists F', binv s' F'
          /\ keys_in s F ≡ₚ k :: keys_in s' F'
          /\ Forall (fun k' => k <= k') (keys_in s' F')) s2).
  { intros s2 Hl2 Hk2 Hc2 Hs2 Hbrk2 Hsz2.
    assert (Hnr : forall b, b ∈ fnodes cs ++ fnodes Fpost ++ inner Fpre ->
                            b ∉ map root Fpre).
    { intros b Hb Hin. rewrite !elem_of_app in Hb. destruct Hb as [Hb|[Hb|Hb]].
      - apply roots_in_fnodes in Hin. set_solver.
      - apply roots_in_fnodes in Hin. set_solver.
      - revert Hin. apply inner_not_root; assumption. }
    bh_step. bh_step. rewrite Hc2. apply wp_bind. eapply wp_mono.
    { apply (orphan_spec fuel s2 _ (map root cs)).
      - eapply lseg_frame; [|exact Hlcs]. intros b Hb. apply Hs2, Hnr.
        apply elem_of_app. left. apply roots_in_fnodes, Hb.
      - rewrite length_map. lia. }
    cbv beta. intros _ s3 (Hbrk3 & Hsz3 & Hhd3 & Hk3 & Hc3 & Hs3).
    apply wp_bind. eapply wp_mono.
    { apply (add_heap_head_spec fuel s3 (Fpre ++ Fpost) cs).
      - unfold forest_at. split; [|split].
        + rewrite Hhd3. eapply lseg_frame; [|exact Hl2]. intros b _. apply Hs3.
        + apply Forall_app. split.
          * eapply wf_forest_frame; [| |exact Hwpre]; intros b Hb.
            -- rewrite Hc3. apply Hc2.
            -- rewrite Hs3. apply Hs2, Hnr. rewrite !elem_of_app. auto.
          * eapply wf_forest_frame; [| |exact Hwpost]; intros b Hb.
            -- rewrite Hc3. apply Hc2.
            -- rewrite Hs3. apply Hs2, Hnr. rewrite !elem_of_app.
               right. left. apply inner_in_fnodes, Hb.
        + eapply ho_forest_ext with (k := keyf s).
          { intros b. unfold keyf. rewrite Hk3. apply Hk2. }
          apply Forall_app. auto.
      - unfold forest_at. split; [|split].
        + eapply lseg_frame; [|exact Hlcs]. intros b Hb.
          rewrite Hs3. apply Hs2, Hnr. apply elem_of_app. left.
          apply roots_in_fnodes, Hb.
        + eapply wf_forest_frame; [| |exact Hwcs]; intros b Hb.
          * rewrite Hc3. apply Hc2.
          * rewrite Hs3. apply Hs2, Hnr. apply elem_of_app. left.
            apply inner_in_fnodes, Hb.
        + eapply ho_forest_ext with (k := keyf s).
          { intros b. unfold keyf. rewrite Hk3. apply Hk2. }
          apply ho_T in Hhm. eapply Forall_impl; [exact Hhm|]. cbn. tauto.
      - rewrite !fnodes_app. apply NoDup_app. split; [|split; [|assumption]].
        + apply NoDup_app. split; [assumption|]. split; [|assumption].
          intros b Hb. set_solver.
        + intros b Hb. apply elem_of_app in Hb as [Hb|Hb]; set_solver.
      - rewrite !length_app. lia. }
    cbv beta. intros _ s4 (F' & HF' & Hnd4 & Hp4 & Hbrk4 & Hsz4 & Hk4).
    bh_step. bh_step. bh_step. bh_step. bh_step. bh_step. bh_step.
    assert (HpF : fnodes F ≡ₚ m :: fnodes F').
    { rewrite Hp4, EF, !fnodes_app, fnodes_cons, nodes_T. cbn [app].
      rewrite <- Permutation_middle. constructor.
      rewrite <- !app_assoc. apply Permutation_app_head, Permutation_app_comm. }
    assert (Hkey4 : forall b, key (mem s4 b) = key (mem s b)).
    { intros b. rewrite Hk4, Hk3. apply Hk2. }
    exists F'. split; [|split].
    - unfold binv, forest_at, keyf in *. bh_simpl.
      split; [exact HF'|]. split; [exact Hnd4|].
      assert (Hlen' : length (fnodes F) = S (length (fnodes F')))
        by (rewrite HpF; reflexivity).
      split; [|split].
      + intros a Ha. rewrite Hbrk4, Hbrk3, Hbrk2. apply Hbrk.
        rewrite HpF. right. exact Ha.
      + rewrite Hsz4, Hsz3, Hsz2, Hsz, Hlen'. unfold decr64.
        rewrite Z.mod_small; lia.
      + lia.
    - unfold keys_in, keyf. bh_simpl. rewrite HpF. cbn [map].
      rewrite Hkey4. constructor.
      erewrite map_ext; [reflexivity|]. intros b. cbv beta. symmetry. apply Hkey4.
    - unfold keys_in, keyf. bh_simpl. rewrite Forall_forall. intros k' Hk'.
      apply list_elem_of_fmap in Hk' as (a & -> & Ha). rewrite !Hkey4.
      assert (HaF : a ∈ fnodes F) by (rewrite HpF; right; exact Ha).
      destruct (ho_forest_min _ _ Hh a HaF) as (t & Ht & Hle).
      rewrite Forall_forall in Hall.
      assert (Hr : root t ∈ map root F) by (apply list_elem_of_fmap; eauto).
      specialize (Hall _ Hr). unfold keyf in Hle. lia. }
  bh_step. bh_step. apply wp_bind.
  destruct Fpre as [|tq Fp _] using rev_ind.
  - (* the minimum is the first root *)
    cbn in Hlpre. rewrite EF in EF0. cbn in EF0. injection EF0 as <- <-.
    cbn [root]. rewrite Nat.eqb_refl. bh_step. apply Hcont; bh_simpl; auto.
  - rewrite map_app in Hlpre, Hpm. cbn [map] in Hlpre, Hpm.
    rewrite last_snoc in Hpm. cbn [default] in Hpm.
    apply lseg_snoc in Hlpre as [Hlp Hq].
    assert (Hqm : root tq <> m).
    { intros Heq. apply Fm1. rewrite <- Heq, fnodes_app. apply elem_of_app.
      right. cbn. rewrite app_nil_r. apply root_in_nodes. }
    assert (Hin0 : root t0 ∈ map root (Fp ++ [tq])).
    { rewrite EF in EF0. destruct Fp as [|t Fp']; cbn in EF0;
        injection EF0 as <- _; cbn; left. }
    assert (Ht0 : root t0 <> m).
    { intros Heq. apply (H0 _ Hin0). rewrite Heq. left. }
    destruct (Nat.eqb_spec (root t0) m) as [?|_]; [contradiction|].
    rewrite Hpm. bh_step. apply Hcont; bh_simpl; auto.
    + rewrite <- app_assoc, map_app. cbn [app map].
      apply lseg_app. exists (Some (root tq)). split.
      * eapply lseg_frame; [|exact Hlp]. intros b Hb. bh_simpl.
        assert (Hr := roots_NoDup _ H2). rewrite map_app in Hr. cbn in Hr.
        nodup_dec. assert (b <> root tq) by set_solver. bh_simpl. reflexivity.
      * split; [reflexivity|]. bh_simpl.
        eapply lseg_frame; [|exact Hlpost]. intros b Hb. bh_simpl.
        assert (b <> root tq).
        { intros ->. apply (H0 (root tq)); [|right; exact Hb].
          rewrite map_app. apply elem_of_app. right. left. }
        bh_simpl. reflexivity.
    + intros b. bh_simpl. reflexivity.
    + intros b. bh_simpl. reflexivity.
    + intros b Hb. bh_simpl. rewrite bh_upd_other; [reflexivity|].
      intros ->. apply Hb. rewrite map_app. apply elem_of_app. right. left.
Qed.

End BheapPop.

Section BheapSort.
Import Bheap.
Implicit Types (s : state) (F : list tree).

Lemma bh_insert_all_spec fuel keys : forall s F,
  binv s F ->
  Z.of_nat (length (fnodes F) + length keys) < two64 ->
  (length (fnodes F) + length keys < fuel)%nat ->
  wp (insert_all fuel keys)
     (fun _ s' => exists F', binv s' F' /\ keys_in s' F' ≡ₚ keys ++ keys_in s F) s.
Proof.
  induction keys as [|k keys IH]; intros s F Hinv Hlt Hfuel; cbn [insert_all].
  - apply wp_ret. exists F. auto.
  - cbn [length] in *. apply wp_bind. eapply wp_mono.
    { apply (bh_insert_spec fuel s F k Hinv); lia. }
    cbv beta. intros h s1 (F1 & Hinv1 & Hk1).
    assert (Hlen : length (fnodes F1) = S (length (fnodes F))).
    { apply Permutation_length in Hk1. unfold keys_in in Hk1.
      cbn in Hk1. rewrite !length_map in Hk1. exact Hk1. }
    apply wp_bind. eapply wp_mono.
    { apply (IH s1 F1 Hinv1); lia. }
    cbv beta. intros hs s2 (F2 & Hinv2 & Hk2). apply wp_ret.
    exists F2. split; [exact Hinv2|]. rewrite Hk2, Hk1.
    rewrite <- Permutation_middle. reflexivity.
Qed.

Definition bh_drain_inv (K : list Z) (n : nat) (out : list Z) (s : state) : Prop :=
  exists F, binv s F /\ n = length (fnodes F)
    /\ StronglySorted Z.le out
    /\ (forall x y, x ∈ out -> y ∈ keys_in s F -> x <= y)
    /\ out ++ keys_in s F ≡ₚ K.

Lemma bh_drain_step_spec fuel K n out s :
  bh_drain_inv K n out s -> (n < fuel)%nat ->
  wp (drain_step fuel out)
     (fun r s' => match r with
                  | inl out' => exists n', (n' < n)%nat /\ bh_drain_inv K n' out' s'
                  | inr out' => out' ≡ₚ K /\ StronglySorted Z.le out'
                  end) s.
Proof.
  intros (F & Hinv & -> & Hsorted & Hle & Hperm) Hfuel. unfold drain_step, size.
  assert (Hsz : _size s = Z.of_nat (length (fnodes F))) by apply Hinv.
  bh_step. bh_step. rewrite Hsz.
  destruct (Z.eqb_spec (Z.of_nat (length (fnodes F))) 0) as [H0|H0].
  - apply wp_ret. assert (E : fnodes F = []) by (apply length_zero_iff_nil; lia).
    unfold keys_in in Hperm. rewrite E in Hperm. cbn in Hperm.
    rewrite app_nil_r in Hperm. auto.
  - assert (HF : F <> []) by (intros ->; apply H0; reflexivity).
    apply wp_bind. eapply wp_mono.
    { apply (bh_pop_spec fuel s F Hinv HF Hfuel). }
    cbv beta. intros k s1 (F1 & Hinv1 & Hk1 & Hmin). apply wp_ret.
    assert (Hlen : length (fnodes F) = S (length (fnodes F1))).
    { apply Permutation_length in Hk1. unfold keys_in in Hk1.
      cbn in Hk1. rewrite !length_map in Hk1. exact Hk1. }
    exists (length (fnodes F1)). split; [lia|].
    exists F1. split; [exact Hinv1|]. split; [reflexivity|].
    split; [|split].
    + apply StronglySorted_app_2; [|exact Hsorted|repeat constructor].
      intros x y Hx Hy. apply list_elem_of_singleton in Hy. subst y.
      apply Hle; [exact Hx|]. rewrite Hk1. left.
    + intros x y Hx Hy. apply elem_of_app in Hx as [Hx|Hx].
      * apply Hle; [exact Hx|]. rewrite Hk1. right. exact Hy.
      * apply list_elem_of_singleton in Hx. subst x.
        rewrite Forall_forall in Hmin. apply Hmin, Hy.
    + rewrite <- Hperm, Hk1, <- app_assoc. reflexivity.
Qed.

Lemma bh_drain_spec fuel s F :
  binv s F -> (length (fnodes F) < fuel)%nat ->
  wp (drain fuel)
     (fun out s' => out ≡ₚ keys_in s F /\ StronglySorted Z.le out) s.
Proof.
  intros Hinv Hfuel. unfold drain.
  apply (wp_loop (fun n out s' => bh_drain_inv (keys_in s F) n out s' /\ (n < fuel)%nat))
    with (n := length (fnodes F)); [| |exact Hfuel].
  - intros n out s' [Hd Hn]. eapply wp_mono; [apply bh_drain_step_spec; eauto|].
    cbv beta. intros [out'|out'] s''; [|auto].
    intros (n' & Hn' & Hd'). exists n'. split; [exact Hn'|]. split; [exact Hd'|lia].
  - split; [|exact Hfuel]. exists F. split; [exact Hinv|]. split; [reflexivity|].
    split; [constructor|]. split; [|reflexivity].
    intros x y Hx. inversion Hx.
Qed.

Theorem bheap_heapsort_sorts (keys : list Z) (fuel : nat) :
  Z.of_nat (length keys) < two64 -> (length keys < fuel)%nat ->
  wp (heapsort fuel keys)
     (fun out _ => out ≡ₚ keys /\ StronglySorted Z.le out) init.
Proof.
  intros Hlt Hfuel. unfold heapsort. apply wp_bind. eapply wp_mono.
  { apply (bh_insert_all_spec fuel keys init [] binv_init); cbn; lia. }
  cbv beta. intros hs s1 (F1 & Hinv1 & Hk1).
  unfold keys_in at 2 in Hk1. cbn in Hk1. rewrite app_nil_r in Hk1.
  eapply wp_mono.
  { apply (bh_drain_spec fuel s1 F1 Hinv1).
    apply Permutation_length in Hk1. unfold keys_in in Hk1.
    rewrite length_map in Hk1. lia. }
  cbv beta. intros out s2 [Hp Hs]. split; [rewrite Hp; exact Hk1|exact Hs].
Qed.

End BheapSort.

Ltac fh_go := repeat first [ fh_step | rew_hyp; fh_simpl ].

Ltac upd_cases :=
  intros;
  cbn [FibHeap.mem FibHeap.brk FibHeap.min FibHeap._size FibHeap.with_mem
       FibHeap.set_min FibHeap.set_size];
  unfold FibHeap.upd;
  repeat match goal with
    |- context [Nat.eqb ?a ?c] => destruct (Nat.eqb_spec a c)
  end; subst; cbn; auto; try congruence.

Ltac conjs := repeat match goal with |- _ /\ _ => split end.

(** ** Fibonacci heap: rings in memory *)

Section FibRing.
Import FibHeap.
Implicit Types (m : addr -> FibHeapNode) (s : state) (l : list addr).

(** Each node of the path is the [left] of the next one, which is its [right]. *)
Fixpoint links m l : Prop :=
  match l with
  | [] => True
  | a :: l' =>
      match l' with
      | [] => True
      | b :: _ => right (m a) = Some b /\ left (m b) = Some a /\ links m l'
      end
  end.

(** The nodes [l], in this order, are a ring. *)
Definition is_ring m l : Prop :=
  match l with
  | [] => True
  | a :: _ => links m (l ++ [a])
  end.

Lemma links_cons2 m a b l :
  links m (a :: b :: l)
  <-> right (m a) = Some b /\ left (m b) = Some a /\ links m (b :: l).
Proof. reflexivity. Qed.

Lemma links_app m l1 a l2 :
  links m (l1 ++ a :: l2) <-> links m (l1 ++ [a]) /\ links m (a :: l2).
Proof.
  induction l1 as [|b l1 IH].
  - cbn [app]. cbn [links]. tauto.
  - destruct l1 as [|c l1].
    + cbn [app]. rewrite links_cons2. cbn [links]. tauto.
    + cbn [app] in *. rewrite !links_cons2, IH. tauto.
Qed.

Lemma links_snoc m l a b :
  links m (l ++ [a; b])
  <-> links m (l ++ [a]) /\ right (m a) = Some b /\ left (m b) = Some a.
Proof. rewrite (links_app m l a [b]). cbn [links]. tauto. Qed.

Lemma links_frame m m' l :
  (forall a, a ∈ l -> right (m' a) = right (m a) /\ left (m' a) = left (m a)) ->
  links m l -> links m' l.
Proof.
  induction l as [|a l IH]; [auto|]. destruct l as [|b l]; [auto|].
  intros Hf. rewrite !links_cons2. intros (Hr & Hl & H).
  destruct (Hf a) as [-> _]; [left|]. destruct (Hf b) as [_ ->]; [right; left|].
  split; [exact Hr|]. split; [exact Hl|]. apply IH; [|exact H].
  intros c Hc. apply Hf. right. exact Hc.
Qed.

(** The first node's [left] and the last node's [right] do not matter. *)
Lemma links_frame' m m' a l b :
  right (m' a) = right (m a) ->
  (forall c, c ∈ l -> right (m' c) = right (m c) /\ left (m' c) = left (m c)) ->
  left (m' b) = left (m b) ->
  links m (a :: l ++ [b]) -> links m' (a :: l ++ [b]).
Proof.
  revert a. induction l as [|c l IH]; intros a Ha Hl Hb.
  - cbn. intros (? & ? & _). rewrite Ha, Hb. auto.
  - cbn [app]. rewrite !links_cons2. intros (Hr & Hlc & H).
    destruct (Hl c) as [Hcr Hcl]; [left|].
    rewrite Ha, Hcl. split; [exact Hr|]. split; [exact Hlc|].
    apply IH; auto. intros d Hd. apply Hl. right. exact Hd.
Qed.

Lemma is_ring_rotate m l1 l2 : is_ring m (l1 ++ l2) -> is_ring m (l2 ++ l1).
Proof.
  destruct l1 as [|a l1]; [rewrite app_nil_r; auto|].
  destruct l2 as [|b l2]; [rewrite app_nil_r; auto|].
  unfold is_ring. cbn [app]. rewrite <- !app_assoc. cbn [app].
  pose proof (links_app m (a :: l1) b (l2 ++ [a])) as H1.
  pose proof (links_app m (b :: l2) a (l1 ++ [b])) as H2.
  cbn [app] in H1, H2. tauto.
Qed.

Lemma is_ring_singleton m a :
  is_ring m [a] <-> right (m a) = Some a /\ left (m a) = Some a.
Proof. cbn. tauto. Qed.

(** In a ring the first node's [left] is the last node. *)
Lemma is_ring_last m a l :
  is_ring m (a :: l)
  -> left (m a) = Some (List.last l a) /\ right (m (List.last l a)) = Some a.
Proof.
  unfold is_ring. destruct l as [|b l _] using rev_ind.
  - cbn. tauto.
  - rewrite List.last_last. cbn [app]. rewrite <- app_assoc. cbn [app].
    pose proof (links_snoc m (a :: l) b a) as H. cbn [app] in H. tauto.
Qed.

Lemma is_ring_right_first m a b l : is_ring m (a :: b :: l) -> right (m a) = Some b.
Proof. unfold is_ring. cbn [app]. rewrite links_cons2. tauto. Qed.

End FibRing.

Section FibRep.
Import FibHeap.
Implicit Types (m : addr -> FibHeapNode) (s : state) (l : list addr) (F : list tree).

Lemma is_ring_frame m m' l :
  (forall a, a ∈ l -> right (m' a) = right (m a) /\ left (m' a) = left (m a)) ->
  is_ring m l -> is_ring m' l.
Proof.
  destruct l as [|a l]; [auto|]. unfold is_ring. intros Hf. apply links_frame.
  intros b Hb. apply Hf. apply elem_of_app in Hb as [Hb|Hb]; [exact Hb|].
  apply list_elem_of_singleton in Hb. subst b. left.
Qed.

(** The children of every node of [t] are a ring that starts at the node's
    [child], and [degree] counts them. *)
Fixpoint fwf m (t : tree) : Prop :=
  match t with
  | T a cs =>
      degree (m a) = Z.of_nat (length cs)
      /\ child (m a) = head (map root cs)
      /\ is_ring m (map root cs)
      /\ fold_right (fun c P => fwf m c /\ P) True cs
  end.

Lemma fwf_T m a cs :
  fwf m (T a cs)
  <-> degree (m a) = Z.of_nat (length cs)
      /\ child (m a) = head (map root cs)
      /\ is_ring m (map root cs)
      /\ Forall (fwf m) cs.
Proof.
  cbn [fwf].
  enough (fold_right (fun c P => fwf m c /\ P) True cs <-> Forall (fwf m) cs)
    by tauto.
  induction cs as [|c cs IH]; cbn.
  - split; auto.
  - rewrite Forall_cons, IH. tauto.
Qed.

Lemma fwf_frame m m' t :
  (forall b, b ∈ nodes t ->
     child (m' b) = child (m b) /\ degree (m' b) = degree (m b)) ->
  (forall b, b ∈ fnodes (kids t) ->
     right (m' b) = right (m b) /\ left (m' b) = left (m b)) ->
  fwf m t -> fwf m' t.
Proof.
  induction t as [a cs IH] using tree_ind'. rewrite !fwf_T. cbn [kids].
  intros Hc Hs (Hd & Hch & Hr & Hcs).
  destruct (Hc a) as [Hca Hda]; [left|]. rewrite Hca, Hda.
  split; [exact Hd|]. split; [exact Hch|]. split.
  - eapply is_ring_frame; [|exact Hr]. intros b Hb. apply Hs, roots_in_fnodes, Hb.
  - assert (Hc' : forall b, b ∈ fnodes cs ->
                child (m' b) = child (m b) /\ degree (m' b) = degree (m b))
      by (intros b Hb; apply Hc; right; exact Hb).
    clear Hc Hr Hd Hch Hca Hda. induction cs as [|c cs IHcs]; [constructor|].
    apply Forall_cons in Hcs as [Hwc Hcs]. apply Forall_cons in IH as [IHc IH].
    rewrite fnodes_cons in Hs, Hc'. constructor.
    + apply IHc; [| |exact Hwc].
      * intros b Hb. apply Hc', elem_of_app. auto.
      * intros b Hb. apply Hs, elem_of_app. left.
        destruct c as [c0 ccs]. right. exact Hb.
    + apply IHcs; auto.
      * intros b Hb. apply Hs, elem_of_app. auto.
      * intros b Hb. apply Hc', elem_of_app. auto.
Qed.

Lemma fwf_forest_frame m m' F :
  (forall b, b ∈ fnodes F ->
     child (m' b) = child (m b) /\ degree (m' b) = degree (m b)) ->
  (forall b, b ∈ inner F ->
     right (m' b) = right (m b) /\ left (m' b) = left (m b)) ->
  Forall (fwf m) F -> Forall (fwf m') F.
Proof.
  induction F as [|t F IH]; intros Hc Hs H; [constructor|].
  apply Forall_cons in H as [Ht H]. cbn in Hs. rewrite fnodes_cons in Hc.
  constructor.
  - eapply fwf_frame; [| |exact Ht].
    + intros b Hb. apply Hc, elem_of_app. auto.
    + intros b Hb. apply Hs, elem_of_app. auto.
  - apply IH; auto.
    + intros b Hb. apply Hc, elem_of_app. auto.
    + intros b Hb. apply Hs, elem_of_app. auto.
Qed.

Definition fkey s : addr -> Z := fun a => key (mem s a).

(** What the ring surgery leaves alone: everything but [left] and [right] of
    the nodes [X], and [min]. *)
Definition ring_frame_on (X : list addr) (s s' : state) : Prop :=
  brk s' = brk s /\ _size s' = _size s
  /\ (forall b, key (mem s' b) = key (mem s b) /\ p (mem s' b) = p (mem s b)
               /\ child (mem s' b) = child (mem s b)
               /\ degree (mem s' b) = degree (mem s b)
               /\ mark (mem s' b) = mark (mem s b))
  /\ (forall b, b ∉ X -> right (mem s' b) = right (mem s b)
                         /\ left (mem s' b) = left (mem s b)).

(** A ring whose last node's [right] has yet to be set. *)
Definition open_ring m (a0 : addr) l : Prop :=
  links m (a0 :: l) /\ left (m a0) = Some (List.last l a0).

Lemma is_ring_open m a0 l : is_ring m (a0 :: l) -> open_ring m a0 l.
Proof.
  intros H. split; [|apply (is_ring_last _ _ _ H)].
  unfold is_ring in H. change ((a0 :: l) ++ [a0]) with (a0 :: l ++ [a0]) in H.
  destruct l as [|b l _] using rev_ind; [exact I|].
  rewrite <- app_assoc in H. cbn [app] in H.
  pose proof (links_snoc m (a0 :: l) b a0) as Hs. cbn [app] in Hs.
  apply Hs in H as [H _]. exact H.
Qed.

Lemma insert_node_open s (x a0 : addr) l :
  min s = Some a0 -> open_ring (mem s) a0 l -> NoDup (x :: a0 :: l) ->
  wp (insert_node (Some x))
     (fun _ s' => is_ring (mem s') (a0 :: l ++ [x])
        /\ min s' = Some (if key (mem s x) <? key (mem s a0) then x else a0)
        /\ ring_frame_on (x :: a0 :: l) s s') s.
Proof.
  intros Hmin [Hring Hleft] Hnd. unfold insert_node, compare_less.
  fh_go.
  assert (Hpost : forall mn, 
    is_ring (mem (set_min mn
       (with_mem (upd x (set_right (Some a0)))
          (with_mem (upd a0 (set_left (Some x)))
             (with_mem (upd x (set_left (Some (List.last l a0))))
                (with_mem (upd (List.last l a0) (set_right (Some x))) s))))))
       (a0 :: l ++ [x])
    /\ ring_frame_on (x :: a0 :: l) s
         (set_min mn
       (with_mem (upd x (set_right (Some a0)))
          (with_mem (upd a0 (set_left (Some x)))
             (with_mem (upd x (set_left (Some (List.last l a0))))
                (with_mem (upd (List.last l a0) (set_right (Some x))) s)))))).
  { intros mn. nodup_dec. assert (Hxa : x <> a0) by set_solver. split.
    - unfold is_ring. cbn [app]. rewrite <- app_assoc. cbn [app].
      pose proof (links_snoc (mem (set_min mn
       (with_mem (upd x (set_right (Some a0)))
          (with_mem (upd a0 (set_left (Some x)))
             (with_mem (upd x (set_left (Some (List.last l a0))))
                (with_mem (upd (List.last l a0) (set_right (Some x))) s))))))
        (a0 :: l) x a0) as Hs. cbn [app] in Hs. apply Hs. clear Hs.
      fh_simpl. split; [|split; reflexivity].
      destruct l as [|b l _] using rev_ind.
      + cbn. fh_simpl. auto.
      + rewrite List.last_last in *. nodup_dec.
        cbn [app]. rewrite <- app_assoc. cbn [app].
        pose proof (links_snoc (mem (set_min mn
       (with_mem (upd x (set_right (Some a0)))
          (with_mem (upd a0 (set_left (Some x)))
             (with_mem (upd x (set_left (Some b)))
                (with_mem (upd b (set_right (Some x))) s))))))
          (a0 :: l) b x) as Hs. cbn [app] in Hs. apply Hs. clear Hs.
        fh_simpl.
        assert (a0 <> b) by set_solver. assert (x <> b) by set_solver.
        fh_simpl. split; [|split; reflexivity].
        apply (links_frame' (mem s)); [| |fh_simpl; reflexivity|exact Hring].
        * fh_simpl. reflexivity.
        * intros c Hc. fh_simpl.
          assert (c <> x) by set_solver. assert (c <> a0) by set_solver.
          assert (c <> b) by set_solver. fh_simpl. auto.
    - unfold ring_frame_on. fh_simpl. split; [reflexivity|]. split; [reflexivity|].
      split.
      + intros b. fh_simpl. auto.
      + intros b Hb. fh_simpl.
        assert (b <> x) by set_solver. assert (b <> a0) by set_solver.
        assert (b <> List.last l a0).
        { intros ->. apply Hb. right.
          destruct l as [|c l _] using rev_ind; [left|].
          rewrite List.last_last. right. apply elem_of_app. right. left. }
        fh_simpl. auto. }
  destruct (key (mem s x) <? key (mem s a0)); fh_step;
    destruct (Hpost (Some x)) as [H1 H2]; destruct (Hpost (Some a0)) as [H3 H4];
    auto.
Qed.

Lemma insert_node_spec s (x a0 : addr) l :
  min s = Some a0 -> is_ring (mem s) (a0 :: l) -> NoDup (x :: a0 :: l) ->
  wp (insert_node (Some x))
     (fun _ s' => is_ring (mem s') (a0 :: l ++ [x])
        /\ min s' = Some (if key (mem s x) <? key (mem s a0) then x else a0)
        /\ ring_frame_on (x :: a0 :: l) s s') s.
Proof.
  intros Hmin Hring. apply insert_node_open; [exact Hmin|].
  apply is_ring_open, Hring.
Qed.

Lemma insert_node_empty_spec s (x a : addr) :
  min s = None -> left (mem s x) = Some a ->
  wp (insert_node (Some x))
     (fun _ s' => is_ring (mem s') [x] /\ min s' = Some x
        /\ ring_frame_on [x; a] s s'
        /\ (forall b, b <> x -> left (mem s' b) = left (mem s b))) s.
Proof.
  intros Hmin Hleft. unfold insert_node, compare_less.
  fh_go. rewrite Z.ltb_irrefl. fh_step.
  split; [|split; [reflexivity|split]].
  - apply is_ring_singleton. fh_simpl. auto.
  - unfold ring_frame_on. fh_simpl. split; [reflexivity|]. split; [reflexivity|].
    split.
    + intros b. fh_simpl. auto.
    + intros b Hb. fh_simpl.
      assert (b <> x) by set_solver. assert (b <> a) by set_solver.
      fh_simpl. auto.
  - intros b Hb. fh_simpl. reflexivity.
Qed.

(** The forest [G] laid out in memory, with the ring [RL] of its roots
    starting at [min]. *)
Definition fpre (s : state) (G : list tree) (RL : list addr) : Prop :=
  NoDup (fnodes G)
  /\ map root G ≡ₚ RL
  /\ is_ring (mem s) RL
  /\ min s = head RL
  /\ Forall (fwf (mem s)) G
  /\ Forall (ho (fkey s)) G.

(** The invariant of a heap that only [insert] and [pop] have touched. *)
Definition finv (s : state) (G : list tree) : Prop :=
  exists RL, fpre s G RL
    /\ (forall a b, min s = Some a -> b ∈ RL -> key (mem s a) <= key (mem s b))
    /\ (forall a, a ∈ fnodes G -> (a < brk s)%nat)
    /\ _size s = Z.of_nat (length (fnodes G))
    /\ Z.of_nat (length (fnodes G)) < two64.

Definition fkeys_in (s : state) (G : list tree) : list Z :=
  map (fkey s) (fnodes G).

Lemma finv_init : finv init [].
Proof.
  exists []. unfold fpre. cbn. repeat split; auto; try constructor.
  - intros a b Ha. discriminate.
  - intros a Ha. inversion Ha.
Qed.

Lemma fh_wp_alloc (Q : ptr -> state -> Prop) s :
  Q (Some (brk s))
    {| mem := upd (brk s) (fun _ => fresh_node) (mem s); brk := S (brk s);
       min := min s; _size := _size s |} ->
  wp alloc Q s.
Proof. exact id. Qed.

End FibRep.

Section FibInsert.
Import FibHeap.
Implicit Types (s : state) (l : list addr) (G : list tree).

Lemma fwf_ring_frame s s' X G :
  ring_frame_on X s s' -> (forall b, b ∈ inner G -> b ∉ X) ->
  Forall (fwf (mem s)) G -> Forall (fwf (mem s')) G.
Proof.
  intros (_ & _ & Hf & Hlr) HX. apply fwf_forest_frame.
  - intros b _. destruct (Hf b) as (_ & _ & ? & ? & _). auto.
  - intros b Hb. apply Hlr, HX, Hb.
Qed.

Lemma ho_ring_frame s s' X G :
  ring_frame_on X s s' -> Forall (ho (fkey s)) G -> Forall (ho (fkey s')) G.
Proof.
  intros (_ & _ & Hf & _). apply ho_forest_frame. intros a _. unfold fkey. apply Hf.
Qed.

(** The first root of the ring has the least key of the roots. *)
Definition least s (RL : list addr) : Prop :=
  forall a b, head RL = Some a -> b ∈ RL -> key (mem s a) <= key (mem s b).

Lemma insert_node_root s (x a : addr) RL :
  is_ring (mem s) RL -> min s = head RL -> NoDup (x :: RL) ->
  left (mem s x) = Some a ->
  wp (insert_node (Some x))
     (fun _ s' => exists RL', is_ring (mem s') RL' /\ RL' ≡ₚ RL ++ [x]
        /\ min s' = head RL' /\ (least s RL -> least s' RL')
        /\ ring_frame_on (x :: a :: RL) s s'
        /\ (forall b, b ∉ x :: RL -> left (mem s' b) = left (mem s b))) s.
Proof.
  intros Hring Hmin Hnd Hleft. destruct RL as [|a0 l].
  - eapply wp_mono; [apply (insert_node_empty_spec s x a Hmin Hleft)|].
    cbv beta. intros _ s' (Hr & Hm & Hf & Hlf). exists [x].
    split; [exact Hr|]. split; [reflexivity|]. split; [exact Hm|].
    split; [|split; [exact Hf|]].
    + intros _ c b [= <-] Hb. apply list_elem_of_singleton in Hb. subst b. lia.
    + intros b Hb. apply Hlf. intros ->. apply Hb. left.
  - eapply wp_mono; [apply (insert_node_spec s x a0 l Hmin Hring Hnd)|].
    cbv beta. intros _ s' (Hr & Hm & Hf).
    assert (Hk : forall b, key (mem s' b) = key (mem s b)).
    { intros b. destruct Hf as (_ & _ & Hf & _). apply Hf. }
    assert (Hf' : ring_frame_on (x :: a :: a0 :: l) s s').
    { destruct Hf as (H1 & H2 & H3 & H4). split; [exact H1|]. split; [exact H2|].
      split; [exact H3|]. intros b Hb. apply H4. set_solver. }
    assert (Hlf : forall b, b ∉ x :: a0 :: l -> left (mem s' b) = left (mem s b)).
    { intros b Hb. destruct Hf as (_ & _ & _ & Hf). apply Hf, Hb. }
    destruct (Z.ltb_spec (key (mem s x)) (key (mem s a0))) as [Hlt|Hge].
    + exists (x :: a0 :: l). split.
      { apply (is_ring_rotate _ (a0 :: l) [x]). exact Hr. }
      split; [rewrite <- Permutation_cons_append; reflexivity|].
      split; [exact Hm|]. split; [|split; [exact Hf'|exact Hlf]].
      intros Hle c b [= <-] Hb. rewrite !Hk.
      apply elem_of_cons in Hb as [->|Hb]; [lia|].
      specialize (Hle a0 b eq_refl Hb). lia.
    + exists (a0 :: l ++ [x]). split; [exact Hr|]. split; [reflexivity|].
      split; [exact Hm|]. split; [|split; [exact Hf'|exact Hlf]].
      intros Hle c b [= <-] Hb. rewrite !Hk.
      change (a0 :: l ++ [x]) with ((a0 :: l) ++ [x]) in Hb.
      apply elem_of_app in Hb as [Hb|Hb]; [apply (Hle a0 b eq_refl Hb)|].
      apply list_elem_of_singleton in Hb. subst b. lia.
Qed.

Lemma finv_nodes_length G RL :
  map root G ≡ₚ RL -> (length RL <= length (fnodes G))%nat.
Proof.
  intros H. rewrite <- H, length_map. clear H.
  induction G as [|[a cs] G IH]; [reflexivity|].
  rewrite fnodes_cons, nodes_T, length_app. cbn [length]. lia.
Qed.

Lemma fh_insert_spec s G (k : Z) :
  finv s G -> Z.of_nat (length (fnodes G)) + 1 < two64 ->
  wp (insert k)
     (fun _ s' => exists G', finv s' G' /\ fkeys_in s' G' ≡ₚ k :: fkeys_in s G) s.
Proof.
  intros (RL & (Hnd & Hperm & Hring & Hmin & Hwf & Hho) & Hleast & Hbrk & Hsz & Hlt) Hlt'.
  unfold insert. apply wp_bind, fh_wp_alloc. set (x := brk s).
  do 6 fh_step.
  match goal with |- wp _ _ ?s0 => set (s1 := s0) end.
  assert (Hx : x ∉ fnodes G) by (intros Hin; apply Hbrk in Hin; unfold x in Hin; lia).
  assert (Hm1 : forall b, b <> x -> mem s1 b = mem s b).
  { intros b Hb. unfold s1. fh_simpl. reflexivity. }
  assert (Hx1 : mem s1 x = set_right (Some x) (set_left (Some x) (set_key k fresh_node))).
  { unfold s1. fh_simpl. reflexivity. }
  assert (HxR : x ∉ RL).
  { intros Hin. apply Hx, roots_in_fnodes. rewrite Hperm. exact Hin. }
  assert (Hring1 : is_ring (mem s1) RL).
  { eapply is_ring_frame; [|exact Hring]. intros b Hb.
    rewrite Hm1; [auto|]. intros ->. auto. }
  apply wp_bind. eapply wp_mono.
  { apply (insert_node_root s1 x x RL Hring1).
    - exact Hmin.
    - apply NoDup_cons. split; [exact HxR|]. rewrite <- Hperm. apply roots_NoDup, Hnd.
    - rewrite Hx1. reflexivity. }
  cbv beta. intros _ s2 (RL' & Hring2 & Hperm2 & Hmin2 & Hleast2 & Hf & _).
  fh_step. fh_step. fh_step.
  assert (Hf' := Hf). destruct Hf' as (Hbrk2 & Hsz2 & Hfld & Hlr).
  assert (HndG' : NoDup (fnodes (G ++ [T x []]))).
  { rewrite fnodes_app. cbn. apply NoDup_app. split; [exact Hnd|].
    split; [|apply NoDup_singleton]. intros b Hb Hin.
    apply list_elem_of_singleton in Hin. congruence. }
  assert (Hlen : length (fnodes (G ++ [T x []])) = S (length (fnodes G))).
  { rewrite fnodes_app, length_app. cbn. lia. }
  exists (G ++ [T x []]). split.
  - exists RL'. unfold fpre, least, fkey in *. fh_simpl.
    split; [split; [exact HndG'|]|].
    + split; [rewrite map_app, Hperm2, Hperm; reflexivity|].
      split; [exact Hring2|]. split; [exact Hmin2|]. split.
      * apply Forall_app. split.
        -- eapply (fwf_ring_frame s1 s2); [exact Hf| |].
           ++ intros b Hb Hin. pose proof (inner_not_root G b Hnd Hb) as Hnr.
              rewrite Hperm in Hnr. apply inner_in_fnodes in Hb. set_solver.
           ++ eapply fwf_forest_frame; [| |exact Hwf]; intros b Hb;
                [|apply inner_in_fnodes in Hb]; rewrite Hm1; auto; congruence.
        -- constructor; [|constructor]. apply fwf_T. cbn [map length head].
           destruct (Hfld x) as (_ & _ & -> & -> & _). rewrite Hx1. cbn.
           split; [reflexivity|]. split; [reflexivity|]. split; [exact I|constructor].
      * apply Forall_app. split.
        -- eapply (ho_ring_frame s1 s2); [exact Hf|].
           eapply ho_forest_frame; [|exact Hho]. intros b Hb. unfold fkey.
           rewrite Hm1; congruence.
        -- constructor; [|constructor]. apply ho_T. constructor.
    + split; [|split; [|split]].
      * intros a b Ha Hb. apply (Hleast2); [|congruence|exact Hb].
        intros a' b' Ha' Hb'. rewrite !Hm1.
        -- apply Hleast; [congruence|exact Hb'].
        -- intros ->. auto.
        -- intros ->. apply HxR. destruct RL; [discriminate|].
           injection Ha' as ->. left.
      * intros a Ha. rewrite fnodes_app in Ha. rewrite Hbrk2. unfold s1. cbn.
        apply elem_of_app in Ha as [Ha|Ha]; [apply Hbrk in Ha; lia|].
        cbn in Ha. apply list_elem_of_singleton in Ha. subst a. unfold x. lia.
      * rewrite Hsz2. unfold s1. cbn. rewrite Hsz, Hlen. unfold incr64.
        rewrite Z.mod_small; lia.
      * rewrite Hlen. lia.
  - unfold fkeys_in, fkey. fh_simpl.
    rewrite fnodes_app, map_app. cbn [fnodes flat_map nodes app map].
    rewrite <- Permutation_cons_append.
    destruct (Hfld x) as (-> & _). rewrite Hx1. cbn. constructor.
    erewrite map_ext_in; [reflexivity|]. intros b Hb. cbv beta.
    destruct (Hfld b) as (-> & _). rewrite Hm1; [reflexivity|]. intros ->.
    apply Hx. apply list_elem_of_In, Hb.
Qed.

Lemma fh_insert_all_spec keys : forall s G,
  finv s G ->
  Z.of_nat (length (fnodes G) + length keys) < two64 ->
  wp (insert_all keys)
     (fun _ s' => exists G', finv s' G' /\ fkeys_in s' G' ≡ₚ keys ++ fkeys_in s G) s.
Proof.
  induction keys as [|k keys IH]; intros s G Hinv Hlt; cbn [insert_all].
  - apply wp_ret. exists G. auto.
  - cbn [length] in *. apply wp_bind. eapply wp_mono.
    { apply (fh_insert_spec s G k Hinv); lia. }
    cbv beta. intros h s1 (G1 & Hinv1 & Hk1).
    assert (Hlen : length (fnodes G1) = S (length (fnodes G))).
    { apply Permutation_length in Hk1. unfold fkeys_in in Hk1.
      cbn in Hk1. rewrite !length_map in Hk1. exact Hk1. }
    apply wp_bind. eapply wp_mono.
    { apply (IH s1 G1 Hinv1); lia. }
    cbv beta. intros hs s2 (G2 & Hinv2 & Hk2). apply wp_ret.
    exists G2. split; [exact Hinv2|]. rewrite Hk2, Hk1.
    rewrite <- Permutation_middle. reflexivity.
Qed.

End FibInsert.

Section FibPromote.
Import FibHeap.
Implicit Types (s : state) (l : list addr).

Lemma last_cons_cons {A} (d b : A) (l : list A) :
  List.last (b :: l) d = List.last l b.
Proof.
  revert d b. induction l as [|c l IH]; intros d b; [reflexivity|].
  change (List.last (b :: c :: l) d) with (List.last (c :: l) d).
  rewrite !IH. reflexivity.
Qed.

Lemma last_in {A} (d : A) (l : list A) : List.last l d ∈ d :: l.
Proof.
  revert d. induction l as [|c l IH]; intros d; [left|].
  rewrite last_cons_cons. right. apply IH.
Qed.

Lemma open_ring_frame (m m' : addr -> FibHeapNode) a0 l :
  NoDup (a0 :: l) ->
  (forall b, b ∈ a0 :: l -> b <> List.last l a0 -> right (m' b) = right (m b)) ->
  (forall b, b ∈ a0 :: l -> left (m' b) = left (m b)) ->
  open_ring m a0 l -> open_ring m' a0 l.
Proof.
  intros Hnd Hr Hl [Hlinks Hleft]. split.
  - destruct l as [|c l _] using rev_ind; [exact I|].
    rewrite List.last_last in *. nodup_dec.
    apply (links_frame' m); [| | |exact Hlinks].
    + apply Hr; [left|]. set_solver.
    + intros b Hb. split; [apply Hr|apply Hl]; set_solver.
    + apply Hl. set_solver.
  - rewrite Hl; [exact Hleft|left].
Qed.

(** The children still to promote: [right] leads from each to the next, and
    [left] of each is itself, the child before it, or the last child. *)
Fixpoint pending (m : addr -> FibHeapNode) (lst prev x : addr) (todo : list addr)
  : Prop :=
  (left (m x) = Some x \/ left (m x) = Some prev \/ left (m x) = Some lst)
  /\ match todo with
     | [] => True
     | b :: rest => right (m x) = Some b /\ pending m lst x b rest
     end.

Lemma pending_frame (m m' : addr -> FibHeapNode) lst todo : forall prev x,
  (forall c, c ∈ x :: todo -> left (m' c) = left (m c) \/ left (m' c) = Some c) ->
  (forall c, c ∈ x :: todo -> c <> List.last todo x -> right (m' c) = right (m c)) ->
  NoDup (x :: todo) ->
  pending m lst prev x todo -> pending m' lst prev x todo.
Proof.
  induction todo as [|b todo IH]; intros prev x Hl Hr Hnd [H1 H2].
  - split; [|exact I]. destruct (Hl x) as [-> | ->]; [left|exact H1|auto].
  - destruct H2 as [H2 H3]. split; [|split].
    + destruct (Hl x) as [-> | ->]; [left|exact H1|auto].
    + rewrite Hr; [exact H2|left|]. rewrite last_cons_cons.
      pose proof (last_in b todo) as Hin. apply NoDup_cons in Hnd as [Hx _].
      intros E. apply Hx. rewrite E. exact Hin.
    + apply NoDup_cons in Hnd as [Hx Hnd]. apply IH; [| |exact Hnd|exact H3].
      * intros c Hc. apply Hl. right. exact Hc.
      * intros c Hc Hne. apply Hr; [right; exact Hc|].
        rewrite last_cons_cons. exact Hne.
Qed.

Lemma links_pending (m : addr -> FibHeapNode) lst todo : forall prev x,
  links m (x :: todo) ->
  (left (m x) = Some x \/ left (m x) = Some prev \/ left (m x) = Some lst) ->
  pending m lst prev x todo.
Proof.
  induction todo as [|b todo IH]; intros prev x Hlinks Hx; [split; auto|].
  apply links_cons2 in Hlinks as (Hr & Hl & Hlinks).
  split; [exact Hx|]. split; [exact Hr|]. apply IH; auto.
Qed.

Definition closing (m : addr -> FibHeapNode) (lst x : addr) : Prop :=
  right (m lst) = Some lst \/ (right (m lst) = Some x /\ left (m x) = Some lst).

(** What the promotion of the children [D] has changed since [s0]. *)
Definition promoted (X D : list addr) (s0 s : state) : Prop :=
  brk s = brk s0 /\ _size s = _size s0
  /\ (forall b, key (mem s b) = key (mem s0 b) /\ child (mem s b) = child (mem s0 b)
        /\ degree (mem s b) = degree (mem s0 b) /\ mark (mem s b) = mark (mem s0 b))
  /\ (forall b, b ∈ D -> p (mem s b) = None)
  /\ (forall b, b ∉ D -> p (mem s b) = p (mem s0 b))
  /\ (forall b, b ∉ X ->
        right (mem s b) = right (mem s0 b) /\ left (mem s b) = left (mem s0 b)).

Definition promote_inv (s0 : state) (z : addr) (R CL : list addr)
    (n : nat) (x : ptr) (s : state) : Prop :=
  exists D x0 todo,
    x = Some x0 /\ CL = D ++ x0 :: todo /\ n = length todo
    /\ min s = Some z
    /\ open_ring (mem s) z (R ++ D)
    /\ pending (mem s) (List.last todo x0) (List.last (R ++ D) z) x0 todo
    /\ closing (mem s) (List.last todo x0) x0
    /\ promoted (z :: R ++ CL) D s0 s.

(** The state after the three stores of a round, before [insert_node]. *)
Definition unhooked (x0 xl nx : addr) (s s3 : state) : Prop :=
  brk s3 = brk s /\ _size s3 = _size s /\ min s3 = min s
  /\ (forall b, key (mem s3 b) = key (mem s b) /\ child (mem s3 b) = child (mem s b)
        /\ degree (mem s3 b) = degree (mem s b) /\ mark (mem s3 b) = mark (mem s b))
  /\ p (mem s3 x0) = None
  /\ (forall b, b <> x0 -> p (mem s3 b) = p (mem s b))
  /\ right (mem s3 xl) = Some xl
  /\ (forall b, b <> xl -> right (mem s3 b) = right (mem s b))
  /\ (forall b, left (mem s3 b) = left (mem s b)
                \/ (left (mem s3 b) = Some b /\ (b = x0 \/ b = nx))).

Definition promote_post (s0 : state) (z : addr) (R CL : list addr) (n : nat)
    (r : ptr + unit) (s' : state) : Prop :=
  match r with
  | inl x' => exists n', (n' < n)%nat /\ promote_inv s0 z R CL n' x' s'
  | inr _ => is_ring (mem s') (z :: R ++ CL) /\ min s' = Some z
             /\ promoted (z :: R ++ CL) CL s0 s'
  end.

Lemma promote_tail s0 z R D x0 todo xl nx s s3 :
  NoDup (z :: R ++ D ++ x0 :: todo) ->
  (forall c, c ∈ D ++ x0 :: todo -> key (mem s0 z) <= key (mem s0 c)) ->
  min s = Some z ->
  open_ring (mem s) z (R ++ D) ->
  pending (mem s) (List.last todo x0) (List.last (R ++ D) z) x0 todo ->
  closing (mem s) (List.last todo x0) x0 ->
  promoted (z :: R ++ D ++ x0 :: todo) D s0 s ->
  left (mem s x0) = Some xl ->
  (xl = x0 \/ xl = List.last (R ++ D) z \/ xl = List.last todo x0) ->
  nx = hd x0 todo ->
  unhooked x0 xl nx s s3 ->
  wp (insert_node (Some x0))
     (fun _ s' =>
        wp (if ptr_eqb (Some nx) (Some x0) then ret (inr tt) else ret (inl (Some nx)))
           (promote_post s0 z R (D ++ x0 :: todo) (length todo)) s') s3.
Proof.
  intros Hnd Hkeys Hmin Hopen Hpend Hclose Hfr Hxl Hxlin Hnx
    (Hb3 & Hs3 & Hm3 & Hf3 & Hp3 & Hp3' & Hr3 & Hr3' & Hl3).
  set (lst := List.last todo x0) in *. set (prev := List.last (R ++ D) z) in *.
  assert (Hprev : prev ∈ z :: R ++ D) by apply last_in.
  assert (Hlst : lst ∈ x0 :: todo) by apply last_in.
  assert (Hnxin : nx ∈ x0 :: todo).
  { subst nx. destruct todo; [left|right; left]. }
  assert (HndRD : NoDup (z :: R ++ D)).
  { rewrite app_assoc in Hnd. change (z :: (R ++ D) ++ x0 :: todo)
      with ((z :: R ++ D) ++ x0 :: todo) in Hnd.
    apply NoDup_app in Hnd. tauto. }
  assert (Hdisj : forall c, c ∈ x0 :: todo -> c ∉ z :: R ++ D).
  { rewrite app_assoc in Hnd. change (z :: (R ++ D) ++ x0 :: todo)
      with ((z :: R ++ D) ++ x0 :: todo) in Hnd.
    apply NoDup_app in Hnd as (_ & Hd & _). intros c Hc Hin. exact (Hd c Hin Hc). }
  assert (Hndt : NoDup (x0 :: todo)).
  { rewrite app_assoc in Hnd. change (z :: (R ++ D) ++ x0 :: todo)
      with ((z :: R ++ D) ++ x0 :: todo) in Hnd.
    apply NoDup_app in Hnd. tauto. }
  assert (Hx0 : x0 ∉ z :: R ++ D) by (apply Hdisj; left).
  destruct Hfr as (Hb0 & Hs0 & Hf0 & Hp0 & Hp0' & Hlr0).
  eapply wp_mono.
  { apply (insert_node_open s3 x0 z (R ++ D)).
    - rewrite Hm3. exact Hmin.
    - apply (open_ring_frame (mem s)); [exact HndRD| | |exact Hopen].
      + intros b Hb Hne. apply Hr3'. intros ->.
        destruct Hxlin as [E|[E|E]]; [| |].
        * apply Hx0. rewrite <- E. exact Hb.
        * apply Hne. exact E.
        * apply (Hdisj lst Hlst). rewrite <- E. exact Hb.
      + intros b Hb. destruct (Hl3 b) as [E|[_ [E|E]]]; [exact E| |]; exfalso.
        * apply Hx0. rewrite <- E. exact Hb.
        * apply (Hdisj nx Hnxin). rewrite <- E. exact Hb.
    - apply NoDup_cons. split; [exact Hx0|exact HndRD]. }
  cbv beta. intros _ s4 (Hring4 & Hmin4 & Hb4 & Hs4 & Hf4 & Hlr4).
  assert (Hkey : (key (mem s3 x0) <? key (mem s3 z)) = false).
  { apply Z.ltb_ge. destruct (Hf3 x0) as (-> & _). destruct (Hf3 z) as (-> & _).
    destruct (Hf0 x0) as (-> & _). destruct (Hf0 z) as (-> & _).
    apply Hkeys. apply elem_of_app. right. left. }
  rewrite Hkey in Hmin4. rewrite <- app_assoc in Hring4.
  assert (Hprom : promoted (z :: R ++ D ++ x0 :: todo) (D ++ [x0]) s0 s4).
  { split; [congruence|]. split; [congruence|]. split; [|split; [|split]].
    - intros b. destruct (Hf4 b) as (-> & _ & -> & -> & ->).
      destruct (Hf3 b) as (-> & -> & -> & ->). apply Hf0.
    - intros b Hb. destruct (Hf4 b) as (_ & -> & _).
      apply elem_of_app in Hb as [Hb|Hb].
      + rewrite Hp3'; [apply Hp0, Hb|]. intros ->. apply Hx0.
        right. apply elem_of_app. right. exact Hb.
      + apply list_elem_of_singleton in Hb. subst b. exact Hp3.
    - intros b Hb. destruct (Hf4 b) as (_ & -> & _).
      rewrite Hp3'.
      + apply Hp0'. intros Hin. apply Hb, elem_of_app. left. exact Hin.
      + intros ->. apply Hb, elem_of_app. right. left.
    - intros b Hb.
      assert (Hb1 : b ∉ x0 :: z :: R ++ D) by (clear -Hb; set_solver).
      destruct (Hlr4 b Hb1) as [-> ->].
      assert (Hbx : b ∉ x0 :: todo) by (clear -Hb; set_solver).
      rewrite Hr3'.
      + destruct (Hl3 b) as [-> | [_ [E|E]]]; [apply Hlr0, Hb| |]; exfalso.
        * apply Hbx. rewrite E. left.
        * apply Hbx. rewrite E. exact Hnxin.
      + intros ->. destruct Hxlin as [E|[E|E]].
        * apply Hbx. rewrite E. left.
        * apply Hb. rewrite E. set_solver.
        * apply Hbx. rewrite E. exact Hlst. }
  destruct todo as [|b rest].
  - cbn [hd] in Hnx. subst nx. cbn [ptr_eqb]. rewrite Nat.eqb_refl. apply wp_ret.
    cbn [promote_post]. split; [exact Hring4|]. split; [exact Hmin4|exact Hprom].
  - cbn [hd] in Hnx. subst nx.
    assert (Hbx : b <> x0).
    { apply NoDup_cons in Hndt as [Hn _]. intros ->. apply Hn. left. }
    cbn [ptr_eqb]. rewrite (proj2 (Nat.eqb_neq b x0) Hbx). apply wp_ret.
    cbn [promote_post length]. exists (length rest). split; [lia|].
    exists (D ++ [x0]), b, rest. split; [reflexivity|].
    split; [rewrite <- app_assoc; reflexivity|]. split; [reflexivity|].
    split; [exact Hmin4|].
    assert (Hrest4 : forall c, c ∈ b :: rest ->
              right (mem s4 c) = right (mem s3 c) /\ left (mem s4 c) = left (mem s3 c)).
    { intros c Hc. apply Hlr4. intros Hin. apply elem_of_cons in Hin as [->|Hin].
      - apply NoDup_cons in Hndt as [Hn _]. exact (Hn Hc).
      - apply (Hdisj c); [right; exact Hc|exact Hin]. }
    assert (Hlast : lst = List.last rest b) by apply last_cons_cons.
    assert (Hlstin : lst ∈ b :: rest) by (rewrite Hlast; apply last_in).
    assert (Hrl : right (mem s3 lst) = Some lst).
    { destruct Hclose as [E|[E1 E2]].
      - destruct (decide (lst = xl)) as [->|Hne]; [exact Hr3|].
        rewrite Hr3'; [exact E|exact Hne].
      - rewrite Hxl in E2. injection E2 as ->. exact Hr3. }
    split; [|split; [|split]].
    + rewrite app_assoc. apply is_ring_open. rewrite <- app_assoc. exact Hring4.
    + rewrite app_assoc, List.last_last, <- Hlast.
      destruct Hpend as (_ & _ & Hpend).
      apply NoDup_cons in Hndt as [Hn Hndt].
      apply (pending_frame (mem s)); [| |exact Hndt|exact Hpend].
      * intros c Hc. destruct (Hrest4 c Hc) as [_ ->].
        destruct (Hl3 c) as [E|[E _]]; auto.
      * intros c Hc Hne. destruct (Hrest4 c Hc) as [-> _].
        apply Hr3'. rewrite <- Hlast in Hne. intros ->.
        destruct Hxlin as [E|[E|E]].
        -- apply Hn. rewrite <- E. exact Hc.
        -- apply (Hdisj xl); [right; exact Hc|]. rewrite E. exact Hprev.
        -- exact (Hne E).
    + left. rewrite <- Hlast. destruct (Hrest4 lst Hlstin) as [-> _]. exact Hrl.
    + exact Hprom.
Qed.

Lemma promote_step_spec s0 z R CL n x s :
  NoDup (z :: R ++ CL) ->
  (forall c, c ∈ CL -> key (mem s0 z) <= key (mem s0 c)) ->
  promote_inv s0 z R CL n x s ->
  wp (promote_step x) (promote_post s0 z R CL n) s.
Proof.
  intros Hnd Hkeys (D & x0 & todo & -> & -> & -> & Hmin & Hopen & Hpend & Hclose & Hfr).
  assert (Hxl : exists xl, left (mem s x0) = Some xl
            /\ (xl = x0 \/ xl = List.last (R ++ D) z \/ xl = List.last todo x0)).
  { destruct todo; destruct Hpend as [[H|[H|H]] _]; eauto. }
  destruct Hxl as (xl & Hxl & Hxlin).
  assert (Hnx : exists nx, right (mem s x0) = Some nx /\ nx = hd x0 todo).
  { destruct todo as [|b rest].
    - exists x0. split; [|reflexivity]. unfold closing in Hclose. cbn in Hclose. tauto.
    - exists b. split; [|reflexivity]. apply Hpend. }
  destruct Hnx as (nx & Hnx & Hnxeq).
  unfold promote_step.
  destruct (decide (xl = x0)) as [->|Hne].
  - fh_go.
    apply (promote_tail s0 z R D x0 todo x0 nx s); auto.
    unfold unhooked. cbn [mem brk _size min with_mem].
    repeat split; upd_cases.
  - fh_go.
    apply (promote_tail s0 z R D x0 todo xl nx s); auto.
    unfold unhooked. cbn [mem brk _size min with_mem].
    repeat split; upd_cases.
Qed.

End FibPromote.

Section FibLink.
Import FibHeap.
Implicit Types (s : state) (l : list addr).

Lemma promote_loop_spec fuel s z R c1 cs :
  NoDup (z :: R ++ c1 :: cs) ->
  (forall c, c ∈ c1 :: cs -> key (mem s z) <= key (mem s c)) ->
  min s = Some z ->
  is_ring (mem s) (z :: R) -> is_ring (mem s) (c1 :: cs) ->
  (length cs < fuel)%nat ->
  wp (loop fuel promote_step (Some c1))
     (fun _ s' => is_ring (mem s') (z :: R ++ c1 :: cs) /\ min s' = Some z
        /\ promoted (z :: R ++ c1 :: cs) (c1 :: cs) s s') s.
Proof.
  intros Hnd Hkeys Hmin Hroots Hkids Hfuel.
  apply (wp_loop (fun n x s' => promote_inv s z R (c1 :: cs) n x s'))
    with (n := length cs); [| |exact Hfuel].
  - intros n x s' Hinv.
    apply (promote_step_spec s z R (c1 :: cs) n x s' Hnd Hkeys Hinv).
  - exists [], c1, cs. rewrite app_nil_r. cbn [app].
    split; [reflexivity|]. split; [reflexivity|]. split; [reflexivity|].
    split; [exact Hmin|]. split; [apply is_ring_open, Hroots|].
    destruct (is_ring_last _ _ _ Hkids) as [Hl Hr].
    apply is_ring_open in Hkids as [Hlinks _].
    split; [apply links_pending; auto|]. split; [right; auto|].
    unfold promoted. repeat split; auto. intros b Hb. inversion Hb.
Qed.

(** Taking the first node out of a ring. *)
Lemma is_ring_unlink (m m' : addr -> FibHeapNode) (y a : addr) L0 :
  is_ring m (y :: a :: L0) -> NoDup (a :: L0) ->
  left (m' a) = Some (List.last L0 a) ->
  right (m' (List.last L0 a)) = Some a ->
  (forall b, b ∈ a :: L0 -> b <> List.last L0 a -> right (m' b) = right (m b)) ->
  (forall b, b ∈ L0 -> left (m' b) = left (m b)) ->
  is_ring m' (a :: L0).
Proof.
  intros Hring Hnd Hl Hr Hrs Hls.
  apply is_ring_open in Hring as [Hlinks _].
  apply links_cons2 in Hlinks as (_ & _ & Hlinks).
  unfold is_ring. cbn [app].
  destruct L0 as [|c L1 _] using rev_ind.
  - cbn in *. auto.
  - rewrite List.last_last in *. rewrite <- app_assoc. cbn [app].
    pose proof (links_snoc m' (a :: L1) c a) as Hs. cbn [app] in Hs. apply Hs.
    clear Hs. split; [|auto]. nodup_dec.
    apply (links_frame' m); [| | |exact Hlinks].
    + apply Hrs; [left|]. set_solver.
    + intros b Hb. split; [apply Hrs|apply Hls]; set_solver.
    + apply Hls. set_solver.
Qed.

(** The first half of [fib_link]: [y] leaves its ring and becomes a ring of
    its own. *)
Lemma unlink_wp {A} s (y a : addr) L0 (k : M state A) (Q : A -> state -> Prop) :
  is_ring (mem s) (y :: a :: L0) -> NoDup (y :: a :: L0) ->
  (forall s', is_ring (mem s') (a :: L0) -> is_ring (mem s') [y] ->
     ring_frame_on (y :: a :: L0) s s' -> min s' = min s -> wp k Q s') ->
  wp (yr <- load right (Some y) ;;
      yl <- load left (Some y) ;;
      store yr (set_left yl) ;;
      yl <- load left (Some y) ;;
      yr <- load right (Some y) ;;
      store yl (set_right yr) ;;
      store (Some y) (set_left (Some y)) ;;
      store (Some y) (set_right (Some y)) ;;
      k) Q s.
Proof.
  intros Hring Hnd Hk.
  pose proof (is_ring_right_first _ _ _ _ Hring) as Hyr.
  destruct (is_ring_last _ _ _ Hring) as [Hyl _]. rewrite last_cons_cons in Hyl.
  remember (List.last L0 a) as c eqn:Ec.
  assert (Hc : c ∈ a :: L0) by (rewrite Ec; apply last_in).
  apply NoDup_cons in Hnd as [Hy Hnd].
  assert (Hya : y <> a) by (intros ->; apply Hy; left).
  assert (Hyc : y <> c) by (intros ->; exact (Hy Hc)).
  fh_go. apply Hk.
  - apply (is_ring_unlink (mem s) _ y); [exact Hring|exact Hnd| | | |].
    + rewrite <- Ec. cbn [mem with_mem]. upd_cases.
    + rewrite <- Ec. cbn [mem with_mem]. upd_cases.
    + rewrite <- Ec. intros b Hb Hbc. assert (b <> y) by (intros ->; exact (Hy Hb)).
      cbn [mem with_mem]. upd_cases.
    + intros b Hb. assert (b <> y) by (intros ->; apply Hy; right; exact Hb).
      assert (b <> a).
      { intros ->. apply NoDup_cons in Hnd as [Hn _]. exact (Hn Hb). }
      cbn [mem with_mem]. upd_cases.
  - apply is_ring_singleton. cbn [mem with_mem]. split; upd_cases.
  - unfold ring_frame_on. cbn [mem with_mem brk _size].
    split; [reflexivity|]. split; [reflexivity|]. split.
    + intros b. repeat split; upd_cases.
    + intros b Hb. assert (b <> y) by set_solver. assert (b <> a) by set_solver.
      assert (b <> c) by (intros ->; apply Hb; right; exact Hc).
      split; upd_cases.
  - reflexivity.
Qed.

(** The second half of [fib_link]: [y] joins the children of [x]. *)
Definition attach (y x : ptr) : M state unit :=
  xc <- load child x ;;
  (if is_null xc then
     store x (set_child y) ;;
     store y (set_p x)
   else
     r <- load right xc ;;
     store xc (set_right y) ;;
     xc' <- load child x ;;
     store y (set_left xc') ;;
     store r (set_left y) ;;
     store y (set_right r) ;;
     store y (set_p x)) ;;
  xd <- load degree x ;;
  store x (set_degree (incr64 xd)) ;;
  store y (set_mark false).

Definition joined (y : addr) (CL : list addr) : list addr :=
  match CL with
  | [] => [y]
  | c :: rest => c :: y :: rest
  end.

Lemma attach_spec s (x y : addr) CL :
  child (mem s x) = head CL -> is_ring (mem s) CL -> is_ring (mem s) [y] ->
  NoDup (x :: y :: CL) ->
  wp (attach (Some y) (Some x))
     (fun _ s' =>
        is_ring (mem s') (joined y CL)
        /\ child (mem s' x) = head (joined y CL)
        /\ degree (mem s' x) = incr64 (degree (mem s x))
        /\ mark (mem s' y) = false /\ p (mem s' y) = Some x
        /\ brk s' = brk s /\ _size s' = _size s /\ min s' = min s
        /\ (forall b, key (mem s' b) = key (mem s b))
        /\ (forall b, b <> x -> child (mem s' b) = child (mem s b)
                                /\ degree (mem s' b) = degree (mem s b))
        /\ (forall b, b <> y -> mark (mem s' b) = mark (mem s b)
                                /\ p (mem s' b) = p (mem s b))
        /\ (forall b, b ∉ y :: CL -> right (mem s' b) = right (mem s b)
                                     /\ left (mem s' b) = left (mem s b))) s.
Proof.
  intros Hchild Hring Hy Hnd. unfold attach.
  apply is_ring_singleton in Hy as [Hyr Hyl].
  apply NoDup_cons in Hnd as [Hx Hnd]. apply NoDup_cons in Hnd as [Hyn Hnd].
  assert (Hxy : x <> y) by (intros ->; apply Hx; left).
  destruct CL as [|c rest].
  - cbn [head] in Hchild. fh_go. cbn [joined head mem with_mem brk _size min].
    split; [apply is_ring_singleton; split; upd_cases|].
    conjs; try solve [upd_cases].
    all: intros b Hb; conjs; upd_cases.
    all: exfalso; apply Hb; left.
  - cbn [head] in Hchild.
    assert (Hxc : x <> c) by (intros ->; apply Hx; right; left).
    assert (Hyc : y <> c) by (intros ->; apply Hyn; left).
    pose proof (is_ring_open _ _ _ Hring) as [Hlinks Hcl].
    destruct rest as [|r rest].
    + apply is_ring_singleton in Hring as [Hcr _].
      fh_go. cbn [joined head mem with_mem brk _size min].
      split.
      { unfold is_ring. cbn [app]. rewrite !links_cons2.
        repeat split; upd_cases. }
      conjs; try solve [upd_cases].
      all: intros b Hb; conjs; upd_cases.
      all: exfalso; apply Hb; set_solver.
    + pose proof (is_ring_right_first _ _ _ _ Hring) as Hcr.
      assert (Hxr : x <> r) by (intros ->; apply Hx; right; right; left).
      assert (Hyr' : y <> r) by (intros ->; apply Hyn; right; left).
      assert (Hcr' : c <> r).
      { apply NoDup_cons in Hnd as [Hn _]. intros ->. apply Hn. left. }
      fh_go. cbn [joined head mem with_mem brk _size min].
      split.
      { unfold is_ring in *. cbn [app] in *. rewrite links_cons2 in Hring.
        destruct Hring as (_ & _ & Hring). rewrite !links_cons2.
        conjs; try solve [upd_cases].
        apply (links_frame' (mem s)); [| | |exact Hring]; try solve [upd_cases].
        intros b Hb. nodup_dec.
        assert (b <> c) by set_solver. assert (b <> y) by set_solver.
        assert (b <> r) by set_solver. split; upd_cases. }
      conjs; try solve [upd_cases].
      all: intros b Hb; conjs; upd_cases.
      all: exfalso; apply Hb; set_solver.
Qed.

End FibLink.

Section FibLinkTrees.
Import FibHeap.
Implicit Types (s : state) (l : list addr) (G : list tree).

(** A forest in memory whose roots are the ring [RL], in some order. *)
Definition forest_ok s G (RL : list addr) : Prop :=
  NoDup (fnodes G)
  /\ map root G ≡ₚ RL
  /\ is_ring (mem s) RL
  /\ Forall (fwf (mem s)) G
  /\ Forall (ho (fkey s)) G.

Lemma forest_ok_perm s G G' RL :
  G ≡ₚ G' -> forest_ok s G RL -> forest_ok s G' RL.
Proof.
  intros HP (Hnd & Hperm & Hring & Hwf & Hho).
  split; [rewrite <- (fnodes_perm _ _ HP); exact Hnd|].
  split; [rewrite <- HP; exact Hperm|]. split; [exact Hring|].
  split; rewrite <- HP; assumption.
Qed.

(** The new child goes second in the ring of children. *)
Definition link_kid (ty : tree) (cx : list tree) : list tree :=
  match cx with
  | [] => [ty]
  | c :: rest => c :: ty :: rest
  end.

Lemma map_root_link_kid ty cx :
  map root (link_kid ty cx) = joined (root ty) (map root cx).
Proof. destruct cx; reflexivity. Qed.

Lemma link_kid_perm ty cx : link_kid ty cx ≡ₚ ty :: cx.
Proof. destruct cx; [reflexivity|apply perm_swap]. Qed.

Lemma pick_root G (a : addr) :
  a ∈ map root G -> exists cs G', G ≡ₚ T a cs :: G'.
Proof.
  intros Ha. apply list_elem_of_fmap in Ha as ([b cs] & -> & Hin).
  apply list_elem_of_split in Hin as (G1 & G2 & ->).
  exists cs, (G1 ++ G2). cbn [root]. rewrite <- Permutation_middle. reflexivity.
Qed.

Lemma fib_link_spec s (x y : addr) cx cy G2 RL :
  forest_ok s (T x cx :: T y cy :: G2) RL ->
  key (mem s x) <= key (mem s y) ->
  Z.of_nat (length cx) + 1 < two64 ->
  wp (fib_link (Some y) (Some x))
     (fun _ s' => exists RL',
        forest_ok s' (T x (link_kid (T y cy) cx) :: G2) RL'
        /\ RL ≡ₚ y :: RL'
        /\ brk s' = brk s /\ _size s' = _size s /\ min s' = min s
        /\ (forall b, key (mem s' b) = key (mem s b))
        /\ (forall b, b <> x -> degree (mem s' b) = degree (mem s b))
        /\ degree (mem s' x) = degree (mem s x) + 1
        /\ mark (mem s' y) = false
        /\ (forall b, b <> y -> mark (mem s' b) = mark (mem s b)
                                /\ p (mem s' b) = p (mem s b))) s.
Proof.
  intros (Hnd & Hperm & Hring & Hwf & Hho) Hk Hlen.
  assert (HndR : NoDup RL) by (rewrite <- Hperm; apply roots_NoDup, Hnd).
  assert (HL : exists L, is_ring (mem s) (y :: L) /\ RL ≡ₚ y :: L).
  { assert (Hy : y ∈ RL) by (rewrite <- Hperm; cbn; right; left).
    apply list_elem_of_split in Hy as (pre & post & ->).
    apply (is_ring_rotate _ pre (y :: post)) in Hring. cbn [app] in Hring.
    exists (post ++ pre). split; [exact Hring|].
    rewrite <- Permutation_middle. constructor. apply Permutation_app_comm. }
  destruct HL as (L & Hring' & HRL). clear Hring. rename Hring' into Hring.
  assert (HP : x :: map root G2 ≡ₚ L).
  { cbn [map root] in Hperm. rewrite HRL in Hperm.
    rewrite (perm_swap y x) in Hperm. apply Permutation_cons_inv in Hperm.
    exact Hperm. }
  assert (HndL : NoDup (y :: L)) by (rewrite <- HRL; exact HndR).
  destruct L as [|a L0].
  { apply Permutation_nil_r in HP. discriminate. }
  (* where the nodes are *)
  assert (Hroots : forall b, b ∈ a :: L0 <-> b ∈ x :: map root G2)
    by (intros b; rewrite HP; reflexivity).
  rewrite !fnodes_cons, !nodes_T in Hnd.
  assert (Hinner : forall b, b ∈ fnodes cx ++ fnodes cy ++ inner G2 ->
            b ∉ y :: a :: L0).
  { intros b Hb Hin. rewrite (fnodes_roots_inner G2) in Hnd.
    assert (Hin' : b ∈ y :: x :: map root G2).
    { apply elem_of_cons in Hin as [->|Hin]; [left|right; apply Hroots, Hin]. }
    clear -Hnd Hb Hin'. cbn [app] in Hnd. nodup_dec. set_solver. }
  apply Forall_cons in Hwf as [Hwx Hwf]. apply Forall_cons in Hwf as [Hwy Hwf].
  apply Forall_cons in Hho as [Hhx Hho]. apply Forall_cons in Hho as [Hhy Hho].
  pose proof Hwx as Hwx'. apply fwf_T in Hwx' as (Hdx & Hcx & Hrx & Hwcx).
  assert (HndC : NoDup (x :: y :: map root cx)).
  { assert (Hr := roots_NoDup cx). 
    assert (Hsub : forall b, b ∈ map root cx -> b ∈ fnodes cx)
      by (intros b; apply roots_in_fnodes).
    clear -Hnd Hr Hsub. cbn [app] in Hnd. nodup_dec.
    apply NoDup_cons. split; [set_solver|]. apply NoDup_cons. split; [set_solver|].
    auto. }
  unfold fib_link.
  apply (unlink_wp s y a L0); [exact Hring|exact HndL|].
  intros s1 HringL Hy1 Hf1 Hmin1.
  pose proof Hf1 as (Hb1 & Hs1 & Hfld1 & Hlr1).
  eapply wp_mono.
  { apply (attach_spec s1 x y (map root cx)).
    - destruct (Hfld1 x) as (_ & _ & -> & _). exact Hcx.
    - eapply is_ring_frame; [|exact Hrx]. intros b Hb. apply Hlr1.
      apply Hinner, elem_of_app. left. apply roots_in_fnodes, Hb.
    - exact Hy1.
    - exact HndC. }
  cbv beta.
  intros _ s2 (Hr2 & Hc2 & Hd2 & Hmk2 & Hp2 & Hb2 & Hs2 & Hmin2 & Hk2 & Hcd2 & Hmp2 & Hlr2).
  assert (Hkey : forall b, key (mem s2 b) = key (mem s b)).
  { intros b. rewrite Hk2. apply Hfld1. }
  assert (Hwf2 : Forall (fwf (mem s2)) (cx ++ T y cy :: G2)).
  { apply (fwf_forest_frame (mem s)).
    - intros b Hb. assert (b <> x).
      { intros ->. rewrite fnodes_app, fnodes_cons, nodes_T in Hb.
        clear -Hnd Hb. cbn [app] in Hnd. nodup_dec. set_solver. }
      destruct (Hcd2 b) as [-> ->]; [assumption|].
      destruct (Hfld1 b) as (_ & _ & -> & -> & _). auto.
    - intros b Hb. rewrite inner_app in Hb. cbn in Hb.
      change (flat_map nodes cy) with (fnodes cy) in Hb.
      change (flat_map (fun t => flat_map nodes (kids t)) G2) with (inner G2) in Hb.
      assert (Hb1' : b ∉ y :: a :: L0).
      { apply Hinner. apply elem_of_app in Hb as [Hb|Hb].
        - apply inner_in_fnodes in Hb. apply elem_of_app. left. exact Hb.
        - apply elem_of_app. right. exact Hb. }
      assert (Hb2' : b ∉ y :: map root cx).
      { intros Hin. apply elem_of_cons in Hin as [->|Hin]; [apply Hb1'; left|].
        apply elem_of_app in Hb as [Hb|Hb].
        - exact (inner_not_root cx b ltac:(clear -Hnd; cbn [app] in Hnd; nodup_dec; auto) Hb Hin).
        - apply roots_in_fnodes in Hin.
          assert (Hb' : b ∈ fnodes cy ++ fnodes G2).
          { apply elem_of_app in Hb as [Hb|Hb%inner_in_fnodes]; set_solver. }
          clear -Hnd Hb' Hin. cbn [app] in Hnd. nodup_dec. set_solver. }
      destruct (Hlr2 b Hb2') as [-> ->]. apply Hlr1, Hb1'.
    - apply Forall_app. split; [exact Hwcx|]. constructor; assumption. }
  apply Forall_app in Hwf2 as [Hwcx2 Hwf2]. apply Forall_cons in Hwf2 as [Hwy2 Hwf2].
  exists (a :: L0). split; [split; [|split; [|split; [|split]]]|].
  - rewrite fnodes_cons, nodes_T, (fnodes_perm _ _ (link_kid_perm (T y cy) cx)).
    rewrite fnodes_cons, nodes_T.
    rewrite (Permutation_app_comm (y :: fnodes cy) (fnodes cx)).
    cbn [app] in *. rewrite <- app_assoc. exact Hnd.
  - cbn [map root]. rewrite HP. reflexivity.
  - eapply is_ring_frame; [|exact HringL]. intros b Hb. apply Hlr2.
    intros Hin. apply elem_of_cons in Hin as [->|Hin].
    + apply NoDup_cons in HndL as [Hn _]. exact (Hn Hb).
    + apply (Hinner b); [|right; exact Hb].
      apply elem_of_app. left. apply roots_in_fnodes, Hin.
  - constructor; [|exact Hwf2]. apply fwf_T.
    rewrite map_root_link_kid. cbn [root].
    split; [|split; [exact Hc2|split; [exact Hr2|]]].
    + rewrite (Permutation_length (link_kid_perm (T y cy) cx)). cbn [length].
      rewrite Hd2. destruct (Hfld1 x) as (_ & _ & _ & -> & _). rewrite Hdx.
      unfold incr64. rewrite Z.mod_small; lia.
    + rewrite (link_kid_perm (T y cy) cx). constructor; assumption.
  - assert (Hho2 : Forall (ho (fkey s2)) (T x cx :: T y cy :: G2)).
    { eapply ho_forest_frame; [|constructor; [exact Hhx|constructor; [exact Hhy|exact Hho]]].
      intros b _. unfold fkey. apply Hkey. }
    apply Forall_cons in Hho2 as [Hhx2 Hho2]. apply Forall_cons in Hho2 as [Hhy2 Hho2].
    constructor; [|exact Hho2]. apply ho_T. rewrite (link_kid_perm (T y cy) cx).
    apply ho_T in Hhx2. constructor; [|exact Hhx2]. split; [|exact Hhy2].
    unfold fkey. cbn [root]. rewrite !Hkey. exact Hk.
  - split; [exact HRL|]. split; [congruence|]. split; [congruence|].
    split; [congruence|]. split; [exact Hkey|]. split; [|split; [|split]].
    + intros b Hb. destruct (Hcd2 b Hb) as [_ ->]. apply Hfld1.
    + rewrite Hd2. destruct (Hfld1 x) as (_ & _ & _ & -> & _). rewrite Hdx.
      unfold incr64. rewrite Z.mod_small; lia.
    + exact Hmk2.
    + intros b Hb. destruct (Hmp2 b Hb) as [-> ->].
      destruct (Hfld1 b) as (_ & -> & _ & _ & ->). auto.
Qed.

End FibLinkTrees.

Section FibCensus.
Import FibHeap.
Implicit Types (s : state) (l : list addr) (G : list tree).

(** In a ring, [right] leads to the next node, and from the last node back
    to the first. *)
Lemma is_ring_next (m : addr -> FibHeapNode) (a0 x : addr) done todo :
  is_ring m (done ++ x :: todo) -> head (done ++ x :: todo) = Some a0 ->
  right (m x) = Some (hd a0 todo).
Proof.
  intros Hring Hhd. unfold is_ring in Hring.
  destruct (done ++ x :: todo) as [|a l] eqn:E; [discriminate|].
  injection Hhd as ->. rewrite <- E, <- app_assoc in Hring. cbn [app] in Hring.
  apply links_app in Hring as [_ Hring].
  destruct todo as [|b todo]; cbn [app hd] in *; apply Hring.
Qed.

Lemma is_ring_left_in (m : addr -> FibHeapNode) RL x :
  is_ring m RL -> x ∈ RL -> exists a, a ∈ RL /\ left (m x) = Some a.
Proof.
  intros Hring Hx. apply list_elem_of_split in Hx as (l1 & l2 & ->).
  apply (is_ring_rotate _ l1 (x :: l2)) in Hring. cbn [app] in Hring.
  apply is_ring_last in Hring as [Hl _]. eexists. split; [|exact Hl].
  pose proof (last_in x (l2 ++ l1)) as Hin.
  apply elem_of_cons in Hin as [->|Hin]; set_solver.
Qed.

Definition census_inv (s : state) (RL : list addr)
    (n : nat) (c : census) (s' : state) : Prop :=
  s' = s /\ exists done x todo,
    RL = done ++ x :: todo /\ cx c = Some x /\ n = length todo
    /\ orig_nodes c = map Some done
    /\ num_trees c = Z.of_nat (length done)
    /\ 0 <= max_d c
    /\ (forall r, r ∈ done -> degree (mem s r) <= max_d c)
    /\ (max_d c = 0 \/ exists r, r ∈ done /\ max_d c = degree (mem s r)).

Definition census_post (s : state) (RL : list addr) (c : census) (s' : state)
  : Prop :=
  s' = s /\ orig_nodes c = map Some RL
  /\ num_trees c = Z.of_nat (length RL)
  /\ 0 <= max_d c
  /\ (forall r, r ∈ RL -> degree (mem s r) <= max_d c)
  /\ (max_d c = 0 \/ exists r, r ∈ RL /\ max_d c = degree (mem s r)).

Lemma census_step_spec s a0 l n c s' :
  is_ring (mem s) (a0 :: l) -> NoDup (a0 :: l) ->
  Z.of_nat (length (a0 :: l)) < two64 ->
  census_inv s (a0 :: l) n c s' ->
  wp (census_step (Some a0) c)
     (fun r s'' => match r with
                   | inl c' => exists n', (n' < n)%nat /\ census_inv s (a0 :: l) n' c' s''
                   | inr c' => census_post s (a0 :: l) c' s''
                   end) s'.
Proof.
  intros Hring Hnd Hlen (-> & done & x & todo & E & Hcx & -> & Ho & Hn & H0 & Hmax & Hwit).
  unfold census_step. rewrite Hcx.
  assert (Hnext : right (mem s x) = Some (hd a0 todo)).
  { rewrite E in Hring. apply (is_ring_next _ a0 x done todo Hring).
    rewrite <- E. reflexivity. }
  fh_go.
  assert (Hlen' : Z.of_nat (length done) + 1 < two64).
  { rewrite E in Hlen. rewrite length_app in Hlen. cbn [length] in Hlen. lia. }
  assert (Hinc : incr64 (num_trees c) = Z.of_nat (length (done ++ [x]))).
  { rewrite Hn, length_app. cbn [length]. unfold incr64.
    rewrite Z.mod_small; lia. }
  assert (Hmax' : forall r, r ∈ done ++ [x] ->
            degree (mem s r) <= Z.max (max_d c) (degree (mem s x))).
  { intros r Hr. apply elem_of_app in Hr as [Hr|Hr].
    - specialize (Hmax r Hr). lia.
    - apply list_elem_of_singleton in Hr. subst r. lia. }
  assert (Hwit' : Z.max (max_d c) (degree (mem s x)) = 0
            \/ exists r, r ∈ done ++ [x]
                 /\ Z.max (max_d c) (degree (mem s x)) = degree (mem s r)).
  { destruct (Z.max_spec (max_d c) (degree (mem s x))) as [[_ ->]|[_ ->]].
    - right. exists x. split; [set_solver|reflexivity].
    - destruct Hwit as [Hz|(r & Hr & Hz)]; [left; exact Hz|].
      right. exists r. split; [set_solver|exact Hz]. }
  destruct todo as [|b todo]; cbn [hd ptr_eqb].
  - rewrite Nat.eqb_refl. apply wp_ret. unfold census_post.
    rewrite E. cbn [orig_nodes num_trees max_d cx].
    split; [reflexivity|]. rewrite Ho, map_app. cbn [map].
    split; [reflexivity|]. split; [exact Hinc|]. split; [lia|].
    split; [exact Hmax'|exact Hwit'].
  - assert (Hb : b <> a0).
    { rewrite E in Hnd. destruct done as [|d0 done].
      - cbn [app] in *. injection E as -> _. apply NoDup_cons in Hnd as [Hn' _].
        intros ->. apply Hn'. left.
      - cbn [app] in *. injection E as -> _. apply NoDup_cons in Hnd as [Hn' _].
        intros ->. apply Hn'. set_solver. }
    rewrite (proj2 (Nat.eqb_neq b a0) Hb). apply wp_ret.
    exists (length todo). split; [cbn; lia|]. split; [reflexivity|].
    exists (done ++ [x]), b, todo. cbn [orig_nodes num_trees max_d cx].
    split; [rewrite <- app_assoc; exact E|]. split; [reflexivity|].
    split; [reflexivity|]. split; [rewrite Ho, map_app; reflexivity|].
    split; [exact Hinc|]. split; [lia|]. split; [exact Hmax'|exact Hwit'].
Qed.

Lemma census_spec fuel s a0 l :
  is_ring (mem s) (a0 :: l) -> NoDup (a0 :: l) ->
  Z.of_nat (length (a0 :: l)) < two64 -> (length l < fuel)%nat ->
  wp (loop fuel (census_step (Some a0))
        {| cx := Some a0; max_d := 0; num_trees := 0; orig_nodes := [] |})
     (census_post s (a0 :: l)) s.
Proof.
  intros Hring Hnd Hlen Hfuel.
  apply (wp_loop (census_inv s (a0 :: l))) with (n := length l); [| |exact Hfuel].
  - intros n c s' Hinv. apply census_step_spec; assumption.
  - split; [reflexivity|]. exists [], a0, l. cbn.
    repeat split; auto; try lia. intros r Hr. inversion Hr.
Qed.

End FibCensus.

Section FibCollide.
Import FibHeap.
Implicit Types (s : state) (l : list addr) (G : list tree) (A : list ptr).

(** The roots held in the slots of [A]. *)
Definition ents A : list addr := omap id A.

Lemma ents_replicate n : ents (replicate n None) = [].
Proof. induction n as [|n IH]; [reflexivity|exact IH]. Qed.

Lemma ents_split A i v :
  A !! i = Some v -> forall w,
  ents (<[i := w]> A) = ents (take i A) ++ ents [w] ++ ents (drop (S i) A)
  /\ ents A = ents (take i A) ++ ents [v] ++ ents (drop (S i) A).
Proof.
  intros Hi w. pose proof (lookup_lt_Some _ _ _ Hi) as Hlt. unfold ents. split.
  - rewrite insert_take_drop by exact Hlt.
    change (w :: drop (S i) A) with ([w] ++ drop (S i) A).
    rewrite !omap_app. reflexivity.
  - rewrite <- (take_drop_middle A i v Hi) at 1.
    change (v :: drop (S i) A) with ([v] ++ drop (S i) A).
    rewrite !omap_app. reflexivity.
Qed.

Lemma ents_delete A i r :
  A !! i = Some (Some r) -> ents A ≡ₚ r :: ents (<[i := None]> A).
Proof.
  intros Hi. destruct (ents_split A i _ Hi None) as [E1 E2].
  unfold ptr in *. rewrite E1, E2. cbn.
  rewrite <- Permutation_middle. reflexivity.
Qed.

Lemma ents_insert A i r :
  A !! i = Some None -> ents (<[i := Some r]> A) ≡ₚ r :: ents A.
Proof.
  intros Hi. destruct (ents_split A i _ Hi (Some r)) as [E1 E2].
  unfold ptr in *. rewrite E1, E2. cbn.
  rewrite <- Permutation_middle. reflexivity.
Qed.

Lemma ents_lookup A i r : A !! i = Some (Some r) -> r ∈ ents A.
Proof.
  intros Hi. unfold ents. apply list_elem_of_omap. exists (Some r).
  split; [|reflexivity]. apply list_elem_of_lookup. eauto.
Qed.

Lemma fnodes_link_kid (x : addr) ty cx G2 :
  fnodes (T x (link_kid ty cx) :: G2) ≡ₚ fnodes (T x cx :: ty :: G2).
Proof.
  rewrite !fnodes_cons, !nodes_T, (fnodes_perm _ _ (link_kid_perm ty cx)).
  rewrite fnodes_cons. cbn [app]. constructor.
  rewrite (Permutation_app_comm (nodes ty) (fnodes cx)), <- app_assoc.
  reflexivity.
Qed.

(** What [consolidate] keeps: the nodes, their keys, [brk] and [_size]. *)
Definition preserved (s0 : state) (G0 : list tree) s G : Prop :=
  fnodes G ≡ₚ fnodes G0
  /\ (forall b, key (mem s b) = key (mem s0 b))
  /\ brk s = brk s0 /\ _size s = _size s0.

(** A root in slot [i] has degree [i]. *)
Definition slots_ok s A : Prop :=
  forall i r, A !! i = Some (Some r) -> degree (mem s r) = Z.of_nat i.

(** Every root can still take all the other roots as children without
    leaving [A]. *)
Definition room s (RL : list addr) (nvs : nat) : Prop :=
  forall r, r ∈ RL -> degree (mem s r) + Z.of_nat (length RL) <= Z.of_nat nvs.

Definition collide_inv (s0 : state) (G0 : list tree) (nvs : nat)
    (todoa : list addr) (n : nat) (c : ptr * Z * list ptr) (s : state) : Prop :=
  let '(x, d, A) := c in
  exists G RL xa,
    x = Some xa /\ forest_ok s G RL /\ RL ≡ₚ xa :: ents A ++ todoa
    /\ length A = nvs /\ slots_ok s A /\ room s RL nvs
    /\ d = degree (mem s xa) /\ n = length (ents A)
    /\ preserved s0 G0 s G.

Definition collide_post (s0 : state) (G0 : list tree) (nvs : nat)
    (todoa : list addr) (c : ptr * Z * list ptr) (s : state) : Prop :=
  let '(x, d, A) := c in
  A !! Z.to_nat d = Some None /\ 0 <= d
  /\ exists n, collide_inv s0 G0 nvs todoa n c s.

Lemma root_degree s G RL (x : addr) :
  forest_ok s G RL -> x ∈ RL ->
  exists cx G1, G ≡ₚ T x cx :: G1 /\ degree (mem s x) = Z.of_nat (length cx).
Proof.
  intros (_ & Hperm & _ & Hwf & _) Hx. rewrite <- Hperm in Hx.
  destruct (pick_root G x Hx) as (cx & G1 & HG). exists cx, G1.
  split; [exact HG|]. rewrite HG in Hwf. apply Forall_cons in Hwf as [Hw _].
  apply fwf_T in Hw. tauto.
Qed.

Lemma collide_link s0 G0 nvs todoa s G RL (x' y' : addr) A d :
  Z.of_nat nvs < two64 ->
  forest_ok s G RL ->
  RL ≡ₚ x' :: y' :: ents (<[Z.to_nat d := None]> A) ++ todoa ->
  length A = nvs -> slots_ok s A -> room s RL nvs ->
  d = degree (mem s x') -> d = degree (mem s y') ->
  key (mem s x') <= key (mem s y') ->
  preserved s0 G0 s G -> (Z.to_nat d < length A)%nat ->
  wp (fib_link (Some y') (Some x') ;;
      A' <- vec_set A d None ;;
      ret (inl (Some x', incr64 d, A')))
     (fun (r : ptr * Z * list ptr + ptr * Z * list ptr) s' =>
        exists c', r = inl c'
          /\ collide_inv s0 G0 nvs todoa
               (length (ents (<[Z.to_nat d := None]> A))) c' s') s.
Proof.
  intros Hnvs Hok HRL HlenA Hslots Hroom Hdx Hdy Hk (HpG & Hpk & Hpb & Hps) Hd.
  assert (HndR : NoDup RL).
  { destruct Hok as (Hnd & Hperm & _). rewrite <- Hperm. apply roots_NoDup, Hnd. }
  assert (Hx : x' ∈ RL) by (rewrite HRL; left).
  assert (Hy : y' ∈ RL) by (rewrite HRL; right; left).
  assert (HndR' := HndR). rewrite HRL in HndR'.
  apply NoDup_cons in HndR' as [Hxn HndR']. apply NoDup_cons in HndR' as [Hyn HndR'].
  assert (Hxy : x' <> y') by (intros ->; apply Hxn; left).
  destruct (root_degree s G RL x' Hok Hx) as (cx & G1 & HG & Hdcx).
  assert (Hy1 : y' ∈ map root G1).
  { destruct Hok as (_ & Hperm & _). rewrite <- Hperm, HG in Hy. cbn in Hy.
    apply elem_of_cons in Hy as [E|Hy]; [congruence|exact Hy]. }
  destruct (pick_root G1 y' Hy1) as (cy & G2 & HG1).
  assert (HG' : G ≡ₚ T x' cx :: T y' cy :: G2) by (rewrite HG, HG1; reflexivity).
  apply (forest_ok_perm _ _ _ _ HG') in Hok.
  assert (Hlen2 : (2 <= length RL)%nat).
  { rewrite HRL. cbn [length]. lia. }
  pose proof (Hroom x' Hx) as Hrx.
  assert (Hd0 : 0 <= d) by lia.
  apply wp_bind. eapply wp_mono.
  { apply (fib_link_spec s x' y' cx cy G2 RL Hok Hk). lia. }
  cbv beta.
  intros _ s1 (RL1 & Hok1 & HRL1 & Hb1 & Hs1 & Hm1 & Hk1 & Hd1 & Hdx1 & _).
  unfold vec_set. rewrite (proj2 (Nat.ltb_lt _ _) Hd).
  apply wp_bind, wp_ret, wp_ret. eexists. split; [reflexivity|].
  unfold collide_inv.
  exists (T x' (link_kid (T y' cy) cx) :: G2), RL1, x'.
  assert (HlenR : length RL = S (length RL1)) by (rewrite HRL1; reflexivity).
  split; [reflexivity|]. split; [exact Hok1|]. split.
  { rewrite HRL1 in HRL. rewrite (perm_swap y' x') in HRL.
    apply Permutation_cons_inv in HRL. exact HRL. }
  split; [rewrite length_insert; exact HlenA|]. split; [|split; [|split; [|split]]].
  - intros i r Hi.
    destruct (decide (i = Z.to_nat d)) as [->|Hne].
    + rewrite list_lookup_insert_eq in Hi by exact Hd. discriminate.
    + assert (Hr : r ∈ ents (<[Z.to_nat d := None]> A)) by (eapply ents_lookup, Hi).
      rewrite list_lookup_insert_ne in Hi by congruence.
      rewrite Hd1; [apply Hslots, Hi|]. intros ->. apply Hxn. right.
      apply elem_of_app. left. exact Hr.
  - intros r Hr. assert (Hr' : r ∈ RL) by (rewrite HRL1; right; exact Hr).
    destruct (decide (r = x')) as [->|Hne].
    + rewrite Hdx1. lia.
    + rewrite Hd1 by exact Hne. specialize (Hroom r Hr'). lia.
  - rewrite Hdx1, <- Hdx. unfold incr64. rewrite Z.mod_small; lia.
  - reflexivity.
  - split; [|split; [|split]]; [| |congruence|congruence].
    + rewrite fnodes_link_kid, <- (fnodes_perm _ _ HG'). exact HpG.
    + intros b. rewrite Hk1. apply Hpk.
Qed.

Lemma collide_step_spec s0 G0 nvs todoa n c s :
  Z.of_nat nvs < two64 ->
  collide_inv s0 G0 nvs todoa n c s ->
  wp (collide_step c)
     (fun r s' => match r with
        | inl c' => exists n', (n' < n)%nat /\ collide_inv s0 G0 nvs todoa n' c' s'
        | inr c' => collide_post s0 G0 nvs todoa c' s'
        end) s.
Proof.
  intros Hnvs Hinv. destruct c as [[x d] A].
  pose proof Hinv as
    (G & RL & xa & -> & Hok & HRL & HlenA & Hslots & Hroom & Hd & Hn & Hpres).
  assert (Hx : xa ∈ RL) by (rewrite HRL; left).
  destruct (root_degree s G RL xa Hok Hx) as (cx & G1 & HG & Hdcx).
  assert (Hd0 : 0 <= d) by lia.
  assert (Hlen1 : (1 <= length RL)%nat) by (rewrite HRL; cbn [length]; lia).
  pose proof (Hroom xa Hx) as Hrx.
  assert (Hlt : (Z.to_nat d < length A)%nat) by lia.
  unfold collide_step, vec_get.
  destruct (A !! Z.to_nat d) as [v|] eqn:EA;
    [|apply lookup_ge_None in EA; lia].
  apply wp_bind, wp_ret. destruct v as [ya|]; cbn [is_null].
  - assert (Hya : ya ∈ ents A) by (eapply ents_lookup, EA).
    assert (Hdy : degree (mem s ya) = d).
    { rewrite (Hslots _ _ EA). lia. }
    pose proof (ents_delete A _ _ EA) as HE.
    assert (Hlen' : (length (ents (<[Z.to_nat d := None]> A)) < n)%nat).
    { rewrite Hn, (Permutation_length HE). cbn [length]. lia. }
    unfold compare_less. fh_go.
    destruct (Z.ltb_spec (key (mem s ya)) (key (mem s xa))) as [Hlt'|Hge].
    + eapply wp_mono.
      { apply (collide_link s0 G0 nvs todoa s G RL ya xa A d); auto; try lia.
        rewrite HRL, HE. cbn [app]. apply perm_swap. }
      cbv beta. intros r s' (c' & -> & Hinv'). eauto.
    + eapply wp_mono.
      { apply (collide_link s0 G0 nvs todoa s G RL xa ya A d); auto; try lia.
        rewrite HRL, HE. reflexivity. }
      cbv beta. intros r s' (c' & -> & Hinv'). eauto.
  - apply wp_ret. unfold collide_post. split; [exact EA|]. split; [exact Hd0|].
    exists n. exact Hinv.
Qed.

Lemma collide_spec fuel s0 G0 nvs todoa n c s :
  Z.of_nat nvs < two64 ->
  collide_inv s0 G0 nvs todoa n c s -> (n < fuel)%nat ->
  wp (loop fuel collide_step c) (collide_post s0 G0 nvs todoa) s.
Proof.
  intros Hnvs Hinv Hfuel.
  apply (wp_loop (collide_inv s0 G0 nvs todoa)) with (n := n); [| exact Hinv |exact Hfuel].
  intros n' c' s' Hinv'. apply collide_step_spec; assumption.
Qed.

Definition place_inv (s0 : state) (G0 : list tree) (nvs : nat)
    (todo : list ptr) (A : list ptr) (s : state) : Prop :=
  exists G RL todoa,
    todo = map Some todoa /\ forest_ok s G RL /\ RL ≡ₚ ents A ++ todoa
    /\ length A = nvs /\ slots_ok s A /\ room s RL nvs
    /\ preserved s0 G0 s G.

Lemma place_spec fuel s0 G0 nvs x todo A s :
  Z.of_nat nvs < two64 -> (length (fnodes G0) < fuel)%nat ->
  place_inv s0 G0 nvs (x :: todo) A s ->
  wp (place fuel x A) (fun A' s' => place_inv s0 G0 nvs todo A' s') s.
Proof.
  intros Hnvs Hfuel (G & RL & todoa & Htodo & Hok & HRL & HlenA & Hslots & Hroom & Hpres).
  destruct todoa as [|xa todoa]; [discriminate|]. cbn [map] in Htodo.
  injection Htodo as -> ->.
  unfold place, collide. fh_go.
  assert (HRL' : RL ≡ₚ xa :: ents A ++ todoa).
  { rewrite HRL, <- Permutation_middle. reflexivity. }
  eapply wp_mono.
  { apply (collide_spec fuel s0 G0 nvs todoa (length (ents A))
             (Some xa, degree (mem s xa), A) s Hnvs).
    - exists G, RL, xa. split; [reflexivity|]. split; [exact Hok|].
      split; [exact HRL'|]. split; [exact HlenA|]. split; [exact Hslots|].
      split; [exact Hroom|]. split; [reflexivity|]. split; [reflexivity|exact Hpres].
    - destruct Hpres as (HpG & _). destruct Hok as (_ & Hperm & _).
      pose proof (finv_nodes_length G RL Hperm) as Hle.
      rewrite (Permutation_length HpG) in Hle.
      rewrite HRL' in Hle. cbn [length] in Hle. rewrite length_app in Hle. lia. }
  cbv beta. intros [[x1 d1] A1] s1 (EA1 & Hd1 & n1 & Hinv1).
  destruct Hinv1 as
    (G1 & RL1 & xa1 & -> & Hok1 & HRL1 & HlenA1 & Hslots1 & Hroom1 & Hdeg1 & _ & Hpres1).
  pose proof (lookup_lt_Some _ _ _ EA1) as Hlt1.
  cbv beta iota zeta. unfold vec_set. unfold ptr in *.
  rewrite (proj2 (Nat.ltb_lt _ _) Hlt1). apply wp_ret.
  exists G1, RL1, todoa. split; [reflexivity|]. split; [exact Hok1|].
  split; [rewrite HRL1, (ents_insert A1 _ xa1 EA1); reflexivity|].
  split; [rewrite length_insert; exact HlenA1|]. split; [|split; assumption].
  intros i r Hi. destruct (decide (i = Z.to_nat d1)) as [->|Hne].
  - rewrite list_lookup_insert_eq in Hi by exact Hlt1. injection Hi as ->.
    rewrite <- Hdeg1. lia.
  - rewrite list_lookup_insert_ne in Hi by congruence. apply Hslots1, Hi.
Qed.

End FibCollide.

Section FibConsolidate.
Import FibHeap.
Implicit Types (s : state) (l : list addr) (G : list tree) (A : list ptr).

Lemma ring_frame_on_refl X s : ring_frame_on X s s.
Proof. unfold ring_frame_on. auto 10. Qed.

Lemma ring_frame_on_trans X Y s1 s2 s3 :
  ring_frame_on X s1 s2 -> ring_frame_on Y s2 s3 ->
  (forall b, b ∈ Y -> b ∈ X) -> ring_frame_on X s1 s3.
Proof.
  intros (Hb1 & Hs1 & Hf1 & Hl1) (Hb2 & Hs2 & Hf2 & Hl2) Hsub.
  split; [congruence|]. split; [congruence|]. split.
  - intros b. destruct (Hf2 b) as (-> & -> & -> & -> & ->). apply Hf1.
  - intros b Hb. destruct (Hl2 b) as [-> ->]; [|apply Hl1, Hb].
    intros Hin. apply Hb, Hsub, Hin.
Qed.

Definition rebuild_inv (s1 : state) (RL1 : list addr) (Arest : list ptr)
    (s : state) : Prop :=
  exists RD,
    is_ring (mem s) RD /\ min s = head RD /\ least s RD
    /\ NoDup (RD ++ ents Arest) /\ RD ++ ents Arest ≡ₚ RL1
    /\ (forall r, r ∈ ents Arest -> exists a, a ∈ RL1 /\ left (mem s r) = Some a)
    /\ ring_frame_on RL1 s1 s.

Lemma reinsert_spec s1 RL1 e Arest s :
  rebuild_inv s1 RL1 (e :: Arest) s ->
  wp (reinsert e) (fun _ s' => rebuild_inv s1 RL1 Arest s') s.
Proof.
  intros (RD & Hring & Hmin & Hleast & Hnd & Hperm & Hlefts & Hfr).
  unfold reinsert. destruct e as [x|]; cbn [is_null].
  - change (ents (Some x :: Arest)) with (x :: ents Arest) in *.
    destruct (Hlefts x) as (a & Ha & Hla); [left|].
    assert (Hnd' : NoDup (x :: RD)).
    { rewrite <- Permutation_middle in Hnd. apply NoDup_cons in Hnd as [Hx Hnd].
      apply NoDup_cons. split; [set_solver|]. apply NoDup_app in Hnd. tauto. }
    eapply wp_mono; [apply (insert_node_root s x a RD Hring Hmin Hnd' Hla)|].
    cbv beta. intros _ s' (RD' & Hring' & Hperm' & Hmin' & Hleast' & Hf' & Hlf').
    exists RD'. split; [exact Hring'|]. split; [exact Hmin'|].
    split; [exact (Hleast' Hleast)|].
    assert (HP : RD' ++ ents Arest ≡ₚ RD ++ x :: ents Arest).
    { rewrite Hperm', <- app_assoc. reflexivity. }
    split; [rewrite HP; exact Hnd|]. split; [rewrite HP; exact Hperm|].
    split.
    + intros r Hr. destruct (Hlefts r) as (a' & Ha' & Hla'); [right; exact Hr|].
      exists a'. split; [exact Ha'|]. rewrite Hlf'; [exact Hla'|].
      rewrite <- Permutation_middle in Hnd. apply NoDup_cons in Hnd as [Hx Hnd].
      apply NoDup_app in Hnd as (_ & Hd & _).
      intros Hin. apply elem_of_cons in Hin as [->|Hin].
      * apply Hx. apply elem_of_app. right. exact Hr.
      * exact (Hd r Hin Hr).
    + apply (ring_frame_on_trans _ _ _ _ _ Hfr Hf').
      intros b Hb. rewrite <- Hperm.
      apply elem_of_cons in Hb as [->|Hb]; [set_solver|].
      apply elem_of_cons in Hb as [->|Hb]; [rewrite Hperm; exact Ha|set_solver].
  - apply wp_ret. exists RD. change (ents (None :: Arest)) with (ents Arest) in *.
    exact (conj Hring (conj Hmin (conj Hleast (conj Hnd (conj Hperm (conj Hlefts Hfr)))))).
Qed.

Lemma rebuild_spec s1 RL1 A :
  is_ring (mem s1) RL1 -> NoDup RL1 -> RL1 ≡ₚ ents A -> min s1 = None ->
  wp (for_each A reinsert)
     (fun _ s' => exists RD, is_ring (mem s') RD /\ min s' = head RD
        /\ least s' RD /\ RD ≡ₚ RL1 /\ ring_frame_on RL1 s1 s') s1.
Proof.
  intros Hring Hnd Hperm Hmin.
  eapply wp_mono.
  { apply (wp_for_each (rebuild_inv s1 RL1)).
    - intros e Arest s Hinv. apply reinsert_spec, Hinv.
    - exists []. split; [exact I|]. split; [exact Hmin|].
      split; [intros a b Ha; discriminate|]. cbn [app].
      split; [rewrite <- Hperm; exact Hnd|]. split; [symmetry; exact Hperm|].
      split; [|apply ring_frame_on_refl].
      intros r Hr. apply (is_ring_left_in _ _ _ Hring). rewrite Hperm. exact Hr. }
  cbv beta. intros _ s' (RD & Hring' & Hmin' & Hleast' & _ & Hperm' & _ & Hfr).
  exists RD. change (ents []) with (@nil addr) in Hperm'.
  rewrite app_nil_r in Hperm'. auto 10.
Qed.

Lemma length_forest_le G : (length G <= length (fnodes G))%nat.
Proof.
  induction G as [|[a cs] G IH]; [reflexivity|].
  rewrite fnodes_cons, nodes_T, length_app. cbn [length]. lia.
Qed.

Lemma degree_room s G RL r :
  forest_ok s G RL -> r ∈ RL ->
  0 <= degree (mem s r)
  /\ degree (mem s r) + Z.of_nat (length RL) <= Z.of_nat (length (fnodes G)).
Proof.
  intros Hok Hr. destruct (root_degree s G RL r Hok Hr) as (cr & G1 & HG & Hd).
  destruct Hok as (_ & Hperm & _).
  rewrite <- Hperm, length_map, (fnodes_perm _ _ HG), HG, Hd.
  rewrite fnodes_cons, nodes_T, length_app. cbn [length].
  pose proof (length_forest_le cr). pose proof (length_forest_le G1). lia.
Qed.

Lemma consolidate_spec fuel s G RL :
  forest_ok s G RL -> min s = head RL ->
  Z.of_nat (length (fnodes G)) < two64 -> (length (fnodes G) < fuel)%nat ->
  wp (consolidate fuel)
     (fun _ s' => exists G' RL', fpre s' G' RL' /\ least s' RL'
        /\ preserved s G s' G') s.
Proof.
  intros Hok Hmin Hlt Hfuel. unfold consolidate. fh_step. fh_step.
  pose proof Hok as (Hnd & Hperm & Hring & Hwf & Hho).
  assert (HndR : NoDup RL) by (rewrite <- Hperm; apply roots_NoDup, Hnd).
  pose proof (finv_nodes_length G RL Hperm) as HlenR.
  rewrite Hmin. destruct RL as [|a0 l]; cbn [head is_null].
  - apply Permutation_nil_r, map_eq_nil in Hperm. subst G.
    fh_step. fh_step.
    change (Z.to_nat (add64 0 0)) with 0%nat. cbn [replicate for_acc orig_nodes].
    fh_step. fh_step. fh_step. cbn [for_each]. fh_step.
    exists [], []. unfold fpre, preserved. cbn.
    repeat split; auto; try constructor. intros a b Ha. discriminate.
  - fh_step.
    eapply wp_mono.
    { apply (census_spec fuel s a0 l Hring HndR); [lia|cbn [length] in HlenR; lia]. }
    cbv beta. intros c s' (-> & Ho & Hn & H0 & Hmax & Hwit).
    assert (Hsum : 0 <= max_d c + num_trees c
                   /\ max_d c + num_trees c <= Z.of_nat (length (fnodes G))).
    { rewrite Hn. destruct Hwit as [->|(r & Hr & ->)]; [lia|].
      destruct (degree_room s G (a0 :: l) r Hok Hr). lia. }
    set (nvs := Z.to_nat (add64 (max_d c) (num_trees c))).
    assert (Hnvs : Z.of_nat nvs = max_d c + num_trees c).
    { unfold nvs, add64. rewrite Z.mod_small; lia. }
    rewrite Ho. fh_step.
    eapply wp_mono.
    { apply (wp_for_acc (place_inv s G nvs)).
      - intros x todo A s1 Hinv. apply (place_spec fuel s G nvs x todo A s1); [lia|exact Hfuel|exact Hinv].
      - exists G, (a0 :: l), (a0 :: l). split; [reflexivity|]. split; [exact Hok|].
        rewrite ents_replicate. split; [reflexivity|].
        split; [apply length_replicate|]. split; [|split].
        + intros i r Hi. apply lookup_replicate in Hi as [Hi _]. discriminate.
        + intros r Hr. specialize (Hmax r Hr). lia.
        + unfold preserved. auto. }
    cbv beta.
    intros A s1 (G1 & RL1 & todoa & Htodo & Hok1 & HRL1 & HlenA & Hslots & Hroom & Hpres).
    symmetry in Htodo. apply map_eq_nil in Htodo. subst todoa.
    rewrite app_nil_r in HRL1.
    fh_step. fh_step.
    pose proof Hok1 as (Hnd1 & Hperm1 & Hring1 & Hwf1 & Hho1).
    assert (HndR1 : NoDup RL1) by (rewrite <- Hperm1; apply roots_NoDup, Hnd1).
    eapply wp_mono.
    { apply (rebuild_spec (set_min None s1) RL1 A Hring1 HndR1 HRL1). reflexivity. }
    cbv beta. intros _ s2 (RD & Hring2 & Hmin2 & Hleast2 & HpermD & Hfr).
    exists G1, RD. split; [|split; [exact Hleast2|]].
    + split; [exact Hnd1|]. split; [rewrite HpermD; exact Hperm1|].
      split; [exact Hring2|]. split; [exact Hmin2|]. split.
      * apply (fwf_ring_frame (set_min None s1) s2 RL1 G1 Hfr); [|exact Hwf1].
        intros b Hb Hin. apply (inner_not_root G1 b Hnd1 Hb).
        rewrite Hperm1. exact Hin.
      * apply (ho_ring_frame (set_min None s1) s2 RL1 G1 Hfr). exact Hho1.
    + destruct Hpres as (HpG & Hpk & Hpb & Hps).
      destruct Hfr as (Hb2 & Hs2 & Hf2 & _). cbn [set_min brk _size mem] in *.
      split; [exact HpG|]. split; [|split; congruence].
      intros b. destruct (Hf2 b) as (-> & _). apply Hpk.
Qed.

End FibConsolidate.

Section FibPop.
Import FibHeap.
Implicit Types (s : state) (l : list addr) (G : list tree).

Lemma promoted_refl X s : promoted X [] s s.
Proof.
  unfold promoted. repeat split; auto. intros b Hb. inversion Hb.
Qed.

Lemma nodup_inner_aux (z : addr) (rc ic r1 i1 : list addr) b :
  NoDup ((z :: rc ++ ic) ++ r1 ++ i1) -> b ∈ i1 ++ ic -> b ∉ z :: r1 ++ rc.
Proof. intros Hnd Hb. cbn [app] in Hnd. nodup_dec. set_solver. Qed.

(** [pop] up to the call of [consolidate]: the children of the minimum [z]
    are promoted and [z] leaves the ring. *)
Definition pop_front_then {A} (fuel : nat) (z : ptr) (k : M state A) : M state A :=
  x <- load child z ;;
  (if is_null x then ret tt else loop fuel promote_step x) ;;
  zr <- load right z ;;
  modify (set_min zr) ;;
  (if ptr_eqb zr z then modify (set_min None) else ret tt) ;;
  zr <- load right z ;;
  (if negb (ptr_eqb zr z) then
     zl <- load left z ;; store zr (set_left zl)
   else ret tt) ;;
  zl <- load left z ;;
  (if negb (ptr_eqb zl z) then
     zr <- load right z ;; store zl (set_right zr)
   else ret tt) ;;
  sz <- gets _size ;;
  modify (set_size (decr64 sz)) ;;
  k.

Definition pop_front_post s (cz G1 : list tree) (R : list addr) (s' : state)
  : Prop :=
  forest_ok s' (G1 ++ cz) (R ++ map root cz)
  /\ min s' = head (R ++ map root cz)
  /\ _size s' = Z.of_nat (length (fnodes (G1 ++ cz)))
  /\ brk s' = brk s
  /\ (forall b, key (mem s' b) = key (mem s b)
                /\ mark (mem s' b) = mark (mem s b))
  /\ (forall b, b ∈ map root cz -> p (mem s' b) = None)
  /\ (forall b, b ∉ map root cz -> p (mem s' b) = p (mem s b)).

Lemma pop_front_wp {A} fuel s (z : addr) cz G1 R (k : M state A)
    (Q : A -> state -> Prop) :
  forest_ok s (T z cz :: G1) (z :: R) -> min s = Some z ->
  _size s = Z.of_nat (length (fnodes (T z cz :: G1))) ->
  Z.of_nat (length (fnodes (T z cz :: G1))) < two64 ->
  (length (fnodes (T z cz :: G1)) < fuel)%nat ->
  (forall s', pop_front_post s cz G1 R s' -> wp k Q s') ->
  wp (pop_front_then fuel (Some z) k) Q s.
Proof.
  intros (Hnd & Hperm & Hring & Hwf & Hho) Hmin Hsz Hlt Hfuel Hcont.
  unfold pop_front_post in Hcont.
  apply Forall_cons in Hwf as [Hwz Hwf]. apply Forall_cons in Hho as [Hhz Hho].
  pose proof Hwz as Hwz'. apply fwf_T in Hwz' as (Hdz & Hcz & Hrz & Hwcz).
  apply ho_T in Hhz.
  assert (HR : map root G1 ≡ₚ R).
  { cbn [map root] in Hperm. apply Permutation_cons_inv in Hperm. exact Hperm. }
  rewrite fnodes_cons, nodes_T in Hnd.
  assert (HndRC : NoDup (z :: R ++ map root cz)).
  { cbn [app] in Hnd. apply NoDup_cons in Hnd as [Hz Hnd].
    apply NoDup_cons. split.
    - intros Hin. apply Hz. apply elem_of_app in Hin as [Hin|Hin].
      + apply elem_of_app. right. apply roots_in_fnodes. rewrite HR. exact Hin.
      + apply elem_of_app. left. apply roots_in_fnodes, Hin.
    - rewrite Permutation_app_comm, <- HR.
      rewrite (fnodes_roots_inner cz), (fnodes_roots_inner G1) in Hnd.
      apply NoDup_app in Hnd as (Hn1 & Hn2 & Hn3).
      apply NoDup_app in Hn1 as (Hn1 & _ & _).
      apply NoDup_app in Hn3 as (Hn3 & _ & _).
      apply NoDup_app. split; [exact Hn1|]. split; [|exact Hn3].
      intros x Hx Hx'. apply (Hn2 x); apply elem_of_app; left; assumption. }
  assert (Hinner : forall b, b ∈ inner (G1 ++ cz) -> b ∉ z :: R ++ map root cz).
  { intros b Hb Hin. rewrite inner_app in Hb.
    rewrite (fnodes_roots_inner cz), (fnodes_roots_inner G1) in Hnd.
    rewrite <- HR in Hin.
    exact (nodup_inner_aux _ _ _ _ _ _ Hnd Hb Hin). }
  assert (Hkeys : forall c, c ∈ map root cz -> key (mem s z) <= key (mem s c)).
  { intros c Hc. apply list_elem_of_fmap in Hc as (t & -> & Ht).
    rewrite Forall_forall in Hhz. apply (Hhz t Ht). }
  remember (map root cz) as CL eqn:HCL.
  unfold pop_front_then. fh_step. fh_step. rewrite Hcz. apply wp_bind.
  apply (wp_mono _ (fun _ s1 =>
           is_ring (mem s1) (z :: R ++ CL) /\ min s1 = Some z
           /\ promoted (z :: R ++ CL) CL s s1)).
  { destruct CL as [|c1 cs]; cbn [head is_null].
    - apply wp_ret. rewrite app_nil_r. split; [exact Hring|]. split; [exact Hmin|].
      apply promoted_refl.
    - apply promote_loop_spec; auto.
      assert (Hl : (length (c1 :: cs) <= length (fnodes cz))%nat).
      { rewrite HCL. rewrite length_map. apply length_forest_le. }
      rewrite fnodes_cons, nodes_T, length_app in Hfuel. cbn [length] in *. lia. }
  cbv beta. intros _ s1 (Hring1 & Hmin1 & Hb1 & Hs1 & Hf1 & Hp1 & Hp1' & Hlr1).
  assert (Hlen : length (fnodes (T z cz :: G1)) = S (length (fnodes (G1 ++ cz)))).
  { rewrite fnodes_cons, nodes_T, fnodes_app, !length_app. cbn [length]. lia. }
  assert (Hdecr : decr64 (_size s1) = Z.of_nat (length (fnodes (G1 ++ cz)))).
  { rewrite Hs1, Hsz, Hlen. unfold decr64. rewrite Z.mod_small; lia. }
  assert (HndG : NoDup (fnodes (G1 ++ cz))).
  { rewrite fnodes_app, Permutation_app_comm. cbn [app] in Hnd.
    apply NoDup_cons in Hnd. tauto. }
  assert (HpermG : map root (G1 ++ cz) ≡ₚ R ++ CL).
  { rewrite map_app, HR, HCL. reflexivity. }
  assert (Hwf1 : forall m', 
            (forall b, child (m' b) = child (mem s1 b)
                       /\ degree (m' b) = degree (mem s1 b)) ->
            (forall b, b ∉ z :: R ++ CL ->
               right (m' b) = right (mem s1 b) /\ left (m' b) = left (mem s1 b)) ->
            Forall (fwf m') (G1 ++ cz)).
  { intros m' Hcd Hlr. apply (fwf_forest_frame (mem s)).
    - intros b _. destruct (Hcd b) as [-> ->].
      destruct (Hf1 b) as (_ & -> & -> & _). auto.
    - intros b Hb. apply Hinner in Hb. destruct (Hlr b Hb) as [-> ->].
      apply Hlr1, Hb.
    - apply Forall_app. split; assumption. }
  assert (Hho1 : forall s', (forall b, key (mem s' b) = key (mem s1 b)) ->
            Forall (ho (fkey s')) (G1 ++ cz)).
  { intros s' Hk. apply (ho_forest_frame (fkey s)).
    - intros b _. unfold fkey. rewrite Hk. apply Hf1.
    - apply Forall_app. split; [exact Hho|].
      eapply Forall_impl; [exact Hhz|]. cbn. tauto. }
  remember (R ++ CL) as L eqn:EL.
  pose proof (is_ring_last _ _ _ Hring1) as [Hzl _].
  destruct L as [|a L0].
  - apply is_ring_singleton in Hring1 as [Hzr _]. cbn [List.last] in Hzl.
    repeat first [ fh_step | rew_hyp; fh_simpl | rewrite Nat.eqb_refl
                 | progress cbn [negb] ].
    apply Hcont. cbn [head mem brk min _size with_mem set_min set_size].
    split; [|split; [reflexivity|split; [exact Hdecr|split; [exact Hb1|]]]].
    + split; [exact HndG|]. split; [exact HpermG|]. split; [exact I|].
      split; [apply Hwf1; auto|apply Hho1; auto].
    + split; [|split]; auto. intros b. destruct (Hf1 b) as (-> & _ & _ & ->). auto.
  - pose proof (is_ring_right_first _ _ _ _ Hring1) as Hzr.
    rewrite last_cons_cons in Hzl. remember (List.last L0 a) as c eqn:Ec.
    assert (Hc : c ∈ a :: L0) by (rewrite Ec; apply last_in).
    apply NoDup_cons in HndRC as [Hz HndL].
    assert (Hza : a <> z) by (intros ->; apply Hz; left).
    assert (Hzc : c <> z) by (intros ->; exact (Hz Hc)).
    repeat first [ fh_step | rew_hyp; fh_simpl
                 | rewrite (proj2 (Nat.eqb_neq a z) Hza)
                 | rewrite (proj2 (Nat.eqb_neq c z) Hzc)
                 | progress cbn [negb] ].
    apply Hcont. cbn [head mem brk min _size with_mem set_min set_size].
    split; [|split; [reflexivity|split; [exact Hdecr|split; [exact Hb1|]]]].
    + split; [exact HndG|]. split; [exact HpermG|]. split; [|split].
      * apply (is_ring_unlink (mem s1) _ z); [exact Hring1|exact HndL| | | |].
        -- rewrite <- Ec. upd_cases.
        -- rewrite <- Ec. upd_cases.
        -- rewrite <- Ec. intros b Hb Hbc. upd_cases.
        -- intros b Hb. assert (b <> a).
           { intros ->. apply NoDup_cons in HndL as [Hn _]. exact (Hn Hb). }
           upd_cases.
      * apply Hwf1.
        -- intros b. split; upd_cases.
        -- intros b Hb. assert (b <> a) by set_solver.
           assert (b <> c) by (intros ->; apply Hb; right; exact Hc).
           split; upd_cases.
      * apply Hho1. intros b. upd_cases.
    + split; [|split].
      * intros b. destruct (Hf1 b) as (<- & _ & _ & <-). split; upd_cases.
      * intros b Hb. rewrite <- (Hp1 b Hb). upd_cases.
      * intros b Hb. rewrite <- (Hp1' b Hb). upd_cases.
Qed.

End FibPop.

Section FibSort.
Import FibHeap.
Implicit Types (s : state) (l : list addr) (G : list tree).

Lemma fh_pop_spec fuel s G :
  finv s G -> G <> [] -> (length (fnodes G) < fuel)%nat ->
  wp (pop fuel)
     (fun k s' => exists G', finv s' G'
        /\ fkeys_in s G ≡ₚ k :: fkeys_in s' G'
        /\ Forall (fun k' => k <= k') (fkeys_in s' G')) s.
Proof.
  intros (RL & (Hnd & Hperm & Hring & Hmin & Hwf & Hho) & Hleast & Hbrk & Hsz & Hlt)
    Hne Hfuel.
  destruct RL as [|z R].
  { apply Permutation_nil_r, map_eq_nil in Hperm. contradiction. }
  cbn [head] in Hmin.
  assert (Hz : z ∈ map root G) by (rewrite Hperm; left).
  destruct (pick_root G z Hz) as (cz & G1 & HG).
  assert (Hok : forest_ok s (T z cz :: G1) (z :: R)).
  { apply (forest_ok_perm s G _ _ HG). split; [exact Hnd|]. split; [exact Hperm|].
    split; [exact Hring|]. split; assumption. }
  assert (Hlen : length (fnodes G) = length (fnodes (T z cz :: G1))).
  { apply Permutation_length, fnodes_perm, HG. }
  assert (Hmin_all : forall b, b ∈ fnodes G -> key (mem s z) <= key (mem s b)).
  { intros b Hb. destruct (ho_forest_min _ _ Hho b Hb) as (t & Ht & Hle).
    unfold fkey in Hle. etransitivity; [|exact Hle].
    apply (Hleast z (root t) Hmin). rewrite <- Hperm.
    apply list_elem_of_fmap. eauto. }
  unfold pop. fh_step. fh_step. rewrite Hmin. cbn [is_null].
  apply (pop_front_wp fuel s z cz G1 R); try (rewrite <- Hlen; assumption);
    [exact Hok|exact Hmin|].
  intros s1 (Hok1 & Hmin1 & Hsz1 & Hbrk1 & Hkm1 & _).
  assert (Hlen1 : length (fnodes G) = S (length (fnodes (G1 ++ cz)))).
  { rewrite Hlen, fnodes_cons, nodes_T, fnodes_app, !length_app. cbn [length]. lia. }
  apply wp_bind. eapply wp_mono.
  { apply (consolidate_spec fuel s1 (G1 ++ cz) _ Hok1 Hmin1); lia. }
  cbv beta. intros _ s2 (G' & RL' & Hpre2 & Hleast2 & HpG & Hpk & Hpb & Hps).
  fh_step.
  assert (Hsub : forall b, b ∈ fnodes G' -> b ∈ fnodes G).
  { intros b Hb. rewrite HpG in Hb. rewrite (fnodes_perm _ _ HG).
    rewrite fnodes_cons, nodes_T. rewrite fnodes_app in Hb. set_solver. }
  assert (Hkey2 : forall b, key (mem s2 b) = key (mem s b)).
  { intros b. rewrite Hpk. apply Hkm1. }
  exists G'. split; [|split].
  - exists RL'. split; [exact Hpre2|]. split; [|split; [|split]].
    + intros a b Ha Hb. apply (Hleast2 a b); [|exact Hb].
      destruct Hpre2 as (_ & _ & _ & <- & _). exact Ha.
    + intros a Ha. rewrite Hpb, Hbrk1. apply Hbrk, Hsub, Ha.
    + rewrite Hps, Hsz1. rewrite (Permutation_length HpG). reflexivity.
    + rewrite (Permutation_length HpG). lia.
  - unfold fkeys_in, fkey. rewrite Hkey2.
    rewrite (fnodes_perm _ _ HG), fnodes_cons, nodes_T. cbn [app map]. constructor.
    rewrite HpG, fnodes_app, (Permutation_app_comm (fnodes cz)).
    erewrite map_ext_in; [reflexivity|]. intros b _. cbv beta.
    symmetry. apply Hkey2.
  - unfold fkeys_in, fkey. apply Forall_forall. intros k' Hk'.
    apply list_elem_of_fmap in Hk' as (b & -> & Hb). rewrite !Hkey2.
    apply Hmin_all, Hsub, Hb.
Qed.

Definition fh_drain_inv (K : list Z) (n : nat) (out : list Z) (s : state) : Prop :=
  exists G, finv s G /\ n = length (fnodes G)
    /\ StronglySorted Z.le out
    /\ (forall x y, x ∈ out -> y ∈ fkeys_in s G -> x <= y)
    /\ out ++ fkeys_in s G ≡ₚ K.

Lemma fh_drain_step_spec fuel K n out s :
  fh_drain_inv K n out s -> (n < fuel)%nat ->
  wp (drain_step fuel out)
     (fun r s' => match r with
                  | inl out' => exists n', (n' < n)%nat /\ fh_drain_inv K n' out' s'
                  | inr out' => out' ≡ₚ K /\ StronglySorted Z.le out'
                  end) s.
Proof.
  intros (G & Hinv & -> & Hsorted & Hle & Hperm) Hfuel. unfold drain_step, size.
  assert (Hsz : _size s = Z.of_nat (length (fnodes G))).
  { destruct Hinv as (RL & _ & _ & _ & Hsz & _). exact Hsz. }
  fh_step. fh_step. rewrite Hsz.
  destruct (Z.eqb_spec (Z.of_nat (length (fnodes G))) 0) as [H0|H0].
  - apply wp_ret. assert (E : fnodes G = []) by (apply length_zero_iff_nil; lia).
    unfold fkeys_in in Hperm. rewrite E in Hperm. cbn in Hperm.
    rewrite app_nil_r in Hperm. auto.
  - assert (HG : G <> []) by (intros ->; apply H0; reflexivity).
    apply wp_bind. eapply wp_mono.
    { apply (fh_pop_spec fuel s G Hinv HG Hfuel). }
    cbv beta. intros k s1 (G1 & Hinv1 & Hk1 & Hmin). apply wp_ret.
    assert (Hlen : length (fnodes G) = S (length (fnodes G1))).
    { apply Permutation_length in Hk1. unfold fkeys_in in Hk1.
      cbn in Hk1. rewrite !length_map in Hk1. exact Hk1. }
    exists (length (fnodes G1)). split; [lia|].
    exists G1. split; [exact Hinv1|]. split; [reflexivity|].
    split; [|split].
    + apply StronglySorted_app_2; [|exact Hsorted|repeat constructor].
      intros x y Hx Hy. apply list_elem_of_singleton in Hy. subst y.
      apply Hle; [exact Hx|]. rewrite Hk1. left.
    + intros x y Hx Hy. apply elem_of_app in Hx as [Hx|Hx].
      * apply Hle; [exact Hx|]. rewrite Hk1. right. exact Hy.
      * apply list_elem_of_singleton in Hx. subst x.
        rewrite Forall_forall in Hmin. apply Hmin, Hy.
    + rewrite <- Hperm, Hk1, <- app_assoc. reflexivity.
Qed.

Lemma fh_drain_spec fuel s G :
  finv s G -> (length (fnodes G) < fuel)%nat ->
  wp (drain fuel)
     (fun out s' => out ≡ₚ fkeys_in s G /\ StronglySorted Z.le out) s.
Proof.
  intros Hinv Hfuel. unfold drain.
  apply (wp_loop (fun n out s' => fh_drain_inv (fkeys_in s G) n out s' /\ (n < fuel)%nat))
    with (n := length (fnodes G)); [| |exact Hfuel].
  - intros n out s' [Hd Hn]. eapply wp_mono; [apply fh_drain_step_spec; eauto|].
    cbv beta. intros [out'|out'] s''; [|auto].
    intros (n' & Hn' & Hd'). exists n'. split; [exact Hn'|]. split; [exact Hd'|lia].
  - split; [|exact Hfuel]. exists G. split; [exact Hinv|]. split; [reflexivity|].
    split; [constructor|]. split; [|reflexivity].
    intros x y Hx. inversion Hx.
Qed.

Theorem fib_heapsort_sorts (keys : list Z) (fuel : nat) :
  Z.of_nat (length keys) < two64 -> (length keys < fuel)%nat ->
  wp (heapsort fuel keys)
     (fun out _ => out ≡ₚ keys /\ StronglySorted Z.le out) init.
Proof.
  intros Hlt Hfuel. unfold heapsort. apply wp_bind. eapply wp_mono.
  { apply (fh_insert_all_spec keys init [] finv_init); cbn; lia. }
  cbv beta. intros hs s1 (G1 & Hinv1 & Hk1).
  unfold fkeys_in at 2 in Hk1. cbn in Hk1. rewrite app_nil_r in Hk1.
  eapply wp_mono.
  { apply (fh_drain_spec fuel s1 G1 Hinv1).
    apply Permutation_length in Hk1. unfold fkeys_in in Hk1.
    rewrite length_map in Hk1. lia. }
  cbv beta. intros out s2 [Hp Hs]. split; [rewrite Hp; exact Hk1|exact Hs].
Qed.

End FibSort.

(** ** Fibonacci heap: [cut] *)

Section FibCut.
Import FibHeap.

Lemma insert_node_links (x m l : addr) (s : state) :
  min s = Some m -> left (mem s m) = Some l ->
  wp (insert_node (Some x))
     (fun _ s' => right (mem s' x) = Some m /\ left (mem s' m) = Some x
                  /\ (forall a, mark (mem s' a) = mark (mem s a))
                  /\ (forall a, p (mem s' a) = p (mem s a))) s.
Proof.
  intros Hm Hl. unfold insert_node, compare_less.
  fh_go.
  match goal with |- wp (if ?b then _ else _) _ _ => destruct b end;
    fh_step; (split; [|split; [|split; intros a; fh_simpl; reflexivity]]).
  all: fh_simpl; try reflexivity.
Qed.

Lemma cut_clears_mark (x y m xl xr ml : addr) (s : state) :
  right (mem s x) = Some xr -> left (mem s x) = Some xl ->
  min s = Some m -> left (mem s m) = Some ml ->
  wp (cut (Some x) (Some y))
     (fun _ s' => mark (mem s' x) = false /\ p (mem s' x) = None
                  /\ right (mem s' x) = Some m /\ left (mem s' m) = Some x) s.
Proof.
  intros Hr Hl Hmin Hml. unfold cut.
  fh_go.
  destruct (Nat.eqb_spec xr x) as [->|Hne]; cbn [negb].
  - fh_go.
    eapply wp_mono.
    + eapply (insert_node_links x m ml); fh_simpl; auto.
    + cbv beta. intros _ s' (H1 & H2 & H3 & H4). rewrite H3, H4. fh_simpl. auto.
  - fh_go.
    eapply wp_mono.
    + eapply (insert_node_links x m (if Nat.eqb m xr then xl else ml));
        fh_simpl; auto.
      destruct (Nat.eqb_spec m xr) as [->|?]; fh_simpl; auto.
    + cbv beta. intros _ s' (H1 & H2 & H3 & H4). rewrite H3, H4. fh_simpl. auto.
Qed.

End FibCut.

(** * Sorting *)

(** C1.  For the binomial and for the Fibonacci heap, and for every list of
    keys: [insert] of each key of the list, in the order of the list, and
    then [pop] until [size()] is 0 returns the keys of the list, each as
    often as it is in the list, in non-decreasing order.  [fuel] is the
    budget of every loop, and the list has fewer than [2^64] keys, the range
    of [_size]. *)
Theorem heapsort_sorts (keys : list Z) (fuel : nat) :
  Z.of_nat (length keys) < two64 -> (length keys < fuel)%nat ->
  (exists out s, Bheap.heapsort fuel keys Bheap.init = Ok out s
      /\ out ≡ₚ keys /\ StronglySorted Z.le out)
  /\ (exists out s, FibHeap.heapsort fuel keys FibHeap.init = Ok out s
      /\ out ≡ₚ keys /\ StronglySorted Z.le out).
Proof.
  intros Hlt Hfuel. split.
  - destruct (wp_ok _ _ _ (bheap_heapsort_sorts keys fuel Hlt Hfuel))
      as (out & s & E & H).
    exists out, s. split; [exact E|exact H].
  - destruct (wp_ok _ _ _ (fib_heapsort_sorts keys fuel Hlt Hfuel))
      as (out & s & E & H).
    exists out, s. split; [exact E|exact H].
Qed.

Lemma heapsort_sorts_witness :
  (exists out s, Bheap.heapsort 8 [3; 1; 2; 1] Bheap.init = Ok out s
      /\ out ≡ₚ [3; 1; 2; 1] /\ StronglySorted Z.le out)
  /\ (exists out s, FibHeap.heapsort 8 [3; 1; 2; 1] FibHeap.init = Ok out s
      /\ out ≡ₚ [3; 1; 2; 1] /\ StronglySorted Z.le out).
Proof.
  apply (heapsort_sorts [3; 1; 2; 1] 8); [reflexivity|cbn [length]; lia].
Defined.

(** * Marks *)

Section FibMarks.
Import FibHeap.

(** C8, as the code has it.  The loop of [pop], started at a child [c1] of
    the minimum [z], with [z :: R] the root ring and [c1 :: cs] the ring of
    the children of [z], whose keys are not below the key of [z]: it returns,
    every child is then in the root ring with its parent link cleared, and
    the mark of every node is as it was, so a marked child is a marked root.
    And [cut(x, y)], for [x] in a ring and a heap that is not empty,
    returns with the mark and the parent link of [x] cleared and [x] in the
    root ring, left of the minimum. *)
Theorem fib_pop_keeps_marks_cut_clears_mark :
  (forall (fuel : nat) (s : state) (z : addr) (R : list addr)
          (c1 : addr) (cs : list addr),
     NoDup (z :: R ++ c1 :: cs) ->
     (forall c, c ∈ c1 :: cs -> key (mem s z) <= key (mem s c)) ->
     min s = Some z ->
     is_ring (mem s) (z :: R) -> is_ring (mem s) (c1 :: cs) ->
     (length cs < fuel)%nat ->
     exists s', loop fuel promote_step (Some c1) s = Ok tt s'
       /\ is_ring (mem s') (z :: R ++ c1 :: cs)
       /\ min s' = Some z
       /\ (forall c, c ∈ c1 :: cs -> p (mem s' c) = None)
       /\ (forall b, mark (mem s' b) = mark (mem s b)))
  /\ (forall (s : state) (x y xr xl m ml : addr),
        right (mem s x) = Some xr -> left (mem s x) = Some xl ->
        min s = Some m -> left (mem s m) = Some ml ->
        exists s', cut (Some x) (Some y) s = Ok tt s'
          /\ mark (mem s' x) = false /\ p (mem s' x) = None
          /\ right (mem s' x) = Some m /\ left (mem s' m) = Some x).
Proof.
  split.
  - intros fuel s z R c1 cs Hnd Hkeys Hmin Hroots Hkids Hfuel.
    destruct (wp_ok _ _ _
                (promote_loop_spec fuel s z R c1 cs Hnd Hkeys Hmin Hroots Hkids Hfuel))
      as ([] & s' & E & Hring & Hmin' & _ & _ & Hf & Hp & _).
    exists s'. split; [exact E|]. split; [exact Hring|]. split; [exact Hmin'|].
    split; [exact Hp|]. intros b. apply Hf.
  - intros s x y xr xl m ml Hr Hl Hmin Hml.
    destruct (wp_ok _ _ _ (cut_clears_mark x y m xl xr ml s Hr Hl Hmin Hml))
      as ([] & s' & E & H).
    exists s'. split; [exact E|exact H].
Qed.

Lemma fib_pop_keeps_marks_cut_clears_mark_witness :
  (exists s', loop 8 promote_step (Some 2%nat) fib_marked_child = Ok tt s'
     /\ is_ring (mem s') [1; 4; 2; 3]%nat
     /\ min s' = Some 1%nat
     /\ (forall c, c ∈ [2; 3]%nat -> p (mem s' c) = None)
     /\ (forall b, mark (mem s' b) = mark (mem fib_marked_child b)))
  /\ (exists s', cut (Some 3%nat) (Some 1%nat) fib_marked_child = Ok tt s'
        /\ mark (mem s' 3%nat) = false /\ p (mem s' 3%nat) = None
        /\ right (mem s' 3%nat) = Some 1%nat /\ left (mem s' 1%nat) = Some 3%nat).
Proof.
  split.
  - apply (proj1 fib_pop_keeps_marks_cut_clears_mark
             8%nat fib_marked_child 1%nat [4%nat] 2%nat [3%nat]).
    + apply (bool_decide_unpack _). vm_compute. exact I.
    + intros c Hc.
      apply elem_of_cons in Hc as [->|Hc]; [vm_compute; discriminate|].
      apply elem_of_cons in Hc as [->|Hc]; [vm_compute; discriminate|].
      inversion Hc.
    + reflexivity.
    + vm_compute. auto.
    + vm_compute. auto.
    + cbn [length]. lia.
  - apply (proj2 fib_pop_keeps_marks_cut_clears_mark
             fib_marked_child 3%nat 1%nat 2%nat 2%nat 1%nat 4%nat); reflexivity.
Defined.

End FibMarks.

(** * What the calls of a caller return *)

(** ** Computations that keep a relation between the states *)

Section Keeps.
Context {St : Type} (R : St -> St -> Prop).
Hypothesis R_refl : forall s, R s s.
Hypothesis R_trans : forall s1 s2 s3, R s1 s2 -> R s2 s3 -> R s1 s3.

(** [m] ends, if it returns or throws, in a state that [R] relates to the
    state it started in. *)
Definition keeps {A} (m : M St A) : Prop :=
  forall s, match m s with
            | Ok _ s' => R s s'
            | Throw _ s' => R s s'
            | _ => True
            end.

Lemma keeps_ret {A} (a : A) : keeps (ret a).
Proof. intros s. apply R_refl. Qed.

Lemma keeps_gets {A} (f : St -> A) : keeps (gets f).
Proof. intros s. apply R_refl. Qed.

Lemma keeps_throw {A} (w : string) : keeps (throw (A := A) w).
Proof. intros s. apply R_refl. Qed.

Lemma keeps_fault {A} : keeps (fault (A := A)).
Proof. intros s. exact I. Qed.

Lemma keeps_modify (f : St -> St) : (forall s, R s (f s)) -> keeps (modify f).
Proof. intros H s. apply H. Qed.

Lemma keeps_bind {A B} (m : M St A) (k : A -> M St B) :
  keeps m -> (forall a, keeps (k a)) -> keeps (bind m k).
Proof.
  intros Hm Hk s. unfold bind. specialize (Hm s).
  destruct (m s) as [a s1|w s1| |]; [|exact Hm|exact I|exact I].
  specialize (Hk a s1). destruct (k a s1) as [b s2|w s2| |]; try exact I;
    exact (R_trans _ _ _ Hm Hk).
Qed.

Lemma keeps_if {A} (b : bool) (m1 m2 : M St A) :
  keeps m1 -> keeps m2 -> keeps (if b then m1 else m2).
Proof. destruct b; auto. Qed.

Lemma keeps_loop {A B} (fuel : nat) (body : A -> M St (A + B)) :
  (forall a, keeps (body a)) -> forall a, keeps (loop fuel body a).
Proof.
  intros Hbody. induction fuel as [|n IH]; intros a s; [exact I|].
  rewrite loop_S. specialize (Hbody a s).
  destruct (body a s) as [[a'|b] s1|w s1| |]; try exact I; try exact Hbody.
  specialize (IH a' s1). destruct (loop n body a' s1) as [b s2|w s2| |];
    try exact I; exact (R_trans _ _ _ Hbody IH).
Qed.

End Keeps.

(** ** Binomial heap: no call but [decrease_key] writes a key *)

Section BheapKeys.
Import Bheap.

(** No node is freed, and the nodes there are keep their keys. *)
Definition bh_same_keys (s s' : state) : Prop :=
  (brk s <= brk s')%nat
  /\ forall b, (b < brk s)%nat -> key (mem s' b) = key (mem s b).

Lemma bh_same_keys_refl s : bh_same_keys s s.
Proof. split; [lia|auto]. Qed.

Lemma bh_same_keys_trans s1 s2 s3 :
  bh_same_keys s1 s2 -> bh_same_keys s2 s3 -> bh_same_keys s1 s3.
Proof.
  intros [H1 K1] [H2 K2]. split; [lia|]. intros b Hb.
  rewrite K2 by lia. apply K1, Hb.
Qed.

Lemma bh_keeps_load {A} (f : BheapNode -> A) (x : ptr) :
  keeps bh_same_keys (load f x).
Proof.
  destruct x; [apply keeps_gets, bh_same_keys_refl|apply keeps_fault].
Qed.

Lemma bh_keeps_store (x : ptr) (g : BheapNode -> BheapNode) :
  (forall n, key (g n) = key n) -> keeps bh_same_keys (store x g).
Proof.
  intros Hg. destruct x as [a|]; [|apply keeps_fault].
  apply keeps_modify. intros s. split; [cbn; lia|]. intros b _.
  cbn [mem with_mem]. apply bh_key_upd, Hg.
Qed.

Lemma bh_keeps_alloc : keeps bh_same_keys alloc.
Proof.
  intros s. unfold alloc. split; [cbn; lia|]. intros b Hb. cbn [mem].
  rewrite bh_upd_other by lia. reflexivity.
Qed.

Lemma bh_keeps_set_head v : keeps bh_same_keys (modify (set_head v)).
Proof. apply keeps_modify. intros s. split; [cbn; lia|auto]. Qed.

Lemma bh_keeps_set_size v : keeps bh_same_keys (modify (set_size v)).
Proof. apply keeps_modify. intros s. split; [cbn; lia|auto]. Qed.

End BheapKeys.

Ltac bh_keeps_tac :=
  repeat first
    [ apply (keeps_bind _ bh_same_keys_trans); [|intros ?]
    | apply (keeps_ret _ bh_same_keys_refl)
    | apply (keeps_gets _ bh_same_keys_refl)
    | apply (keeps_throw _ bh_same_keys_refl)
    | apply keeps_fault
    | apply bh_keeps_load
    | apply bh_keeps_store; intros ?; reflexivity
    | apply bh_keeps_alloc
    | apply bh_keeps_set_head
    | apply bh_keeps_set_size
    | apply keeps_if
    | apply (keeps_loop _ bh_same_keys_trans); intros ?
    | match goal with
      | |- keeps _ (let '(_, _) := ?c in _) => destruct c
      end ].

Section BheapKeysOps.
Import Bheap.

Lemma bh_keeps_link_nodes y z : keeps bh_same_keys (link_nodes y z).
Proof. unfold link_nodes. bh_keeps_tac. Qed.

Lemma bh_keeps_merge_step fuel c : keeps bh_same_keys (merge_step fuel c).
Proof. unfold merge_step. bh_keeps_tac. Qed.

Lemma bh_keeps_merge_heads fuel h1 h2 : keeps bh_same_keys (merge_heads fuel h1 h2).
Proof. unfold merge_heads, merge_step. bh_keeps_tac. Qed.

Lemma bh_keeps_scan_step c : keeps bh_same_keys (scan_step c).
Proof.
  unfold scan_step, compare_less. bh_keeps_tac; apply bh_keeps_link_nodes.
Qed.

Lemma bh_keeps_add_heap_head fuel h : keeps bh_same_keys (add_heap_head fuel h).
Proof.
  unfold add_heap_head. bh_keeps_tac.
  all: first [ apply bh_keeps_merge_step | apply bh_keeps_scan_step ].
Qed.

Lemma bh_keeps_pop fuel : keeps bh_same_keys (pop fuel).
Proof.
  unfold pop, search_step, orphan_step, compare_less. bh_keeps_tac.
  all: first [ apply bh_keeps_merge_step | apply bh_keeps_scan_step ].
Qed.

End BheapKeysOps.

(** ** Sorted lists and the values returned *)

Lemma bind_ok {St A B} (m : M St A) (k : A -> M St B) s a s' :
  m s = Ok a s' -> bind m k s = k a s'.
Proof. unfold bind. intros ->. reflexivity. Qed.

Lemma observe_push {St B} (f : St -> B) (m : M St (list Z)) (k : Z) s :
  observe f (bind m (fun ks => ret (k :: ks)) s) = push k (observe f (m s)).
Proof. unfold bind. destruct (m s); reflexivity. Qed.

Lemma sorted_insert_perm d l : sorted_insert d l ≡ₚ d :: l.
Proof.
  induction l as [|k l IH]; cbn; [reflexivity|].
  destruct (d <=? k); [reflexivity|]. rewrite IH. apply perm_swap.
Qed.

Lemma sorted_insert_sorted d l :
  StronglySorted Z.le l -> StronglySorted Z.le (sorted_insert d l).
Proof.
  induction l as [|k l IH]; cbn; intros Hs.
  - repeat constructor.
  - apply StronglySorted_inv in Hs as [Hs Hk].
    destruct (Z.leb_spec d k) as [Hle|Hgt].
    + constructor; [constructor; assumption|]. constructor; [exact Hle|].
      eapply List.Forall_impl; [|exact Hk]. cbn. intros; lia.
    + constructor; [apply IH, Hs|].
      apply List.Forall_forall. intros x Hx. apply list_elem_of_In in Hx.
      rewrite sorted_insert_perm in Hx. apply elem_of_cons in Hx as [->|Hx]; [lia|].
      rewrite List.Forall_forall in Hk. apply Hk, list_elem_of_In, Hx.
Qed.

(** The least key of a sorted list is its first. *)
Lemma sorted_least_first (b0 k : Z) bag keys :
  StronglySorted Z.le (b0 :: bag) -> keys ≡ₚ b0 :: bag ->
  k ∈ keys -> Forall (fun y => k <= y) keys -> k = b0.
Proof.
  intros Hs Hp Hk Hall. apply StronglySorted_inv in Hs as [_ Hb].
  rewrite List.Forall_forall in Hb. rewrite Forall_forall in Hall.
  assert (H1 : k <= b0) by (apply Hall; rewrite Hp; left).
  rewrite Hp in Hk. apply elem_of_cons in Hk as [->|Hk]; [reflexivity|].
  assert (H2 : b0 <= k) by (apply Hb, list_elem_of_In, Hk). lia.
Qed.

(** ** Binomial heap: [get_min] *)

Section BheapGetMin.
Import Bheap.
Implicit Types (s : state) (F : list tree).

Definition gm_inv (s : state) (L : list addr)
    (n : nat) (c : ptr * ptr) (s' : state) : Prop :=
  s' = s /\ exists pre m rest,
    L = pre ++ rest /\ lseg (mem s) (fst c) rest None /\ snd c = Some m
    /\ m ∈ pre /\ Forall (fun b => key (mem s m) <= key (mem s b)) pre
    /\ n = length rest.

(** The scan of [get_min_node] ends at the leftmost root of least key. *)
Lemma bh_get_min_scan fuel s (a0 : addr) l :
  lseg (mem s) (Some a0) (a0 :: l) None ->
  (length l < fuel)%nat ->
  wp (loop fuel
        (fun '(x, min) =>
           if is_null x then ret (inr min)
           else
             lt <- compare_less x min ;;
             nx <- load sibling x ;;
             ret (inl (nx, if lt then x else min)))
        (sibling (mem s a0), Some a0))
     (fun r s' => s' = s /\ exists m, r = Some m /\ m ∈ a0 :: l
        /\ Forall (fun b => key (mem s m) <= key (mem s b)) (a0 :: l)) s.
Proof.
  intros [_ Hl] Hfuel.
  apply (wp_loop (gm_inv s (a0 :: l))) with (n := length l); [| |exact Hfuel].
  - intros n [x mn] s' (-> & pre & m & rest & E & Hrest & Hm & Hin & Hall & ->).
    cbn [fst snd] in *. subst mn. unfold compare_less.
    destruct rest as [|b rest]; cbn in Hrest.
    + subst x. bh_simpl. bh_step. split; [reflexivity|].
      rewrite app_nil_r in E. subst pre. eauto.
    + destruct Hrest as [-> Hrest]. bh_simpl. bh_go.
      exists (length rest). split; [cbn; lia|]. split; [reflexivity|].
      cbn [fst snd].
      destruct (key (mem s b) <? key (mem s m)) eqn:Hlt.
      * apply Z.ltb_lt in Hlt. exists (pre ++ [b]), b, rest.
        rewrite <- app_assoc. split; [exact E|]. split; [exact Hrest|].
        split; [reflexivity|]. split; [set_solver|]. split; [|reflexivity].
        apply Forall_app. split.
        -- eapply Forall_impl; [exact Hall|]. cbn. intros; lia.
        -- constructor; [lia|constructor].
      * apply Z.ltb_ge in Hlt. exists (pre ++ [b]), m, rest.
        rewrite <- app_assoc. split; [exact E|]. split; [exact Hrest|].
        split; [reflexivity|]. split; [set_solver|]. split; [|reflexivity].
        apply Forall_app. split; [exact Hall|]. constructor; [lia|constructor].
  - split; [reflexivity|]. exists [a0], a0, l. cbn [fst snd app].
    split; [reflexivity|]. split; [exact Hl|]. split; [reflexivity|].
    split; [left|]. split; [|reflexivity]. constructor; [lia|constructor].
Qed.

(** On a heap that is not empty [get_min_node] returns, with the state as it
    was, and what it returns is a dangling reference. *)
Lemma bh_get_min_node_spec fuel s (a0 : addr) l :
  head s = Some a0 -> lseg (mem s) (Some a0) (a0 :: l) None ->
  (length l < fuel)%nat ->
  get_min_node fuel s = Ok Dangling s.
Proof.
  intros Hhd Hl Hfuel.
  destruct (wp_ok _ _ _ (bh_get_min_scan fuel s a0 l Hl Hfuel))
    as (r & s' & E & -> & _).
  unfold get_min_node. unfold bind at 1. unfold gets. rewrite Hhd.
  unfold bind at 1. unfold load, gets. rewrite (bind_ok _ _ _ _ _ E). reflexivity.
Qed.

(** [get_min] on a heap that is not empty reads through this reference. *)
Lemma bh_get_min_forest fuel s F :
  forest_at s (head s) F -> F <> [] -> (length F <= fuel)%nat ->
  get_min fuel s = Fault.
Proof.
  intros (Hl & Hw & Hh) Hne Hfuel.
  destruct F as [|t0 F0]; [contradiction|]. cbn [length] in Hfuel.
  cbn [map] in Hl. pose proof Hl as [Hhd _].
  unfold get_min.
  rewrite (bind_ok _ _ _ _ _
             (bh_get_min_node_spec fuel s (root t0) (map root F0) Hhd
                ltac:(rewrite <- Hhd; exact Hl) ltac:(rewrite length_map; lia))).
  reflexivity.
Qed.

Lemma bh_get_min_spec fuel s F :
  binv s F -> F <> [] -> (length (fnodes F) < fuel)%nat ->
  get_min fuel s = Fault.
Proof.
  intros (Hf & _) Hne Hfuel. apply (bh_get_min_forest fuel s F Hf Hne).
  pose proof (length_fnodes_le F). lia.
Qed.

End BheapGetMin.

(** ** Binomial heap: the calls of a caller *)

Section BheapCalls.
Import Bheap.
Implicit Types (s : state) (F : list tree).

(** The handle of each call of [insert] leads to a node with the key given. *)
Definition bh_handles (s : state) (hs : list ptr) (ins : list Z) : Prop :=
  Forall2 (fun h d => exists a, h = Some a /\ (a < brk s)%nat /\ key (mem s a) = d)
          hs ins.

Lemma bh_handles_same_keys s s' hs ins :
  bh_same_keys s s' -> bh_handles s hs ins -> bh_handles s' hs ins.
Proof.
  intros [Hb Hk] H. eapply Forall2_impl; [exact H|]. intros h d (a & -> & Ha & Hd).
  exists a. split; [reflexivity|]. split; [lia|]. rewrite Hk by exact Ha. exact Hd.
Qed.

(** The heap holds the keys [bag], and the handles are good. *)
Definition bh_holds (s : state) (bag ins : list Z) (hs : list ptr) : Prop :=
  exists F, binv s F /\ keys_in s F ≡ₚ bag /\ StronglySorted Z.le bag
            /\ bh_handles s hs ins.

Lemma bh_insert_facts fuel d s h s' :
  insert fuel d s = Ok h s' ->
  h = Some (brk s) /\ bh_same_keys s s' /\ (brk s < brk s')%nat
  /\ key (mem s' (brk s)) = d.
Proof.
  unfold insert. intros E.
  set (s2 := with_mem (upd (brk s) (set_key d))
               {| mem := upd (brk s) (fun _ => fresh_node) (mem s);
                  brk := S (brk s); head := head s; _size := _size s |}).
  assert (E2 : (x <- alloc ;; store x (set_key d) ;; ret x) s = Ok (Some (brk s)) s2)
    by reflexivity.
  assert (E' : insert fuel d s
               = (add_heap_head fuel (Some (brk s)) ;;
                  sz <- gets _size ;; modify (set_size (incr64 sz)) ;;
                  ret (Some (brk s))) s2) by reflexivity.
  unfold insert in E'. rewrite E' in E. clear E' E2.
  pose proof (bh_keeps_add_heap_head fuel (Some (brk s)) s2) as K.
  unfold bind in E.
  destruct (add_heap_head fuel (Some (brk s)) s2) as [u s3|w s3| |];
    try discriminate.
  cbn in E. injection E as <- <-. destruct K as [Kb Kk].
  unfold s2 in Kb, Kk. cbn [brk mem with_mem] in Kb, Kk.
  split; [reflexivity|]. split; [|split].
  - split; [cbn; lia|]. intros b Hb. cbn [mem set_size].
    rewrite Kk by lia. rewrite bh_upd_other by lia.
    rewrite bh_upd_other by lia. reflexivity.
  - cbn. lia.
  - cbn [mem set_size]. rewrite Kk by lia. rewrite bh_upd_same. reflexivity.
Qed.

Lemma bh_binv_empty s F : binv s F -> keys_in s F ≡ₚ [] -> F = [].
Proof.
  intros _ Hp. apply Permutation_nil_r in Hp. unfold keys_in in Hp.
  apply map_eq_nil in Hp. destruct F as [|[a cs] F]; [reflexivity|discriminate].
Qed.

Lemma bh_run_refines fuel cs : forall s bag ins hs,
  bh_holds s bag ins hs ->
  (length bag + inserts cs < fuel)%nat ->
  Z.of_nat (length bag + inserts cs) < two64 ->
  observe (fun _ => tt) (run fuel cs hs s)
  = pq_run_no_min "Pop from empty heap" cs bag ins.
Proof.
  induction cs as [|c cs IH]; intros s bag ins hs Hh Hfuel Hlt; [reflexivity|].
  destruct Hh as (F & Hinv & Hkeys & Hsorted & Hhs).
  assert (Hlen : length (fnodes F) = length bag).
  { rewrite <- (Permutation_length Hkeys). unfold keys_in.
    rewrite length_map. reflexivity. }
  destruct c as [d| | | |i]; cbn [run pq_run_no_min inserts] in *.
  - (* insert *)
    destruct (wp_ok _ _ _ (bh_insert_spec fuel s F d Hinv ltac:(lia) ltac:(lia)))
      as (h & s1 & E & F1 & Hinv1 & Hk1).
    rewrite (bind_ok _ _ _ _ _ E).
    destruct (bh_insert_facts _ _ _ _ _ E) as (-> & Hsame & Hbrk & Hkey).
    apply IH.
    + exists F1. split; [exact Hinv1|].
      split; [rewrite Hk1, Hkeys, sorted_insert_perm; reflexivity|].
      split; [apply sorted_insert_sorted, Hsorted|].
      apply Forall2_app; [exact (bh_handles_same_keys _ _ _ _ Hsame Hhs)|].
      constructor; [|constructor]. exists (brk s). auto.
    + rewrite (Permutation_length (sorted_insert_perm d bag)). cbn [length]. lia.
    + rewrite (Permutation_length (sorted_insert_perm d bag)). cbn [length]. lia.
  - (* pop *)
    destruct bag as [|b0 bag'].
    + assert (HF : F = []) by (eapply bh_binv_empty; eauto). subst F.
      destruct Hinv as (_ & _ & _ & Hsz & _). cbn in Hsz.
      unfold pop, bind, gets. rewrite Hsz. reflexivity.
    + assert (HF : F <> []).
      { intros ->. apply Permutation_nil_l in Hkeys. discriminate. }
      destruct (wp_ok _ _ _ (bh_pop_spec fuel s F Hinv HF ltac:(cbn [length] in *; lia)))
        as (k & s1 & E & F1 & Hinv1 & Hk1 & Hmin).
      pose proof (bh_keeps_pop fuel s) as Hsame. rewrite E in Hsame.
      rewrite (bind_ok _ _ _ _ _ E), observe_push.
      assert (Hkb : k = b0).
      { apply (sorted_least_first b0 k bag' (keys_in s F) Hsorted Hkeys).
        - rewrite Hk1. left.
        - rewrite Hk1. constructor; [lia|exact Hmin]. }
      subst k. f_equal. apply IH.
      * exists F1. split; [exact Hinv1|]. split.
        { rewrite Hkeys in Hk1. apply Permutation_cons_inv in Hk1.
          symmetry. exact Hk1. }
        split; [apply StronglySorted_inv in Hsorted; tauto|].
        exact (bh_handles_same_keys _ _ _ _ Hsame Hhs).
      * cbn [length] in *. lia.
      * cbn [length] in *. lia.
  - (* get_min *)
    destruct bag as [|b0 bag'].
    + assert (HF : F = []) by (eapply bh_binv_empty; eauto). subst F.
      destruct Hinv as ((Hl & _) & _). cbn in Hl.
      unfold get_min, get_min_node, bind, gets. rewrite Hl. reflexivity.
    + assert (HF : F <> []).
      { intros ->. apply Permutation_nil_l in Hkeys. discriminate. }
      unfold bind at 1.
      rewrite (bh_get_min_spec fuel s F Hinv HF ltac:(cbn [length] in *; lia)).
      reflexivity.
  - (* size *)
    assert (E : size s = Ok (Z.of_nat (length bag)) s).
    { unfold size, gets. destruct Hinv as (_ & _ & _ & -> & _).
      rewrite Hlen. reflexivity. }
    rewrite (bind_ok _ _ _ _ _ E), observe_push. f_equal.
    apply IH; [|exact Hfuel|exact Hlt]. exists F. auto.
  - (* get_key *)
    destruct (ins !! i) as [d|] eqn:Ei.
    + destruct (Forall2_lookup_r _ _ _ _ _ Hhs Ei) as (h & Eh & a & -> & Ha & Hd).
      assert (E : get_key (nth i hs None) s = Ok d s).
      { rewrite (nth_lookup_Some _ _ _ _ Eh). unfold get_key, load, gets.
        rewrite Hd. reflexivity. }
      rewrite (bind_ok _ _ _ _ _ E), observe_push. f_equal.
      apply IH; [|exact Hfuel|exact Hlt]. exists F. auto.
    + apply lookup_ge_None in Ei. rewrite <- (Forall2_length _ _ _ Hhs) in Ei.
      rewrite (nth_overflow _ _ Ei). reflexivity.
Qed.

End BheapCalls.

(** X1.  For any calls of [insert], [pop], [get_min], [size] and [get_key] on a
    binomial heap that starts empty, what the caller sees is what it sees of
    the priority queue on sorted lists, up to the first [get_min]: [pop]
    returns the least key held, [size] the number of keys held, [get_key] the
    key given to the [insert] that returned the handle; [pop] of no key
    throws.  The first [get_min] is undefined behaviour, whatever the heap
    holds: on the empty heap it reads through the null [head], on any other
    through the dangling reference that [get_min_node] returns.  [fuel] is
    the budget of every loop, above the number of calls of [insert], which is
    below [2^64]. *)
Theorem bheap_calls_as_priority_queue (cs : list call) (fuel : nat) :
  (inserts cs < fuel)%nat -> Z.of_nat (inserts cs) < two64 ->
  observe (fun _ => tt) (Bheap.run fuel cs [] Bheap.init)
  = pq_run_no_min "Pop from empty heap" cs [] [].
Proof.
  intros Hfuel Hlt. apply bh_run_refines; [|exact Hfuel|exact Hlt].
  exists []. split; [apply binv_init|]. split; [reflexivity|].
  split; constructor.
Qed.

Lemma bheap_calls_as_priority_queue_witness :
  observe (fun _ => tt)
    (Bheap.run 8 [Insert 5; Insert 3; Insert 4; Pop; Size; GetKey 0; Pop; Pop]
       [] Bheap.init)
  = Ok [3; 2; 5; 4; 5] tt.
Proof.
  apply (bheap_calls_as_priority_queue
           [Insert 5; Insert 3; Insert 4; Pop; Size; GetKey 0; Pop; Pop] 8);
    [cbn; lia|reflexivity].
Defined.

Section KeepsFor.
Context {St : Type} (R : St -> St -> Prop).
Hypothesis R_refl : forall s, R s s.
Hypothesis R_trans : forall s1 s2 s3, R s1 s2 -> R s2 s3 -> R s1 s3.

Lemma keeps_for_each {A} (body : A -> M St unit) (l : list A) :
  (forall a, keeps R (body a)) -> keeps R (for_each l body).
Proof.
  intros Hbody. induction l as [|a l IH]; cbn [for_each].
  - apply keeps_ret, R_refl.
  - apply keeps_bind; [exact R_trans|apply Hbody|intros _; exact IH].
Qed.

Lemma keeps_for_acc {A B} (body : A -> B -> M St B) (l : list A) :
  (forall a b, keeps R (body a b)) -> forall b, keeps R (for_acc l body b).
Proof.
  intros Hbody. induction l as [|a l IH]; intros b; cbn [for_acc].
  - apply keeps_ret, R_refl.
  - apply keeps_bind; [exact R_trans|apply Hbody|intros b'; apply IH].
Qed.

End KeepsFor.

(** ** Fibonacci heap: no call but [decrease_key] writes a key *)

Section FibKeys.
Import FibHeap.

Definition fh_same_keys (s s' : state) : Prop :=
  (brk s <= brk s')%nat
  /\ forall b, (b < brk s)%nat -> key (mem s' b) = key (mem s b).

Lemma fh_same_keys_refl s : fh_same_keys s s.
Proof. split; [lia|auto]. Qed.

Lemma fh_same_keys_trans s1 s2 s3 :
  fh_same_keys s1 s2 -> fh_same_keys s2 s3 -> fh_same_keys s1 s3.
Proof.
  intros [H1 K1] [H2 K2]. split; [lia|]. intros b Hb.
  rewrite K2 by lia. apply K1, Hb.
Qed.

Lemma fh_keeps_load {A} (f : FibHeapNode -> A) (x : ptr) :
  keeps fh_same_keys (load f x).
Proof.
  destruct x; [apply keeps_gets, fh_same_keys_refl|apply keeps_fault].
Qed.

Lemma fh_keeps_store (x : ptr) (g : FibHeapNode -> FibHeapNode) :
  (forall n, key (g n) = key n) -> keeps fh_same_keys (store x g).
Proof.
  intros Hg. destruct x as [a|]; [|apply keeps_fault].
  apply keeps_modify. intros s. split; [cbn; lia|]. intros b _.
  cbn [mem with_mem]. apply fh_key_upd, Hg.
Qed.

Lemma fh_keeps_set_min v : keeps fh_same_keys (modify (set_min v)).
Proof. apply keeps_modify. intros s. split; [cbn; lia|auto]. Qed.

Lemma fh_keeps_set_size v : keeps fh_same_keys (modify (set_size v)).
Proof. apply keeps_modify. intros s. split; [cbn; lia|auto]. Qed.

Lemma fh_keeps_vec_get (A : list ptr) d : keeps fh_same_keys (vec_get A d).
Proof.
  unfold vec_get. destruct (A !! Z.to_nat d);
    [apply keeps_ret, fh_same_keys_refl|apply keeps_fault].
Qed.

Lemma fh_keeps_vec_set (A : list ptr) d v : keeps fh_same_keys (vec_set A d v).
Proof.
  unfold vec_set. destruct (Nat.ltb (Z.to_nat d) (length A));
    [apply keeps_ret, fh_same_keys_refl|apply keeps_fault].
Qed.

End FibKeys.

Ltac fh_keeps_tac :=
  repeat first
    [ apply (keeps_bind _ fh_same_keys_trans); [|intros ?]
    | apply (keeps_ret _ fh_same_keys_refl)
    | apply (keeps_gets _ fh_same_keys_refl)
    | apply (keeps_throw _ fh_same_keys_refl)
    | apply keeps_fault
    | apply fh_keeps_load
    | apply fh_keeps_store; intros ?; reflexivity
    | apply fh_keeps_set_min
    | apply fh_keeps_set_size
    | apply fh_keeps_vec_get
    | apply fh_keeps_vec_set
    | apply keeps_if
    | apply (keeps_loop _ fh_same_keys_trans); intros ?
    | apply (keeps_for_each _ fh_same_keys_refl fh_same_keys_trans); intros ?
    | apply (keeps_for_acc _ fh_same_keys_refl fh_same_keys_trans); intros ? ?
    | match goal with
      | |- keeps _ (let '(_, _) := ?c in _) => destruct c
      end ].

Section FibKeysOps.
Import FibHeap.

Lemma fh_keeps_insert_node x : keeps fh_same_keys (insert_node x).
Proof. unfold insert_node, compare_less. fh_keeps_tac. Qed.

Lemma fh_keeps_fib_link y x : keeps fh_same_keys (fib_link y x).
Proof. unfold fib_link. fh_keeps_tac. Qed.

Lemma fh_keeps_collide_step c : keeps fh_same_keys (collide_step c).
Proof.
  unfold collide_step, compare_less. destruct c as [[x d] A]. fh_keeps_tac.
  all: try apply fh_keeps_fib_link.
Qed.

Lemma fh_keeps_place fuel x A : keeps fh_same_keys (place fuel x A).
Proof.
  unfold place, collide. fh_keeps_tac.
  all: try apply fh_keeps_collide_step.
  all: match goal with |- keeps _ (let '(_, _) := ?c in _) => destruct c as [[? ?] ?] end.
  all: fh_keeps_tac.
Qed.

Lemma fh_keeps_consolidate fuel : keeps fh_same_keys (consolidate fuel).
Proof.
  unfold consolidate, census_step, reinsert. fh_keeps_tac.
  all: first [ apply fh_keeps_collide_step | apply fh_keeps_place
             | apply fh_keeps_insert_node
             | match goal with
               | |- keeps _ (let '(_, _) := ?c in _) => destruct c as [[? ?] ?]
               end; fh_keeps_tac ].
Qed.

Lemma fh_keeps_pop fuel : keeps fh_same_keys (pop fuel).
Proof.
  unfold pop, promote_step. fh_keeps_tac.
  all: first [ apply fh_keeps_insert_node | apply fh_keeps_consolidate
             | apply fh_keeps_collide_step | apply fh_keeps_place
             | match goal with
               | |- keeps _ (let '(_, _) := ?c in _) => destruct c as [[? ?] ?]
               end; fh_keeps_tac ].
Qed.

End FibKeysOps.

(** ** Fibonacci heap: the calls of a caller *)

Section FibCalls.
Import FibHeap.
Implicit Types (s : state) (G : list tree).

Definition fh_handles (s : state) (hs : list ptr) (ins : list Z) : Prop :=
  Forall2 (fun h d => exists a, h = Some a /\ (a < brk s)%nat /\ key (mem s a) = d)
          hs ins.

Lemma fh_handles_same_keys s s' hs ins :
  fh_same_keys s s' -> fh_handles s hs ins -> fh_handles s' hs ins.
Proof.
  intros [Hb Hk] H. eapply Forall2_impl; [exact H|]. intros h d (a & -> & Ha & Hd).
  exists a. split; [reflexivity|]. split; [lia|]. rewrite Hk by exact Ha. exact Hd.
Qed.

Definition fh_holds (s : state) (bag ins : list Z) (hs : list ptr) : Prop :=
  exists G, finv s G /\ fkeys_in s G ≡ₚ bag /\ StronglySorted Z.le bag
            /\ fh_handles s hs ins.

Lemma fh_insert_facts d s h s' :
  insert d s = Ok h s' ->
  h = Some (brk s) /\ fh_same_keys s s' /\ (brk s < brk s')%nat
  /\ key (mem s' (brk s)) = d.
Proof.
  intros E.
  set (s2 := with_mem (upd (brk s) (set_right (Some (brk s))))
               (with_mem (upd (brk s) (set_left (Some (brk s))))
                  (with_mem (upd (brk s) (set_key d))
                     {| mem := upd (brk s) (fun _ => fresh_node) (mem s);
                        brk := S (brk s); min := min s; _size := _size s |}))).
  assert (E' : insert d s
               = (insert_node (Some (brk s)) ;;
                  sz <- gets _size ;; modify (set_size (incr64 sz)) ;;
                  ret (Some (brk s))) s2) by reflexivity.
  rewrite E' in E. clear E'.
  pose proof (fh_keeps_insert_node (Some (brk s)) s2) as K.
  unfold bind in E.
  destruct (insert_node (Some (brk s)) s2) as [u s3|w s3| |]; try discriminate.
  cbn in E. injection E as <- <-. destruct K as [Kb Kk].
  unfold s2 in Kb, Kk. cbn [brk mem with_mem] in Kb, Kk.
  split; [reflexivity|]. split; [|split].
  - split; [cbn; lia|]. intros b Hb. cbn [mem set_size].
    rewrite Kk by lia. fh_simpl. reflexivity.
  - cbn. lia.
  - cbn [mem set_size]. rewrite Kk by lia. fh_simpl. reflexivity.
Qed.

Lemma fh_finv_empty s G : fkeys_in s G ≡ₚ [] -> G = [].
Proof.
  intros Hp. apply Permutation_nil_r in Hp. unfold fkeys_in in Hp.
  apply map_eq_nil in Hp. destruct G as [|[a cs] G]; [reflexivity|discriminate].
Qed.

Lemma fh_finv_min_none s : finv s [] -> min s = None.
Proof.
  intros (RL & (_ & Hperm & _ & Hmin & _) & _).
  apply Permutation_nil_l in Hperm. subst RL. exact Hmin.
Qed.

Lemma fh_get_min_spec s G :
  finv s G -> G <> [] ->
  wp get_min
     (fun k s' => s' = s /\ k ∈ fkeys_in s G
        /\ Forall (fun y => k <= y) (fkeys_in s G)) s.
Proof.
  intros (RL & (Hnd & Hperm & Hring & Hmin & Hwf & Hho) & Hleast & _) Hne.
  destruct RL as [|z R].
  { apply Permutation_nil_r, map_eq_nil in Hperm. contradiction. }
  cbn [head] in Hmin. unfold get_min. fh_go.
  split; [reflexivity|]. split.
  - unfold fkeys_in, fkey. apply list_elem_of_fmap. exists z.
    split; [reflexivity|]. apply roots_in_fnodes. rewrite Hperm. left.
  - unfold fkeys_in. apply Forall_forall. intros y Hy.
    apply list_elem_of_fmap in Hy as (b & -> & Hb).
    destruct (ho_forest_min _ _ Hho b Hb) as (t & Ht & Hle).
    unfold fkey in *. etransitivity; [|exact Hle].
    apply (Hleast z (root t) Hmin). rewrite <- Hperm.
    apply list_elem_of_fmap. eauto.
Qed.

Lemma fh_run_refines fuel cs : forall s bag ins hs,
  fh_holds s bag ins hs ->
  (length bag + inserts cs < fuel)%nat ->
  Z.of_nat (length bag + inserts cs) < two64 ->
  observe (fun _ => tt) (run fuel cs hs s)
  = pq_run "Pop from empty FibHeap" cs bag ins.
Proof.
  induction cs as [|c cs IH]; intros s bag ins hs Hh Hfuel Hlt; [reflexivity|].
  destruct Hh as (G & Hinv & Hkeys & Hsorted & Hhs).
  assert (Hlen : length (fnodes G) = length bag).
  { rewrite <- (Permutation_length Hkeys). unfold fkeys_in.
    rewrite length_map. reflexivity. }
  destruct c as [d| | | |i]; cbn [run pq_run inserts] in *.
  - (* insert *)
    destruct (wp_ok _ _ _ (fh_insert_spec s G d Hinv ltac:(lia)))
      as (h & s1 & E & G1 & Hinv1 & Hk1).
    rewrite (bind_ok _ _ _ _ _ E).
    destruct (fh_insert_facts _ _ _ _ E) as (-> & Hsame & Hbrk & Hkey).
    apply IH.
    + exists G1. split; [exact Hinv1|].
      split; [rewrite Hk1, Hkeys, sorted_insert_perm; reflexivity|].
      split; [apply sorted_insert_sorted, Hsorted|].
      apply Forall2_app; [exact (fh_handles_same_keys _ _ _ _ Hsame Hhs)|].
      constructor; [|constructor]. exists (brk s). auto.
    + rewrite (Permutation_length (sorted_insert_perm d bag)). cbn [length]. lia.
    + rewrite (Permutation_length (sorted_insert_perm d bag)). cbn [length]. lia.
  - (* pop *)
    destruct bag as [|b0 bag'].
    + assert (HG : G = []) by (eapply fh_finv_empty; eauto). subst G.
      pose proof (fh_finv_min_none s Hinv) as Hmin.
      unfold pop, bind, gets. rewrite Hmin. reflexivity.
    + assert (HG : G <> []).
      { intros ->. apply Permutation_nil_l in Hkeys. discriminate. }
      destruct (wp_ok _ _ _ (fh_pop_spec fuel s G Hinv HG ltac:(cbn [length] in *; lia)))
        as (k & s1 & E & G1 & Hinv1 & Hk1 & Hmin).
      pose proof (fh_keeps_pop fuel s) as Hsame. rewrite E in Hsame.
      rewrite (bind_ok _ _ _ _ _ E), observe_push.
      assert (Hkb : k = b0).
      { apply (sorted_least_first b0 k bag' (fkeys_in s G) Hsorted Hkeys).
        - rewrite Hk1. left.
        - rewrite Hk1. constructor; [lia|exact Hmin]. }
      subst k. f_equal. apply IH.
      * exists G1. split; [exact Hinv1|]. split.
        { rewrite Hkeys in Hk1. apply Permutation_cons_inv in Hk1.
          symmetry. exact Hk1. }
        split; [apply StronglySorted_inv in Hsorted; tauto|].
        exact (fh_handles_same_keys _ _ _ _ Hsame Hhs).
      * cbn [length] in *. lia.
      * cbn [length] in *. lia.
  - (* get_min *)
    destruct bag as [|b0 bag'].
    + assert (HG : G = []) by (eapply fh_finv_empty; eauto). subst G.
      pose proof (fh_finv_min_none s Hinv) as Hmin.
      unfold get_min, bind, gets. rewrite Hmin. reflexivity.
    + assert (HG : G <> []).
      { intros ->. apply Permutation_nil_l in Hkeys. discriminate. }
      destruct (wp_ok _ _ _ (fh_get_min_spec s G Hinv HG))
        as (k & s1 & E & -> & Hin & Hall).
      rewrite (bind_ok _ _ _ _ _ E), observe_push.
      assert (Hkb : k = b0)
        by exact (sorted_least_first b0 k bag' _ Hsorted Hkeys Hin Hall).
      subst k. f_equal. apply IH; [|exact Hfuel|exact Hlt].
      exists G. auto.
  - (* size *)
    assert (E : size s = Ok (Z.of_nat (length bag)) s).
    { unfold size, gets. destruct Hinv as (RL & _ & _ & _ & -> & _).
      rewrite Hlen. reflexivity. }
    rewrite (bind_ok _ _ _ _ _ E), observe_push. f_equal.
    apply IH; [|exact Hfuel|exact Hlt]. exists G. auto.
  - (* get_key *)
    destruct (ins !! i) as [d|] eqn:Ei.
    + destruct (Forall2_lookup_r _ _ _ _ _ Hhs Ei) as (h & Eh & a & -> & Ha & Hd).
      assert (E : get_key (nth i hs None) s = Ok d s).
      { rewrite (nth_lookup_Some _ _ _ _ Eh). unfold get_key, load, gets.
        rewrite Hd. reflexivity. }
      rewrite (bind_ok _ _ _ _ _ E), observe_push. f_equal.
      apply IH; [|exact Hfuel|exact Hlt]. exists G. auto.
    + apply lookup_ge_None in Ei. rewrite <- (Forall2_length _ _ _ Hhs) in Ei.
      rewrite (nth_overflow _ _ Ei). reflexivity.
Qed.

End FibCalls.

(** X2.  For any calls of [insert], [pop], [get_min], [size] and [get_key] on a
    Fibonacci heap that starts empty, the values returned are those of the
    priority queue on sorted lists: [pop] and [get_min] return the least key
    held, [size] the number of keys held, [get_key] the key given to the
    [insert] that returned the handle; [pop] of no key throws, [get_min] of no
    key is undefined behaviour.  [fuel] is the budget of every loop, above the
    number of calls of [insert], which is below [2^64]. *)
Theorem fibheap_calls_as_priority_queue (cs : list call) (fuel : nat) :
  (inserts cs < fuel)%nat -> Z.of_nat (inserts cs) < two64 ->
  observe (fun _ => tt) (FibHeap.run fuel cs [] FibHeap.init)
  = pq_run "Pop from empty FibHeap" cs [] [].
Proof.
  intros Hfuel Hlt. apply fh_run_refines; [|exact Hfuel|exact Hlt].
  exists []. split; [apply finv_init|]. split; [reflexivity|].
  split; constructor.
Qed.

Lemma fibheap_calls_as_priority_queue_witness :
  observe (fun _ => tt)
    (FibHeap.run 8 [Insert 5; Insert 3; GetMin; Insert 4; Pop; Size; GetKey 0;
                    Pop; Pop; Pop] [] FibHeap.init)
  = pq_run "Pop from empty FibHeap"
      [Insert 5; Insert 3; GetMin; Insert 4; Pop; Size; GetKey 0; Pop; Pop; Pop]
      [] [].
Proof.
  apply (fibheap_calls_as_priority_queue
           [Insert 5; Insert 3; GetMin; Insert 4; Pop; Size; GetKey 0;
            Pop; Pop; Pop] 8); [cbn; lia|reflexivity].
Defined.

(** ** Fibonacci heap: what [add_heap] does *)

Section AddHeapRounds.
Import FibHeap.

(** The first round of the loop of [add_heap], on [merged = H.min = h], when
    this heap has the minimum [m]: [h] goes left of [m], and [merged] is [m]
    next. *)
Lemma add_heap_first_round (s : state) (m l h : addr) :
  min s = Some m -> left (mem s m) = Some l -> h <> m ->
  wp (add_heap_step (Some h) (Some h))
     (fun r s' => r = inl (Some m)
        /\ min s' = Some (if key (mem s h) <? key (mem s m) then h else m)
        /\ left (mem s' m) = Some h /\ left (mem s' h) = Some l
        /\ right (mem s' h) = Some m
        /\ _size s' = _size s
        /\ forall b, key (mem s' b) = key (mem s b)) s.
Proof.
  intros Hmin Hl Hhm.
  unfold add_heap_step, insert_node, compare_less.
  repeat first [ fh_step | rewrite Hmin; fh_simpl | rewrite Hl; fh_simpl ].
  destruct (key (mem s h) <? key (mem s m));
    repeat first [ fh_step | rewrite (proj2 (Nat.eqb_neq m h)) by congruence ];
    (split; [reflexivity|]); fh_simpl;
    repeat split; try reflexivity; try assumption;
    try (intros b; fh_simpl; reflexivity).
Qed.

(** The second round when the minimum is still [m]: [m] is cut out of its
    ring and is then a ring of its own. *)
Lemma add_heap_second_round_stuck (s : state) (m h : addr) :
  min s = Some m -> left (mem s m) = Some h -> h <> m ->
  wp (add_heap_step (Some h) (Some m))
     (fun r s' => r = inl (Some m) /\ alone m s') s.
Proof.
  intros Hmin Hl Hhm.
  unfold add_heap_step, insert_node, compare_less.
  repeat first [ fh_step | rewrite Hmin; fh_simpl | rewrite Hl; fh_simpl ].
  rewrite Z.ltb_irrefl.
  repeat first [ fh_step | rewrite (proj2 (Nat.eqb_neq m h)) by congruence ].
  split; [reflexivity|]. unfold alone. fh_simpl. auto.
Qed.

(** The second round when the minimum is [h] by now: [m] goes left of [h],
    its [right] is [h], and the loop ends. *)
Lemma add_heap_second_round_ends (s : state) (m l h : addr) :
  min s = Some h -> left (mem s h) = Some l -> right (mem s h) = Some m ->
  h <> m -> key (mem s h) < key (mem s m) ->
  wp (add_heap_step (Some h) (Some m))
     (fun r s' => r = inr tt
        /\ min s' = Some h
        /\ right (mem s' h) = Some m /\ right (mem s' m) = Some h
        /\ _size s' = _size s
        /\ forall b, key (mem s' b) = key (mem s b)) s.
Proof.
  intros Hmin Hl Hr Hhm Hlt.
  unfold add_heap_step, insert_node, compare_less.
  repeat first [ fh_step | rewrite Hmin; fh_simpl | rewrite Hl; fh_simpl ].
  destruct (Z.ltb_spec (key (mem s m)) (key (mem s h))) as [Hlt'|_]; [lia|].
  repeat first [ fh_step | rewrite Nat.eqb_refl ].
  split; [reflexivity|]. fh_simpl. split; [exact Hmin|].
  split; [|split; [reflexivity|split; [reflexivity|intros b; fh_simpl; reflexivity]]].
  destruct (Nat.eqb_spec h l) as [<-|Hne].
  - fh_simpl. reflexivity.
  - fh_simpl. exact Hr.
Qed.

End AddHeapRounds.

(** X3.  [add_heap(H)] on a heap that is not empty, when the key of [H.min] is not
    below the key of [min]: the loop never ends, whatever the budget [fuel] of
    its rounds.  After two rounds [merged] is [min], alone in a ring, and
    stays so. *)
Theorem fib_add_heap_never_returns (s : FibHeap.state) (m l h : addr) (fuel : nat) :
  FibHeap.min s = Some m -> FibHeap.left (FibHeap.mem s m) = Some l ->
  h <> m ->
  FibHeap.key (FibHeap.mem s m) <= FibHeap.key (FibHeap.mem s h) ->
  FibHeap.add_heap fuel (Some h) s = OutOfFuel.
Proof.
  intros Hmin Hl Hhm Hle. unfold FibHeap.add_heap. cbn [is_null].
  destruct fuel as [|fuel]; [reflexivity|]. rewrite loop_S.
  destruct (wp_ok _ _ _ (add_heap_first_round s m l h Hmin Hl Hhm))
    as (r & s1 & -> & -> & Hmin1 & Hl1 & _).
  destruct (Z.ltb_spec (FibHeap.key (FibHeap.mem s h)) (FibHeap.key (FibHeap.mem s m)))
    as [Hlt|_]; [lia|].
  destruct fuel as [|fuel]; [reflexivity|]. rewrite loop_S.
  destruct (wp_ok _ _ _ (add_heap_second_round_stuck s1 m h Hmin1 Hl1 Hhm))
    as (r & s2 & -> & -> & Halone).
  apply add_heap_loop_alone; [congruence|exact Halone].
Qed.

Lemma fib_add_heap_never_returns_witness :
  FibHeap.add_heap 1000 (Some 3%nat) (FibHeap.st fib_meld_example) = OutOfFuel.
Proof.
  apply (fib_add_heap_never_returns (FibHeap.st fib_meld_example) 0%nat 2%nat 3%nat 1000);
    [reflexivity|reflexivity|discriminate|vm_compute; discriminate].
Defined.

(** X4.  [add_heap(H)] on a heap that is not empty, when the key of [H.min] is below
    the key of [min]: the loop ends after two rounds, with [H.min] and the old
    [min] each the [right] of the other, and [H.min] the minimum.  The ring
    that [pop] walks from [min] holds these two nodes only: the other nodes of
    both heaps are out of it.  [_size] and the keys are as before. *)
Theorem fib_add_heap_keeps_two_roots (s : FibHeap.state) (m l h : addr) (fuel : nat) :
  FibHeap.min s = Some m -> FibHeap.left (FibHeap.mem s m) = Some l ->
  h <> m ->
  FibHeap.key (FibHeap.mem s h) < FibHeap.key (FibHeap.mem s m) ->
  (2 <= fuel)%nat ->
  exists s', FibHeap.add_heap fuel (Some h) s = Ok tt s'
    /\ FibHeap.min s' = Some h
    /\ FibHeap.right (FibHeap.mem s' h) = Some m
    /\ FibHeap.right (FibHeap.mem s' m) = Some h
    /\ FibHeap._size s' = FibHeap._size s
    /\ forall b, FibHeap.key (FibHeap.mem s' b) = FibHeap.key (FibHeap.mem s b).
Proof.
  intros Hmin Hl Hhm Hlt Hfuel. unfold FibHeap.add_heap. cbn [is_null].
  destruct fuel as [|[|fuel]]; [lia|lia|]. rewrite loop_S.
  destruct (wp_ok _ _ _ (add_heap_first_round s m l h Hmin Hl Hhm))
    as (r & s1 & -> & -> & Hmin1 & Hlm1 & Hlh1 & Hr1 & Hs1 & Hk1).
  rewrite (proj2 (Z.ltb_lt _ _) Hlt) in Hmin1.
  rewrite loop_S.
  assert (Hlt1 : FibHeap.key (FibHeap.mem s1 h) < FibHeap.key (FibHeap.mem s1 m))
    by (rewrite !Hk1; exact Hlt).
  destruct (wp_ok _ _ _ (add_heap_second_round_ends s1 m l h Hmin1 Hlh1 Hr1 Hhm Hlt1))
    as (r & s2 & -> & -> & Hmin2 & Hrh & Hrm & Hs2 & Hk2).
  exists s2. split; [reflexivity|]. split; [exact Hmin2|]. split; [exact Hrh|].
  split; [exact Hrm|]. split; [congruence|]. intros b. rewrite Hk2. apply Hk1.
Qed.

Lemma fib_add_heap_keeps_two_roots_witness :
  exists s', FibHeap.add_heap 8 (Some 3%nat) (FibHeap.st fib_meld_lower) = Ok tt s'
    /\ FibHeap.min s' = Some 3%nat
    /\ FibHeap.right (FibHeap.mem s' 3%nat) = Some 0%nat
    /\ FibHeap.right (FibHeap.mem s' 0%nat) = Some 3%nat
    /\ FibHeap._size s' = FibHeap._size (FibHeap.st fib_meld_lower)
    /\ forall b, FibHeap.key (FibHeap.mem s' b)
                 = FibHeap.key (FibHeap.mem (FibHeap.st fib_meld_lower) b).
Proof.
  apply (fib_add_heap_keeps_two_roots (FibHeap.st fib_meld_lower) 0%nat 2%nat 3%nat 8);
    [reflexivity|reflexivity|discriminate|reflexivity|lia].
Defined.

(** X5.  [add_heap(H)] on an empty heap: the loop ends after one round, with
    [H.min] the minimum and a ring of its own; the other nodes of [H] are out
    of the ring. *)
Theorem fib_add_heap_to_empty_keeps_one_root (s : FibHeap.state) (h hl : addr) (fuel : nat) :
  FibHeap.min s = None -> FibHeap.left (FibHeap.mem s h) = Some hl ->
  (1 <= fuel)%nat ->
  exists s', FibHeap.add_heap fuel (Some h) s = Ok tt s'
    /\ FibHeap.min s' = Some h
    /\ FibHeap.right (FibHeap.mem s' h) = Some h
    /\ FibHeap.left (FibHeap.mem s' h) = Some h
    /\ FibHeap._size s' = FibHeap._size s.
Proof.
  intros Hmin Hl Hfuel. unfold FibHeap.add_heap. cbn [is_null].
  destruct fuel as [|fuel]; [lia|]. rewrite loop_S.
  assert (W : wp (FibHeap.add_heap_step (Some h) (Some h))
                (fun r s' => r = inr tt /\ FibHeap.min s' = Some h
                   /\ FibHeap.right (FibHeap.mem s' h) = Some h
                   /\ FibHeap.left (FibHeap.mem s' h) = Some h
                   /\ FibHeap._size s' = FibHeap._size s) s).
  { unfold FibHeap.add_heap_step, FibHeap.insert_node, FibHeap.compare_less.
    repeat first [ fh_step | rewrite Hmin; fh_simpl | rewrite Hl; fh_simpl ].
    rewrite Z.ltb_irrefl. repeat first [ fh_step | rewrite Nat.eqb_refl ].
    fh_simpl. auto. }
  destruct (wp_ok _ _ _ W) as (r & s1 & -> & -> & H).
  exists s1. split; [reflexivity|exact H].
Qed.

Lemma fib_add_heap_to_empty_keeps_one_root_witness :
  exists s', FibHeap.add_heap 8 (Some 0%nat) (FibHeap.st fib_meld_into_empty) = Ok tt s'
    /\ FibHeap.min s' = Some 0%nat
    /\ FibHeap.right (FibHeap.mem s' 0%nat) = Some 0%nat
    /\ FibHeap.left (FibHeap.mem s' 0%nat) = Some 0%nat
    /\ FibHeap._size s' = FibHeap._size (FibHeap.st fib_meld_into_empty).
Proof.
  apply (fib_add_heap_to_empty_keeps_one_root
           (FibHeap.st fib_meld_into_empty) 0%nat 2%nat 8);
    [reflexivity|reflexivity|lia].
Defined.

(** ** Binomial heap: [add_heap] joins two heaps *)

(** The trees of [H1] and of [H2] in [bheap_two_heaps]. *)
Definition bheap_two_heaps_F1 : list tree := [T 2%nat []; T 0%nat [T 1%nat []]].
Definition bheap_two_heaps_F2 : list tree := [T 5%nat []; T 3%nat [T 4%nat []]].

(** X6.  [H1.add_heap(H2)], for two heap-ordered forests on nodes of their
    own: the call returns, the root list of [H1] is then a heap-ordered forest
    of the nodes of both, every node keeps its key, and [_size] is the one
    [H1] had before: the keys of [H2] are not counted. *)
Theorem bheap_add_heap_joins_forests (s : Bheap.state) (h2 : ptr)
    (F1 F2 : list tree) (fuel : nat) :
  forest_at s (Bheap.head s) F1 -> forest_at s h2 F2 ->
  NoDup (fnodes (F1 ++ F2)) ->
  (length (fnodes (F1 ++ F2)) < fuel)%nat ->
  exists s',
    Bheap.add_heap fuel h2 s = Ok tt s'
    /\ Bheap._size s' = Bheap._size s
    /\ (forall b, Bheap.key (Bheap.mem s' b) = Bheap.key (Bheap.mem s b))
    /\ exists F', forest_at s' (Bheap.head s') F'
         /\ NoDup (fnodes F') /\ fnodes F' ≡ₚ fnodes (F1 ++ F2).
Proof.
  intros H1 H2 Hnd Hfuel.
  assert (Hlen : (length (F1 ++ F2) < fuel)%nat).
  { pose proof (length_fnodes_le (F1 ++ F2)). lia. }
  destruct (wp_ok _ _ _ (add_heap_head_spec fuel s F1 F2 h2 H1 H2 Hnd Hlen))
    as ([] & s' & E & F' & HF' & Hnd' & Hp & Hbrk & Hsz & Hk).
  exists s'. split; [exact E|]. split; [exact Hsz|]. split; [exact Hk|].
  exists F'. auto.
Qed.

Lemma bheap_add_heap_joins_forests_witness :
  exists s',
    Bheap.add_heap 8 (Bheap.head2 bheap_two_heaps) (Bheap.st bheap_two_heaps)
    = Ok tt s'
    /\ Bheap._size s' = Bheap._size (Bheap.st bheap_two_heaps)
    /\ (forall b, Bheap.key (Bheap.mem s' b)
                  = Bheap.key (Bheap.mem (Bheap.st bheap_two_heaps) b))
    /\ exists F', forest_at s' (Bheap.head s') F'
         /\ NoDup (fnodes F')
         /\ fnodes F' ≡ₚ fnodes (bheap_two_heaps_F1 ++ bheap_two_heaps_F2).
Proof.
  apply (bheap_add_heap_joins_forests (Bheap.st bheap_two_heaps)
           (Bheap.head2 bheap_two_heaps)
           bheap_two_heaps_F1 bheap_two_heaps_F2 8)%nat.
  - vm_compute. repeat split; repeat constructor; vm_compute; discriminate.
  - vm_compute. repeat split; repeat constructor; vm_compute; discriminate.
  - vm_compute. repeat constructor; set_solver.
  - vm_compute. lia.
Defined.

(** ** Parent links of a forest *)

(** The pairs (parent, child) of a tree. *)
Fixpoint edges_t (t : tree) : list (addr * addr) :=
  match t with
  | T a cs => flat_map (fun c => (a, root c) :: edges_t c) cs
  end.

Definition edges (f : list tree) : list (addr * addr) := flat_map edges_t f.

(** The parent link [par] of every node of [t] leads to its parent in [t],
    and the one of the root of [t] is [up]. *)
Fixpoint pwf (par : addr -> ptr) (up : ptr) (t : tree) : Prop :=
  match t with
  | T a cs => par a = up /\ fold_right (fun c P => pwf par (Some a) c /\ P) True cs
  end.

(** The parent links lead from [x] through [l] to a node whose link is [up]. *)
Fixpoint pchain (par : addr -> ptr) (x : addr) (l : list addr) (up : ptr) : Prop :=
  match l with
  | [] => par x = up
  | a :: l' => par x = Some a /\ pchain par a l' up
  end.

Lemma pwf_T par up a cs :
  pwf par up (T a cs) <-> par a = up /\ Forall (pwf par (Some a)) cs.
Proof.
  cbn. enough (fold_right (fun c P => pwf par (Some a) c /\ P) True cs
               <-> Forall (pwf par (Some a)) cs) by tauto.
  induction cs as [|c cs IH]; cbn.
  - split; auto.
  - rewrite Forall_cons, IH. tauto.
Qed.

Lemma pwf_root par up t : pwf par up t -> par (root t) = up.
Proof. destruct t. rewrite pwf_T. cbn. tauto. Qed.

Lemma pwf_ext par par' up t :
  (forall a, a ∈ nodes t -> par' a = par a) -> pwf par up t -> pwf par' up t.
Proof.
  revert up. induction t as [a cs IH] using tree_ind'. intros up Hp.
  rewrite !pwf_T. intros [Ha Hcs]. split; [rewrite Hp by left; exact Ha|].
  assert (Hp' : forall b, b ∈ flat_map nodes cs -> par' b = par b)
    by (intros b Hb; apply Hp; right; exact Hb).
  clear Hp Ha. induction cs as [|c cs IHcs]; [constructor|].
  apply Forall_cons in Hcs as [Hc Hcs]. apply Forall_cons in IH as [IHc IH].
  cbn in Hp'. constructor.
  - apply IHc; [|exact Hc]. intros b Hb. apply Hp', elem_of_app. auto.
  - apply IHcs; auto. intros b Hb. apply Hp', elem_of_app. auto.
Qed.

Lemma edges_t_T a cs :
  edges_t (T a cs) = flat_map (fun c => (a, root c) :: edges_t c) cs.
Proof. reflexivity. Qed.

Lemma elem_of_edges_T e a cs :
  e ∈ edges_t (T a cs)
  <-> exists c, c ∈ cs /\ (e = (a, root c) \/ e ∈ edges_t c).
Proof.
  rewrite edges_t_T. induction cs as [|c cs IH]; cbn [flat_map].
  - split; [inversion 1|]. intros (c & Hc & _). inversion Hc.
  - rewrite elem_of_app, elem_of_cons, IH. split.
    + intros [[->|H]|(c' & Hc' & H)].
      * exists c. split; [left|auto].
      * exists c. split; [left|auto].
      * exists c'. split; [right; exact Hc'|exact H].
    + intros (c' & Hc' & H). apply elem_of_cons in Hc' as [->|Hc']; [tauto|].
      right. eauto.
Qed.

Lemma elem_of_edges e f : e ∈ edges f <-> exists t, t ∈ f /\ e ∈ edges_t t.
Proof.
  unfold edges. induction f as [|t f IH]; cbn [flat_map].
  - split; [inversion 1|]. intros (t & Ht & _). inversion Ht.
  - rewrite elem_of_app, IH. split.
    + intros [H|(t' & Ht' & H)]; [exists t; split; [left|exact H]|].
      exists t'. split; [right; exact Ht'|exact H].
    + intros (t' & Ht' & H). apply elem_of_cons in Ht' as [->|Ht']; eauto.
Qed.

Lemma elem_of_fnodes b f : b ∈ fnodes f <-> exists t, t ∈ f /\ b ∈ nodes t.
Proof.
  unfold fnodes. induction f as [|t f IH]; cbn [flat_map].
  - split; [inversion 1|]. intros (t & Ht & _). inversion Ht.
  - rewrite elem_of_app, IH. split.
    + intros [H|(t' & Ht' & H)]; [exists t; split; [left|exact H]|].
      exists t'. split; [right; exact Ht'|exact H].
    + intros (t' & Ht' & H). apply elem_of_cons in Ht' as [->|Ht']; eauto.
Qed.

(** Heap order is the order of the keys along every pair. *)
Lemma ho_edges k t : ho k t <-> forall a c, (a, c) ∈ edges_t t -> k a <= k c.
Proof.
  induction t as [a cs IH] using tree_ind'. rewrite ho_T. split.
  - intros H b c Hbc. apply elem_of_edges_T in Hbc as (t & Ht & Hbc).
    rewrite Forall_forall in H, IH. destruct (H t Ht) as [Hle Hho].
    destruct Hbc as [Hbc|Hbc]; [injection Hbc as -> ->; exact Hle|].
    apply (IH t Ht); assumption.
  - intros H. apply Forall_forall. intros t Ht. rewrite Forall_forall in IH. split.
    + apply H, elem_of_edges_T. eauto.
    + apply (IH t Ht). intros b c Hbc. apply H, elem_of_edges_T. eauto.
Qed.

Lemma ho_forest_edges k f :
  Forall (ho k) f <-> forall a c, (a, c) ∈ edges f -> k a <= k c.
Proof.
  rewrite Forall_forall. split.
  - intros H a c Hac. apply elem_of_edges in Hac as (t & Ht & Hac).
    apply (ho_edges k t); auto.
  - intros H t Ht. apply ho_edges. intros a c Hac. apply H, elem_of_edges. eauto.
Qed.

(** The link of a child leads to its parent. *)
Lemma pwf_edges par up t a c : pwf par up t -> (a, c) ∈ edges_t t -> par c = Some a.
Proof.
  revert up. induction t as [b cs IH] using tree_ind'. intros up.
  rewrite pwf_T. intros [_ Hcs] Hac.
  apply elem_of_edges_T in Hac as (t & Ht & Hac).
  rewrite Forall_forall in Hcs, IH. specialize (Hcs t Ht).
  destruct Hac as [Hac|Hac].
  - injection Hac as -> ->. apply pwf_root in Hcs. exact Hcs.
  - apply (IH t Ht (Some b)); assumption.
Qed.

(** A link that is not the one of the root is a pair of the tree. *)
Lemma pwf_parent par up t x z :
  pwf par up t -> x ∈ nodes t -> par x = Some z ->
  (z, x) ∈ edges_t t \/ (x = root t /\ up = Some z).
Proof.
  revert up. induction t as [b cs IH] using tree_ind'. intros up.
  rewrite pwf_T, nodes_T. intros [Hb Hcs] Hx Hz.
  apply elem_of_cons in Hx as [->|Hx]; [right; split; [reflexivity|congruence]|].
  left. apply elem_of_fnodes in Hx as (t & Ht & Hx).
  rewrite Forall_forall in Hcs, IH. apply elem_of_edges_T. exists t.
  split; [exact Ht|].
  destruct (IH t Ht (Some b) (Hcs t Ht) Hx Hz) as [H|[-> H]]; [auto|].
  injection H as ->. auto.
Qed.

Lemma pchain_snoc par x l a up :
  pchain par x l (Some a) -> par a = up -> pchain par x (l ++ [a]) up.
Proof.
  revert x. induction l as [|b l IH]; intros x; cbn.
  - auto.
  - intros [Hx H] Ha. split; [exact Hx|]. apply IH; assumption.
Qed.

(** The links lead from every node of the tree to the root, through nodes of
    the tree, each once. *)
Lemma pwf_path par up t x :
  pwf par up t -> NoDup (nodes t) -> x ∈ nodes t ->
  exists l, pchain par x l up /\ NoDup (x :: l)
            /\ forall b, b ∈ x :: l -> b ∈ nodes t.
Proof.
  revert up. induction t as [b cs IH] using tree_ind'. intros up.
  rewrite pwf_T, nodes_T. intros [Hb Hcs] Hnd Hx.
  apply NoDup_cons in Hnd as [Hbn Hnd].
  apply elem_of_cons in Hx as [->|Hx].
  - exists []. cbn. split; [exact Hb|]. split; [apply NoDup_singleton|].
    intros c Hc. apply list_elem_of_singleton in Hc. subst c. left.
  - apply elem_of_fnodes in Hx as (t & Ht & Hx).
    rewrite Forall_forall in Hcs, IH.
    assert (Hsub : forall c, c ∈ nodes t -> c ∈ fnodes cs)
      by (intros c Hc; apply elem_of_fnodes; eauto).
    assert (Hndt : NoDup (nodes t)).
    { clear -Hnd Ht. induction cs as [|c cs IHcs]; [inversion Ht|].
      rewrite fnodes_cons in Hnd. apply NoDup_app in Hnd as (H1 & _ & H2).
      apply elem_of_cons in Ht as [->|Ht]; auto. }
    destruct (IH t Ht (Some b) (Hcs t Ht) Hndt Hx) as (l & Hl & Hndl & Hin).
    exists (l ++ [b]). split; [apply pchain_snoc; assumption|]. split.
    + change (NoDup ((x :: l) ++ [b])). apply NoDup_app.
      split; [exact Hndl|]. split; [|apply NoDup_singleton].
      intros c Hc Hcb. apply list_elem_of_singleton in Hcb. subst c.
      apply Hbn, Hsub, Hin, Hc.
    + intros c Hc. change (c ∈ (x :: l) ++ [b]) in Hc.
      apply elem_of_app in Hc as [Hc|Hc].
      * right. apply Hsub, Hin, Hc.
      * apply list_elem_of_singleton in Hc. subst c. left.
Qed.

Lemma NoDup_fnodes_tree f t : NoDup (fnodes f) -> t ∈ f -> NoDup (nodes t).
Proof.
  induction f as [|c f IH]; [inversion 2|].
  rewrite fnodes_cons. intros Hnd Ht. apply NoDup_app in Hnd as (H1 & _ & H2).
  apply elem_of_cons in Ht as [->|Ht]; auto.
Qed.

Section Forest.
Variables (par : addr -> ptr) (f : list tree).
Hypothesis Hpwf : Forall (pwf par None) f.
Hypothesis Hnd : NoDup (fnodes f).

Lemma pwf_forest_edges a c : (a, c) ∈ edges f -> par c = Some a.
Proof.
  intros H. apply elem_of_edges in H as (t & Ht & H).
  rewrite Forall_forall in Hpwf. eapply pwf_edges; [apply (Hpwf t Ht)|exact H].
Qed.

Lemma pwf_forest_parent x z : x ∈ fnodes f -> par x = Some z -> (z, x) ∈ edges f.
Proof.
  intros Hx Hz. apply elem_of_fnodes in Hx as (t & Ht & Hx).
  rewrite Forall_forall in Hpwf.
  destruct (pwf_parent par None t x z (Hpwf t Ht) Hx Hz) as [H|[_ H]];
    [|discriminate].
  apply elem_of_edges. eauto.
Qed.

Lemma pwf_forest_path x :
  x ∈ fnodes f ->
  exists l, pchain par x l None /\ NoDup (x :: l)
            /\ forall b, b ∈ x :: l -> b ∈ fnodes f.
Proof.
  intros Hx. apply elem_of_fnodes in Hx as (t & Ht & Hx).
  rewrite Forall_forall in Hpwf.
  destruct (pwf_path par None t x (Hpwf t Ht) (NoDup_fnodes_tree f t Hnd Ht) Hx)
    as (l & Hl & Hndl & Hin).
  exists l. split; [exact Hl|]. split; [exact Hndl|].
  intros b Hb. apply elem_of_fnodes. eauto.
Qed.

Lemma edges_child_in a c : (a, c) ∈ edges f -> c ∈ fnodes f.
Proof.
  intros H. apply elem_of_edges in H as (t & Ht & H). apply elem_of_fnodes.
  exists t. split; [exact Ht|]. clear Ht.
  induction t as [b cs IH] using tree_ind'.
  apply elem_of_edges_T in H as (t & Ht & H). rewrite nodes_T. right.
  apply elem_of_fnodes. exists t. split; [exact Ht|].
  rewrite Forall_forall in IH.
  destruct H as [H|H]; [injection H as -> ->; apply root_in_nodes|].
  apply (IH t Ht H).
Qed.

Lemma edges_irrefl a : (a, a) ∉ edges f.
Proof.
  intros H. pose proof (pwf_forest_edges a a H) as Hp.
  destruct (pwf_forest_path a (edges_child_in a a H)) as (l & Hl & Hndl & _).
  destruct l as [|b l]; cbn in Hl; [congruence|].
  destruct Hl as [Hb _]. assert (b = a) by congruence. subst b.
  apply NoDup_cons in Hndl as [Hn _]. apply Hn. left.
Qed.

End Forest.

(** The keys of [l] when two nodes swap their keys. *)
Lemma map_swap_perm (k k' : addr -> Z) (l : list addr) (y z : addr) :
  NoDup l -> y ∈ l -> z ∈ l -> y <> z ->
  k' y = k z -> k' z = k y -> (forall b, b <> y -> b <> z -> k' b = k b) ->
  map k' l ≡ₚ map k l.
Proof.
  intros Hnd Hy Hz Hyz Ey Ez Eo.
  apply elem_of_Permutation in Hy as (l1 & H1).
  assert (Hz1 : z ∈ l1).
  { rewrite H1 in Hz. apply elem_of_cons in Hz as [->|Hz]; [congruence|exact Hz]. }
  apply elem_of_Permutation in Hz1 as (l2 & H2).
  rewrite H2 in H1. rewrite H1 in Hnd.
  apply NoDup_cons in Hnd as [Hy2 Hnd]. apply NoDup_cons in Hnd as [Hz2 _].
  rewrite H1. cbn [map]. rewrite Ey, Ez, perm_swap. do 2 constructor.
  erewrite map_ext_in; [reflexivity|]. intros b Hb. apply list_elem_of_In in Hb.
  apply Eo; intros ->; [apply Hy2; right; exact Hb|apply Hz2; exact Hb].
Qed.

(** The keys of [l] when one node changes its key. *)
Lemma map_set_perm (k k' : addr -> Z) (l : list addr) (x : addr) :
  NoDup l -> x ∈ l -> (forall b, b <> x -> k' b = k b) ->
  exists rest, map k l ≡ₚ k x :: rest /\ map k' l ≡ₚ k' x :: rest.
Proof.
  intros Hnd Hx Eo. apply elem_of_Permutation in Hx as (l1 & H1).
  rewrite H1 in Hnd. apply NoDup_cons in Hnd as [Hx1 _].
  exists (map k l1). rewrite H1. cbn [map]. split; [reflexivity|]. constructor.
  erewrite map_ext_in; [reflexivity|]. intros b Hb. apply list_elem_of_In in Hb.
  apply Eo. intros ->. exact (Hx1 Hb).
Qed.

(** ** Binomial heap: [decrease_key] *)

Section BheapDecreaseKey.
Import Bheap.
Implicit Types (s : state) (F : list tree).

(** Heap order but for the pair above [y], with the parent of [y] under the
    children of [y]: what the loop of [decrease_key] keeps while the key goes
    up. *)
Definition sift (E : list (addr * addr)) (par : addr -> ptr) (k : addr -> Z)
    (y : addr) : Prop :=
  (forall a c, (a, c) ∈ E -> c <> y -> k a <= k c)
  /\ (forall z c, par y = Some z -> (y, c) ∈ E -> k z <= k c).

(** Nothing but keys and parent links differs. *)
Definition same_shape s s' : Prop :=
  brk s' = brk s /\ head s' = head s /\ _size s' = _size s
  /\ forall b, child (mem s' b) = child (mem s b)
               /\ sibling (mem s' b) = sibling (mem s b)
               /\ degree (mem s' b) = degree (mem s b).

Lemma binv_same_shape s s' F :
  binv s F -> same_shape s s' -> Forall (ho (keyf s')) F -> binv s' F.
Proof.
  intros ((Hl & Hw & _) & Hnd & Hbrk & Hsz & Hlt) (Eb & Eh & Es & Em) Hho.
  unfold binv, forest_at. rewrite Eb, Eh, Es.
  split; [|auto]. split; [|split; [|exact Hho]].
  - eapply lseg_frame; [|exact Hl]. intros b _. apply Em.
  - eapply wf_forest_frame; [| |exact Hw]; intros b _; apply Em.
Qed.

Definition dk_inv s F (x : addr) (nk : Z) (R : list Z)
    (n : nat) (y : ptr) (s' : state) : Prop :=
  exists ya rest,
    y = Some ya /\ n = length rest
    /\ pchain (fun a => p (mem s a)) ya rest None
    /\ NoDup (ya :: rest) /\ x ∉ rest
    /\ (forall b, b ∈ ya :: rest -> b ∈ fnodes F)
    /\ p (mem s' x) = p (mem s ya)
    /\ (forall b, b <> x -> p (mem s' b) = p (mem s b))
    /\ same_shape s s'
    /\ key (mem s' ya) = nk
    /\ sift (edges F) (fun a => p (mem s a)) (keyf s') ya
    /\ map (keyf s') (fnodes F) ≡ₚ nk :: R.

Definition dk_post s F (x : addr) (nk : Z) (R : list Z)
    (y : ptr) (s' : state) : Prop :=
  exists ya,
    y = Some ya /\ ya ∈ fnodes F
    /\ p (mem s' x) = p (mem s ya)
    /\ (forall b, b <> x -> p (mem s' b) = p (mem s b))
    /\ same_shape s s'
    /\ key (mem s' ya) = nk
    /\ (forall a c, (a, c) ∈ edges F -> keyf s' a <= keyf s' c)
    /\ map (keyf s') (fnodes F) ≡ₚ nk :: R.

Lemma dk_round s F (x : addr) (nk : Z) (R : list Z) n y s' :
  Forall (pwf (fun a => p (mem s a)) None) F -> NoDup (fnodes F) ->
  dk_inv s F x nk R n y s' ->
  wp (z <- load p (Some x) ;;
      if is_null z then ret (inr y)
      else
        lt <- compare_less y z ;;
        if negb lt then ret (inr y)
        else
          ky <- load key y ;;
          kz <- load key z ;;
          store y (set_key kz) ;;
          store z (set_key ky) ;;
          let y' := z in
          yp <- load p y' ;;
          store (Some x) (set_p yp) ;;
          ret (inl y'))
     (fun r s'' => match r with
                   | inl y' => exists n', (n' < n)%nat /\ dk_inv s F x nk R n' y' s''
                   | inr y' => dk_post s F x nk R y' s''
                   end) s'.
Proof.
  intros Hpwf Hnd (ya & rest & -> & -> & Hch & Hndc & Hx & Hin & Hpx & Hpo & Hsh
                   & Hk & [Hs1 Hs2] & Hperm).
  set (par := fun a => p (mem s a)) in *.
  bh_step. bh_step. rewrite Hpx.
  destruct rest as [|z rest]; cbn [pchain] in Hch.
  - (* [ya] is a root *)
    fold (par ya). rewrite Hch. bh_simpl. bh_step.
    exists ya. split; [reflexivity|]. split; [apply Hin; left|].
    split; [exact Hpx|]. split; [exact Hpo|]. split; [exact Hsh|].
    split; [exact Hk|]. split; [|exact Hperm].
    intros a c Hac. destruct (Nat.eq_dec c ya) as [->|Hc]; [|auto].
    pose proof (pwf_forest_edges par F Hpwf a ya Hac) as Hp. congruence.
  - destruct Hch as [Hya Hch]. fold (par ya). rewrite Hya. bh_simpl.
    unfold compare_less. bh_go.
    assert (Hyz : ya <> z).
    { intros ->. apply NoDup_cons in Hndc as [H _]. apply H. left. }
    assert (Hzx : z <> x) by (intros ->; apply Hx; left).
    destruct (Z.ltb_spec (key (mem s' ya)) (key (mem s' z))) as [Hlt|Hge]; bh_simpl.
    + (* the keys of [ya] and [z] swap *)
      bh_go. rewrite Hpo by exact Hzx.
      exists (length rest). split; [cbn; lia|].
      exists z, rest. split; [reflexivity|]. split; [reflexivity|].
      split; [exact Hch|].
      apply NoDup_cons in Hndc as [Hya' Hndc].
      split; [exact Hndc|].
      split; [intros H; apply Hx; right; exact H|].
      split; [intros b Hb; apply Hin; right; exact Hb|].
      split; [bh_simpl; reflexivity|].
      split; [intros b Hb; bh_simpl; apply Hpo, Hb|].
      split.
      { destruct Hsh as (? & ? & ? & Hm). unfold same_shape. bh_simpl.
        split; [assumption|]. split; [assumption|]. split; [assumption|].
        intros b. bh_simpl. apply Hm. }
      split; [bh_simpl; exact Hk|].
      set (k' := keyf (with_mem (upd x (set_p (p (mem s z))))
                   (with_mem (upd z (set_key (key (mem s' ya))))
                      (with_mem (upd ya (set_key (key (mem s' z)))) s')))).
      assert (Ky : k' ya = key (mem s' z)).
      { unfold k', keyf. bh_simpl. reflexivity. }
      assert (Kz : k' z = nk).
      { unfold k', keyf. bh_simpl. exact Hk. }
      assert (Ko : forall b, b <> ya -> b <> z -> k' b = keyf s' b).
      { intros b H1 H2. unfold k', keyf. bh_simpl. reflexivity. }
      assert (Hzy : (z, ya) ∈ edges F).
      { apply (pwf_forest_parent par F Hpwf); [apply Hin; left|exact Hya]. }
      split; [split|].
      * (* pairs that do not end in [z] *)
        intros a c Hac Hcz. destruct (Nat.eq_dec c ya) as [->|Hcy].
        -- pose proof (pwf_forest_edges par F Hpwf a ya Hac) as Hp.
           assert (a = z) by congruence. subst a. rewrite Ky, Kz. lia.
        -- rewrite (Ko c) by assumption.
           destruct (Nat.eq_dec a z) as [->|Haz].
           ++ rewrite Kz. specialize (Hs1 z c Hac Hcy). unfold keyf in Hs1 at 1. lia.
           ++ destruct (Nat.eq_dec a ya) as [->|Hay].
              ** rewrite Ky. apply (Hs2 z c Hya Hac).
              ** rewrite (Ko a) by assumption. apply Hs1; assumption.
      * (* the parent of [z] and the children of [z] *)
        intros pz c Hpz Hzc. change (par z = Some pz) in Hpz.
        assert (Hrest : exists rest', rest = pz :: rest').
        { destruct rest as [|b rest']; cbn [pchain] in Hch; [congruence|].
          destruct Hch as [Hb _]. exists rest'. congruence. }
        destruct Hrest as (rest' & ->).
        assert (Hpzz : pz <> z).
        { intros ->. apply NoDup_cons in Hndc as [H _]. apply H. left. }
        assert (Hpzy : pz <> ya).
        { intros ->. apply Hya'. right. left. }
        assert (Hpzedge : (pz, z) ∈ edges F).
        { apply (pwf_forest_parent par F Hpwf); [apply Hin; right; left|exact Hpz]. }
        rewrite (Ko pz) by assumption.
        pose proof (Hs1 pz z Hpzedge ltac:(congruence)) as Hle.
        destruct (Nat.eq_dec c ya) as [->|Hcy]; [rewrite Ky; exact Hle|].
        destruct (Nat.eq_dec c z) as [->|Hcz].
        { exfalso. exact (edges_irrefl par F Hpwf Hnd z Hzc). }
        rewrite (Ko c) by assumption.
        pose proof (Hs1 z c Hzc Hcy). lia.
      * rewrite <- Hperm. apply (map_swap_perm (keyf s') k' _ ya z); auto.
        -- apply Hin. left.
        -- apply Hin. right. left.
        -- rewrite Kz. symmetry. exact Hk.
    + (* the key of [z] is not above the one of [ya] *)
      bh_step.
      exists ya. split; [reflexivity|]. split; [apply Hin; left|].
      split; [exact Hpx|]. split; [exact Hpo|]. split; [exact Hsh|].
      split; [exact Hk|]. split; [|exact Hperm].
      intros a c Hac. destruct (Nat.eq_dec c ya) as [->|Hc]; [|auto].
      pose proof (pwf_forest_edges par F Hpwf a ya Hac) as Hp.
      assert (a = z) by congruence. subst a. unfold keyf. lia.
Qed.

Lemma bh_decrease_key_spec fuel s F (x : addr) (nk : Z) :
  binv s F -> Forall (pwf (fun a => p (mem s a)) None) F ->
  x ∈ fnodes F -> nk <= key (mem s x) -> (length (fnodes F) < fuel)%nat ->
  wp (decrease_key fuel (Some x) nk)
     (fun y s' => exists ya R,
        y = Some ya /\ ya ∈ fnodes F /\ binv s' F /\ key (mem s' ya) = nk
        /\ keys_in s F ≡ₚ key (mem s x) :: R /\ keys_in s' F ≡ₚ nk :: R
        /\ p (mem s' x) = p (mem s ya)
        /\ (forall b, b <> x -> p (mem s' b) = p (mem s b))) s.
Proof.
  intros Hinv Hpwf Hx Hle Hfuel. pose proof Hinv as ((_ & _ & Hho) & Hnd & _).
  set (par := fun a => p (mem s a)) in *.
  destruct (pwf_forest_path par F Hpwf Hnd x Hx) as (l & Hl & Hndl & Hin).
  unfold decrease_key. bh_go.
  destruct (Z.ltb_spec (key (mem s x)) nk) as [?|_]; [lia|].
  bh_step. bh_step.
  set (s1 := with_mem (upd x (set_key nk)) s).
  assert (K1 : forall b, b <> x -> keyf s1 b = keyf s b).
  { intros b Hb. unfold s1, keyf. bh_simpl. reflexivity. }
  assert (K1x : keyf s1 x = nk) by (unfold s1, keyf; bh_simpl; reflexivity).
  destruct (map_set_perm (keyf s) (keyf s1) (fnodes F) x Hnd Hx K1)
    as (R & HR & HR1).
  rewrite K1x in HR1.
  assert (Hlen : (length l < fuel)%nat).
  { assert (H : (length (x :: l) <= length (fnodes F))%nat).
    { apply submseteq_length, NoDup_submseteq; [exact Hndl|]. exact Hin. }
    cbn [length] in H. lia. }
  eapply wp_mono.
  { apply (wp_loop (dk_inv s F x nk R) (dk_post s F x nk R)) with (n := length l);
      [|clear Hlen|exact Hlen].
    - intros n y s' Hi. apply (dk_round s F x nk R n y s' Hpwf Hnd Hi).
    - exists x, l. split; [reflexivity|]. split; [reflexivity|].
      split; [exact Hl|]. split; [exact Hndl|].
      split; [apply NoDup_cons in Hndl; tauto|]. split; [exact Hin|].
      split; [unfold s1; bh_simpl; reflexivity|].
      split; [intros b _; unfold s1; bh_simpl; reflexivity|].
      split.
      { unfold same_shape, s1. bh_simpl. split; [reflexivity|].
        split; [reflexivity|]. split; [reflexivity|]. intros b. bh_simpl. auto. }
      split; [exact K1x|]. split; [|exact HR1].
      assert (Hho' : forall a c, (a, c) ∈ edges F -> keyf s a <= keyf s c)
        by (apply ho_forest_edges, Hho).
      split.
      + intros a c Hac Hc. rewrite (K1 c Hc). specialize (Hho' a c Hac).
        destruct (Nat.eq_dec a x) as [->|Ha]; [rewrite K1x; unfold keyf in *; lia|].
        rewrite (K1 a Ha). exact Hho'.
      + intros z c Hz Hxc. change (par x = Some z) in Hz.
        assert (Hzx : z <> x).
        { intros ->. destruct l as [|b l']; cbn [pchain] in Hl; [congruence|].
          destruct Hl as [Hb _]. assert (b = x) by congruence. subst b.
          apply NoDup_cons in Hndl as [H _]. apply H. left. }
        assert (Hcx : c <> x).
        { intros ->. exact (edges_irrefl par F Hpwf Hnd x Hxc). }
        rewrite (K1 z Hzx), (K1 c Hcx).
        pose proof (Hho' z x (pwf_forest_parent par F Hpwf x z Hx Hz)).
        pose proof (Hho' x c Hxc). lia. }
  cbv beta. intros y s' (ya & -> & Hya & Hpx & Hpo & Hsh & Hk & Hord & Hperm).
  exists ya, R. split; [reflexivity|]. split; [exact Hya|].
  split; [apply (binv_same_shape s s' F Hinv Hsh), ho_forest_edges, Hord|].
  split; [exact Hk|]. split; [exact HR|]. split; [exact Hperm|].
  split; [exact Hpx|exact Hpo].
Qed.

End BheapDecreaseKey.

(** The tree of [bheap_1234_state]. *)
Definition bheap_1234_tree : list tree :=
  [T 0%nat [T 2%nat [T 3%nat []]; T 1%nat []]].

(** X7.  [decrease_key(x, new_key)] on a binomial heap whose parent links
    agree with its trees, for a key not above the one of [x]: the call
    returns, the trees are the same and heap-ordered again, and the keys are
    those of before with [new_key] for the key of [x].  The handle is left on
    the node [y] that holds [new_key] now, and the parent link of the node it
    was on is the one [y] had: unless [y] is that node, the links no longer
    agree with the trees. *)
Theorem bheap_decrease_key_sifts_up (s : Bheap.state) (F : list tree)
    (x : addr) (new_key : Z) (fuel : nat) :
  binv s F ->
  Forall (pwf (fun a => Bheap.p (Bheap.mem s a)) None) F ->
  x ∈ fnodes F -> new_key <= Bheap.key (Bheap.mem s x) ->
  (length (fnodes F) < fuel)%nat ->
  exists y s' rest,
    Bheap.decrease_key fuel (Some x) new_key s = Ok (Some y) s'
    /\ binv s' F /\ y ∈ fnodes F
    /\ Bheap.key (Bheap.mem s' y) = new_key
    /\ keys_in s F ≡ₚ Bheap.key (Bheap.mem s x) :: rest
    /\ keys_in s' F ≡ₚ new_key :: rest
    /\ Bheap.p (Bheap.mem s' x) = Bheap.p (Bheap.mem s y)
    /\ (forall b, b <> x -> Bheap.p (Bheap.mem s' b) = Bheap.p (Bheap.mem s b)).
Proof.
  intros Hinv Hpwf Hx Hle Hfuel.
  destruct (wp_ok _ _ _ (bh_decrease_key_spec fuel s F x new_key Hinv Hpwf Hx Hle Hfuel))
    as (y & s' & E & ya & R & -> & H).
  exists ya, s', R. split; [exact E|]. tauto.
Qed.

Lemma bheap_decrease_key_sifts_up_witness :
  exists y s' rest,
    Bheap.decrease_key 8 (Some 3%nat) 0 bheap_1234_state = Ok (Some y) s'
    /\ binv s' bheap_1234_tree /\ y ∈ fnodes bheap_1234_tree
    /\ Bheap.key (Bheap.mem s' y) = 0
    /\ keys_in bheap_1234_state bheap_1234_tree
       ≡ₚ Bheap.key (Bheap.mem bheap_1234_state 3%nat) :: rest
    /\ keys_in s' bheap_1234_tree ≡ₚ 0 :: rest
    /\ Bheap.p (Bheap.mem s' 3%nat) = Bheap.p (Bheap.mem bheap_1234_state y)
    /\ (forall b, b <> 3%nat ->
          Bheap.p (Bheap.mem s' b) = Bheap.p (Bheap.mem bheap_1234_state b)).
Proof.
  apply (bheap_decrease_key_sifts_up bheap_1234_state bheap_1234_tree 3%nat 0 8).
  - unfold binv, forest_at, bheap_1234_tree.
    split; [split; [|split]|split; [|split; [|split]]].
    + cbn [map root lseg]. repeat split.
    + repeat first [ split | constructor ].
    + repeat first [ split | constructor ]; vm_compute; discriminate.
    + vm_compute. repeat constructor; set_solver.
    + intros a Ha. vm_compute in Ha.
      repeat (apply elem_of_cons in Ha as [->|Ha]); try (vm_compute; lia).
      inversion Ha.
    + reflexivity.
    + vm_compute. reflexivity.
  - vm_compute. repeat constructor.
  - vm_compute. set_solver.
  - vm_compute. discriminate.
  - vm_compute. lia.
Defined.

(** ** Families: every node with the list of its children *)

Fixpoint fams (t : tree) : list (addr * list addr) :=
  match t with
  | T a cs => (a, map root cs) :: flat_map fams cs
  end.

Definition ffams (f : list tree) : list (addr * list addr) := flat_map fams f.

(** The children of all families. *)
Definition fkids (fm : list (addr * list addr)) : list addr :=
  flat_map snd fm.

Lemma fams_T a cs : fams (T a cs) = (a, map root cs) :: ffams cs.
Proof. reflexivity. Qed.

Lemma ffams_app f1 f2 : ffams (f1 ++ f2) = ffams f1 ++ ffams f2.
Proof. apply flat_map_app. Qed.

Lemma ffams_cons t f : ffams (t :: f) = fams t ++ ffams f.
Proof. reflexivity. Qed.

Lemma fkids_app fm1 fm2 : fkids (fm1 ++ fm2) = fkids fm1 ++ fkids fm2.
Proof. apply flat_map_app. Qed.

Lemma fkids_cons a l fm : fkids ((a, l) :: fm) = l ++ fkids fm.
Proof. reflexivity. Qed.

Lemma elem_of_ffams e f : e ∈ ffams f <-> exists t, t ∈ f /\ e ∈ fams t.
Proof.
  unfold ffams. induction f as [|t f IH]; cbn [flat_map].
  - split; [inversion 1|]. intros (t & Ht & _). inversion Ht.
  - rewrite elem_of_app, IH. split.
    + intros [H|(t' & Ht' & H)]; [exists t; split; [left|exact H]|].
      exists t'. split; [right; exact Ht'|exact H].
    + intros (t' & Ht' & H). apply elem_of_cons in Ht' as [->|Ht']; eauto.
Qed.

(** The nodes of a tree are the heads of its families. *)
Lemma fams_nodes t : map fst (fams t) = nodes t.
Proof.
  induction t as [a cs IH] using tree_ind'. rewrite fams_T, nodes_T. cbn [map fst].
  f_equal. induction cs as [|c cs IHcs]; [reflexivity|].
  apply Forall_cons in IH as [IHc IH].
  rewrite ffams_cons, fnodes_cons, map_app, IHc, IHcs by exact IH. reflexivity.
Qed.

Lemma ffams_nodes f : map fst (ffams f) = fnodes f.
Proof.
  induction f as [|t f IH]; [reflexivity|].
  rewrite ffams_cons, fnodes_cons, map_app, fams_nodes, IH. reflexivity.
Qed.

(** The nodes of a tree under its root are the children of its families. *)
Lemma fams_kids t : fkids (fams t) ≡ₚ fnodes (kids t).
Proof.
  induction t as [a cs IH] using tree_ind'. rewrite fams_T, fkids_cons. cbn [kids].
  induction cs as [|[c ccs] cs IHcs]; [reflexivity|].
  apply Forall_cons in IH as [IHc IH]. cbn [kids] in IHc.
  rewrite ffams_cons, fkids_app, fnodes_cons, nodes_T. cbn [map root app].
  constructor. rewrite IHc. rewrite <- (IHcs IH).
  rewrite !app_assoc. apply Permutation_app_tail, Permutation_app_comm.
Qed.

Lemma ffams_kids f : fkids (ffams f) ≡ₚ inner f.
Proof.
  induction f as [|t f IH]; [reflexivity|].
  rewrite ffams_cons, fkids_app, fams_kids, IH. reflexivity.
Qed.

(** The roots and the children of the families are the nodes, each once. *)
Lemma ffams_NoDup f :
  NoDup (fnodes f) -> NoDup (map root f ++ fkids (ffams f)).
Proof. rewrite ffams_kids, <- fnodes_roots_inner. auto. Qed.

(** The pairs of a tree are those of a node and a child of its family. *)
Lemma elem_of_edges_fams a c t :
  (a, c) ∈ edges_t t <-> exists l, (a, l) ∈ fams t /\ c ∈ l.
Proof.
  induction t as [b cs IH] using tree_ind'. rewrite elem_of_edges_T, fams_T.
  rewrite Forall_forall in IH. split.
  - intros (t & Ht & [H|H]).
    + injection H as -> ->. exists (map root cs). split; [left|].
      apply list_elem_of_fmap. eauto.
    + apply (IH t Ht) in H as (l & Hl & Hc). exists l. split; [|exact Hc].
      right. apply elem_of_ffams. eauto.
  - intros (l & Hl & Hc). apply elem_of_cons in Hl as [Hl|Hl].
    + injection Hl as -> ->. apply list_elem_of_fmap in Hc as (t & -> & Ht).
      exists t. auto.
    + apply elem_of_ffams in Hl as (t & Ht & Hl). exists t. split; [exact Ht|].
      right. apply (IH t Ht). eauto.
Qed.

Lemma elem_of_edges_ffams a c f :
  (a, c) ∈ edges f <-> exists l, (a, l) ∈ ffams f /\ c ∈ l.
Proof.
  rewrite elem_of_edges. split.
  - intros (t & Ht & H). apply elem_of_edges_fams in H as (l & Hl & Hc).
    exists l. split; [apply elem_of_ffams; eauto|exact Hc].
  - intros (l & Hl & Hc). apply elem_of_ffams in Hl as (t & Ht & Hl).
    exists t. split; [exact Ht|]. apply elem_of_edges_fams. eauto.
Qed.

(** Parent links that are right along every pair are right in the tree. *)
Lemma pwf_of_edges par up t :
  par (root t) = up -> (forall a c, (a, c) ∈ edges_t t -> par c = Some a) ->
  pwf par up t.
Proof.
  revert up. induction t as [b cs IH] using tree_ind'. intros up Hr He.
  rewrite pwf_T. split; [exact Hr|]. apply Forall_forall. intros t Ht.
  rewrite Forall_forall in IH. apply (IH t Ht).
  - apply He, elem_of_edges_T. eauto.
  - intros a c Hac. apply He, elem_of_edges_T. eauto.
Qed.

Lemma pwf_forest_of_edges par f :
  (forall r, r ∈ map root f -> par r = None) ->
  (forall a c, (a, c) ∈ edges f -> par c = Some a) ->
  Forall (pwf par None) f.
Proof.
  intros Hr He. apply Forall_forall. intros t Ht. apply pwf_of_edges.
  - apply Hr, list_elem_of_fmap. eauto.
  - intros a c Hac. apply He, elem_of_edges. eauto.
Qed.

Lemma pwf_forest_roots par f r :
  Forall (pwf par None) f -> r ∈ map root f -> par r = None.
Proof.
  intros H Hr. apply list_elem_of_fmap in Hr as (t & -> & Ht).
  rewrite Forall_forall in H. apply pwf_root, H, Ht.
Qed.

(** ** A tree around a hole *)

(** One level: a node, its children before the hole and after it. *)
Definition level : Type := addr * list tree * list tree.

(** The tree [t] in the hole of the levels [c], the innermost first. *)
Fixpoint plug (c : list level) (t : tree) : tree :=
  match c with
  | [] => t
  | (a, pre, post) :: c' => plug c' (T a (pre ++ t :: post))
  end.

(** The families of the levels around a hole with the root [r]. *)
Fixpoint cfams (c : list level) (r : addr) : list (addr * list addr) :=
  match c with
  | [] => []
  | (a, pre, post) :: c' =>
      (a, map root pre ++ r :: map root post)
        :: ffams pre ++ ffams post ++ cfams c' a
  end.

(** The parent of the hole. *)
Definition hole_parent (c : list level) : ptr :=
  match c with
  | [] => None
  | (a, _, _) :: _ => Some a
  end.

Lemma plug_app c1 c2 t : plug (c1 ++ c2) t = plug c2 (plug c1 t).
Proof.
  revert t. induction c1 as [|[[a pre] post] c1 IH]; intros t; [reflexivity|].
  cbn [app plug]. apply IH.
Qed.

Lemma root_plug c t t' : root t' = root t -> root (plug c t') = root (plug c t).
Proof.
  revert t t'. induction c as [|[[a pre] post] c IH]; intros t t' H; [exact H|].
  cbn [plug]. apply IH. reflexivity.
Qed.

Lemma fams_plug c t : fams (plug c t) ≡ₚ fams t ++ cfams c (root t).
Proof.
  revert t. induction c as [|[[a pre] post] c IH]; intros t; cbn [plug cfams].
  - rewrite app_nil_r. reflexivity.
  - rewrite IH. cbn [root]. rewrite fams_T, map_app, ffams_app, ffams_cons.
    cbn [map app]. rewrite <- (Permutation_middle (fams t)). constructor.
    rewrite <- !app_assoc. rewrite (app_assoc (ffams pre) (fams t)).
    rewrite (Permutation_app_comm (ffams pre) (fams t)).
    rewrite <- app_assoc. reflexivity.
Qed.

(** Every node of a tree is the root of a tree in a hole. *)
Lemma focus t x : x ∈ nodes t -> exists c cs, t = plug c (T x cs).
Proof.
  induction t as [a cs0 IH] using tree_ind'. rewrite nodes_T. intros Hx.
  apply elem_of_cons in Hx as [->|Hx]; [exists [], cs0; reflexivity|].
  apply elem_of_fnodes in Hx as (t & Ht & Hx). rewrite Forall_forall in IH.
  destruct (IH t Ht Hx) as (c & cs & ->).
  apply list_elem_of_split in Ht as (pre & post & ->).
  exists (c ++ [(a, pre, post)]), cs. rewrite plug_app. reflexivity.
Qed.

Lemma focus_forest f x :
  x ∈ fnodes f -> exists f1 c cs f2, f = f1 ++ plug c (T x cs) :: f2.
Proof.
  intros Hx. apply elem_of_fnodes in Hx as (t & Ht & Hx).
  destruct (focus t x Hx) as (c & cs & ->).
  apply list_elem_of_split in Ht as (f1 & f2 & ->). eauto.
Qed.

Lemma pwf_plug_inv par up c t : pwf par up (plug c t) -> exists u, pwf par u t.
Proof.
  revert t. induction c as [|[[a pre] post] c IH]; intros t H; cbn [plug] in H.
  - eauto.
  - apply IH in H as (u & H). apply pwf_T in H as [_ H].
    rewrite Forall_app, Forall_cons in H. destruct H as (_ & H & _). eauto.
Qed.

(** The link of the root of the tree in the hole. *)
Lemma pwf_plug_hole par up c t :
  pwf par up (plug c t) ->
  par (root t) = match c with [] => up | _ => hole_parent c end.
Proof.
  destruct c as [|[[a pre] post] c]; intros H; cbn [plug] in H.
  - apply pwf_root, H.
  - cbn [hole_parent]. apply pwf_plug_inv in H as (u & H).
    apply pwf_T in H as [_ H].
    rewrite Forall_app, Forall_cons in H. destruct H as (_ & H & _).
    apply pwf_root, H.
Qed.

(** ** Fibonacci heap: [cut] *)

Section FibCutRing.
Import FibHeap.
Implicit Types (m : addr -> FibHeapNode) (s : state) (l : list addr).

(** A family laid out in memory: the children are a ring that starts at the
    node's [child], and [degree] counts them. *)
Definition famok m (e : addr * list addr) : Prop :=
  degree (m e.1) = Z.of_nat (length e.2)
  /\ child (m e.1) = head e.2
  /\ is_ring m e.2.

Lemma fwf_ffams m f : Forall (fwf m) f <-> Forall (famok m) (ffams f).
Proof.
  induction f as [|t f IHf]; [cbn; split; constructor|].
  rewrite ffams_cons, Forall_cons, Forall_app, IHf.
  enough (fwf m t <-> Forall (famok m) (fams t)) by tauto. clear.
  induction t as [a cs IH] using tree_ind'.
  rewrite fwf_T, fams_T, Forall_cons. unfold famok at 1. cbn [fst snd].
  rewrite length_map.
  enough (Forall (fwf m) cs <-> Forall (famok m) (ffams cs)) by tauto.
  induction cs as [|c cs IHcs]; [cbn; split; constructor|].
  apply Forall_cons in IH as [IHc IH].
  rewrite ffams_cons, Forall_cons, Forall_app, IHc, (IHcs IH). reflexivity.
Qed.

Lemma famok_frame m m' (e : addr * list addr) :
  child (m' e.1) = child (m e.1) -> degree (m' e.1) = degree (m e.1) ->
  (forall b, b ∈ e.2 -> right (m' b) = right (m b) /\ left (m' b) = left (m b)) ->
  famok m e -> famok m' e.
Proof.
  intros Hc Hd Hlr (H1 & H2 & H3). unfold famok. rewrite Hc, Hd.
  split; [exact H1|]. split; [exact H2|]. eapply is_ring_frame; [|exact H3]. exact Hlr.
Qed.

(** The first part of [cut]: [x] leaves the ring of the children of [y]. *)
Lemma cut_detach_wp {A} s (x y : addr) l (k : M state A) (Q : A -> state -> Prop) :
  is_ring (mem s) (x :: l) -> NoDup (x :: l) ->
  (forall s',
     is_ring (mem s') l -> child (mem s' y) = head l ->
     degree (mem s' y) = decr64 (degree (mem s y)) ->
     p (mem s' x) = None -> mark (mem s' x) = false ->
     brk s' = brk s -> _size s' = _size s -> min s' = min s ->
     (forall b, key (mem s' b) = key (mem s b)) ->
     (forall b, b <> y -> child (mem s' b) = child (mem s b)
                          /\ degree (mem s' b) = degree (mem s b)) ->
     (forall b, b <> x -> p (mem s' b) = p (mem s b)
                          /\ mark (mem s' b) = mark (mem s b)) ->
     (forall b, b ∉ l -> right (mem s' b) = right (mem s b)
                         /\ left (mem s' b) = left (mem s b)) ->
     wp k Q s') ->
  wp (xr <- load right (Some x) ;;
      (if negb (ptr_eqb xr (Some x)) then
         store (Some y) (set_child xr) ;;
         xl <- load left (Some x) ;;
         store xr (set_left xl) ;;
         xl <- load left (Some x) ;;
         xr <- load right (Some x) ;;
         store xl (set_right xr)
       else
         store (Some y) (set_child None)) ;;
      yd <- load degree (Some y) ;;
      store (Some y) (set_degree (decr64 yd)) ;;
      store (Some x) (set_p None) ;;
      store (Some x) (set_mark false) ;;
      k) Q s.
Proof.
  intros Hring Hnd Hk. destruct l as [|a l].
  - apply is_ring_singleton in Hring as [Hr Hl].
    fh_go. rewrite Nat.eqb_refl. cbn [negb]. fh_go.
    apply Hk; cbn [mem with_mem brk _size min head]; try solve [upd_cases].
    all: try (intros b Hb; split; upd_cases).
  - pose proof (is_ring_right_first _ _ _ _ Hring) as Hxr.
    destruct (is_ring_last _ _ _ Hring) as [Hxl _]. rewrite last_cons_cons in Hxl.
    remember (List.last l a) as c eqn:Ec.
    assert (Hc : c ∈ a :: l) by (rewrite Ec; apply last_in).
    apply NoDup_cons in Hnd as [Hx Hnd].
    assert (Hxa : x <> a) by (intros ->; apply Hx; left).
    assert (Hxc : x <> c) by (intros ->; exact (Hx Hc)).
    fh_go. rewrite (proj2 (Nat.eqb_neq a x)) by congruence. cbn [negb]. fh_go.
    apply Hk; cbn [mem with_mem brk _size min head]; try solve [upd_cases].
    + apply (is_ring_unlink (mem s) _ x); [exact Hring|exact Hnd| | | |].
      * rewrite <- Ec. upd_cases.
      * rewrite <- Ec. upd_cases.
      * rewrite <- Ec. intros b Hb Hbc.
        assert (b <> x) by (intros ->; exact (Hx Hb)). upd_cases.
      * intros b Hb. assert (b <> x) by (intros ->; apply Hx; right; exact Hb).
        assert (b <> a).
        { intros ->. apply NoDup_cons in Hnd as [Hn _]. exact (Hn Hb). }
        upd_cases.
    + intros b Hb. split; upd_cases.
    + intros b Hb. split; upd_cases.
    + intros b Hb. assert (b <> a) by (intros ->; apply Hb; left).
      assert (b <> c) by (intros ->; exact (Hb Hc)). split; upd_cases.
Qed.

(** [cut(x, y)] on families: [x] leaves the family of [y] and joins the
    roots. *)
Lemma cut_flat s (x y : addr) Lpre Lpost Rest RL :
  Forall (famok (mem s)) ((y, Lpre ++ x :: Lpost) :: Rest) ->
  NoDup (RL ++ (Lpre ++ x :: Lpost) ++ fkids Rest) ->
  y ∉ map fst Rest ->
  RL <> [] -> is_ring (mem s) RL -> min s = head RL ->
  Z.of_nat (length (Lpre ++ x :: Lpost)) < two64 ->
  wp (cut (Some x) (Some y))
     (fun _ s' => exists RL',
        RL' ≡ₚ RL ++ [x] /\ is_ring (mem s') RL' /\ min s' = head RL'
        /\ Forall (famok (mem s')) ((y, Lpost ++ Lpre) :: Rest)
        /\ p (mem s' x) = None
        /\ (forall b, b <> x -> p (mem s' b) = p (mem s b))
        /\ (forall b, key (mem s' b) = key (mem s b))
        /\ brk s' = brk s /\ _size s' = _size s
        /\ (least s RL -> least s' RL')) s.
Proof.
  intros Hf Hnd Hy Hne Hring Hmin Hdeg.
  apply Forall_cons in Hf as [(Hd & Hc & Hr) Hrest]. cbn [fst snd] in *.
  apply (is_ring_rotate _ Lpre (x :: Lpost)) in Hr. cbn [app] in Hr.
  assert (Hnd' : NoDup (RL ++ (x :: Lpost ++ Lpre) ++ fkids Rest)).
  { assert (P : Lpre ++ x :: Lpost ≡ₚ x :: Lpost ++ Lpre).
    { rewrite <- Permutation_middle. constructor. apply Permutation_app_comm. }
    rewrite <- P. exact Hnd. }
  clear Hnd. remember (Lpost ++ Lpre) as L0 eqn:EL0.
  assert (Hlen : length (Lpre ++ x :: Lpost) = S (length L0)).
  { rewrite EL0, !length_app. cbn [length]. lia. }
  apply NoDup_app in Hnd' as (HndR & HRx & Hnd').
  apply NoDup_app in Hnd' as (HndL & HLk & Hndk).
  unfold cut. apply cut_detach_wp with (l := L0); [exact Hr|exact HndL|].
  intros s1 Hr1 Hc1 Hd1 Hp1 Hm1 Hb1 Hs1 Hmin1 Hk1 Hcd1 Hpm1 Hlr1.
  destruct RL as [|a0 l]; [contradiction|]. cbn [head] in Hmin.
  assert (HR0 : forall b, b ∈ a0 :: l -> b ∉ L0).
  { intros b Hb Hb'. apply (HRx b Hb). apply elem_of_app. left. right. exact Hb'. }
  assert (HxR : x ∉ a0 :: l).
  { intros Hx. apply (HRx x Hx). apply elem_of_app. left. left. }
  eapply wp_mono.
  { apply (insert_node_spec s1 x a0 l).
    - rewrite Hmin1. exact Hmin.
    - eapply is_ring_frame; [|exact Hring]. intros b Hb. apply Hlr1, HR0, Hb.
    - apply NoDup_cons. split; [exact HxR|exact HndR]. }
  cbv beta. intros _ s2 (Hr2 & Hm2 & Hb2 & Hs2 & Hf2 & Hlr2).
  assert (Hk2 : forall b, key (mem s2 b) = key (mem s b)).
  { intros b. destruct (Hf2 b) as (-> & _). apply Hk1. }
  exists (if key (mem s1 x) <? key (mem s1 a0) then x :: a0 :: l else a0 :: l ++ [x]).
  split; [|split; [|split; [|split; [|split; [|split; [|split; [|split; [|split]]]]]]]].
  - destruct (key (mem s1 x) <? key (mem s1 a0)); [|reflexivity].
    change (x :: a0 :: l) with ([x] ++ (a0 :: l)). apply Permutation_app_comm.
  - destruct (key (mem s1 x) <? key (mem s1 a0)); [|exact Hr2].
    apply (is_ring_rotate _ (a0 :: l) [x]). exact Hr2.
  - rewrite Hm2. destruct (key (mem s1 x) <? key (mem s1 a0)); reflexivity.
  - constructor.
    + unfold famok. cbn [fst snd]. destruct (Hf2 y) as (_ & _ & -> & -> & _).
      rewrite Hd1, Hc1, Hd, Hlen. split.
      { unfold decr64. rewrite Z.mod_small; lia. }
      split; [reflexivity|].
      eapply is_ring_frame; [|exact Hr1]. intros b Hb. apply Hlr2.
      intros Hb'. apply elem_of_cons in Hb' as [->|Hb'].
      * apply NoDup_cons in HndL as [Hx _]. exact (Hx Hb).
      * exact (HR0 b Hb' Hb).
    + rewrite Forall_forall in Hrest. apply Forall_forall. intros [b L] HbL.
      assert (Hby : b <> y).
      { intros ->. apply Hy. apply list_elem_of_fmap. exists (y, L). auto. }
      assert (HLk' : forall c, c ∈ L -> c ∈ fkids Rest).
      { intros c Hc'. unfold fkids. apply list_elem_of_In, in_flat_map.
        exists (b, L). split; apply list_elem_of_In; assumption. }
      apply (famok_frame (mem s)); cbn [fst snd]; [| | |apply Hrest, HbL].
      * destruct (Hf2 b) as (_ & _ & -> & _). apply Hcd1, Hby.
      * destruct (Hf2 b) as (_ & _ & _ & -> & _). apply Hcd1, Hby.
      * intros c Hc'. specialize (HLk' c Hc').
        assert (c ∉ x :: L0) by (intros H; exact (HLk c H HLk')).
        assert (c ∉ a0 :: l).
        { intros H'. apply (HRx c H'). apply elem_of_app. right. exact HLk'. }
        destruct (Hlr2 c) as [-> ->].
        { intros H'. apply elem_of_cons in H' as [->|H']; [|contradiction].
          apply H. left. }
        apply Hlr1. intros H'. apply H. right. exact H'.
  - destruct (Hf2 x) as (_ & -> & _). exact Hp1.
  - intros b Hb. destruct (Hf2 b) as (_ & -> & _). apply Hpm1, Hb.
  - exact Hk2.
  - congruence.
  - congruence.
  - intros Hle c b Hhd Hb. rewrite !Hk2. rewrite !Hk1 in *.
    destruct (Z.ltb_spec (key (mem s x)) (key (mem s a0))) as [Hlt|Hge].
    + injection Hhd as <-. apply elem_of_cons in Hb as [->|Hb]; [lia|].
      specialize (Hle a0 b eq_refl Hb). lia.
    + injection Hhd as <-. change (a0 :: l ++ [x]) with ((a0 :: l) ++ [x]) in Hb.
      apply elem_of_app in Hb as [Hb|Hb]; [apply (Hle a0 b eq_refl Hb)|].
      apply list_elem_of_singleton in Hb. subst b. lia.
Qed.

End FibCutRing.

(** ** Fibonacci heap: [cut] on trees *)

Lemma fkids_perm fm1 fm2 : fm1 ≡ₚ fm2 -> fkids fm1 ≡ₚ fkids fm2.
Proof.
  induction 1 as [|e l1 l2 _ IH|e1 e2 l|l1 l2 l3 _ IH1 _ IH2].
  - reflexivity.
  - rewrite !(fkids_cons e.1 e.2 _) || (destruct e; rewrite !fkids_cons).
    apply Permutation_app_head, IH.
  - destruct e1, e2. rewrite !fkids_cons, !app_assoc.
    apply Permutation_app_tail, Permutation_app_comm.
  - etransitivity; eassumption.
Qed.

Lemma elem_of_fkids c fm : c ∈ fkids fm <-> exists a l, (a, l) ∈ fm /\ c ∈ l.
Proof.
  induction fm as [|[a l] fm IH].
  - cbn. split; [inversion 1|]. intros (a & l & H & _). inversion H.
  - rewrite fkids_cons, elem_of_app, IH. split.
    + intros [H|(a' & l' & H & Hc)]; [exists a, l; split; [left|exact H]|].
      exists a', l'. split; [right; exact H|exact Hc].
    + intros (a' & l' & H & Hc). apply elem_of_cons in H as [H|H]; [|eauto].
      injection H as -> ->. auto.
Qed.

(** The families of a forest with a tree in a hole. *)
Lemma ffams_focus G1 G2 c a cs :
  ffams (G1 ++ plug c (T a cs) :: G2)
  ≡ₚ (a, map root cs) :: ffams cs ++ cfams c a ++ ffams G1 ++ ffams G2.
Proof.
  rewrite ffams_app, ffams_cons, fams_plug. cbn [root]. rewrite fams_T.
  rewrite (Permutation_app_comm (ffams G1)). rewrite <- !app_assoc. cbn [app].
  constructor. apply Permutation_app_head, Permutation_app_head.
  apply Permutation_app_comm.
Qed.

Section FibCutTree.
Import FibHeap.
Implicit Types (s : state) (G : list tree) (RL : list addr).

(** A forest laid out in memory, with the ring [RL] of its roots starting at
    [min] and the parent links of its trees. *)
Definition pshape s G RL : Prop :=
  NoDup (fnodes G)
  /\ map root G ≡ₚ RL
  /\ is_ring (mem s) RL
  /\ min s = head RL
  /\ Forall (fwf (mem s)) G
  /\ Forall (pwf (fun a => p (mem s a)) None) G.

Lemma cut_tree s G1 G2 c (y : addr) pre tx post RL :
  pshape s (G1 ++ plug c (T y (pre ++ tx :: post)) :: G2) RL ->
  Z.of_nat (length (fnodes (G1 ++ plug c (T y (pre ++ tx :: post)) :: G2))) < two64 ->
  wp (cut (Some (root tx)) (Some y))
     (fun _ s' => exists RL',
        pshape s' ((G1 ++ plug c (T y (post ++ pre)) :: G2) ++ [tx]) RL'
        /\ (forall a b,
              (a, b) ∈ edges ((G1 ++ plug c (T y (post ++ pre)) :: G2) ++ [tx]) ->
              (a, b) ∈ edges (G1 ++ plug c (T y (pre ++ tx :: post)) :: G2))
        /\ fnodes ((G1 ++ plug c (T y (post ++ pre)) :: G2) ++ [tx])
           ≡ₚ fnodes (G1 ++ plug c (T y (pre ++ tx :: post)) :: G2)
        /\ (forall b, key (mem s' b) = key (mem s b))
        /\ brk s' = brk s /\ _size s' = _size s
        /\ (least s RL -> least s' RL')) s.
Proof.
  set (G := G1 ++ plug c (T y (pre ++ tx :: post)) :: G2).
  set (G' := (G1 ++ plug c (T y (post ++ pre)) :: G2) ++ [tx]).
  set (x := root tx).
  set (Rest := fams tx ++ ffams (post ++ pre) ++ cfams c y ++ ffams G1 ++ ffams G2).
  intros (Hnd & Hroots & Hring & Hmin & Hfwf & Hpwf) Hlt.
  assert (PG : ffams G ≡ₚ (y, map root pre ++ x :: map root post) :: Rest).
  { unfold G, Rest. rewrite ffams_focus, map_app. cbn [map]. constructor.
    rewrite !ffams_app, ffams_cons. rewrite <- !app_assoc.
    rewrite (app_assoc (ffams pre)), (Permutation_app_comm (ffams pre)).
    rewrite <- !app_assoc. apply Permutation_app_head.
    rewrite !app_assoc. do 3 apply Permutation_app_tail. apply Permutation_app_comm. }
  assert (PG' : ffams G' ≡ₚ (y, map root post ++ map root pre) :: Rest).
  { unfold G', Rest. rewrite <- app_assoc. cbn [app].
    rewrite ffams_focus, map_app. constructor.
    rewrite (ffams_app G2), ffams_cons. cbn [ffams flat_map]. rewrite app_nil_r.
    rewrite (Permutation_app_comm (fams tx)). rewrite <- !app_assoc. reflexivity. }
  assert (HndK : NoDup (RL ++ (map root pre ++ x :: map root post) ++ fkids Rest)).
  { rewrite <- Hroots. rewrite <- (fkids_cons y), <- (fkids_perm _ _ PG).
    apply ffams_NoDup, Hnd. }
  assert (HndN : NoDup (y :: map fst Rest)).
  { change (NoDup (map fst ((y, map root pre ++ x :: map root post) :: Rest))).
    rewrite <- PG, ffams_nodes. exact Hnd. }
  assert (Hne : RL <> []).
  { intros ->. apply Permutation_nil_r in Hroots. unfold G in Hroots.
    rewrite map_app in Hroots. destruct (map root G1); discriminate. }
  assert (Hdeg : Z.of_nat (length (map root pre ++ x :: map root post)) < two64).
  { assert (H : (length (map root pre ++ x :: map root post)
                 <= length (fnodes G))%nat).
    { rewrite (fnodes_roots_inner G), <- ffams_kids, (fkids_perm _ _ PG).
      rewrite fkids_cons, !length_app. lia. }
    fold G in Hlt. lia. }
  eapply wp_mono.
  { apply (cut_flat s x y (map root pre) (map root post) Rest RL);
      [|exact HndK|apply NoDup_cons in HndN; tauto|exact Hne|exact Hring|exact Hmin
       |exact Hdeg].
    rewrite <- PG. apply fwf_ffams, Hfwf. }
  cbv beta. intros _ s' (RL' & HRL' & Hring' & Hmin' & Hf' & Hpx & Hpo & Hk & Hb & Hs & Hle).
  assert (Hedges : forall a b, (a, b) ∈ edges G' -> (a, b) ∈ edges G /\ b <> x).
  { intros a b Hab. apply elem_of_edges_ffams in Hab as (l & Hl & Hbl).
    rewrite PG' in Hl. 
    apply NoDup_app in HndK as (_ & _ & HndK).
    apply NoDup_app in HndK as (HndL & HLk & _).
    apply elem_of_cons in Hl as [Hl|Hl].
    - injection Hl as -> ->. split.
      + apply elem_of_edges_ffams. exists (map root pre ++ x :: map root post).
        split; [rewrite PG; left|].
        apply elem_of_app in Hbl as [Hbl|Hbl]; apply elem_of_app;
          [right; right; exact Hbl|left; exact Hbl].
      + intros ->. apply NoDup_app in HndL as (_ & H1 & H2).
        apply NoDup_cons in H2 as [H2 _].
        apply elem_of_app in Hbl as [Hbl|Hbl]; [exact (H2 Hbl)|].
        apply (H1 x Hbl). left.
    - split.
      + apply elem_of_edges_ffams. exists l. split; [rewrite PG; right; exact Hl|exact Hbl].
      + intros ->. apply (HLk x).
        * apply elem_of_app. right. left.
        * apply elem_of_fkids. eauto. }
  exists RL'. split; [|split; [|split; [|split; [|split; [|split]]]]]; auto.
  2: { intros a b Hab. apply Hedges, Hab. }
  2: { rewrite <- !ffams_nodes, PG, PG'. reflexivity. }
  assert (Hr' : map root G' = map root G ++ [x]).
  { unfold G', G. rewrite !map_app. cbn [map]. do 3 f_equal. apply root_plug. reflexivity. }
  unfold pshape. split; [|split; [|split; [|split; [|split]]]].
  - rewrite <- ffams_nodes, PG'. cbn [map fst]. exact HndN.
  - rewrite Hr', Hroots. symmetry. exact HRL'.
  - exact Hring'.
  - exact Hmin'.
  - apply fwf_ffams. rewrite PG'. exact Hf'.
  - apply pwf_forest_of_edges.
    + intros r Hr. rewrite Hr' in Hr. apply elem_of_app in Hr as [Hr|Hr].
      * assert (r <> x).
        { intros ->. apply NoDup_app in HndK as (_ & HRx & _).
          rewrite Hroots in Hr. apply (HRx x Hr).
          apply elem_of_app. left. apply elem_of_app. right. left. }
        rewrite Hpo by assumption.
        apply (pwf_forest_roots (fun a => p (mem s a)) G r Hpwf Hr).
      * apply list_elem_of_singleton in Hr. subst r. exact Hpx.
    + intros a b Hab. destruct (Hedges a b Hab) as [Hab' Hbx].
      rewrite Hpo by exact Hbx.
      apply (pwf_forest_edges (fun a => p (mem s a)) G Hpwf a b Hab').
Qed.

End FibCutTree.

(** ** Fibonacci heap: [cascading_cut] and [decrease_key] *)

(** A node of a forest is a root or the child of a pair. *)
Lemma fnodes_root_or_child f x :
  x ∈ fnodes f -> x ∈ map root f \/ exists a, (a, x) ∈ edges f.
Proof.
  rewrite fnodes_roots_inner, <- ffams_kids, elem_of_app.
  intros [H|H]; [left; exact H|right].
  apply elem_of_fkids in H as (a & l & Hl & Hx). exists a.
  apply elem_of_edges_ffams. eauto.
Qed.

(** The child of a pair is not a root. *)
Lemma edges_not_root f a x : NoDup (fnodes f) -> (a, x) ∈ edges f -> x ∉ map root f.
Proof.
  intros Hnd H Hr. apply ffams_NoDup in Hnd. apply NoDup_app in Hnd as (_ & Hnd & _).
  apply (Hnd x Hr). apply elem_of_edges_ffams in H as (l & Hl & Hx).
  apply elem_of_fkids. eauto.
Qed.

(** The pair above the tree in a hole. *)
Lemma edges_focus G1 G2 c (y : addr) pre tx post :
  (y, root tx) ∈ edges (G1 ++ plug c (T y (pre ++ tx :: post)) :: G2).
Proof.
  apply elem_of_edges_ffams. exists (map root (pre ++ tx :: post)). split.
  - rewrite ffams_focus. left.
  - rewrite map_app. apply elem_of_app. right. left.
Qed.

Section FibDecreaseKey.
Import FibHeap.
Implicit Types (s : state) (G : list tree) (RL : list addr).

Lemma pshape_frame s s' G RL :
  (forall b, p (mem s' b) = p (mem s b) /\ child (mem s' b) = child (mem s b)
             /\ degree (mem s' b) = degree (mem s b)
             /\ right (mem s' b) = right (mem s b)
             /\ left (mem s' b) = left (mem s b)) ->
  min s' = min s -> pshape s G RL -> pshape s' G RL.
Proof.
  intros Hf Hm (Hnd & Hroots & Hring & Hmin & Hfwf & Hpwf).
  unfold pshape. split; [exact Hnd|]. split; [exact Hroots|].
  split; [|split; [congruence|split]].
  - eapply is_ring_frame; [|exact Hring]. intros b _. destruct (Hf b); tauto.
  - eapply fwf_forest_frame; [| |exact Hfwf]; intros b _; destruct (Hf b); tauto.
  - eapply Forall_impl; [exact Hpwf|]. intros t. apply pwf_ext.
    intros b _. destruct (Hf b); tauto.
Qed.

Lemma cascading_cut_tree c : forall ty G1 G2 RL s fuel,
  pshape s (G1 ++ plug c ty :: G2) RL ->
  Z.of_nat (length (fnodes (G1 ++ plug c ty :: G2))) < two64 ->
  (length c < fuel)%nat ->
  wp (cascading_cut fuel (Some (root ty)))
     (fun _ s' => exists G' RL',
        pshape s' G' RL'
        /\ (forall a b, (a, b) ∈ edges G' -> (a, b) ∈ edges (G1 ++ plug c ty :: G2))
        /\ fnodes G' ≡ₚ fnodes (G1 ++ plug c ty :: G2)
        /\ (forall b, key (mem s' b) = key (mem s b))
        /\ brk s' = brk s /\ _size s' = _size s
        /\ (least s RL -> least s' RL')) s.
Proof.
  induction c as [|[[z pre] post] c IH]; intros ty G1 G2 RL s fuel Hsh Hlt Hfuel;
    (destruct fuel as [|fuel]; [cbn in Hfuel; lia|]); cbn [cascading_cut];
    pose proof Hsh as (_ & _ & _ & _ & _ & Hpwf);
    rewrite Forall_app, Forall_cons in Hpwf; destruct Hpwf as (_ & Hpwf & _);
    apply pwf_plug_hole in Hpwf; cbn [hole_parent] in Hpwf.
  - fh_go. exists (G1 ++ plug [] ty :: G2), RL. auto 10.
  - fh_go. cbn [plug] in *. destruct (mark (mem s (root ty))).
    + apply wp_bind. eapply wp_mono; [apply (cut_tree s G1 G2 c z pre ty post RL Hsh Hlt)|].
      cbv beta. intros _ s1 (RL1 & Hsh1 & He1 & Hn1 & Hk1 & Hb1 & Hs1 & Hle1).
      rewrite <- app_assoc in Hsh1, He1, Hn1. cbn [app] in Hsh1, He1, Hn1.
      eapply wp_mono.
      { apply (IH (T z (post ++ pre)) G1 (G2 ++ [ty]) RL1 s1 fuel Hsh1).
        - rewrite Hn1. exact Hlt.
        - cbn [length] in Hfuel. lia. }
      cbv beta. intros _ s2 (G' & RL' & Hsh2 & He2 & Hn2 & Hk2 & Hb2 & Hs2 & Hle2).
      exists G', RL'. split; [exact Hsh2|]. split; [auto|].
      split; [rewrite Hn2; exact Hn1|]. split; [intros b; rewrite Hk2; apply Hk1|].
      split; [congruence|]. split; [congruence|auto].
    + fh_step.
      exists (G1 ++ plug c (T z (pre ++ ty :: post)) :: G2), RL.
      split; [|split; [auto|split; [reflexivity|]]].
      * eapply pshape_frame; [| |exact Hsh]; [|reflexivity].
        intros b. fh_simpl. auto.
      * split; [intros b; fh_simpl; reflexivity|].
        split; [reflexivity|]. split; [reflexivity|].
        intros Hle a b Ha Hb. fh_simpl. apply (Hle a b Ha Hb).
Qed.

Lemma finv_of_pshape s0 G0 s G RL :
  finv s0 G0 -> pshape s G RL -> least s RL ->
  (forall a b, (a, b) ∈ edges G -> key (mem s a) <= key (mem s b)) ->
  fnodes G ≡ₚ fnodes G0 -> brk s = brk s0 -> _size s = _size s0 ->
  finv s G.
Proof.
  intros (RL0 & _ & _ & Hbrk & Hsz & Hlt) (Hnd & Hroots & Hring & Hmin & Hfwf & _)
    Hle Hho Hn Hb Hs.
  exists RL. split; [|split; [|split; [|split]]].
  - unfold fpre. split; [exact Hnd|]. split; [exact Hroots|]. split; [exact Hring|].
    split; [exact Hmin|]. split; [exact Hfwf|].
    apply (ho_forest_edges (fkey s) G). exact Hho.
  - intros a b Ha Hb'. apply Hle; [rewrite <- Hmin; exact Ha|exact Hb'].
  - intros a Ha. rewrite Hb. apply Hbrk. rewrite <- Hn. exact Ha.
  - rewrite Hs, Hsz, Hn. reflexivity.
  - rewrite Hn. exact Hlt.
Qed.

Lemma fh_decrease_key_spec fuel s G (N : addr) (nk : Z) :
  finv s G -> Forall (pwf (fun a => p (mem s a)) None) G ->
  N ∈ fnodes G -> nk <= key (mem s N) -> (length (fnodes G) < fuel)%nat ->
  wp (decrease_key fuel (Some N) nk)
     (fun _ s' => exists G',
        finv s' G' /\ Forall (pwf (fun a => p (mem s' a)) None) G'
        /\ fnodes G' ≡ₚ fnodes G
        /\ key (mem s' N) = nk
        /\ (forall b, b <> N -> key (mem s' b) = key (mem s b))
        /\ brk s' = brk s) s.
Proof.
  intros Hinv Hpwf HN Hnk Hfuel.
  pose proof Hinv as (RL & (Hnd & Hroots & Hring & Hmin & Hfwf & Hho) & Hleast
                      & Hbrk & Hsz & Hlt).
  assert (Hho0 : forall a b, (a, b) ∈ edges G -> key (mem s a) <= key (mem s b))
    by (apply (ho_forest_edges (fkey s) G), Hho).
  assert (Hsh : pshape s G RL) by (unfold pshape; auto 10).
  assert (Hle0 : least s RL).
  { intros a b Ha Hb. apply Hleast; [rewrite Hmin; exact Ha|exact Hb]. }
  destruct (focus_forest G N HN) as (G1 & c & cn & G2 & EG).
  unfold decrease_key. fh_go.
  destruct (Z.ltb_spec (key (mem s N)) nk) as [?|_]; [lia|].
  fh_step. fh_step.
  remember (with_mem (upd N (set_key nk)) s) as s1 eqn:Es1.
  assert (K1 : forall b, b <> N -> key (mem s1 b) = key (mem s b)).
  { intros b Hb. rewrite Es1. fh_simpl. reflexivity. }
  assert (K1N : key (mem s1 N) = nk) by (rewrite Es1; fh_simpl; reflexivity).
  assert (Hsh1 : pshape s1 G RL).
  { eapply pshape_frame; [| |exact Hsh]; rewrite Es1; [|reflexivity].
    intros b. fh_simpl. auto. }
  assert (Hb1 : brk s1 = brk s) by (rewrite Es1; reflexivity).
  assert (Hs1 : _size s1 = _size s) by (rewrite Es1; reflexivity).
  assert (Hp1 : forall b, p (mem s1 b) = p (mem s b)).
  { intros b. rewrite Es1. fh_simpl. reflexivity. }
  assert (Hne : exists a0 l, RL = a0 :: l).
  { destruct RL as [|a0 l]; [|eauto]. apply Permutation_nil_r in Hroots.
    rewrite EG, map_app in Hroots. destruct (map root G1); discriminate. }
  destruct Hne as (a0 & l & ERL).
  assert (HparN : p (mem s N) = match c with [] => None | _ => hole_parent c end).
  { rewrite EG in Hpwf. rewrite Forall_app, Forall_cons in Hpwf.
    destruct Hpwf as (_ & Hp & _). apply pwf_plug_hole in Hp. exact Hp. }
  fh_step. fh_step. rewrite Hp1, HparN.
  (* what is left when no node is cut *)
  assert (Hstay :
    (forall a b, (a, b) ∈ edges G -> key (mem s1 a) <= key (mem s1 b)) ->
    (N ∈ RL \/ (least s1 RL /\ key (mem s1 a0) <= nk)) ->
    wp (m <- gets min ;;
        lt <- compare_less (Some N) m ;;
        if lt then modify (set_min (Some N)) else ret tt)
       (fun _ s' => exists G',
          finv s' G' /\ Forall (pwf (fun a => p (mem s' a)) None) G'
          /\ fnodes G' ≡ₚ fnodes G
          /\ key (mem s' N) = nk
          /\ (forall b, b <> N -> key (mem s' b) = key (mem s b))
          /\ brk s' = brk s) s1).
  { intros Hho1 Hcase.
    pose proof Hsh1 as (_ & _ & Hring1 & Hmin1 & _ & Hpwf1).
    rewrite ERL in Hmin1. cbn [head] in Hmin1.
    unfold compare_less. fh_go. rewrite K1N.
    destruct (Z.ltb_spec nk (key (mem s1 a0))) as [Hlt'|Hge].
    - (* the new key is the least: [N] is a root *)
      fh_step.
      destruct Hcase as [HNR|[_ ?]]; [|lia].
      apply list_elem_of_split in HNR as (l1 & l2 & El).
      exists G. split; [|split; [|split; [reflexivity|split; [|split]]]].
      + apply (finv_of_pshape s G _ G (N :: l2 ++ l1) Hinv).
        * destruct Hsh1 as (H1 & H2 & H3 & H4 & H5 & H6).
          unfold pshape. cbn [mem set_min min head].
          split; [exact H1|]. split.
          { rewrite H2, El. rewrite <- Permutation_middle.
            constructor. apply Permutation_app_comm. }
          split; [|auto].
          rewrite El in H3. apply (is_ring_rotate _ l1 (N :: l2)) in H3. exact H3.
        * intros a b Ha Hb. injection Ha as <-. cbn [mem set_min].
          rewrite K1N. apply elem_of_cons in Hb as [->|Hb]; [rewrite K1N; lia|].
          assert (HbR : b ∈ RL).
          { rewrite El. apply elem_of_app in Hb as [Hb|Hb]; apply elem_of_app;
              [right; right; exact Hb|left; exact Hb]. }
          assert (HbN : b <> N).
          { intros ->. rewrite El in Hring1.
            assert (Hnd' : NoDup RL) by (rewrite <- Hroots; apply roots_NoDup, Hnd).
            rewrite El in Hnd'. apply NoDup_app in Hnd' as (_ & Hd1 & Hd2).
            apply NoDup_cons in Hd2 as [Hd2 _].
            apply elem_of_app in Hb as [Hb|Hb]; [exact (Hd2 Hb)|].
            apply (Hd1 N Hb). left. }
          rewrite (K1 b HbN).
          assert (Ha0 : a0 <> N) by (intros ->; lia).
          rewrite (K1 a0 Ha0) in Hlt'.
          pose proof (Hle0 a0 b ltac:(rewrite ERL; reflexivity) HbR). lia.
        * exact Hho1.
        * reflexivity.
        * exact Hb1.
        * exact Hs1.
      + exact Hpwf1.
      + exact K1N.
      + exact K1.
      + exact Hb1.
    - (* [min] stays *)
      fh_step. exists G. split; [|split; [|split; [reflexivity|split; [|split]]]].
      + apply (finv_of_pshape s G s1 G RL Hinv Hsh1); auto.
        destruct Hcase as [HNR|[Hl1 _]]; [|exact Hl1].
        intros a b Ha Hb. rewrite ERL in Ha. injection Ha as <-.
        destruct (Nat.eq_dec b N) as [->|HbN]; [rewrite K1N; lia|].
        rewrite (K1 b HbN).
        destruct (Nat.eq_dec a0 N) as [->|Ha0].
        * rewrite K1N. rewrite ERL in *.
          pose proof (Hle0 N b eq_refl Hb). lia.
        * rewrite (K1 a0 Ha0). apply (Hle0 a0 b); [rewrite ERL; reflexivity|exact Hb].
      + exact Hpwf1.
      + exact K1N.
      + exact K1.
      + exact Hb1. }
  destruct c as [|[[y pre] post] c].
  - (* [N] is a root *)
    cbn [is_null]. fh_step. fh_step. fh_step. apply Hstay.
    + intros a b Hab. pose proof (Hho0 a b Hab) as Hle.
      assert (HbN : b <> N).
      { intros ->. pose proof (pwf_forest_edges _ G Hpwf a N Hab) as Hp.
        cbv beta in Hp. congruence. }
      rewrite (K1 b HbN). destruct (Nat.eq_dec a N) as [->|Ha]; [rewrite K1N; lia|].
      rewrite (K1 a Ha). exact Hle.
    + left. rewrite <- Hroots, EG, map_app. apply elem_of_app. right. left.
  - cbn [hole_parent is_null]. cbn [plug] in EG.
    assert (HyN : (y, N) ∈ edges G).
    { rewrite EG. apply (edges_focus G1 G2 c y pre (T N cn) post). }
    assert (HNroot : N ∉ map root G) by (apply (edges_not_root G y), HyN; exact Hnd).
    assert (HNRL : N ∉ RL) by (rewrite <- Hroots; exact HNroot).
    assert (Hyne : y <> N).
    { intros ->. exact (edges_irrefl _ G Hpwf Hnd N HyN). }
    assert (Hle1 : least s1 RL).
    { intros a b Ha Hb.
      assert (a ∈ RL) by (destruct RL; [discriminate|injection Ha as <-; left]).
      rewrite !K1 by (intros ->; contradiction). apply (Hle0 a b Ha Hb). }
    unfold compare_less at 1. fh_go. rewrite K1N, (K1 y Hyne).
    destruct (Z.ltb_spec nk (key (mem s y))) as [Hlt'|Hge].
    + (* [N] is cut from [y] *)
      fh_step.
      assert (Hlt1 : Z.of_nat (length (fnodes
                 (G1 ++ plug c (T y (pre ++ T N cn :: post)) :: G2))) < two64)
        by (rewrite <- EG; exact Hlt).
      rewrite EG in Hsh1.
      eapply wp_mono;
        [apply (cut_tree s1 G1 G2 c y pre (T N cn) post RL Hsh1 Hlt1)|].
      cbv beta. intros _ s2 (RL2 & Hsh2 & He2 & Hn2 & Hk2 & Hb2 & Hs2 & Hle2).
      rewrite <- EG in He2, Hn2.
      assert (HN2 : p (mem s2 N) = None).
      { destruct Hsh2 as (_ & _ & _ & _ & _ & Hpwf2).
        apply (pwf_forest_roots _ _ N Hpwf2).
        rewrite map_app. apply elem_of_app. right. left. }
      assert (He2' : forall a b,
                (a, b) ∈ edges ((G1 ++ plug c (T y (post ++ pre)) :: G2) ++ [T N cn]) ->
                b <> N).
      { intros a b Hab ->. destruct Hsh2 as (_ & _ & _ & _ & _ & Hpwf2).
        pose proof (pwf_forest_edges _ _ Hpwf2 a N Hab) as Hp. cbv beta in Hp.
        congruence. }
      rewrite <- app_assoc in Hsh2, He2, Hn2, He2'. cbn [app] in Hsh2, He2, Hn2, He2'.
      eapply wp_mono.
      { apply (cascading_cut_tree c (T y (post ++ pre)) G1 (G2 ++ [T N cn]) RL2
                 s2 fuel Hsh2).
        - rewrite Hn2. exact Hlt.
        - assert (H : (length (cfams c y) <= length (ffams G))%nat).
          { rewrite EG, ffams_focus. cbn [length]. rewrite !length_app. lia. }
          assert (H' : (length c <= length (cfams c y))%nat).
          { clear. revert y. induction c as [|[[a p1] p2] c IH]; intros y; [cbn; lia|].
            cbn [cfams length]. rewrite !length_app. specialize (IH a). lia. }
          rewrite <- ffams_nodes, length_map in Hfuel. lia. }
      cbv beta. intros _ s3 (G3 & RL3 & Hsh3 & He3 & Hn3 & Hk3 & Hb3 & Hs3 & Hle3).
      assert (K3 : forall b, key (mem s3 b) = key (mem s1 b)).
      { intros b. rewrite Hk3. apply Hk2. }
      assert (Hho3 : forall a b, (a, b) ∈ edges G3 ->
                        key (mem s3 a) <= key (mem s3 b)).
      { intros a b Hab. apply He3 in Hab. pose proof (He2' a b Hab) as HbN.
        apply He2 in Hab. rewrite !K3, (K1 b HbN).
        pose proof (Hho0 a b Hab).
        destruct (Nat.eq_dec a N) as [->|Ha]; [rewrite K1N; lia|].
        rewrite (K1 a Ha). assumption. }
      assert (HN3 : N ∈ RL3).
      { destruct Hsh3 as (_ & Hr3 & _). rewrite <- Hr3.
        assert (HNn : N ∈ fnodes G3).
        { rewrite Hn3, Hn2. exact HN. }
        destruct (fnodes_root_or_child G3 N HNn) as [H|(a & Ha)]; [exact H|].
        exfalso. apply He3 in Ha. exact (He2' a N Ha eq_refl). }
      pose proof (Hle3 (Hle2 Hle1)) as Hl3.
      pose proof Hsh3 as (_ & _ & _ & Hmin3 & _ & Hpwf3).
      destruct RL3 as [|a3 l3]; [inversion HN3|]. cbn [head] in Hmin3.
      unfold compare_less. fh_go. rewrite !K3, K1N.
      pose proof (Hl3 a3 N eq_refl HN3) as Hl3N. rewrite !K3, K1N in Hl3N.
      destruct (Z.ltb_spec nk (key (mem s1 a3))) as [?|_]; [lia|].
      fh_step. exists G3. split; [|split; [exact Hpwf3|split; [|split; [|split]]]].
      * apply (finv_of_pshape s G s3 G3 (a3 :: l3) Hinv Hsh3 Hl3 Hho3).
        -- rewrite Hn3, Hn2. reflexivity.
        -- congruence.
        -- congruence.
      * rewrite Hn3, Hn2. reflexivity.
      * rewrite K3. exact K1N.
      * intros b Hb. rewrite K3. apply K1, Hb.
      * congruence.
    + (* heap order holds at [N] *)
      fh_step. fh_step.
      assert (Hho1 : forall a b, (a, b) ∈ edges G -> key (mem s1 a) <= key (mem s1 b)).
      { intros a b Hab. pose proof (Hho0 a b Hab) as Hle.
        destruct (Nat.eq_dec b N) as [->|HbN].
        - pose proof (pwf_forest_edges _ G Hpwf a N Hab) as Hp. cbv beta in Hp.
          rewrite HparN in Hp. injection Hp as <-. rewrite K1N, (K1 y Hyne). lia.
        - rewrite (K1 b HbN). destruct (Nat.eq_dec a N) as [->|Ha]; [rewrite K1N; lia|].
          rewrite (K1 a Ha). exact Hle. }
      apply Hstay; [exact Hho1|]. right. split; [exact Hle1|].
      assert (Hho1' : Forall (ho (fkey s1)) G) by (apply ho_forest_edges, Hho1).
      destruct (ho_forest_min _ _ Hho1' N HN) as (t & Ht & Hle).
      assert (Hr : root t ∈ RL).
      { rewrite <- Hroots. apply list_elem_of_fmap. eauto. }
      pose proof (Hle1 a0 (root t) ltac:(rewrite ERL; reflexivity) Hr).
      unfold fkey in Hle. rewrite K1N in Hle. lia.
Qed.

End FibDecreaseKey.

(** The trees of [fib_marked_parent]. *)
Definition fib_marked_parent_trees : list tree :=
  [T 6%nat [];
   T 1%nat [T 2%nat []; T 5%nat [T 7%nat [T 8%nat []]]; T 3%nat [T 4%nat []]]].

(** X8.  [decrease_key(N, new_key)] on a Fibonacci heap whose parent links
    agree with its trees, for a node [N] of the heap and a key not above the
    one of [N]: the call returns ([cut] and [cascading_cut] end), and the heap
    is again a heap-ordered forest of the same nodes, with the ring of its
    roots starting at a root of least key and with parent links that agree
    with the trees; [N] holds [new_key], every other node the key it had. *)
Theorem fibheap_decrease_key_keeps_heap (s : FibHeap.state) (G : list tree)
    (N : addr) (new_key : Z) (fuel : nat) :
  finv s G ->
  Forall (pwf (fun a => FibHeap.p (FibHeap.mem s a)) None) G ->
  N ∈ fnodes G -> new_key <= FibHeap.key (FibHeap.mem s N) ->
  (length (fnodes G) < fuel)%nat ->
  exists s' G',
    FibHeap.decrease_key fuel (Some N) new_key s = Ok tt s'
    /\ finv s' G'
    /\ Forall (pwf (fun a => FibHeap.p (FibHeap.mem s' a)) None) G'
    /\ fnodes G' ≡ₚ fnodes G
    /\ FibHeap.key (FibHeap.mem s' N) = new_key
    /\ (forall b, b <> N ->
          FibHeap.key (FibHeap.mem s' b) = FibHeap.key (FibHeap.mem s b)).
Proof.
  intros Hinv Hpwf HN Hle Hfuel.
  destruct (wp_ok _ _ _ (fh_decrease_key_spec fuel s G N new_key Hinv Hpwf HN Hle Hfuel))
    as ([] & s' & E & G' & H).
  exists s', G'. split; [exact E|tauto].
Qed.

Lemma fibheap_decrease_key_keeps_heap_witness :
  exists s' G',
    FibHeap.decrease_key 16 (Some 7%nat) 3 fib_marked_parent = Ok tt s'
    /\ finv s' G'
    /\ Forall (pwf (fun a => FibHeap.p (FibHeap.mem s' a)) None) G'
    /\ fnodes G' ≡ₚ fnodes fib_marked_parent_trees
    /\ FibHeap.key (FibHeap.mem s' 7%nat) = 3
    /\ (forall b, b <> 7%nat ->
          FibHeap.key (FibHeap.mem s' b)
          = FibHeap.key (FibHeap.mem fib_marked_parent b)).
Proof.
  apply (fibheap_decrease_key_keeps_heap fib_marked_parent fib_marked_parent_trees
           7%nat 3 16).
  - exists [6; 1]%nat. unfold fpre, fib_marked_parent_trees.
    split; [split; [|split; [|split; [|split; [|split]]]]|split; [|split; [|split]]].
    + vm_compute. repeat constructor; set_solver.
    + reflexivity.
    + repeat split.
    + reflexivity.
    + repeat first [ split | constructor ].
    + repeat first [ split | constructor ]; vm_compute; discriminate.
    + intros a b Ha Hb. vm_compute in Ha. injection Ha as <-.
      repeat (apply elem_of_cons in Hb as [->|Hb]); try (vm_compute; discriminate).
      inversion Hb.
    + intros a Ha. vm_compute in Ha.
      repeat (apply elem_of_cons in Ha as [->|Ha]); try (vm_compute; lia).
      inversion Ha.
    + reflexivity.
    + vm_compute. reflexivity.
  - repeat first [ split | constructor ].
  - vm_compute. set_solver.
  - vm_compute. discriminate.
  - vm_compute. lia.
Defined.

(** ** What a computation leaves if it returns *)

Definition wlp {St A} (m : M St A) (Q : A -> St -> Prop) (s : St) : Prop :=
  match m s with
  | Ok a s' => Q a s'
  | _ => True
  end.

Lemma wlp_bind {St A B} (m : M St A) (k : A -> M St B) (Q : B -> St -> Prop) s :
  wlp m (fun a s' => wlp (k a) Q s') s -> wlp (bind m k) Q s.
Proof. unfold wlp, bind. destruct (m s); auto. Qed.

Lemma wlp_seq {St A B} (m : M St A) (k : A -> M St B) (Q : B -> St -> Prop)
    (R : A -> St -> Prop) s :
  wlp m R s -> (forall a s', R a s' -> wlp (k a) Q s') -> wlp (bind m k) Q s.
Proof.
  unfold wlp, bind. destruct (m s) as [a s'| | |]; auto. intros H1 H2. apply (H2 a s' H1).
Qed.

Lemma wlp_ret {St A} (a : A) (Q : A -> St -> Prop) s : Q a s -> wlp (ret a) Q s.
Proof. exact id. Qed.

Lemma wlp_if {St A} (b : bool) (m1 m2 : M St A) (Q : A -> St -> Prop) s :
  wlp m1 Q s -> wlp m2 Q s -> wlp (if b then m1 else m2) Q s.
Proof. destruct b; auto. Qed.

Lemma wp_wlp {St A} (m : M St A) (Q1 Q2 : A -> St -> Prop) s :
  wp m Q1 s -> wlp m Q2 s -> wp m (fun a s' => Q1 a s' /\ Q2 a s') s.
Proof. unfold wp, wlp. destruct (m s); auto. Qed.

Section FibLinkParent.
Import FibHeap.

Lemma wlp_load {A B} (f : FibHeapNode -> A) (x : ptr) (k : A -> M state B)
    (Q : B -> state -> Prop) s :
  (forall a, x = Some a -> wlp (k (f (mem s a))) Q s) ->
  wlp (bind (load f x) k) Q s.
Proof.
  intros H. apply wlp_bind. destruct x as [a|]; [|exact I]. apply (H a eq_refl).
Qed.

Lemma wlp_store {B} (g : FibHeapNode -> FibHeapNode) (x : ptr) (k : M state B)
    (Q : B -> state -> Prop) s :
  (forall a, x = Some a -> wlp k Q (with_mem (upd a g) s)) ->
  wlp (bind (store x g) (fun _ => k)) Q s.
Proof.
  intros H. apply wlp_bind. destruct x as [a|]; [|exact I]. apply (H a eq_refl).
Qed.

Lemma wlp_store_last (g : FibHeapNode -> FibHeapNode) (x : ptr)
    (Q : unit -> state -> Prop) s :
  (forall a, x = Some a -> Q tt (with_mem (upd a g) s)) -> wlp (store x g) Q s.
Proof. intros H. destruct x as [a|]; [|exact I]. apply (H a eq_refl). Qed.

(** [fib_link(y, x)] leaves [x] in the parent link of [y]. *)
Lemma fib_link_sets_p (x y : addr) s :
  wlp (fib_link (Some y) (Some x)) (fun _ s' => p (mem s' y) = Some x) s.
Proof.
  unfold fib_link.
  apply wlp_load; intros a1 _. apply wlp_load; intros a2 _.
  apply wlp_store; intros a3 _. apply wlp_load; intros a4 _.
  apply wlp_load; intros a5 _. apply wlp_store; intros a6 _.
  apply wlp_store; intros a7 _. apply wlp_store; intros a8 _.
  apply wlp_load; intros a9 _.
  apply (wlp_seq _ _ _ (fun _ s' => p (mem s' y) = Some x)).
  - apply wlp_if.
    + apply wlp_store; intros b1 _. apply wlp_store_last; intros b2 E.
      injection E as <-. fh_simpl. reflexivity.
    + apply wlp_load; intros b1 _. apply wlp_store; intros b2 _.
      apply wlp_load; intros b3 _. apply wlp_store; intros b4 _.
      apply wlp_store; intros b5 _. apply wlp_store; intros b6 _.
      apply wlp_store_last; intros b7 E. injection E as <-. fh_simpl. reflexivity.
  - intros _ s1 Hp. apply wlp_load; intros c1 _. apply wlp_store; intros c2 _.
    apply wlp_store_last; intros c3 _. fh_simpl. exact Hp.
Qed.

End FibLinkParent.

(** ** Fibonacci heap: [insert] and [pop] keep the parent links *)

Section FibParents.
Import FibHeap.
Implicit Types (s : state) (l : list addr) (G : list tree) (A : list ptr).

(** A forest in memory whose parent links agree with its trees. *)
Definition okp s G (RL : list addr) : Prop :=
  forest_ok s G RL /\ Forall (pwf (fun a => p (mem s a)) None) G.

Lemma okp_perm s G G' RL : G ≡ₚ G' -> okp s G RL -> okp s G' RL.
Proof.
  intros HP [H1 H2]. split; [apply (forest_ok_perm _ _ _ _ HP H1)|].
  rewrite <- HP. exact H2.
Qed.

Lemma pwf_forest_ext (par par' : addr -> ptr) up G :
  (forall b, b ∈ fnodes G -> par' b = par b) ->
  Forall (pwf par up) G -> Forall (pwf par' up) G.
Proof.
  intros He H. apply Forall_forall. intros t Ht. rewrite Forall_forall in H.
  apply (pwf_ext par); [|apply H, Ht]. intros b Hb. apply He, elem_of_fnodes. eauto.
Qed.

(** The parent links when the root [y] becomes a child of the root [x]. *)
Lemma pwf_link (par par' : addr -> ptr) (x y : addr) cx cy G2 :
  NoDup (fnodes (T x cx :: T y cy :: G2)) ->
  Forall (pwf par None) (T x cx :: T y cy :: G2) ->
  par' y = Some x -> (forall b, b <> y -> par' b = par b) ->
  Forall (pwf par' None) (T x (link_kid (T y cy) cx) :: G2).
Proof.
  intros Hnd H Hy Ho.
  apply Forall_cons in H as [Hx H]. apply Forall_cons in H as [Hty HG2].
  rewrite !fnodes_cons, !nodes_T in Hnd.
  apply NoDup_app in Hnd as (Hndx & Hxy & Hnd).
  apply NoDup_cons in Hnd as [Hy' _].
  assert (Hyx : y ∉ x :: fnodes cx) by (intros H; apply (Hxy y H); left).
  apply pwf_T in Hx as [Hpx Hcx]. apply pwf_T in Hty as [_ Hcy].
  constructor.
  - apply pwf_T. split.
    + rewrite Ho; [exact Hpx|]. intros ->. apply Hyx. left.
    + rewrite (link_kid_perm (T y cy) cx). constructor.
      * apply pwf_T. split; [exact Hy|].
        apply (pwf_forest_ext par); [|exact Hcy].
        intros b Hb. apply Ho. intros ->. apply Hy'. apply elem_of_app. left. exact Hb.
      * apply (pwf_forest_ext par); [|exact Hcx].
        intros b Hb. apply Ho. intros ->. apply Hyx. right. exact Hb.
  - apply (pwf_forest_ext par); [|exact HG2].
    intros b Hb. apply Ho. intros ->. apply Hy'. apply elem_of_app. right. exact Hb.
Qed.

(** Roots that sit in the slots of their degrees have degrees of their own. *)
Lemma slots_degrees_from (f : addr -> Z) A : forall off,
  (forall i r, A !! i = Some (Some r) -> f r = Z.of_nat (off + i)) ->
  NoDup (map f (ents A)) /\ (forall r, r ∈ ents A -> Z.of_nat off <= f r).
Proof.
  induction A as [|e A IH]; intros off H.
  - split; [constructor|]. intros r Hr. inversion Hr.
  - destruct (IH (S off)) as [IH1 IH2].
    { intros i r Hi. rewrite (H (S i) r Hi). f_equal. lia. }
    destruct e as [r0|].
    2: { change (ents (None :: A)) with (ents A). split; [exact IH1|].
         intros r Hr. specialize (IH2 r Hr). lia. }
    change (ents (Some r0 :: A)) with (r0 :: ents A). cbn [map].
    pose proof (H 0%nat r0 eq_refl) as H0. rewrite Nat.add_0_r in H0.
    split.
    + constructor; [|exact IH1]. intros Hin.
      apply list_elem_of_fmap in Hin as (r & E & Hr). specialize (IH2 r Hr). lia.
    + intros r Hr. apply elem_of_cons in Hr as [->|Hr]; [lia|].
      specialize (IH2 r Hr). lia.
Qed.

Lemma slots_degrees s A :
  slots_ok s A -> NoDup (map (fun r => degree (mem s r)) (ents A)).
Proof.
  intros H. apply (slots_degrees_from (fun r => degree (mem s r)) A 0). exact H.
Qed.

Definition collide_inv_p (s0 : state) (G0 : list tree) (nvs : nat)
    (todoa : list addr) (n : nat) (c : ptr * Z * list ptr) (s : state) : Prop :=
  let '(x, d, A) := c in
  exists G RL xa,
    x = Some xa /\ okp s G RL /\ RL ≡ₚ xa :: ents A ++ todoa
    /\ length A = nvs /\ slots_ok s A /\ room s RL nvs
    /\ d = degree (mem s xa) /\ n = length (ents A)
    /\ preserved s0 G0 s G.

Definition collide_post_p (s0 : state) (G0 : list tree) (nvs : nat)
    (todoa : list addr) (c : ptr * Z * list ptr) (s : state) : Prop :=
  let '(x, d, A) := c in
  A !! Z.to_nat d = Some None /\ 0 <= d
  /\ exists n, collide_inv_p s0 G0 nvs todoa n c s.

Lemma collide_link_p s0 G0 nvs todoa s G RL (x' y' : addr) A d :
  Z.of_nat nvs < two64 ->
  okp s G RL ->
  RL ≡ₚ x' :: y' :: ents (<[Z.to_nat d := None]> A) ++ todoa ->
  length A = nvs -> slots_ok s A -> room s RL nvs ->
  d = degree (mem s x') -> d = degree (mem s y') ->
  key (mem s x') <= key (mem s y') ->
  preserved s0 G0 s G -> (Z.to_nat d < length A)%nat ->
  wp (fib_link (Some y') (Some x') ;;
      A' <- vec_set A d None ;;
      ret (inl (Some x', incr64 d, A')))
     (fun (r : ptr * Z * list ptr + ptr * Z * list ptr) s' =>
        exists c', r = inl c'
          /\ collide_inv_p s0 G0 nvs todoa
               (length (ents (<[Z.to_nat d := None]> A))) c' s') s.
Proof.
  intros Hnvs [Hok Hpw] HRL HlenA Hslots Hroom Hdx Hdy Hk (HpG & Hpk & Hpb & Hps) Hd.
  assert (HndR : NoDup RL).
  { destruct Hok as (Hnd & Hperm & _). rewrite <- Hperm. apply roots_NoDup, Hnd. }
  assert (Hx : x' ∈ RL) by (rewrite HRL; left).
  assert (Hy : y' ∈ RL) by (rewrite HRL; right; left).
  assert (HndR' := HndR). rewrite HRL in HndR'.
  apply NoDup_cons in HndR' as [Hxn HndR']. apply NoDup_cons in HndR' as [Hyn HndR'].
  assert (Hxy : x' <> y') by (intros ->; apply Hxn; left).
  destruct (root_degree s G RL x' Hok Hx) as (cx & G1 & HG & Hdcx).
  assert (Hy1 : y' ∈ map root G1).
  { destruct Hok as (_ & Hperm & _). rewrite <- Hperm, HG in Hy. cbn in Hy.
    apply elem_of_cons in Hy as [E|Hy]; [congruence|exact Hy]. }
  destruct (pick_root G1 y' Hy1) as (cy & G2 & HG1).
  assert (HG' : G ≡ₚ T x' cx :: T y' cy :: G2) by (rewrite HG, HG1; reflexivity).
  apply (forest_ok_perm _ _ _ _ HG') in Hok. rewrite HG' in Hpw.
  assert (Hlen2 : (2 <= length RL)%nat).
  { rewrite HRL. cbn [length]. lia. }
  pose proof (Hroom x' Hx) as Hrx.
  assert (Hd0 : 0 <= d) by lia.
  apply wp_bind. eapply wp_mono.
  { apply wp_wlp; [|apply (fib_link_sets_p x' y' s)].
    apply (fib_link_spec s x' y' cx cy G2 RL Hok Hk). lia. }
  cbv beta.
  intros _ s1 ((RL1 & Hok1 & HRL1 & Hb1 & Hs1 & Hm1 & Hk1 & Hd1 & Hdx1 & _ & Hpm1) & Hpy).
  unfold vec_set. rewrite (proj2 (Nat.ltb_lt _ _) Hd).
  apply wp_bind, wp_ret, wp_ret. eexists. split; [reflexivity|].
  unfold collide_inv_p.
  exists (T x' (link_kid (T y' cy) cx) :: G2), RL1, x'.
  assert (HlenR : length RL = S (length RL1)) by (rewrite HRL1; reflexivity).
  split; [reflexivity|]. split.
  { split; [exact Hok1|].
    apply (pwf_link (fun a => p (mem s a)) _ x' y' cx cy G2); [|exact Hpw|exact Hpy|].
    - destruct Hok as (Hnd & _). exact Hnd.
    - intros b Hb. apply Hpm1, Hb. }
  split.
  { rewrite HRL1 in HRL. rewrite (perm_swap y' x') in HRL.
    apply Permutation_cons_inv in HRL. exact HRL. }
  split; [rewrite length_insert; exact HlenA|]. split; [|split; [|split; [|split]]].
  - intros i r Hi.
    destruct (decide (i = Z.to_nat d)) as [->|Hne].
    + rewrite list_lookup_insert_eq in Hi by exact Hd. discriminate.
    + assert (Hr : r ∈ ents (<[Z.to_nat d := None]> A)) by (eapply ents_lookup, Hi).
      rewrite list_lookup_insert_ne in Hi by congruence.
      rewrite Hd1; [apply Hslots, Hi|]. intros ->. apply Hxn. right.
      apply elem_of_app. left. exact Hr.
  - intros r Hr. assert (Hr' : r ∈ RL) by (rewrite HRL1; right; exact Hr).
    destruct (decide (r = x')) as [->|Hne].
    + rewrite Hdx1. lia.
    + rewrite Hd1 by exact Hne. specialize (Hroom r Hr'). lia.
  - rewrite Hdx1, <- Hdx. unfold incr64. rewrite Z.mod_small; lia.
  - reflexivity.
  - split; [|split; [|split]]; [| |congruence|congruence].
    + rewrite fnodes_link_kid, <- (fnodes_perm _ _ HG'). exact HpG.
    + intros b. rewrite Hk1. apply Hpk.
Qed.

Lemma collide_step_spec_p s0 G0 nvs todoa n c s :
  Z.of_nat nvs < two64 ->
  collide_inv_p s0 G0 nvs todoa n c s ->
  wp (collide_step c)
     (fun r s' => match r with
        | inl c' => exists n', (n' < n)%nat /\ collide_inv_p s0 G0 nvs todoa n' c' s'
        | inr c' => collide_post_p s0 G0 nvs todoa c' s'
        end) s.
Proof.
  intros Hnvs Hinv. destruct c as [[x d] A].
  pose proof Hinv as
    (G & RL & xa & -> & Hokp & HRL & HlenA & Hslots & Hroom & Hd & Hn & Hpres).
  pose proof Hokp as [Hok _].
  assert (Hx : xa ∈ RL) by (rewrite HRL; left).
  destruct (root_degree s G RL xa Hok Hx) as (cx & G1 & HG & Hdcx).
  assert (Hd0 : 0 <= d) by lia.
  assert (Hlen1 : (1 <= length RL)%nat) by (rewrite HRL; cbn [length]; lia).
  pose proof (Hroom xa Hx) as Hrx.
  assert (Hlt : (Z.to_nat d < length A)%nat) by lia.
  unfold collide_step, vec_get.
  destruct (A !! Z.to_nat d) as [v|] eqn:EA;
    [|apply lookup_ge_None in EA; lia].
  apply wp_bind, wp_ret. destruct v as [ya|]; cbn [is_null].
  - assert (Hya : ya ∈ ents A) by (eapply ents_lookup, EA).
    assert (Hdy : degree (mem s ya) = d).
    { rewrite (Hslots _ _ EA). lia. }
    pose proof (ents_delete A _ _ EA) as HE.
    assert (Hlen' : (length (ents (<[Z.to_nat d := None]> A)) < n)%nat).
    { rewrite Hn, (Permutation_length HE). cbn [length]. lia. }
    unfold compare_less. fh_go.
    destruct (Z.ltb_spec (key (mem s ya)) (key (mem s xa))) as [Hlt'|Hge].
    + eapply wp_mono.
      { apply (collide_link_p s0 G0 nvs todoa s G RL ya xa A d); auto; try lia.
        rewrite HRL, HE. cbn [app]. apply perm_swap. }
      cbv beta. intros r s' (c' & -> & Hinv'). eauto.
    + eapply wp_mono.
      { apply (collide_link_p s0 G0 nvs todoa s G RL xa ya A d); auto; try lia.
        rewrite HRL, HE. reflexivity. }
      cbv beta. intros r s' (c' & -> & Hinv'). eauto.
  - apply wp_ret. unfold collide_post_p. split; [exact EA|]. split; [exact Hd0|].
    exists n. exact Hinv.
Qed.

Lemma collide_spec_p fuel s0 G0 nvs todoa n c s :
  Z.of_nat nvs < two64 ->
  collide_inv_p s0 G0 nvs todoa n c s -> (n < fuel)%nat ->
  wp (loop fuel collide_step c) (collide_post_p s0 G0 nvs todoa) s.
Proof.
  intros Hnvs Hinv Hfuel.
  apply (wp_loop (collide_inv_p s0 G0 nvs todoa)) with (n := n);
    [| exact Hinv |exact Hfuel].
  intros n' c' s' Hinv'. apply collide_step_spec_p; assumption.
Qed.

Definition place_inv_p (s0 : state) (G0 : list tree) (nvs : nat)
    (todo : list ptr) (A : list ptr) (s : state) : Prop :=
  exists G RL todoa,
    todo = map Some todoa /\ okp s G RL /\ RL ≡ₚ ents A ++ todoa
    /\ length A = nvs /\ slots_ok s A /\ room s RL nvs
    /\ preserved s0 G0 s G.

Lemma place_spec_p fuel s0 G0 nvs x todo A s :
  Z.of_nat nvs < two64 -> (length (fnodes G0) < fuel)%nat ->
  place_inv_p s0 G0 nvs (x :: todo) A s ->
  wp (place fuel x A) (fun A' s' => place_inv_p s0 G0 nvs todo A' s') s.
Proof.
  intros Hnvs Hfuel (G & RL & todoa & Htodo & Hokp & HRL & HlenA & Hslots & Hroom & Hpres).
  pose proof Hokp as [Hok _].
  destruct todoa as [|xa todoa]; [discriminate|]. cbn [map] in Htodo.
  injection Htodo as -> ->.
  unfold place, collide. fh_go.
  assert (HRL' : RL ≡ₚ xa :: ents A ++ todoa).
  { rewrite HRL, <- Permutation_middle. reflexivity. }
  eapply wp_mono.
  { apply (collide_spec_p fuel s0 G0 nvs todoa (length (ents A))
             (Some xa, degree (mem s xa), A) s Hnvs).
    - exists G, RL, xa. split; [reflexivity|]. split; [exact Hokp|].
      split; [exact HRL'|]. split; [exact HlenA|]. split; [exact Hslots|].
      split; [exact Hroom|]. split; [reflexivity|]. split; [reflexivity|exact Hpres].
    - destruct Hpres as (HpG & _). destruct Hok as (_ & Hperm & _).
      pose proof (finv_nodes_length G RL Hperm) as Hle.
      rewrite (Permutation_length HpG) in Hle.
      rewrite HRL' in Hle. cbn [length] in Hle. rewrite length_app in Hle. lia. }
  cbv beta. intros [[x1 d1] A1] s1 (EA1 & Hd1 & n1 & Hinv1).
  destruct Hinv1 as
    (G1 & RL1 & xa1 & -> & Hok1 & HRL1 & HlenA1 & Hslots1 & Hroom1 & Hdeg1 & _ & Hpres1).
  pose proof (lookup_lt_Some _ _ _ EA1) as Hlt1.
  cbv beta iota zeta. unfold vec_set. unfold ptr in *.
  rewrite (proj2 (Nat.ltb_lt _ _) Hlt1). apply wp_ret.
  exists G1, RL1, todoa. split; [reflexivity|]. split; [exact Hok1|].
  split; [rewrite HRL1, (ents_insert A1 _ xa1 EA1); reflexivity|].
  split; [rewrite length_insert; exact HlenA1|]. split; [|split; assumption].
  intros i r Hi. destruct (decide (i = Z.to_nat d1)) as [->|Hne].
  - rewrite list_lookup_insert_eq in Hi by exact Hlt1. injection Hi as ->.
    rewrite <- Hdeg1. lia.
  - rewrite list_lookup_insert_ne in Hi by congruence. apply Hslots1, Hi.
Qed.

(** [consolidate] with the parent links: the roots it leaves have degrees of
    their own. *)
Lemma consolidate_spec_p fuel s G RL :
  okp s G RL -> min s = head RL ->
  Z.of_nat (length (fnodes G)) < two64 -> (length (fnodes G) < fuel)%nat ->
  wp (consolidate fuel)
     (fun _ s' => exists G' RL', fpre s' G' RL' /\ least s' RL'
        /\ preserved s G s' G'
        /\ Forall (pwf (fun a => p (mem s' a)) None) G'
        /\ NoDup (map (fun r => degree (mem s' r)) RL')) s.
Proof.
  intros [Hok Hpw] Hmin Hlt Hfuel. unfold consolidate. fh_step. fh_step.
  pose proof Hok as (Hnd & Hperm & Hring & Hwf & Hho).
  assert (HndR : NoDup RL) by (rewrite <- Hperm; apply roots_NoDup, Hnd).
  pose proof (finv_nodes_length G RL Hperm) as HlenR.
  rewrite Hmin. destruct RL as [|a0 l]; cbn [head is_null].
  - apply Permutation_nil_r, map_eq_nil in Hperm. subst G.
    fh_step. fh_step.
    change (Z.to_nat (add64 0 0)) with 0%nat. cbn [replicate for_acc orig_nodes].
    fh_step. fh_step. fh_step. cbn [for_each]. fh_step.
    exists [], []. unfold fpre, preserved. cbn.
    repeat split; auto; try constructor. intros a b Ha. discriminate.
  - fh_step.
    eapply wp_mono.
    { apply (census_spec fuel s a0 l Hring HndR); [lia|cbn [length] in HlenR; lia]. }
    cbv beta. intros c s' (-> & Ho & Hn & H0 & Hmax & Hwit).
    assert (Hsum : 0 <= max_d c + num_trees c
                   /\ max_d c + num_trees c <= Z.of_nat (length (fnodes G))).
    { rewrite Hn. destruct Hwit as [->|(r & Hr & ->)]; [lia|].
      destruct (degree_room s G (a0 :: l) r Hok Hr). lia. }
    set (nvs := Z.to_nat (add64 (max_d c) (num_trees c))).
    assert (Hnvs : Z.of_nat nvs = max_d c + num_trees c).
    { unfold nvs, add64. rewrite Z.mod_small; lia. }
    rewrite Ho. fh_step.
    eapply wp_mono.
    { apply (wp_for_acc (place_inv_p s G nvs)).
      - intros x todo A s1 Hinv.
        apply (place_spec_p fuel s G nvs x todo A s1); [lia|exact Hfuel|exact Hinv].
      - exists G, (a0 :: l), (a0 :: l). split; [reflexivity|].
        split; [split; [exact Hok|exact Hpw]|].
        rewrite ents_replicate. split; [reflexivity|].
        split; [apply length_replicate|]. split; [|split].
        + intros i r Hi. apply lookup_replicate in Hi as [Hi _]. discriminate.
        + intros r Hr. specialize (Hmax r Hr). lia.
        + unfold preserved. auto. }
    cbv beta.
    intros A s1 (G1 & RL1 & todoa & Htodo & [Hok1 Hpw1] & HRL1 & HlenA & Hslots & Hroom & Hpres).
    symmetry in Htodo. apply map_eq_nil in Htodo. subst todoa.
    rewrite app_nil_r in HRL1.
    fh_step. fh_step.
    pose proof Hok1 as (Hnd1 & Hperm1 & Hring1 & Hwf1 & Hho1).
    assert (HndR1 : NoDup RL1) by (rewrite <- Hperm1; apply roots_NoDup, Hnd1).
    eapply wp_mono.
    { apply (rebuild_spec (set_min None s1) RL1 A Hring1 HndR1 HRL1). reflexivity. }
    cbv beta. intros _ s2 (RD & Hring2 & Hmin2 & Hleast2 & HpermD & Hfr).
    exists G1, RD. split; [|split; [exact Hleast2|split; [|split]]].
    + split; [exact Hnd1|]. split; [rewrite HpermD; exact Hperm1|].
      split; [exact Hring2|]. split; [exact Hmin2|]. split.
      * apply (fwf_ring_frame (set_min None s1) s2 RL1 G1 Hfr); [|exact Hwf1].
        intros b Hb Hin. apply (inner_not_root G1 b Hnd1 Hb).
        rewrite Hperm1. exact Hin.
      * apply (ho_ring_frame (set_min None s1) s2 RL1 G1 Hfr). exact Hho1.
    + destruct Hpres as (HpG & Hpk & Hpb & Hps).
      destruct Hfr as (Hb2 & Hs2 & Hf2 & _). cbn [set_min brk _size mem] in *.
      split; [exact HpG|]. split; [|split; congruence].
      intros b. destruct (Hf2 b) as (-> & _). apply Hpk.
    + destruct Hfr as (_ & _ & Hf2 & _). cbn [set_min mem] in Hf2.
      apply (pwf_forest_ext (fun a => p (mem s1 a))); [|exact Hpw1].
      intros b _. destruct (Hf2 b) as (_ & -> & _). reflexivity.
    + destruct Hfr as (_ & _ & Hf2 & _). cbn [set_min mem] in Hf2.
      rewrite HpermD, HRL1.
      erewrite map_ext; [apply (slots_degrees s1 A Hslots)|].
      intros b. cbv beta. destruct (Hf2 b) as (_ & _ & _ & -> & _). reflexivity.
Qed.

Lemma pwf_root_change (par par' : addr -> ptr) up up' t :
  par' (root t) = up' -> (forall b, b ∈ fnodes (kids t) -> par' b = par b) ->
  pwf par up t -> pwf par' up' t.
Proof.
  destruct t as [a cs]. cbn [root kids]. rewrite !pwf_T. intros Hr He [_ H].
  split; [exact Hr|]. apply (pwf_forest_ext par); assumption.
Qed.

(** [pop] with the parent links: the node that leaves is the one at [min],
    and the roots left have degrees of their own. *)
Lemma fh_pop_spec_p fuel s G :
  finv s G -> Forall (pwf (fun a => p (mem s a)) None) G ->
  G <> [] -> (length (fnodes G) < fuel)%nat ->
  wp (pop fuel)
     (fun k s' => exists G' RL' z,
        finv s' G' /\ Forall (pwf (fun a => p (mem s' a)) None) G'
        /\ min s = Some z /\ k = key (mem s z)
        /\ fnodes G ≡ₚ z :: fnodes G'
        /\ (forall b, key (mem s' b) = key (mem s b))
        /\ (forall b, b ∈ fnodes G -> key (mem s z) <= key (mem s b))
        /\ brk s' = brk s
        /\ fpre s' G' RL'
        /\ NoDup (map (fun r => degree (mem s' r)) RL')) s.
Proof.
  intros (RL & (Hnd & Hperm & Hring & Hmin & Hwf & Hho) & Hleast & Hbrk & Hsz & Hlt)
    Hpw Hne Hfuel.
  destruct RL as [|z R].
  { apply Permutation_nil_r, map_eq_nil in Hperm. contradiction. }
  cbn [head] in Hmin.
  assert (Hz : z ∈ map root G) by (rewrite Hperm; left).
  destruct (pick_root G z Hz) as (cz & G1 & HG).
  assert (Hok : forest_ok s (T z cz :: G1) (z :: R)).
  { apply (forest_ok_perm s G _ _ HG). split; [exact Hnd|]. split; [exact Hperm|].
    split; [exact Hring|]. split; assumption. }
  assert (Hlen : length (fnodes G) = length (fnodes (T z cz :: G1))).
  { apply Permutation_length, fnodes_perm, HG. }
  assert (Hmin_all : forall b, b ∈ fnodes G -> key (mem s z) <= key (mem s b)).
  { intros b Hb. destruct (ho_forest_min _ _ Hho b Hb) as (t & Ht & Hle).
    unfold fkey in Hle. etransitivity; [|exact Hle].
    apply (Hleast z (root t) Hmin). rewrite <- Hperm.
    apply list_elem_of_fmap. eauto. }
  unfold pop. fh_step. fh_step. rewrite Hmin. cbn [is_null].
  apply (pop_front_wp fuel s z cz G1 R); try (rewrite <- Hlen; assumption);
    [exact Hok|exact Hmin|].
  intros s1 (Hok1 & Hmin1 & Hsz1 & Hbrk1 & Hkm1 & Hp0 & Hpo).
  assert (Hlen1 : length (fnodes G) = S (length (fnodes (G1 ++ cz)))).
  { rewrite Hlen, fnodes_cons, nodes_T, fnodes_app, !length_app. cbn [length]. lia. }
  assert (Hpw1 : Forall (pwf (fun a => p (mem s1 a)) None) (G1 ++ cz)).
  { rewrite HG in Hpw. rewrite (fnodes_perm _ _ HG) in Hnd.
    apply Forall_cons in Hpw as [Hpz Hp1].
    apply pwf_T in Hpz as [_ Hpz]. rewrite fnodes_cons, nodes_T in Hnd.
    apply NoDup_app in Hnd as (Hndz & Hz1 & Hnd1).
    apply NoDup_cons in Hndz as [_ Hndz].
    apply Forall_app. split.
    - apply (pwf_forest_ext (fun a => p (mem s a))); [|exact Hp1].
      intros b Hb. apply Hpo. intros Hr.
      apply (Hz1 b); [right; apply roots_in_fnodes, Hr|exact Hb].
    - apply Forall_forall. intros t Ht. rewrite Forall_forall in Hpz.
      apply (pwf_root_change (fun a => p (mem s a)) _ (Some z)); [| |apply Hpz, Ht].
      + apply Hp0, list_elem_of_fmap. eauto.
      + intros b Hb. apply Hpo.
        apply (inner_not_root cz b Hndz). unfold inner.
        apply list_elem_of_In, in_flat_map. exists t.
        split; apply list_elem_of_In; assumption. }
  apply wp_bind. eapply wp_mono.
  { apply (consolidate_spec_p fuel s1 (G1 ++ cz) _ (conj Hok1 Hpw1) Hmin1); lia. }
  cbv beta.
  intros _ s2 (G' & RL' & Hpre2 & Hleast2 & (HpG & Hpk & Hpb & Hps) & Hpw2 & Hdeg2).
  fh_step.
  assert (Hsub : forall b, b ∈ fnodes G' -> b ∈ fnodes G).
  { intros b Hb. rewrite HpG in Hb. rewrite (fnodes_perm _ _ HG).
    rewrite fnodes_cons, nodes_T. rewrite fnodes_app in Hb. set_solver. }
  assert (Hkey2 : forall b, key (mem s2 b) = key (mem s b)).
  { intros b. rewrite Hpk. apply Hkm1. }
  exists G', RL', z.
  split; [|split; [exact Hpw2|split; [first [exact Hmin|reflexivity]|split; [apply Hkey2|]]]].
  - exists RL'. split; [exact Hpre2|]. split; [|split; [|split]].
    + intros a b Ha Hb. apply (Hleast2 a b); [|exact Hb].
      destruct Hpre2 as (_ & _ & _ & <- & _). exact Ha.
    + intros a Ha. rewrite Hpb, Hbrk1. apply Hbrk, Hsub, Ha.
    + rewrite Hps, Hsz1. rewrite (Permutation_length HpG). reflexivity.
    + rewrite (Permutation_length HpG). lia.
  - split; [|split; [exact Hkey2|split; [exact Hmin_all|split; [congruence|auto]]]].
    rewrite (fnodes_perm _ _ HG), fnodes_cons, nodes_T. cbn [app]. constructor.
    rewrite HpG, fnodes_app. apply Permutation_app_comm.
Qed.

(** [insert] with the parent links. *)
Lemma fh_insert_spec_p s G (k : Z) :
  finv s G -> Forall (pwf (fun a => p (mem s a)) None) G ->
  Z.of_nat (length (fnodes G)) + 1 < two64 ->
  wp (insert k)
     (fun h s' => exists G', finv s' G'
        /\ Forall (pwf (fun a => p (mem s' a)) None) G'
        /\ fnodes G' = fnodes G ++ [brk s]
        /\ h = Some (brk s) /\ brk s' = S (brk s)
        /\ key (mem s' (brk s)) = k
        /\ (forall b, b <> brk s -> key (mem s' b) = key (mem s b))) s.
Proof.
  intros (RL & (Hnd & Hperm & Hring & Hmin & Hwf & Hho) & Hleast & Hbrk & Hsz & Hlt)
    Hpw Hlt'.
  unfold insert. apply wp_bind, fh_wp_alloc. set (x := brk s).
  do 6 fh_step.
  match goal with |- wp _ _ ?s0 => set (s1 := s0) end.
  assert (Hx : x ∉ fnodes G) by (intros Hin; apply Hbrk in Hin; unfold x in Hin; lia).
  assert (Hm1 : forall b, b <> x -> mem s1 b = mem s b).
  { intros b Hb. unfold s1. fh_simpl. reflexivity. }
  assert (Hx1 : mem s1 x = set_right (Some x) (set_left (Some x) (set_key k fresh_node))).
  { unfold s1. fh_simpl. reflexivity. }
  assert (HxR : x ∉ RL).
  { intros Hin. apply Hx, roots_in_fnodes. rewrite Hperm. exact Hin. }
  assert (Hring1 : is_ring (mem s1) RL).
  { eapply is_ring_frame; [|exact Hring]. intros b Hb.
    rewrite Hm1; [auto|]. intros ->. auto. }
  apply wp_bind. eapply wp_mono.
  { apply (insert_node_root s1 x x RL Hring1).
    - exact Hmin.
    - apply NoDup_cons. split; [exact HxR|]. rewrite <- Hperm. apply roots_NoDup, Hnd.
    - rewrite Hx1. reflexivity. }
  cbv beta. intros _ s2 (RL' & Hring2 & Hperm2 & Hmin2 & Hleast2 & Hf & _).
  fh_step. fh_step. fh_step.
  assert (Hf' := Hf). destruct Hf' as (Hbrk2 & Hsz2 & Hfld & Hlr).
  assert (HndG' : NoDup (fnodes (G ++ [T x []]))).
  { rewrite fnodes_app. cbn. apply NoDup_app. split; [exact Hnd|].
    split; [|apply NoDup_singleton]. intros b Hb Hin.
    apply list_elem_of_singleton in Hin. congruence. }
  assert (Hlen : length (fnodes (G ++ [T x []])) = S (length (fnodes G))).
  { rewrite fnodes_app, length_app. cbn. lia. }
  exists (G ++ [T x []]). split; [|split].
  - exists RL'. unfold fpre, least, fkey in *. fh_simpl.
    split; [split; [exact HndG'|]|].
    + split; [rewrite map_app, Hperm2, Hperm; reflexivity|].
      split; [exact Hring2|]. split; [exact Hmin2|]. split.
      * apply Forall_app. split.
        -- eapply (fwf_ring_frame s1 s2); [exact Hf| |].
           ++ intros b Hb Hin. pose proof (inner_not_root G b Hnd Hb) as Hnr.
              rewrite Hperm in Hnr. apply inner_in_fnodes in Hb. set_solver.
           ++ eapply fwf_forest_frame; [| |exact Hwf]; intros b Hb;
                [|apply inner_in_fnodes in Hb]; rewrite Hm1; auto; congruence.
        -- constructor; [|constructor]. apply fwf_T. cbn [map length head].
           destruct (Hfld x) as (_ & _ & -> & -> & _). rewrite Hx1. cbn.
           split; [reflexivity|]. split; [reflexivity|]. split; [exact I|constructor].
      * apply Forall_app. split.
        -- eapply (ho_ring_frame s1 s2); [exact Hf|].
           eapply ho_forest_frame; [|exact Hho]. intros b Hb. unfold fkey.
           rewrite Hm1; congruence.
        -- constructor; [|constructor]. apply ho_T. constructor.
    + split; [|split; [|split]].
      * intros a b Ha Hb. apply (Hleast2); [|congruence|exact Hb].
        intros a' b' Ha' Hb'. rewrite !Hm1.
        -- apply Hleast; [congruence|exact Hb'].
        -- intros ->. auto.
        -- intros ->. apply HxR. destruct RL; [discriminate|].
           injection Ha' as ->. left.
      * intros a Ha. rewrite fnodes_app in Ha. rewrite Hbrk2. unfold s1. cbn.
        apply elem_of_app in Ha as [Ha|Ha]; [apply Hbrk in Ha; lia|].
        cbn in Ha. apply list_elem_of_singleton in Ha. subst a. unfold x. lia.
      * rewrite Hsz2. unfold s1. cbn. rewrite Hsz, Hlen. unfold incr64.
        rewrite Z.mod_small; lia.
      * rewrite Hlen. lia.
  - fh_simpl. apply Forall_app. split.
    + apply (pwf_forest_ext (fun a => p (mem s a))); [|exact Hpw].
      intros b Hb. cbv beta. destruct (Hfld b) as (_ & -> & _).
      rewrite Hm1; [reflexivity|]. intros ->. exact (Hx Hb).
    + constructor; [|constructor]. apply pwf_T. split; [|constructor].
      destruct (Hfld x) as (_ & -> & _). rewrite Hx1. reflexivity.
  - split; [rewrite fnodes_app; reflexivity|]. split; [reflexivity|].
    fh_simpl. split; [rewrite Hbrk2; reflexivity|]. split.
    + destruct (Hfld x) as (-> & _). rewrite Hx1. reflexivity.
    + intros b Hb. destruct (Hfld b) as (-> & _). rewrite Hm1 by exact Hb. reflexivity.
Qed.

End FibParents.

(** ** Fibonacci heap: a caller that lowers keys *)

(** [a] is in [l]. *)
Definition inb (a : addr) (l : list addr) : bool := existsb (Nat.eqb a) l.

Lemma inb_true a l : inb a l = true <-> a ∈ l.
Proof.
  unfold inb. rewrite existsb_exists. split.
  - intros (b & Hb & E). apply Nat.eqb_eq in E. subst b. apply list_elem_of_In, Hb.
  - intros H. exists a. split; [apply list_elem_of_In, H|apply Nat.eqb_refl].
Qed.

Lemma inb_false a l : inb a l = false <-> a ∉ l.
Proof.
  rewrite <- inb_true. destruct (inb a l); split; congruence.
Qed.

Lemma inb_ext a l l' : (a ∈ l <-> a ∈ l') -> inb a l = inb a l'.
Proof.
  intros H. destruct (inb a l') eqn:E.
  - apply inb_true, H, inb_true, E.
  - apply inb_false. intros Hin. apply H, inb_true in Hin. congruence.
Qed.

(** The keys held, among the nodes [l]: [X] are the nodes of the heap. *)
Lemma live_keys_nodes (k : addr -> Z) (l : list addr) : forall X,
  NoDup l -> NoDup X -> (forall a, a ∈ X -> a ∈ l) ->
  live_keys (map (fun a => (inb a X, k a)) l) ≡ₚ map k X.
Proof.
  unfold live_keys. induction l as [|a l IH]; intros X Hl HX Hsub.
  - destruct X as [|b X]; [reflexivity|]. specialize (Hsub b ltac:(left)). inversion Hsub.
  - apply NoDup_cons in Hl as [Ha Hl]. cbn [map List.filter fst].
    destruct (inb a X) eqn:E.
    + apply inb_true in E. apply elem_of_Permutation in E as (X' & HP).
      rewrite HP in HX. apply NoDup_cons in HX as [HaX' HX'].
      cbn [map snd]. rewrite HP. cbn [map]. constructor.
      rewrite <- (IH X' Hl HX').
      * erewrite (map_ext_in (fun a0 => (inb a0 X, k a0))); [reflexivity|].
        intros b Hb. cbv beta. f_equal. apply inb_ext. rewrite HP.
        rewrite elem_of_cons. apply list_elem_of_In in Hb.
        split; [intros [->|H]; [contradiction|exact H]|auto].
      * intros b Hb. assert (Hb' : b ∈ X) by (rewrite HP; right; exact Hb).
        apply Hsub, elem_of_cons in Hb' as [->|Hb']; [contradiction|exact Hb'].
    + apply inb_false in E. apply (IH X Hl HX).
      intros b Hb. pose proof (Hsub b Hb) as Hb'.
      apply elem_of_cons in Hb' as [->|Hb']; [contradiction|exact Hb'].
Qed.

Section FibHandles.
Import FibHeap.
Implicit Types (s : state) (G : list tree).

(** What the queue remembers of the node [a]. *)
Definition entry s G (a : addr) : bool * Z :=
  (inb a (fnodes G), key (mem s a)).

(** The handles are the nodes allocated, in their order. *)
Definition book s G : list (bool * Z) := map (entry s G) (seq 0 (brk s)).

Definition dsim s (hs : list ptr) (h : list (bool * Z)) : Prop :=
  hs = map Some (seq 0 (brk s))
  /\ exists G, finv s G /\ Forall (pwf (fun a => p (mem s a)) None) G
               /\ h = book s G.

Lemma finv_bound s G : finv s G -> forall a, a ∈ fnodes G -> (a < brk s)%nat.
Proof. intros (RL & _ & _ & H & _). exact H. Qed.

Lemma finv_NoDup s G : finv s G -> NoDup (fnodes G).
Proof. intros (RL & (H & _) & _). exact H. Qed.

Lemma finv_size s G : finv s G -> _size s = Z.of_nat (length (fnodes G)).
Proof. intros (RL & _ & _ & _ & H & _). exact H. Qed.

Lemma finv_length s G : finv s G -> (length (fnodes G) <= brk s)%nat.
Proof.
  intros H. rewrite <- (length_seq (brk s) 0) at 1.
  apply submseteq_length, NoDup_submseteq; [apply (finv_NoDup s G H)|].
  intros a Ha. apply elem_of_seq. pose proof (finv_bound s G H a Ha). lia.
Qed.

Lemma book_live s G : finv s G -> live_keys (book s G) ≡ₚ fkeys_in s G.
Proof.
  intros H. unfold book, entry, fkeys_in, fkey.
  apply (live_keys_nodes (fun a => key (mem s a)) (seq 0 (brk s)) (fnodes G)).
  - apply NoDup_seq.
  - apply (finv_NoDup s G H).
  - intros a Ha. apply elem_of_seq. pose proof (finv_bound s G H a Ha). lia.
Qed.

Lemma book_lookup s G (i : nat) :
  (i < brk s)%nat -> book s G !! i = Some (entry s G i).
Proof.
  intros Hi. unfold book. rewrite list_lookup_fmap, lookup_seq_lt by exact Hi.
  reflexivity.
Qed.

Lemma book_lookup_ge s G (i : nat) : (brk s <= i)%nat -> book s G !! i = None.
Proof.
  intros Hi. apply lookup_ge_None. unfold book. rewrite length_map, length_seq. exact Hi.
Qed.

Lemma handle_lookup s (i : nat) :
  (i < brk s)%nat -> nth i (map Some (seq 0 (brk s))) None = Some i.
Proof.
  intros Hi. rewrite (nth_indep _ None (Some 0%nat)) by (rewrite length_map, length_seq; exact Hi).
  rewrite map_nth, seq_nth by exact Hi. reflexivity.
Qed.

Lemma handle_lookup_ge s (i : nat) :
  (brk s <= i)%nat -> nth i (map Some (seq 0 (brk s))) None = None.
Proof.
  intros Hi. apply nth_overflow. rewrite length_map, length_seq. exact Hi.
Qed.

(** The book when one entry changes. *)
Lemma book_update s G s' G' (z : nat) :
  brk s' = brk s -> (z < brk s)%nat ->
  (forall a, a <> z -> entry s' G' a = entry s G a) ->
  book s' G' = <[z := entry s' G' z]> (book s G).
Proof.
  intros Hb Hz He. apply list_eq. intros i.
  destruct (Nat.lt_ge_cases i (brk s)) as [Hi|Hi].
  - rewrite book_lookup by lia.
    destruct (Nat.eq_dec i z) as [->|Hne].
    + rewrite list_lookup_insert_eq; [reflexivity|].
      unfold book. rewrite length_map, length_seq. exact Hz.
    + rewrite list_lookup_insert_ne by congruence.
      rewrite book_lookup by exact Hi. f_equal. apply He, Hne.
  - rewrite book_lookup_ge by lia.
    symmetry. apply lookup_ge_None. rewrite length_insert.
    unfold book. rewrite length_map, length_seq. exact Hi.
Qed.

Lemma fh_run_dk_sim fuel cs : forall s hs h,
  dsim s hs h ->
  (brk s + dinserts cs < fuel)%nat ->
  Z.of_nat (brk s + dinserts cs) < two64 ->
  pqd "Pop from empty FibHeap" "FibHeap key can't be increased" cs h
      (observe (fun _ => tt) (run_dk fuel cs hs s)).
Proof.
  induction cs as [|c cs IH]; intros s hs h (Hhs & G & Hinv & Hpw & Hh) Hfuel Hlt.
  { cbn. constructor. }
  pose proof (finv_length s G Hinv) as Hlen.
  pose proof (finv_NoDup s G Hinv) as Hnd.
  destruct c as [d| | | |i|i k]; cbn [run_dk dinserts] in *.
  - (* insert *)
    destruct (wp_ok _ _ _ (fh_insert_spec_p s G d Hinv Hpw ltac:(lia)))
      as (h0 & s1 & E & G1 & Hinv1 & Hpw1 & Hn1 & -> & Hb1 & Hk1 & Hko1).
    rewrite (bind_ok _ _ _ _ _ E). apply pqd_insert. apply IH.
    + split; [rewrite Hhs, Hb1, seq_S, map_app; reflexivity|].
      exists G1. split; [exact Hinv1|]. split; [exact Hpw1|].
      rewrite Hh. unfold book. rewrite Hb1, seq_S, map_app. cbn [map Nat.add]. f_equal.
      * apply map_ext_in. intros a Ha. apply in_seq in Ha. unfold entry. f_equal.
        -- apply inb_ext. rewrite Hn1, elem_of_app, list_elem_of_singleton.
           split; [auto|intros [H| ->]; [exact H|lia]].
        -- symmetry. apply Hko1. lia.
      * unfold entry. rewrite Hk1. f_equal. f_equal. symmetry. apply inb_true.
        rewrite Hn1. apply elem_of_app. right. left.
    + rewrite Hb1. lia.
    + rewrite Hb1. lia.
  - (* pop *)
    destruct (decide (G = [])) as [->|Hne].
    + pose proof (fh_finv_min_none s Hinv) as Hmin.
      assert (E : pop fuel s = Throw "Pop from empty FibHeap" s).
      { unfold pop, bind, gets. rewrite Hmin. reflexivity. }
      unfold bind at 1. rewrite E. cbn [observe]. apply pqd_pop_none.
      apply Permutation_nil_r. rewrite Hh, (book_live s [] Hinv). reflexivity.
    + destruct (wp_ok _ _ _ (fh_pop_spec_p fuel s G Hinv Hpw Hne ltac:(lia)))
        as (k & s1 & E & G' & RL' & z & Hinv1 & Hpw1 & Hmin & -> & Hn & Hk & Hall & Hb1 & _).
      rewrite (bind_ok _ _ _ _ _ E), observe_push.
      assert (Hz : z ∈ fnodes G) by (rewrite Hn; left).
      pose proof (finv_bound s G Hinv z Hz) as Hzb.
      rewrite Hn in Hnd. apply NoDup_cons in Hnd as [Hz' _].
      apply (pqd_pop _ _ z).
      * rewrite Hh, book_lookup by exact Hzb. unfold entry.
        rewrite (proj2 (inb_true _ _) Hz). reflexivity.
      * rewrite Hh, (book_live s G Hinv). unfold fkeys_in, fkey.
        apply Forall_forall. intros y Hy. apply list_elem_of_fmap in Hy as (b & -> & Hb).
        apply Hall, Hb.
      * apply IH.
        -- split; [rewrite Hb1; exact Hhs|]. exists G'.
           split; [exact Hinv1|]. split; [exact Hpw1|].
           rewrite Hh, (book_update s G s1 G' z Hb1 Hzb).
           ++ unfold entry at 1. rewrite Hk, (proj2 (inb_false _ _) Hz'). reflexivity.
           ++ intros a Ha. unfold entry. rewrite Hk. f_equal. apply inb_ext.
              rewrite Hn, elem_of_cons. split; [auto|intros [->|H]; [contradiction|exact H]].
        -- rewrite Hb1. lia.
        -- rewrite Hb1. lia.
  - (* get_min *)
    destruct (decide (G = [])) as [->|Hne].
    + pose proof (fh_finv_min_none s Hinv) as Hmin.
      assert (E : get_min s = Fault).
      { unfold get_min, bind, gets. rewrite Hmin. reflexivity. }
      unfold bind at 1. rewrite E. cbn [observe]. apply pqd_get_min_none.
      apply Permutation_nil_r. rewrite Hh, (book_live s [] Hinv). reflexivity.
    + destruct (wp_ok _ _ _ (fh_get_min_spec s G Hinv Hne))
        as (k & s1 & E & -> & Hk & Hall).
      rewrite (bind_ok _ _ _ _ _ E), observe_push. apply pqd_get_min.
      * rewrite Hh, (book_live s G Hinv). exact Hk.
      * rewrite Hh, (book_live s G Hinv). exact Hall.
      * apply IH; [|exact Hfuel|exact Hlt]. split; [exact Hhs|]. eauto.
  - (* size *)
    assert (E : size s = Ok (_size s) s) by reflexivity.
    rewrite (bind_ok _ _ _ _ _ E), observe_push.
    replace (_size s) with (Z.of_nat (length (live_keys h))).
    + apply pqd_size. apply IH; [|exact Hfuel|exact Hlt]. split; [exact Hhs|]. eauto.
    + rewrite (finv_size s G Hinv), Hh, (Permutation_length (book_live s G Hinv)).
      unfold fkeys_in. rewrite length_map. reflexivity.
  - (* get_key *)
    destruct (Nat.lt_ge_cases i (brk s)) as [Hi|Hi].
    + rewrite Hhs, handle_lookup by exact Hi.
      assert (E : get_key (Some i) s = Ok (key (mem s i)) s) by reflexivity.
      rewrite (bind_ok _ _ _ _ _ E), observe_push.
      apply (pqd_get_key _ _ i (inb i (fnodes G))).
      * rewrite Hh, book_lookup by exact Hi. reflexivity.
      * rewrite <- Hhs. apply IH; [|exact Hfuel|exact Hlt]. split; [exact Hhs|]. eauto.
    + rewrite Hhs, handle_lookup_ge by exact Hi. cbn. apply pqd_get_key_none.
      rewrite Hh. apply book_lookup_ge, Hi.
  - (* decrease_key *)
    destruct (Nat.lt_ge_cases i (brk s)) as [Hi|Hi].
    + rewrite Hhs, handle_lookup by exact Hi. rewrite <- Hhs.
      destruct (Z.lt_ge_cases (key (mem s i)) k) as [Hlt'|Hge].
      * assert (E : decrease_key fuel (Some i) k s
                    = Throw "FibHeap key can't be increased" s).
        { unfold decrease_key. unfold bind at 1. unfold load, gets.
          rewrite (proj2 (Z.ltb_lt _ _) Hlt'). reflexivity. }
        unfold bind at 1. rewrite E. cbn [observe].
        apply (pqd_decrease_above _ _ i (inb i (fnodes G)) (key (mem s i))); [|exact Hlt'].
        rewrite Hh, book_lookup by exact Hi. reflexivity.
      * destruct (inb i (fnodes G)) eqn:Ein.
        -- apply inb_true in Ein.
           destruct (wp_ok _ _ _ (fh_decrease_key_spec fuel s G i k Hinv Hpw Ein Hge
                                    ltac:(lia)))
             as ([] & s1 & E & G' & Hinv1 & Hpw1 & Hn & HkN & Hko & Hb1).
           rewrite (bind_ok _ _ _ _ _ E).
           apply (pqd_decrease _ _ i (key (mem s i))); [|exact Hge|].
           ++ rewrite Hh, book_lookup by exact Hi. unfold entry.
              rewrite (proj2 (inb_true _ _) Ein). reflexivity.
           ++ apply IH.
              ** split; [rewrite Hb1; exact Hhs|]. exists G'.
                 split; [exact Hinv1|]. split; [exact Hpw1|].
                 rewrite Hh, (book_update s G s1 G' i Hb1 Hi).
                 --- unfold entry at 1. rewrite HkN.
                     rewrite (proj2 (inb_true i (fnodes G'))); [reflexivity|].
                     rewrite Hn. exact Ein.
                 --- intros a Ha. unfold entry. rewrite (Hko a Ha). f_equal.
                     apply inb_ext. rewrite Hn. reflexivity.
              ** rewrite Hb1. lia.
              ** rewrite Hb1. lia.
        -- apply (pqd_decrease_taken _ _ i (key (mem s i))); [|exact Hge].
           rewrite Hh, book_lookup by exact Hi. unfold entry. rewrite Ein. reflexivity.
    + rewrite Hhs, handle_lookup_ge by exact Hi. cbn. apply pqd_decrease_none.
      rewrite Hh. apply book_lookup_ge, Hi.
Qed.

End FibHandles.

(** X10.  For any calls of [insert], [pop], [get_min], [size], [get_key] and
    [decrease_key] on a Fibonacci heap that starts empty, what the calls
    return is allowed by the priority queue with handles: [pop] returns a
    least key held, which is no longer held; [get_min] a least key held;
    [size] the number of keys held; [get_key] the key of the handle;
    [decrease_key] lowers the key of a handle whose key is held, and throws
    for a key above it.  [pop] of no key throws, [get_min] of no key and
    calls through a handle never returned are undefined behaviour.  [fuel]
    is the budget of every loop, above the number of calls of [insert], which
    is below [2^64]. *)
Theorem fibheap_calls_with_decrease_key (cs : list dcall) (fuel : nat) :
  (dinserts cs < fuel)%nat -> Z.of_nat (dinserts cs) < two64 ->
  pqd "Pop from empty FibHeap" "FibHeap key can't be increased" cs []
      (observe (fun _ => tt) (FibHeap.run_dk fuel cs [] FibHeap.init)).
Proof.
  intros Hfuel Hlt. apply fh_run_dk_sim; [|exact Hfuel|exact Hlt].
  split; [reflexivity|]. exists []. split; [apply finv_init|].
  split; [constructor|reflexivity].
Qed.

(** ** The root ring walked from [min] *)

Section FibRoots.
Import FibHeap.
Implicit Types (s : state) (G : list tree).

Lemma ring_links (m : addr -> FibHeapNode) (stop : addr) l : forall (n : nat) (a : addr),
  links m (a :: l ++ [stop]) -> stop ∉ l -> (length l < n)%nat ->
  ring n m stop (Some a) = a :: l.
Proof.
  induction l as [|b l IH]; intros n a Hl Hs Hn.
  - destruct n as [|n]; [cbn in Hn; lia|]. cbn [app] in Hl.
    destruct Hl as (Hr & _). cbn [ring]. rewrite Hr. cbn [ptr_eqb].
    rewrite Nat.eqb_refl. reflexivity.
  - destruct n as [|n]; [cbn in Hn; lia|]. cbn [app] in Hl.
    destruct Hl as (Hr & _ & Hl). cbn [ring]. rewrite Hr. cbn [ptr_eqb].
    assert (Hbs : b <> stop) by (intros ->; apply Hs; left).
    rewrite (proj2 (Nat.eqb_neq b stop) Hbs). f_equal. apply IH.
    + exact Hl.
    + intros H. apply Hs. right. exact H.
    + cbn [length] in Hn. lia.
Qed.

(** The walk from [min] along [right] gives the ring of the roots. *)
Lemma roots_fpre s G RL :
  fpre s G RL -> (length (fnodes G) <= brk s)%nat -> roots s = RL.
Proof.
  intros (Hnd & Hperm & Hring & Hmin & _) Hlen. unfold roots. rewrite Hmin.
  destruct RL as [|a l]; [reflexivity|]. cbn [head].
  assert (Hnd' : NoDup (a :: l)).
  { rewrite <- Hperm. apply roots_NoDup, Hnd. }
  apply NoDup_cons in Hnd' as [Ha _].
  apply ring_links; [exact Hring|exact Ha|].
  pose proof (Permutation_length Hperm) as E1.
  pose proof (Permutation_length (fnodes_roots_inner G)) as E2.
  rewrite length_app in E2. rewrite length_map in *. cbn [length] in E1. lia.
Qed.

Lemma fwf_degree (m : addr -> FibHeapNode) t :
  fwf m t -> degree (m (root t)) = Z.of_nat (length (kids t)).
Proof. destruct t as [a cs]. intros H. apply fwf_T in H. apply H. Qed.

End FibRoots.

(** X9.  [pop] on a non-empty Fibonacci heap whose parent links agree with
    its trees returns, and leaves a heap (a heap-ordered forest with the ring
    of its roots starting at a root of least key, and parent links that agree)
    in which no two roots of the ring walked from [min] have the same
    [degree]; the [degree] of every root is the number of its children. *)
Theorem fibheap_pop_roots_distinct_degrees (s : FibHeap.state) (G : list tree)
    (fuel : nat) :
  finv s G ->
  Forall (pwf (fun a => FibHeap.p (FibHeap.mem s a)) None) G ->
  G <> [] -> (length (fnodes G) < fuel)%nat ->
  exists k s' G',
    FibHeap.pop fuel s = Ok k s'
    /\ finv s' G'
    /\ Forall (pwf (fun a => FibHeap.p (FibHeap.mem s' a)) None) G'
    /\ map root G' ≡ₚ FibHeap.roots s'
    /\ NoDup (map (fun r => FibHeap.degree (FibHeap.mem s' r)) (FibHeap.roots s'))
    /\ Forall (fun t => FibHeap.degree (FibHeap.mem s' (root t))
                        = Z.of_nat (length (kids t))) G'.
Proof.
  intros Hinv Hpw Hne Hfuel.
  destruct (wp_ok _ _ _ (fh_pop_spec_p fuel s G Hinv Hpw Hne Hfuel))
    as (k & s' & E & G' & RL' & z & Hinv' & Hpw' & _ & _ & _ & _ & _ & _ & Hpre & Hdeg).
  exists k, s', G'. split; [exact E|]. split; [exact Hinv'|]. split; [exact Hpw'|].
  rewrite (roots_fpre s' G' RL' Hpre (finv_length s' G' Hinv')).
  split; [apply Hpre|]. split; [exact Hdeg|].
  destruct Hpre as (_ & _ & _ & _ & Hwf & _).
  eapply Forall_impl; [exact Hwf|]. intros t Ht. apply fwf_degree, Ht.
Qed.

Lemma fib_marked_parent_finv : finv fib_marked_parent fib_marked_parent_trees.
Proof.
  exists [6; 1]%nat. unfold fpre, fib_marked_parent_trees.
  split; [split; [|split; [|split; [|split; [|split]]]]|split; [|split; [|split]]].
  - vm_compute. repeat constructor; set_solver.
  - reflexivity.
  - repeat split.
  - reflexivity.
  - repeat first [ split | constructor ].
  - repeat first [ split | constructor ]; vm_compute; discriminate.
  - intros a b Ha Hb. vm_compute in Ha. injection Ha as <-.
    repeat (apply elem_of_cons in Hb as [->|Hb]); try (vm_compute; discriminate).
    inversion Hb.
  - intros a Ha. vm_compute in Ha.
    repeat (apply elem_of_cons in Ha as [->|Ha]); try (vm_compute; lia).
    inversion Ha.
  - reflexivity.
  - vm_compute. reflexivity.
Qed.

Lemma fibheap_pop_roots_distinct_degrees_witness :
  exists k s' G',
    FibHeap.pop 16 fib_marked_parent = Ok k s'
    /\ finv s' G'
    /\ Forall (pwf (fun a => FibHeap.p (FibHeap.mem s' a)) None) G'
    /\ map root G' ≡ₚ FibHeap.roots s'
    /\ NoDup (map (fun r => FibHeap.degree (FibHeap.mem s' r)) (FibHeap.roots s'))
    /\ Forall (fun t => FibHeap.degree (FibHeap.mem s' (root t))
                        = Z.of_nat (length (kids t))) G'.
Proof.
  apply (fibheap_pop_roots_distinct_degrees fib_marked_parent fib_marked_parent_trees 16).
  - exact fib_marked_parent_finv.
  - repeat first [ split | constructor ].
  - discriminate.
  - vm_compute. lia.
Defined.

Lemma fibheap_calls_with_decrease_key_witness :
  pqd "Pop from empty FibHeap" "FibHeap key can't be increased"
    [DInsert 5; DInsert 3; DInsert 8; DInsert 6; DPop; DDecreaseKey 2 1; DGetMin;
     DGetKey 2; DSize; DPop; DPop; DPop] []
    (observe (fun _ => tt)
       (FibHeap.run_dk 8
          [DInsert 5; DInsert 3; DInsert 8; DInsert 6; DPop; DDecreaseKey 2 1;
           DGetMin; DGetKey 2; DSize; DPop; DPop; DPop] [] FibHeap.init)).
Proof.
  apply (fibheap_calls_with_decrease_key
           [DInsert 5; DInsert 3; DInsert 8; DInsert 6; DPop; DDecreaseKey 2 1;
            DGetMin; DGetKey 2; DSize; DPop; DPop; DPop] 8); [cbn; lia|reflexivity].
Defined.
